(** * makecode-chess: the rules engine and the search of [main.ts]

    A shallow embedding of the chess engine (the last, most complete variant in
    [main.ts]: board model, attack oracle, move legality, move executor with
    undo, status evaluator, static evaluation and the alpha-beta search), and
    the properties of its specification stated and settled on that embedding.

    Modelling conventions.
    - A [Piece] object is modelled by its value: [type], [color], [hasMoved].
      Its [sprite] and every other drawing effect (messages, highlights, the
      status bar) are left out: no rule reads them.
    - The board is the array of arrays of the source, a list of rows of
      optional pieces.  Coordinates are integers ([Z]), as the source computes
      with [fromRow + direction], [toCol - fromCol] and the like.  Reading a
      column outside a row gives [undefined], which the source only compares
      with [null]; [getCell] gives [None] there.  All squares handed to the
      engine by its callers are on the board.
    - The source passes the board around through the global [board], swapped
      temporarily for simulated boards; here every function takes the board
      (and the global en-passant target) it reads as an argument.
    - [number] is an IEEE-754 double.  Quantities that are small integers in
      every run (coordinates, piece values, captured-material scores) are [Z];
      the evaluation score, which adds tenths, is a primitive [float].
    - A function of the source that may fail to return is modelled with
      result type [option]: [None] means that the call does not return. *)

From Stdlib Require Import ZArith List Bool Lia Floats Uint63 Permutation Sorted.
From stdpp Require Import base list.
Import ListNotations.
Open Scope Z_scope.

(** ** Constants, enumerations and pieces *)

Definition BOARD_SIZE : Z := 8.

Inductive PieceType := Pawn | Rook | Knight | Bishop | Queen | King.
Inductive PieceColor := White | Black.
Inductive GameState := MainMenu | Playing | GameOver.

#[global] Instance PieceType_eq_dec : EqDecision PieceType.
Proof. solve_decision. Defined.
#[global] Instance PieceColor_eq_dec : EqDecision PieceColor.
Proof. solve_decision. Defined.
#[global] Instance GameState_eq_dec : EqDecision GameState.
Proof. solve_decision. Defined.

Record Piece := mkPiece { type : PieceType; color : PieceColor; hasMoved : bool }.

#[global] Instance Piece_eq_dec : EqDecision Piece.
Proof. solve_decision. Defined.

(** [(color == PieceColor.White) ? PieceColor.Black : PieceColor.White] *)
Definition enemyOf (c : PieceColor) : PieceColor :=
  if bool_decide (c = White) then Black else White.

(** [piece.color == PieceColor.White ? -1 : 1] *)
Definition directionOf (c : PieceColor) : Z :=
  if bool_decide (c = White) then -1 else 1.

(** ** The board *)

Abbreviation Board := (list (list (option Piece))).

(** Row and column indices in loop order. *)
Definition indices : list Z := [0; 1; 2; 3; 4; 5; 6; 7].

(** The squares in the order of the nested loops
    [for r < BOARD_SIZE, for c < BOARD_SIZE]. *)
Definition squares : list (Z * Z) :=
  flat_map (fun r => map (fun c => (r, c)) indices) indices.

Definition onBoard (r c : Z) : Prop :=
  0 <= r < BOARD_SIZE /\ 0 <= c < BOARD_SIZE.

Definition onBoardb (r c : Z) : bool :=
  negb ((r <? 0) || (r >=? BOARD_SIZE) || (c <? 0) || (c >=? BOARD_SIZE)).

(** [b[r][c]], with [undefined] read as [null].  For a row outside the
    array the source reads a cell of [undefined] and throws; the result here
    is [None], and what is proved of a function that reads a cell holds of
    the source for the rows of the board (a column outside the row reads
    [undefined] in the source too). *)
Definition getCell (b : Board) (r c : Z) : option Piece :=
  if (r <? 0) || (c <? 0) then None
  else match b !! Z.to_nat r with
       | Some row => match row !! Z.to_nat c with
                     | Some cell => cell
                     | None => None
                     end
       | None => None
       end.

(** [b[r][c] = v], for a square inside the arrays. *)
Definition setCell (b : Board) (r c : Z) (v : option Piece) : Board :=
  if (r <? 0) || (c <? 0) then b
  else match b !! Z.to_nat r with
       | Some row => <[Z.to_nat r := <[Z.to_nat c := v]> row]> b
       | None => b
       end.

(** Eight rows of eight cells, as [initBoard] and [cloneBoard] build them. *)
Definition wfBoard (b : Board) : Prop :=
  length b = 8%nat /\ Forall (fun row => length row = 8%nat) b.

Definition isSomeb {A} (o : option A) : bool :=
  match o with Some _ => true | None => false end.

Definition cloneBoard (b : Board) : Board :=
  map (fun row =>
         map (fun col =>
                match getCell b row col with
                | Some p => Some (mkPiece (type p) (color p) (hasMoved p))
                | None => None
                end) indices) indices.

(** ** Calls that may not return *)

(** [existsM f l]: the loop [for (x of l) if (f x) return true; return false],
    where a call [f x] that does not return keeps the loop from returning. *)
Fixpoint existsM {A} (f : A -> option bool) (l : list A) : option bool :=
  match l with
  | [] => Some false
  | x :: rest =>
      match f x with
      | None => None
      | Some true => Some true
      | Some false => existsM f rest
      end
  end.

(** ** Piece movement patterns *)

(** The loop [for (c = start; c != stop; c += step) if (occupied c) return false;]
    followed by [return true].  [fuel] bounds the number of tests of
    [c != stop]; [None] when it runs out. *)
Fixpoint scanLine (fuel : nat) (occupied : Z -> bool) (c step stop : Z)
  : option bool :=
  match fuel with
  | O => None
  | S f =>
      if c =? stop then Some true
      else if occupied c then Some false
      else scanLine f occupied (c + step) step stop
  end.

(** Enough tests for every run of the loop that ends: the loop variable either
    walks from [start] to [stop], or walks away from [stop] and then ends only
    on an occupied cell, of which there is none at a negative index. *)
Definition lineFuel (start stop : Z) : nat :=
  Z.to_nat (Z.abs (stop - start) + Z.abs start + 1).

Definition isLegalRookMove (b : Board) (fromRow fromCol toRow toCol : Z)
  : option bool :=
  if negb (fromRow =? toRow) && negb (fromCol =? toCol) then Some false
  else if fromRow =? toRow then
    let step := if toCol >? fromCol then 1 else -1 in
    scanLine (lineFuel fromCol toCol)
             (fun c => isSomeb (getCell b fromRow c)) (fromCol + step) step toCol
  else
    let step := if toRow >? fromRow then 1 else -1 in
    scanLine (lineFuel fromRow toRow)
             (fun r => isSomeb (getCell b r fromCol)) (fromRow + step) step toRow.

Definition isLegalKnightMove (fromRow fromCol toRow toCol : Z) : bool :=
  let dr := Z.abs (toRow - fromRow) in
  let dc := Z.abs (toCol - fromCol) in
  ((dr =? 2) && (dc =? 1)) || ((dr =? 1) && (dc =? 2)).

(** The loop of [isLegalBishopMove]: [while (r != toRow)] with the bounds test
    and the occupancy test inside. *)
Fixpoint scanDiag (fuel : nat) (b : Board) (r c stepRow stepCol toRow : Z)
  : option bool :=
  match fuel with
  | O => None
  | S f =>
      if r =? toRow then Some true
      else if (r <? 0) || (r >=? BOARD_SIZE) || (c <? 0) || (c >=? BOARD_SIZE)
           then Some false
      else if isSomeb (getCell b r c) then Some false
      else scanDiag f b (r + stepRow) (c + stepCol) stepRow stepCol toRow
  end.

(** The row leaves the board after at most eight steps, so nine tests of
    [r != toRow] are enough (see [isLegalBishopMove_returns]). *)
Definition isLegalBishopMove (b : Board) (fromRow fromCol toRow toCol : Z)
  : option bool :=
  if negb (Z.abs (toRow - fromRow) =? Z.abs (toCol - fromCol)) then Some false
  else
    let stepRow := if toRow >? fromRow then 1 else -1 in
    let stepCol := if toCol >? fromCol then 1 else -1 in
    scanDiag 9 b (fromRow + stepRow) (fromCol + stepCol) stepRow stepCol toRow.

(** [isLegalRookMove(..) || isLegalBishopMove(..)], left to right. *)
Definition isLegalQueenMove (b : Board) (fromRow fromCol toRow toCol : Z)
  : option bool :=
  match isLegalRookMove b fromRow fromCol toRow toCol with
  | None => None
  | Some true => Some true
  | Some false => isLegalBishopMove b fromRow fromCol toRow toCol
  end.

Definition isLegalKingMove (fromRow fromCol toRow toCol : Z) : bool :=
  let dr := Z.abs (toRow - fromRow) in
  let dc := Z.abs (toCol - fromCol) in
  (dr <=? 1) && (dc <=? 1).

Definition isLegalPawnMove (b : Board) (fromRow fromCol toRow toCol : Z)
  (piece : Piece) : bool :=
  let direction := directionOf (color piece) in
  if (toCol =? fromCol) && (toRow =? fromRow + direction)
     && negb (isSomeb (getCell b toRow toCol)) then true
  else if (toCol =? fromCol) && negb (hasMoved piece)
          && (toRow =? fromRow + 2 * direction)
          && negb (isSomeb (getCell b (fromRow + direction) fromCol))
          && negb (isSomeb (getCell b toRow toCol)) then true
  else if (Z.abs (toCol - fromCol) =? 1) && (toRow =? fromRow + direction) then
    match getCell b toRow toCol with
    | Some dest => negb (bool_decide (color dest = color piece))
    | None => false
    end
  else false.

(** ** Attack and check oracle *)

Definition canPieceAttack (fromRow fromCol toRow toCol : Z) (piece : Piece)
  (b : Board) : option bool :=
  match type piece with
  | Pawn =>
      let direction := directionOf (color piece) in
      Some ((Z.abs (toCol - fromCol) =? 1) && (toRow =? fromRow + direction))
  | Rook => isLegalRookMove b fromRow fromCol toRow toCol
  | Knight => Some (isLegalKnightMove fromRow fromCol toRow toCol)
  | Bishop => isLegalBishopMove b fromRow fromCol toRow toCol
  | Queen => isLegalQueenMove b fromRow fromCol toRow toCol
  | King =>
      Some ((Z.abs (toRow - fromRow) <=? 1) && (Z.abs (toCol - fromCol) <=? 1))
  end.

(** The body of the two loops of [isSquareAttacked] at square [(r, c)]. *)
Definition attacksFrom (row col : Z) (byColor : PieceColor) (b : Board)
  (rc : Z * Z) : option bool :=
  let '(r, c) := rc in
  match getCell b r c with
  | Some p =>
      if bool_decide (color p = byColor) then
        if bool_decide (type p = Pawn) then
          let direction := directionOf (color p) in
          Some ((row =? r + direction) && ((col =? c - 1) || (col =? c + 1)))
        else canPieceAttack r c row col p b
      else Some false
  | None => Some false
  end.

Definition isSquareAttacked (row col : Z) (byColor : PieceColor) (b : Board)
  : option bool :=
  existsM (attacksFrom row col byColor b) squares.

Definition isKingOf (c : PieceColor) (b : Board) (rc : Z * Z) : bool :=
  match getCell b rc.1 rc.2 with
  | Some p => bool_decide (color p = c) && bool_decide (type p = King)
  | None => false
  end.

Definition findKing (c : PieceColor) (b : Board) : option (Z * Z) :=
  find (isKingOf c b) squares.

Definition isKingInCheck (c : PieceColor) (b : Board) : option bool :=
  match findKing c b with
  | None => Some true
  | Some kingPos => isSquareAttacked kingPos.1 kingPos.2 (enemyOf c) b
  end.

(** ** Move legality *)

(** The columns of [for (c = lo; c <= hi; c++)]. *)
Definition columnsFromTo (lo hi : Z) : list Z :=
  map (fun i => lo + Z.of_nat i) (seq 0 (Z.to_nat (hi + 1 - lo))).

(** [enPassantTarget && enPassantTarget.row == toRow && enPassantTarget.col == toCol] *)
Definition isEnPassantTarget (enPassantTarget : option (Z * Z)) (toRow toCol : Z)
  : bool :=
  match enPassantTarget with
  | Some (row, col) => (row =? toRow) && (col =? toCol)
  | None => false
  end.

(** The castling branch of [isLegalMoveBasic] (a king moving two columns
    along its row). *)
Definition isLegalCastling (b : Board) (fromRow fromCol toRow toCol : Z)
  (piece : Piece) : option bool :=
  inCheck ← isKingInCheck (color piece) b;
  if inCheck : bool then Some false else
  let enemyColor := enemyOf (color piece) in
  let step := if toCol >? fromCol then 1 else -1 in
  passAttacked ← isSquareAttacked fromRow (fromCol + step) enemyColor b;
  if passAttacked : bool then Some false else
  destAttacked ← isSquareAttacked toRow toCol enemyColor b;
  if destAttacked : bool then Some false else
  if toCol >? fromCol then
    if existsb (fun c => isSomeb (getCell b fromRow c))
               (columnsFromTo (fromCol + 1) toCol) then Some false
    else match getCell b fromRow (BOARD_SIZE - 1) with
         | None => Some false
         | Some rook => Some (negb (hasMoved rook))
         end
  else
    if existsb (fun c => isSomeb (getCell b fromRow c))
               (columnsFromTo toCol (fromCol - 1)) then Some false
    else match getCell b fromRow 0 with
         | None => Some false
         | Some rook => Some (negb (hasMoved rook))
         end.

Definition isLegalMoveBasic (b : Board) (enPassantTarget : option (Z * Z))
  (fromRow fromCol toRow toCol : Z) (piece : Piece) : option bool :=
  if bool_decide (type piece = Pawn) && (Z.abs (toCol - fromCol) =? 1)
     && (toRow =? fromRow + directionOf (color piece))
     && negb (isSomeb (getCell b toRow toCol))
     && isEnPassantTarget enPassantTarget toRow toCol
  then Some true
  else
    match type piece with
    | Pawn => Some (isLegalPawnMove b fromRow fromCol toRow toCol piece)
    | Rook => isLegalRookMove b fromRow fromCol toRow toCol
    | Knight => Some (isLegalKnightMove fromRow fromCol toRow toCol)
    | Bishop => isLegalBishopMove b fromRow fromCol toRow toCol
    | Queen => isLegalQueenMove b fromRow fromCol toRow toCol
    | King =>
        if (Z.abs (toCol - fromCol) =? 2) && (toRow =? fromRow)
        then isLegalCastling b fromRow fromCol toRow toCol piece
        else Some (isLegalKingMove fromRow fromCol toRow toCol)
    end.

(** The candidate move carried out on the clone, as [isLegalMoveSimulated]
    does between cloning the board and testing for check: the en-passant
    victim or the destination is cleared, the piece is moved, and for a king
    moving two columns the corner piece is put beside it. *)
Definition simulatedBoard (simBoard : Board) (simPiece : Piece)
  (fromRow fromCol toRow toCol : Z) : Board :=
  let sim1 :=
    if bool_decide (type simPiece = Pawn) && (Z.abs (toCol - fromCol) =? 1)
       && negb (isSomeb (getCell simBoard toRow toCol))
    then setCell simBoard fromRow toCol None
    else setCell simBoard toRow toCol None in
  let sim2 := setCell sim1 toRow toCol (Some simPiece) in
  let sim3 := setCell sim2 fromRow fromCol None in
  if bool_decide (type simPiece = King) && (Z.abs (toCol - fromCol) =? 2) then
    if toCol >? fromCol then
      let rook := getCell sim3 fromRow (BOARD_SIZE - 1) in
      setCell (setCell sim3 fromRow (fromCol + 1) rook) fromRow (BOARD_SIZE - 1) None
    else
      let rook := getCell sim3 fromRow 0 in
      setCell (setCell sim3 fromRow (fromCol - 1) rook) fromRow 0 None
  else sim3.

Definition isLegalMoveSimulated (b : Board) (enPassantTarget : option (Z * Z))
  (fromRow fromCol toRow toCol : Z) : option bool :=
  match getCell b fromRow fromCol with
  | None => Some false
  | Some piece =>
      basic ← isLegalMoveBasic b enPassantTarget fromRow fromCol toRow toCol piece;
      if negb basic then Some false else
      let simBoard := cloneBoard b in
      match getCell simBoard fromRow fromCol with
      | None => Some false
      | Some simPiece =>
          inCheck ← isKingInCheck (color piece)
                     (simulatedBoard simBoard simPiece fromRow fromCol toRow toCol);
          Some (negb inCheck)
      end
  end.

Definition isLegalMove (b : Board) (enPassantTarget : option (Z * Z))
  (fromRow fromCol toRow toCol : Z) : option bool :=
  match getCell b fromRow fromCol with
  | None => Some false
  | Some piece =>
      if (toRow <? 0) || (toRow >=? BOARD_SIZE) || (toCol <? 0) || (toCol >=? BOARD_SIZE)
      then Some false
      else
        match getCell b toRow toCol with
        | Some dest =>
            if bool_decide (color dest = color piece) then Some false
            else isLegalMoveSimulated b enPassantTarget fromRow fromCol toRow toCol
        | None => isLegalMoveSimulated b enPassantTarget fromRow fromCol toRow toCol
        end
  end.

(** ** Game state, move records *)

Record CapturedInfo := mkCaptured {
  capType : PieceType;
  capColor : PieceColor;
  capHasMoved : bool;
  capRow : Z;
  capCol : Z
}.

(** [rook] is kept by reference in the source; the record holds the value
    the piece had when it was relocated.  [undoLastMove] overwrites its
    [hasMoved]; its colour never changes; its type changes only when the
    piece in the corner was a pawn that was promoted afterwards, and then
    the source puts back a queen where this record gives a pawn.  A move
    followed by its undo is not concerned. *)
Record CastlingInfo := mkCastling {
  rookFrom : Z;
  rookTo : Z;
  rook : Piece;
  rookOldHasMoved : bool
}.

Record MoveRecord := mkMoveRecord {
  recFromRow : Z;
  recFromCol : Z;
  recToRow : Z;
  recToCol : Z;
  oldType : PieceType;
  oldHasMoved : bool;
  captured : option CapturedInfo;
  castling : option CastlingInfo;
  oldEnPassantTarget : option (Z * Z)
}.

(** The globals the engine reads and writes ([moveHistory] grows at its head
    here, so [push]/[pop] of the source are cons and tail). *)
Record Game := mkGame {
  board : Board;
  enPassantTarget : option (Z * Z);
  currentTurn : PieceColor;
  whiteScore : Z;
  blackScore : Z;
  moveHistory : list MoveRecord;
  gameOver : bool;
  gameState : GameState
}.

Definition pieceValue (piece : Piece) : Z :=
  match type piece with
  | Pawn => 1
  | Knight => 3
  | Bishop => 3
  | Rook => 5
  | Queen => 9
  | King => 20
  end.

(** ** Game status *)

Definition hasAnyLegalMove (b : Board) (enPassantTarget : option (Z * Z))
  (c : PieceColor) : option bool :=
  existsM (fun from : Z * Z =>
             match getCell b from.1 from.2 with
             | Some p =>
                 if bool_decide (color p = c) then
                   existsM (fun to : Z * Z =>
                              isLegalMove b enPassantTarget from.1 from.2 to.1 to.2)
                           squares
                 else Some false
             | None => Some false
             end) squares.

Definition updateGameStatus (g : Game) : option Game :=
  if gameOver g then Some g else
  inCheck ← isKingInCheck (currentTurn g) (board g);
  anyMove ← hasAnyLegalMove (board g) (enPassantTarget g) (currentTurn g);
  if negb anyMove then
    Some (mkGame (board g) (enPassantTarget g) (currentTurn g) (whiteScore g)
                 (blackScore g) (moveHistory g) true GameOver)
  else Some g.

(** ** Move executor *)

(** The en-passant step of [movePiece]: the board after it and the capture it
    records. *)
Definition enPassantCapture (b : Board) (enPassantTarget : option (Z * Z))
  (fromRow fromCol toRow toCol : Z) (piece : Piece)
  : Board * option CapturedInfo :=
  if bool_decide (type piece = Pawn) && (Z.abs (toCol - fromCol) =? 1)
     && negb (isSomeb (getCell b toRow toCol))
     && isEnPassantTarget enPassantTarget toRow toCol
  then match getCell b fromRow toCol with
       | Some cap =>
           (setCell b fromRow toCol None,
            Some (mkCaptured (type cap) (color cap) (hasMoved cap) fromRow toCol))
       | None => (b, None)
       end
  else (b, None).

(** The castling step of [movePiece]: a king moving two columns takes the
    piece in the corner of its row, if there is one, to the square beside it. *)
Definition castlingRelocation (b : Board) (fromRow fromCol toCol : Z)
  (piece : Piece) : Board * option CastlingInfo :=
  if bool_decide (type piece = King) && (Z.abs (toCol - fromCol) =? 2) then
    if toCol >? fromCol then
      match getCell b fromRow (BOARD_SIZE - 1) with
      | Some rook =>
          (setCell (setCell b fromRow (BOARD_SIZE - 1) None)
                   fromRow (fromCol + 1) (Some rook),
           Some (mkCastling (BOARD_SIZE - 1) (fromCol + 1) rook (hasMoved rook)))
      | None => (b, None)
      end
    else
      match getCell b fromRow 0 with
      | Some rook =>
          (setCell (setCell b fromRow 0 None) fromRow (fromCol - 1) (Some rook),
           Some (mkCastling 0 (fromCol - 1) rook (hasMoved rook)))
      | None => (b, None)
      end
  else (b, None).

(** The type of the moved piece after the promotion step. *)
Definition promotedType (piece : Piece) (toRow : Z) : PieceType :=
  if bool_decide (type piece = Pawn)
     && ((bool_decide (color piece = White) && (toRow =? 0))
         || (bool_decide (color piece = Black) && (toRow =? BOARD_SIZE - 1)))
  then Queen else type piece.

(** [movePiece] up to, and without, its final call of [updateGameStatus].
    The piece object is stored on its new square and then changed
    ([hasMoved = true], promotion); the cell shows the changed piece. *)
Definition movePieceCore (g : Game) (fromRow fromCol toRow toCol : Z)
  (piece : Piece) : Game :=
  let '(b1, epCaptured) :=
    enPassantCapture (board g) (enPassantTarget g) fromRow fromCol toRow toCol piece in
  let destPiece := getCell b1 toRow toCol in
  let captured :=
    match destPiece with
    | Some d => Some (mkCaptured (type d) (color d) (hasMoved d) toRow toCol)
    | None => epCaptured
    end in
  let capturedValue :=
    match destPiece with Some d => pieceValue d | None => 0 end in
  let whiteScore' :=
    if bool_decide (color piece = White) then whiteScore g + capturedValue
    else whiteScore g in
  let blackScore' :=
    if bool_decide (color piece = White) then blackScore g
    else blackScore g + capturedValue in
  let '(b2, castling) := castlingRelocation b1 fromRow fromCol toCol piece in
  let moveRecord :=
    mkMoveRecord fromRow fromCol toRow toCol (type piece) (hasMoved piece)
                 captured castling (enPassantTarget g) in
  let newType := promotedType piece toRow in
  let moved := mkPiece newType (color piece) true in
  let b3 := setCell (setCell b2 toRow toCol (Some moved)) fromRow fromCol None in
  let enPassantTarget' :=
    if bool_decide (newType = Pawn) && (Z.abs (toRow - fromRow) =? 2)
    then Some (fromRow + (toRow - fromRow) / 2, fromCol)
    else None in
  mkGame b3 enPassantTarget' (currentTurn g) whiteScore' blackScore'
         (moveRecord :: moveHistory g) (gameOver g) (gameState g).

Definition movePiece (g : Game) (fromRow fromCol toRow toCol : Z) : option Game :=
  match getCell (board g) fromRow fromCol with
  | None => Some g
  | Some piece => updateGameStatus (movePieceCore g fromRow fromCol toRow toCol piece)
  end.

(** [currentTurn = (currentTurn == White) ? Black : White], the statement that
    follows [movePiece] in the input handler. *)
Definition flipTurn (g : Game) : Game :=
  mkGame (board g) (enPassantTarget g) (enemyOf (currentTurn g)) (whiteScore g)
         (blackScore g) (moveHistory g) (gameOver g) (gameState g).

(** Applying a move: [movePiece] and the turn flip that follows it. *)
Definition applyMove (g : Game) (fromRow fromCol toRow toCol : Z) : option Game :=
  g' ← movePiece g fromRow fromCol toRow toCol;
  Some (flipTurn g').

(** ** Undo *)

Definition undoLastMove (g : Game) : Game :=
  if bool_decide (gameState g = MainMenu) || bool_decide (gameState g = GameOver)
  then g
  else
    match moveHistory g with
    | [] => g
    | move :: history =>
        let b0 := board g in
        let b1 :=
          match getCell b0 (recToRow move) (recToCol move) with
          | Some movedPiece =>
              setCell
                (setCell b0 (recFromRow move) (recFromCol move)
                   (Some (mkPiece (oldType move) (color movedPiece) (oldHasMoved move))))
                (recToRow move) (recToCol move) None
          | None => b0
          end in
        let b2 :=
          match captured move with
          | Some cap =>
              setCell b1 (capRow cap) (capCol cap)
                      (Some (mkPiece (capType cap) (capColor cap) (capHasMoved cap)))
          | None => b1
          end in
        let capturedValue :=
          match captured move with
          | Some cap => pieceValue (mkPiece (capType cap) (capColor cap) (capHasMoved cap))
          | None => 0
          end in
        let isWhiteCaptured :=
          match captured move with
          | Some cap => bool_decide (capColor cap = White)
          | None => false
          end in
        let whiteScore' :=
          match captured move with
          | Some _ => if isWhiteCaptured then whiteScore g else whiteScore g - capturedValue
          | None => whiteScore g
          end in
        let blackScore' :=
          match captured move with
          | Some _ => if isWhiteCaptured then blackScore g - capturedValue else blackScore g
          | None => blackScore g
          end in
        let b3 :=
          match castling move with
          | Some cast =>
              setCell
                (setCell b2 (recFromRow move) (rookFrom cast)
                   (Some (mkPiece (type (rook cast)) (color (rook cast))
                                  (rookOldHasMoved cast))))
                (recFromRow move) (rookTo cast) None
          | None => b2
          end in
        mkGame b3 (oldEnPassantTarget move) (enemyOf (currentTurn g))
               whiteScore' blackScore' history (gameOver g) (gameState g)
    end.

(** ** The initial position *)

Definition createPiece (t : PieceType) (c : PieceColor) : Piece := mkPiece t c false.

Definition backRank (c : PieceColor) : list (option Piece) :=
  map (fun t => Some (createPiece t c))
      [Rook; Knight; Bishop; Queen; King; Bishop; Knight; Rook].

Definition pawnRank (c : PieceColor) : list (option Piece) :=
  map (fun _ => Some (createPiece Pawn c)) indices.

Definition emptyRank : list (option Piece) := map (fun _ => None) indices.

(** The board [initBoard] builds: Black on rows 0 and 1, White on rows 6 and 7. *)
Definition initBoard : Board :=
  [backRank Black; pawnRank Black; emptyRank; emptyRank;
   emptyRank; emptyRank; pawnRank White; backRank White].

Definition emptyBoard : Board := map (fun _ => emptyRank) indices.

(** A board given by the pieces on it. *)
Definition placePieces (l : list (Z * Z * Piece)) : Board :=
  fold_left (fun b x => setCell b x.1.1 x.1.2 (Some x.2)) l emptyBoard.

(** The globals when a game starts. *)
Definition newGame (b : Board) : Game :=
  mkGame b None White 0 0 [] false Playing.

(** ** Static evaluation *)

Definition pawnTable : list (list Z) :=
  [ [  0;  0;  0;  0;  0;  0;  0;  0 ];
    [  5;  5;  5;  5;  5;  5;  5;  5 ];
    [  1;  1;  2;  3;  3;  2;  1;  1 ];
    [  0;  0;  0; 10; 10;  0;  0;  0 ];
    [  0;  0;  0; -5; -5;  0;  0;  0 ];
    [  1; -1; -2;  0;  0; -2; -1;  1 ];
    [  1;  2;  2; -2; -2;  2;  2;  1 ];
    [  0;  0;  0;  0;  0;  0;  0;  0 ] ].

Definition knightTable : list (list Z) :=
  [ [ -5; -4; -3; -3; -3; -3; -4; -5 ];
    [ -4; -2;  0;  0;  0;  0; -2; -4 ];
    [ -3;  0;  1;  1;  1;  1;  0; -3 ];
    [ -3;  0;  1;  2;  2;  1;  0; -3 ];
    [ -3;  0;  1;  2;  2;  1;  0; -3 ];
    [ -3;  0;  1;  1;  1;  1;  0; -3 ];
    [ -4; -2;  0;  0;  0;  0; -2; -4 ];
    [ -5; -4; -3; -3; -3; -3; -4; -5 ] ].

Definition bishopTable : list (list Z) :=
  [ [ -2; -1; -1; -1; -1; -1; -1; -2 ];
    [ -1;  0;  0;  0;  0;  0;  0; -1 ];
    [ -1;  0;  1;  1;  1;  1;  0; -1 ];
    [ -1;  0;  1;  2;  2;  1;  0; -1 ];
    [ -1;  0;  1;  2;  2;  1;  0; -1 ];
    [ -1;  0;  1;  1;  1;  1;  0; -1 ];
    [ -1;  0;  0;  0;  0;  0;  0; -1 ];
    [ -2; -1; -1; -1; -1; -1; -1; -2 ] ].

Definition rookTable : list (list Z) :=
  [ [  0;  0;  0;  0;  0;  0;  0;  0 ];
    [  0;  0;  0;  0;  0;  0;  0;  0 ];
    [  0;  0;  0;  0;  0;  0;  0;  0 ];
    [  0;  0;  0;  0;  0;  0;  0;  0 ];
    [  0;  0;  0;  0;  0;  0;  0;  0 ];
    [  0;  0;  0;  0;  0;  0;  0;  0 ];
    [  5;  5;  5;  5;  5;  5;  5;  5 ];
    [  0;  0;  0; 10; 10;  0;  0;  0 ] ].

Definition queenTable : list (list Z) :=
  [ [ -2; -1; -1;  0;  0; -1; -1; -2 ];
    [ -1;  0;  0;  0;  0;  0;  0; -1 ];
    [ -1;  0;  1;  1;  1;  1;  0; -1 ];
    [  0;  0;  1;  1;  1;  1;  0;  0 ];
    [  0;  0;  1;  1;  1;  1;  0;  0 ];
    [ -1;  0;  1;  1;  1;  1;  0; -1 ];
    [ -1;  0;  0;  0;  0;  0;  0; -1 ];
    [ -2; -1; -1;  0;  0; -1; -1; -2 ] ].

Definition kingTable : list (list Z) :=
  [ [ -3; -4; -4; -5; -5; -4; -4; -3 ];
    [ -3; -4; -4; -5; -5; -4; -4; -3 ];
    [ -3; -4; -4; -5; -5; -4; -4; -3 ];
    [ -3; -4; -4; -5; -5; -4; -4; -3 ];
    [ -2; -3; -3; -4; -4; -3; -3; -2 ];
    [ -1; -2; -2; -2; -2; -2; -2; -1 ];
    [  2;  2;  0;  0;  0;  0;  2;  2 ];
    [  2;  3;  1;  0;  0;  1;  3;  2 ] ].

(** [table[tableRow][tableCol]] for a square of the table. *)
Definition tableAt (table : list (list Z)) (tableRow tableCol : Z) : Z :=
  nth (Z.to_nat tableCol) (nth (Z.to_nat tableRow) table []) 0.

Definition getPieceSquareBonus (piece : Piece) (row col : Z) : Z :=
  let tableRow :=
    if bool_decide (color piece = Black) then row else BOARD_SIZE - 1 - row in
  let tableCol :=
    if bool_decide (color piece = Black) then col else BOARD_SIZE - 1 - col in
  match type piece with
  | Pawn => tableAt pawnTable tableRow tableCol
  | Knight => tableAt knightTable tableRow tableCol
  | Bishop => tableAt bishopTable tableRow tableCol
  | Rook => tableAt rookTable tableRow tableCol
  | Queen => tableAt queenTable tableRow tableCol
  | King => tableAt kingTable tableRow tableCol
  end.

(** An integer as a double (exact for the small integers of the engine). *)
Definition floatOfZ (z : Z) : float :=
  match z with
  | Z0 => PrimFloat.of_uint63 (Uint63.of_Z 0)
  | Zpos _ => PrimFloat.of_uint63 (Uint63.of_Z z)
  | Zneg p => PrimFloat.opp (PrimFloat.of_uint63 (Uint63.of_Z (Zpos p)))
  end.

(** [base + posBonus] of the loop of [staticEvaluation], for the piece on
    [(r, c)]: [pieceValue(piece) + getPieceSquareBonus(piece, r, c) / 10]. *)
Definition pieceTerm (piece : Piece) (r c : Z) : float :=
  let base := floatOfZ (pieceValue piece) in
  let posBonus :=
    PrimFloat.div (floatOfZ (getPieceSquareBonus piece r c)) (floatOfZ 10) in
  PrimFloat.add base posBonus.

(** The variables the loop of [staticEvaluation] updates. *)
Record EvalAcc := mkEvalAcc {
  score : float;
  whiteBishops : Z;
  blackBishops : Z
}.

(** One iteration of the loop of [staticEvaluation], at square [rc]. *)
Definition evalSquare (b : Board) (acc : EvalAcc) (rc : Z * Z) : EvalAcc :=
  match getCell b rc.1 rc.2 with
  | Some piece =>
      if bool_decide (color piece = Black) then
        mkEvalAcc (PrimFloat.add (score acc) (pieceTerm piece rc.1 rc.2))
                  (whiteBishops acc)
                  (if bool_decide (type piece = Bishop)
                   then blackBishops acc + 1 else blackBishops acc)
      else
        mkEvalAcc (PrimFloat.sub (score acc) (pieceTerm piece rc.1 rc.2))
                  (if bool_decide (type piece = Bishop)
                   then whiteBishops acc + 1 else whiteBishops acc)
                  (blackBishops acc)
  | None => acc
  end.

Definition evalLoop (b : Board) : EvalAcc :=
  fold_left (evalSquare b) squares (mkEvalAcc (floatOfZ 0) 0 0).

Definition staticEvaluation (b : Board) : option float :=
  let acc := evalLoop b in
  let score1 :=
    if whiteBishops acc >=? 2 then PrimFloat.sub (score acc) 0.5%float else score acc in
  let score2 :=
    if blackBishops acc >=? 2 then PrimFloat.add score1 0.5%float else score1 in
  whiteInCheck ← isKingInCheck White b;
  let score3 :=
    if whiteInCheck : bool then PrimFloat.add score2 0.75%float else score2 in
  blackInCheck ← isKingInCheck Black b;
  Some (if blackInCheck : bool then PrimFloat.sub score3 0.75%float else score3).

(** ** Search *)

Record Move := mkMove { fromRow : Z; fromCol : Z; toRow : Z; toCol : Z }.

#[global] Instance Move_eq_dec : EqDecision Move.
Proof. solve_decision. Defined.

(** [filterM f l] keeps, in order, the elements on which [f] returns true. *)
Fixpoint filterM {A} (f : A -> option bool) (l : list A) : option (list A) :=
  match l with
  | [] => Some []
  | x :: rest =>
      keep ← f x;
      kept ← filterM f rest;
      Some (if keep : bool then x :: kept else kept)
  end.

(** The (from, to) pairs in the order the four loops of [getAllLegalMoves]
    test them. *)
Definition candidateMoves (b : Board) (c : PieceColor) : list Move :=
  flat_map (fun from : Z * Z =>
              match getCell b from.1 from.2 with
              | Some piece =>
                  if bool_decide (color piece = c)
                  then map (fun to : Z * Z => mkMove from.1 from.2 to.1 to.2) squares
                  else []
              | None => []
              end) squares.

(** [isLegalMoveForBoard] swaps the global board only: the en-passant target
    it reads is the one of the game. *)
Definition isLegalMoveForBoard (b : Board) (enPassantTarget : option (Z * Z))
  (fromRow fromCol toRow toCol : Z) : option bool :=
  isLegalMove b enPassantTarget fromRow fromCol toRow toCol.

Definition getAllLegalMoves (b : Board) (enPassantTarget : option (Z * Z))
  (c : PieceColor) : option (list Move) :=
  filterM (fun m => isLegalMoveForBoard b enPassantTarget
                      (fromRow m) (fromCol m) (toRow m) (toCol m))
          (candidateMoves b c).

Definition simulateMove (b : Board) (fromRow fromCol toRow toCol : Z) : Board :=
  match getCell b fromRow fromCol with
  | None => b
  | Some piece => setCell (setCell b toRow toCol (Some piece)) fromRow fromCol None
  end.

(** The value of the piece on the destination of a move, 0 when it is empty. *)
Definition targetValue (b : Board) (m : Move) : Z :=
  match getCell b (toRow m) (toCol m) with
  | Some p => pieceValue p
  | None => 0
  end.

(** The comparator given to [sort] by [minimax] and [quiesce]. *)
Definition compareMoves (b : Board) (maximizingPlayer : bool) (m1 m2 : Move) : Z :=
  if maximizingPlayer then targetValue b m2 - targetValue b m1
  else targetValue b m1 - targetValue b m2.

(** [Math.max] and [Math.min] on doubles. *)
Definition Math_max (x y : float) : float :=
  if PrimFloat.is_nan x || PrimFloat.is_nan y then PrimFloat.nan
  else if PrimFloat.ltb x y then y
  else if PrimFloat.ltb y x then x
  else if PrimFloat.is_zero x && PrimFloat.get_sign x then y
  else x.

Definition Math_min (x y : float) : float :=
  if PrimFloat.is_nan x || PrimFloat.is_nan y then PrimFloat.nan
  else if PrimFloat.ltb x y then x
  else if PrimFloat.ltb y x then y
  else if PrimFloat.is_zero x && PrimFloat.get_sign x then x
  else y.

(** An insertion sort, stable: one function [Array.prototype.sort] may be. *)
Fixpoint insertSorted (cmp : Move -> Move -> Z) (x : Move) (l : list Move)
  : list Move :=
  match l with
  | [] => [x]
  | y :: rest =>
      if cmp x y <=? 0 then x :: y :: rest else y :: insertSorted cmp x rest
  end.

Definition insertionSort (cmp : Move -> Move -> Z) (l : list Move) : list Move :=
  fold_right (insertSorted cmp) [] l.

Section Search.

(** [Array.prototype.sort] belongs to the runtime, not to the program: the
    search takes it as a parameter. *)
Variable arraySort : (Move -> Move -> Z) -> list Move -> list Move.

(** The en-passant target of the game, which the legality test reads
    during the whole search. *)
Variable enPassantTarget : option (Z * Z).

(** The loop over the capturing moves in [quiesce]; [recurse] is the
    recursive call on the board after the move. *)
Fixpoint quiesceLoop (recurse : Board -> float -> float -> option float)
  (b : Board) (moves : list Move) (alpha beta : float) (maximizingPlayer : bool)
  : option float :=
  match moves with
  | [] => Some (if maximizingPlayer then alpha else beta)
  | m :: rest =>
      let cloneB :=
        simulateMove (cloneBoard b) (fromRow m) (fromCol m) (toRow m) (toCol m) in
      score ← recurse cloneB alpha beta;
      if maximizingPlayer then
        if PrimFloat.ltb alpha score then
          if PrimFloat.leb beta score then Some score
          else quiesceLoop recurse b rest score beta maximizingPlayer
        else quiesceLoop recurse b rest alpha beta maximizingPlayer
      else
        if PrimFloat.ltb score beta then
          if PrimFloat.leb score alpha then Some score
          else quiesceLoop recurse b rest alpha score maximizingPlayer
        else quiesceLoop recurse b rest alpha beta maximizingPlayer
  end.

(** [quiesce]; [fuel] bounds the depth of the recursion, which every
    capture deepens by one. *)
Fixpoint quiesce (fuel : nat) (b : Board) (alpha beta : float)
  (maximizingPlayer : bool) : option float :=
  match fuel with
  | O => None
  | S fuel' =>
      standPat ← staticEvaluation b;
      let alpha1 :=
        if maximizingPlayer && PrimFloat.ltb alpha standPat then standPat else alpha in
      let beta1 :=
        if negb maximizingPlayer && PrimFloat.ltb standPat beta then standPat else beta in
      if PrimFloat.leb beta1 alpha1 then
        Some (if maximizingPlayer then alpha1 else beta1)
      else
        let c := if maximizingPlayer then Black else White in
        allMoves ← getAllLegalMoves b enPassantTarget c;
        let captures :=
          filter (fun m => isSomeb (getCell b (toRow m) (toCol m)) = true) allMoves in
        let moves := arraySort (compareMoves b maximizingPlayer) captures in
        quiesceLoop (fun cloneB a be => quiesce fuel' cloneB a be (negb maximizingPlayer))
                    b moves alpha1 beta1 maximizingPlayer
  end.

(** The moves of a node of [minimax], in the order they are searched. *)
Definition orderedMoves (b : Board) (maximizingPlayer : bool)
  : option (list Move) :=
  let c := if maximizingPlayer then Black else White in
  moves ← getAllLegalMoves b enPassantTarget c;
  Some (arraySort (compareMoves b maximizingPlayer) moves).

(** The loop over the moves in [minimax]: [best] is [maxEval] or [minEval],
    [bestMove] the move that gave it. *)
Fixpoint minimaxLoop
  (recurse : Board -> float -> float -> option (float * option Move))
  (b : Board) (moves : list Move) (alpha beta : float) (maximizingPlayer : bool)
  (best : float) (bestMove : option Move) : option (float * option Move) :=
  match moves with
  | [] => Some (best, bestMove)
  | m :: rest =>
      let cloneB :=
        simulateMove (cloneBoard b) (fromRow m) (fromCol m) (toRow m) (toCol m) in
      result ← recurse cloneB alpha beta;
      let evalScore := result.1 in
      if maximizingPlayer then
        let best' := if PrimFloat.ltb best evalScore then evalScore else best in
        let bestMove' := if PrimFloat.ltb best evalScore then Some m else bestMove in
        let alpha' := Math_max alpha evalScore in
        if PrimFloat.leb beta alpha' then Some (best', bestMove')
        else minimaxLoop recurse b rest alpha' beta maximizingPlayer best' bestMove'
      else
        let best' := if PrimFloat.ltb evalScore best then evalScore else best in
        let bestMove' := if PrimFloat.ltb evalScore best then Some m else bestMove in
        let beta' := Math_min beta evalScore in
        if PrimFloat.leb beta' alpha then Some (best', bestMove')
        else minimaxLoop recurse b rest alpha beta' maximizingPlayer best' bestMove'
  end.

(** [minimax]: the result is [(score, move)]; [fuel] is handed to [quiesce]. *)
Fixpoint minimax (fuel : nat) (b : Board) (depth : nat) (alpha beta : float)
  (maximizingPlayer : bool) : option (float * option Move) :=
  moves ← orderedMoves b maximizingPlayer;
  match depth, moves with
  | O, _ | _, [] =>
      qScore ← quiesce fuel b alpha beta maximizingPlayer;
      Some (qScore, None)
  | S depth', _ =>
      minimaxLoop (fun cloneB a be => minimax fuel cloneB depth' a be (negb maximizingPlayer))
                  b moves alpha beta maximizingPlayer
                  (if maximizingPlayer then (-100000)%float else 100000%float) None
  end.

(** The iterative deepening of [aiMove]: the move kept after the searches
    at depths [d, d+1, ..]. *)
Fixpoint deepen (fuel : nat) (b : Board) (d : nat) (iterations : nat)
  (bestSoFar : option Move) : option (option Move) :=
  match iterations with
  | O => Some bestSoFar
  | S n =>
      result ← minimax fuel b d (-100000)%float 100000%float true;
      deepen fuel b (S d) n
             (match result.2 with Some m => Some m | None => bestSoFar end)
  end.

(** The move [aiMove] plays with [aiSearchDepth = depth], if any. *)
Definition aiBestMove (fuel : nat) (b : Board) (aiSearchDepth : nat)
  : option (option Move) :=
  deepen fuel b 1%nat aiSearchDepth None.

End Search.

(** ** Valid positions *)

(** At most one king of each colour (the data model asks for exactly one). *)
Definition kingsUnique (b : Board) : Prop :=
  forall r1 c1 r2 c2 p1 p2,
    getCell b r1 c1 = Some p1 -> getCell b r2 c2 = Some p2 ->
    type p1 = King -> type p2 = King -> color p1 = color p2 ->
    (r1, c1) = (r2, c2).

(** Two cells that agree on the kind of piece they hold, whatever [hasMoved]. *)
Definition sameKind (o1 o2 : option Piece) : Prop :=
  match o1, o2 with
  | Some p1, Some p2 => type p1 = type p2 /\ color p1 = color p2
  | None, None => True
  | _, _ => False
  end.

(** Two boards that differ at most in [hasMoved] flags. *)
Definition boardsAlike (b1 b2 : Board) : Prop :=
  forall r c, sameKind (getCell b1 r c) (getCell b2 r c).

(** ** Playing from the input handler *)

(** The handler of button A with a piece selected on [(fromRow, fromCol)] and
    the cursor on [(toRow, toCol)]: the selection asks for a piece of the side
    to move, a legal move is carried out by [movePiece], the turn is flipped
    and the status updated. *)
Definition playMove (g : Game) (m : Move) : option Game :=
  if negb (bool_decide (gameState g = Playing)) || gameOver g then Some g
  else
    match getCell (board g) (fromRow m) (fromCol m) with
    | Some piece =>
        if negb (bool_decide (color piece = currentTurn g)) then Some g
        else if (fromRow m =? toRow m) && (fromCol m =? toCol m) then Some g
        else
          legal ← isLegalMove (board g) (enPassantTarget g)
                    (fromRow m) (fromCol m) (toRow m) (toCol m);
          if legal : bool then
            g' ← movePiece g (fromRow m) (fromCol m) (toRow m) (toCol m);
            updateGameStatus (flipTurn g')
          else Some g
    | None => Some g
    end.

Fixpoint playMoves (g : Game) (moves : list Move) : option Game :=
  match moves with
  | [] => Some g
  | m :: rest => g' ← playMove g m; playMoves g' rest
  end.

(** The position after 1.d4 a6 2.Bf4 a5 3.Qd3 a4: White's c1 and d1 are
    empty, the knight still stands on b1. *)
Definition queensideGame : option Game :=
  playMoves (newGame initBoard)
    [mkMove 6 3 4 3; mkMove 1 0 2 0; mkMove 7 2 4 5; mkMove 2 0 3 0;
     mkMove 7 3 5 3; mkMove 3 0 4 0].

(** The position after 1.e4 e5 2.Nf3 Nc6 3.Bc4 Bc5: White may castle short. *)
Definition kingsideGame : option Game :=
  playMoves (newGame initBoard)
    [mkMove 6 4 4 4; mkMove 1 4 3 4; mkMove 7 6 5 5; mkMove 0 1 2 2;
     mkMove 7 5 4 2; mkMove 0 5 3 2].



(** The move removes a piece by the en-passant step of [movePiece]. *)
Definition isEnPassantCapture (g : Game) (fromRow fromCol toRow toCol : Z) : bool :=
  match getCell (board g) fromRow fromCol with
  | Some piece =>
      isSomeb (snd (enPassantCapture (board g) (enPassantTarget g)
                      fromRow fromCol toRow toCol piece))
  | None => false
  end.

(** A pawn that has not moved stands on the row where [initBoard] put it
    (the executor sets [hasMoved] on every piece it moves). *)
Definition pawnsAtHome (b : Board) : Prop :=
  forall r c p,
    getCell b r c = Some p -> type p = Pawn -> hasMoved p = false ->
    r = (if bool_decide (color p = White) then 6 else 1).

(** Black to move: the knight on d6 can take the pawn on e4, which the pawn on
    f3 protects; no other black move captures. *)
Definition protectedPawnBoard : Board :=
  placePieces [ (0, 7, mkPiece King Black true);
                (2, 3, mkPiece Knight Black true);
                (4, 4, mkPiece Pawn White true);
                (5, 5, mkPiece Pawn White true);
                (7, 0, mkPiece King White true) ].

(** Boolean forms of the validity conditions, for concrete positions. *)
Definition wfBoardb (b : Board) : bool :=
  (length b =? 8)%nat && forallb (fun row : list (option Piece) => (length row =? 8)%nat) b.

Definition countKings (c : PieceColor) (b : Board) : nat :=
  length (List.filter (isKingOf c b) squares).

Definition kingsUniqueb (b : Board) : bool :=
  (countKings White b <=? 1)%nat && (countKings Black b <=? 1)%nat.

Definition pawnsAtHomeb (b : Board) : bool :=
  forallb (fun rc : Z * Z =>
             match getCell b rc.1 rc.2 with
             | Some p =>
                 if bool_decide (type p = Pawn) && negb (hasMoved p)
                 then rc.1 =? (if bool_decide (color p = White) then 6 else 1)
                 else true
             | None => true
             end) squares.

(** White king e1, white bishop e2, black rook e8: the bishop is pinned. *)
Definition pinnedBishopBoard : Board :=
  placePieces [ (0, 0, mkPiece King Black true);
                (0, 4, mkPiece Rook Black true);
                (6, 4, mkPiece Bishop White true);
                (7, 4, mkPiece King White false) ].

(** ** Colour swap and vertical mirror *)

Definition swapColor (p : Piece) : Piece :=
  mkPiece (type p) (enemyOf (color p)) (hasMoved p).

(** The board with every colour swapped and the rows in reverse order. *)
Definition mirrorBoard (b : Board) : Board :=
  map (fun r =>
         map (fun c => option_map swapColor (getCell b (BOARD_SIZE - 1 - r) c)) indices)
      indices.

Definition mirrorSquare (rc : Z * Z) : Z * Z := (BOARD_SIZE - 1 - rc.1, rc.2).

(** 1 when the square holds a bishop of the colour, else 0. *)
Definition bishopAt (c : PieceColor) (b : Board) (rc : Z * Z) : Z :=
  match getCell b rc.1 rc.2 with
  | Some p => if bool_decide (color p = c) && bool_decide (type p = Bishop) then 1 else 0
  | None => 0
  end.

Definition sumZ {A} (f : A -> Z) (l : list A) : Z :=
  fold_right (fun x acc => f x + acc) 0 l.

(** Kings on e8 and e1, a black knight on f6 and a black pawn on e3. *)
Definition roundingBoard : Board :=
  placePieces [ (0, 4, mkPiece King Black false);
                (2, 5, mkPiece Knight Black true);
                (5, 4, mkPiece Pawn Black true);
                (7, 4, mkPiece King White false) ].

(** Two black kings, on a8 and h1, and a white rook on a3 that attacks the
    first of them only. *)
Definition twoKingsBoard : Board :=
  placePieces [ (0, 0, mkPiece King Black true);
                (7, 7, mkPiece King Black true);
                (5, 0, mkPiece Rook White true);
                (4, 4, mkPiece King White true) ].

(** What the search needs of [Array.prototype.sort] with its comparator: the
    result is a rearrangement of the moves in which no move is followed by
    one the comparator puts strictly before it. *)
Definition sortsMoves (arraySort : (Move -> Move -> Z) -> list Move -> list Move)
  : Prop :=
  forall (b : Board) (maximizingPlayer : bool) (l : list Move),
    Permutation (arraySort (compareMoves b maximizingPlayer) l) l /\
    StronglySorted (fun m1 m2 => compareMoves b maximizingPlayer m1 m2 <= 0)
                   (arraySort (compareMoves b maximizingPlayer) l).

(** The move lands on an occupied square ([target != null] in [quiesce], a
    target of value above 0 in the comparator of the two sorts).  A capture
    en passant lands on an empty square and is not such a move. *)
Definition isCapture (b : Board) (m : Move) : bool :=
  isSomeb (getCell b (toRow m) (toCol m)).

(** The board of [kingsideGame], and the legal moves of Black on
    [protectedPawnBoard]. *)
Definition kingsideBoard : Board :=
  Eval vm_compute in
    match kingsideGame with Some g => board g | None => [] end.

Definition protectedPawnMoves : list Move :=
  Eval vm_compute in
    match getAllLegalMoves protectedPawnBoard None Black with
    | Some moves => moves
    | None => []
    end.

(** * The rest of the program *)

(** The squares strictly between two squares of a row, a column or a
    diagonal, in the direction of travel. *)
Definition between (fr fc tr tc r c : Z) : Prop :=
  exists i, 0 < i < Z.max (Z.abs (tr - fr)) (Z.abs (tc - fc)) /\
            r = fr + i * Z.sgn (tr - fr) /\ c = fc + i * Z.sgn (tc - fc).

(** The cell [(r, k)] after the piece [piece] has gone from [(fr, fc)] to
    [(tr, tc)] and stands there as [moved]: the origin is empty, the square
    beside a pawn that went aside onto an empty square is empty, a king that
    went two columns has taken the piece of the corner to the square it
    passed, every other cell is as it was. *)
Definition cellAfterMove (b : Board) (fr fc tr tc : Z) (piece moved : Piece)
  (r k : Z) : option Piece :=
  let corner := if tc >? fc then 7 else 0 in
  let beside := if tc >? fc then fc + 1 else fc - 1 in
  let castles := bool_decide (type piece = King) && (Z.abs (tc - fc) =? 2) in
  let takesBeside :=
    bool_decide (type piece = Pawn) && negb (tc =? fc)
    && negb (isSomeb (getCell b tr tc)) in
  if (r =? fr) && (k =? fc) then None
  else if (r =? tr) && (k =? tc) then Some moved
  else if takesBeside && (r =? fr) && (k =? tc) then None
  else if castles && (r =? fr) && (k =? corner) then None
  else if castles && (r =? fr) && (k =? beside) then getCell b fr corner
  else getCell b r k.

(** ** King safety *)

(** A king of colour [c] stands on the board. *)
Definition hasKing (c : PieceColor) (b : Board) : Prop :=
  exists r k p, getCell b r k = Some p /\ type p = King /\ color p = c.

(** The en-passant target, when there is one, is the square that a pawn of
    the side that has just moved stepped over: the pawn stands one row
    further, seen from the side to move. *)
Definition enPassantBehindPawn (g : Game) : Prop :=
  forall r k, enPassantTarget g = Some (r, k) ->
    exists p, getCell (board g) (r - directionOf (currentTurn g)) k = Some p /\
              type p = Pawn /\ color p = enemyOf (currentTurn g).

(** The side that has just moved is not in check, and the en-passant target
    is where it should be. *)
Definition kingsSafe (g : Game) : Prop :=
  isKingInCheck (enemyOf (currentTurn g)) (board g) = Some false /\
  hasKing (currentTurn g) (board g) /\
  enPassantBehindPawn g.

(** The number of pieces on the board. *)
Definition pieceCount (b : Board) : nat :=
  length (List.filter (fun sq : Z * Z => isSomeb (getCell b sq.1 sq.2)) squares).

(** ** Screen geometry *)

Definition SQUARE_SIZE : Z := 14.
Definition BOARD_OFFSET_X : Z := 24.
Definition BOARD_OFFSET_Y : Z := 4.

(** The table [initCellPositions] builds: the centre [(x, y)] of every cell. *)
Definition initCellPositions : list (list (Z * Z)) :=
  map (fun row =>
         map (fun col =>
                (BOARD_OFFSET_X + col * SQUARE_SIZE + SQUARE_SIZE / 2,
                 BOARD_OFFSET_Y + row * SQUARE_SIZE + SQUARE_SIZE / 2))
             indices)
      indices.

(** [cellPositions[row][col]] in the table, which the program fills once at
    start-up; [None] where the source reads outside the arrays. *)
Definition getCellPosition (row col : Z) : option (Z * Z) :=
  if (row <? 0) || (col <? 0) then None
  else match initCellPositions !! Z.to_nat row with
       | Some rowPos => rowPos !! Z.to_nat col
       | None => None
       end.

(** The colour [drawBoardBackground] fills a square with. *)
Definition colorFill (row col : Z) : Z :=
  if (row + col) mod 2 =? 0 then 11 else 12.

(** The rectangles [(x, y, width, height, colour)] that [drawBoardBackground]
    fills, in the order of its two loops. *)
Definition drawBoardBackground : list (Z * Z * Z * Z * Z) :=
  map (fun sq : Z * Z =>
         (BOARD_OFFSET_X + sq.2 * SQUARE_SIZE, BOARD_OFFSET_Y + sq.1 * SQUARE_SIZE,
          SQUARE_SIZE, SQUARE_SIZE, colorFill sq.1 sq.2))
      squares.

(** ** The path of the last move *)

(** The [while] loop of [highlightLastMove]: the squares pushed after the
    first one.  [fuel] bounds the number of tests of the loop condition. *)
Fixpoint pathLoop (fuel : nat) (currentRow currentCol stepRow stepCol toRow toCol : Z)
  : option (list (Z * Z)) :=
  match fuel with
  | O => None
  | S f =>
      if negb (currentRow =? toRow) || negb (currentCol =? toCol) then
        rest ← pathLoop f (currentRow + stepRow) (currentCol + stepCol)
                        stepRow stepCol toRow toCol;
        Some ((currentRow + stepRow, currentCol + stepCol) :: rest)
      else Some []
  end.

(** The squares [highlightLastMove] marks for a move: every square from the
    origin to the destination for a move along a row, a column or a diagonal,
    the two ends for any other move. *)
Definition lastMovePath (fuel : nat) (fromRow fromCol toRow toCol : Z)
  : option (list (Z * Z)) :=
  let dRow := toRow - fromRow in
  let dCol := toCol - fromCol in
  let stepRow := if dRow =? 0 then 0 else dRow / Z.abs dRow in
  let stepCol := if dCol =? 0 then 0 else dCol / Z.abs dCol in
  if (dRow =? 0) || (dCol =? 0) || (Z.abs dRow =? Z.abs dCol) then
    rest ← pathLoop fuel fromRow fromCol stepRow stepCol toRow toCol;
    Some ((fromRow, fromCol) :: rest)
  else Some [(fromRow, fromCol); (toRow, toCol)].

Definition highlightLastMove (fuel : nat) (moveHistory : list MoveRecord)
  : option (list (Z * Z)) :=
  match moveHistory with
  | [] => Some []
  | lastMove :: _ =>
      lastMovePath fuel (recFromRow lastMove) (recFromCol lastMove)
                   (recToRow lastMove) (recToCol lastMove)
  end.

(** ** The console: menu, cursor, buttons *)

Inductive GameType := TwoPlayer | AI.

#[global] Instance GameType_eq_dec : EqDecision GameType.
Proof. solve_decision. Defined.

(** The globals of the program beside those of [Game].  Sprites and images
    are left out, but for [gameOverMenuSprite], of which the handlers test
    whether it has been created. *)
Record Console := mkConsole {
  game : Game;
  gameType : GameType;
  menuSelection : Z;
  cursorRow : Z;
  cursorCol : Z;
  selectedPiece : option (Z * Z);
  aiSearchDepth : Z;
  aiThinking : bool;
  gameOverMenuSprite : bool
}.

(** The globals when the program starts: [board = []], the main menu shown. *)
Definition initialConsole : Console :=
  mkConsole (mkGame [] None White 0 0 [] false MainMenu)
            TwoPlayer 0 0 0 None 3 false false.

Definition withGame (c : Console) (g : Game) : Console :=
  mkConsole g (gameType c) (menuSelection c) (cursorRow c) (cursorCol c)
            (selectedPiece c) (aiSearchDepth c) (aiThinking c) (gameOverMenuSprite c).

Definition withCursor (c : Console) (row col : Z) : Console :=
  mkConsole (game c) (gameType c) (menuSelection c) row col
            (selectedPiece c) (aiSearchDepth c) (aiThinking c) (gameOverMenuSprite c).

Definition withMenuSelection (c : Console) (selection : Z) : Console :=
  mkConsole (game c) (gameType c) selection (cursorRow c) (cursorCol c)
            (selectedPiece c) (aiSearchDepth c) (aiThinking c) (gameOverMenuSprite c).

Definition withGameState (g : Game) (s : GameState) : Game :=
  mkGame (board g) (enPassantTarget g) (currentTurn g) (whiteScore g)
         (blackScore g) (moveHistory g) (gameOver g) s.

Definition withTurn (g : Game) (turn : PieceColor) : Game :=
  mkGame (board g) (enPassantTarget g) turn (whiteScore g)
         (blackScore g) (moveHistory g) (gameOver g) (gameState g).

(** [createGameOverMenu] is the one place that sets [gameState] to
    [GameOver], and it creates the sprite: after a call of [movePiece] or
    [updateGameStatus] made in the state [Playing], the sprite has been
    created if the state is [GameOver]. *)
Definition spriteAfter (c : Console) (g' : Game) : bool :=
  gameOverMenuSprite c || bool_decide (gameState g' = GameOver).

Module Controller.

(** [newGame]: nothing happens outside the state [Playing]. *)
Definition newGame (c : Console) : Console :=
  if bool_decide (gameState (game c) = Playing) then
    mkConsole (mkGame initBoard None White 0 0 [] false Playing)
              (gameType c) (menuSelection c) 0 0
              (selectedPiece c) (aiSearchDepth c) (aiThinking c) (gameOverMenuSprite c)
  else c.

(** Button A.  In the branch that selects a piece the source also calls
    [showMoveHighlights], which asks [isLegalMove] for the 64 destinations
    and draws; the calls change no global, and return on a board with at
    most one king of each colour; they are left out. *)
Definition pressA (c : Console) : option Console :=
  let g := game c in
  if bool_decide (gameState g = GameOver) && gameOverMenuSprite c then
    Some (withGame c (withGameState g MainMenu))
  else if bool_decide (gameState g = MainMenu) then
    Some (mkConsole
            (mkGame initBoard None (currentTurn g) (whiteScore g) (blackScore g)
                    (moveHistory g) (gameOver g) Playing)
            (if menuSelection c =? 0 then TwoPlayer else AI)
            (menuSelection c) (cursorRow c) (cursorCol c) (selectedPiece c)
            (aiSearchDepth c) (aiThinking c) (gameOverMenuSprite c))
  else if bool_decide (gameState g = Playing) then
    if gameOver g then Some c
    else
      match selectedPiece c with
      | None =>
          match getCell (board g) (cursorRow c) (cursorCol c) with
          | Some piece =>
              if bool_decide (color piece = currentTurn g) then
                Some (mkConsole g (gameType c) (menuSelection c) (cursorRow c)
                                (cursorCol c) (Some (cursorRow c, cursorCol c))
                                (aiSearchDepth c) (aiThinking c) (gameOverMenuSprite c))
              else Some c
          | None => Some c
          end
      | Some (fromRow, fromCol) =>
          g' ← (if (fromRow =? cursorRow c) && (fromCol =? cursorCol c) then
                  (* [pieceTypeName(piece.type)] of the piece on the square *)
                  match getCell (board g) fromRow fromCol with
                  | Some _ => Some g
                  | None => None
                  end
                else
                  legal ← isLegalMove (board g) (enPassantTarget g)
                            fromRow fromCol (cursorRow c) (cursorCol c);
                  if legal : bool then
                    g1 ← movePiece g fromRow fromCol (cursorRow c) (cursorCol c);
                    updateGameStatus (flipTurn g1)
                  else Some g);
          Some (mkConsole g' (gameType c) (menuSelection c) (cursorRow c)
                          (cursorCol c) None (aiSearchDepth c) (aiThinking c)
                          (spriteAfter c g'))
      end
  else Some c.

(** Button B: undo, twice when playing against the program. *)
Definition pressB (c : Console) : Console :=
  let g := game c in
  if bool_decide (gameState g = GameOver) && gameOverMenuSprite c then newGame c
  else if bool_decide (gameState g = Playing) then
    let g1 := undoLastMove g in
    withGame c (if bool_decide (gameType c = AI) then undoLastMove g1 else g1)
  else c.

Definition pressLeft (c : Console) : Console :=
  if bool_decide (gameState (game c) = MainMenu) then
    if menuSelection c >? 0 then withMenuSelection c (menuSelection c - 1) else c
  else if bool_decide (gameState (game c) = Playing) then
    if cursorCol c >? 0 then withCursor c (cursorRow c) (cursorCol c - 1) else c
  else c.

Definition pressRight (c : Console) : Console :=
  if bool_decide (gameState (game c) = MainMenu) then
    if menuSelection c <? 1 then withMenuSelection c (menuSelection c + 1) else c
  else if bool_decide (gameState (game c) = Playing) then
    if cursorCol c <? BOARD_SIZE - 1 then withCursor c (cursorRow c) (cursorCol c + 1)
    else c
  else c.

Definition pressUp (c : Console) : Console :=
  if bool_decide (gameState (game c) = MainMenu) then
    if menuSelection c >? 0 then withMenuSelection c (menuSelection c - 1) else c
  else if bool_decide (gameState (game c) = Playing) && (cursorRow c >? 0) then
    withCursor c (cursorRow c - 1) (cursorCol c)
  else c.

Definition pressDown (c : Console) : Console :=
  if bool_decide (gameState (game c) = MainMenu) then
    if menuSelection c <? 1 then withMenuSelection c (menuSelection c + 1) else c
  else if bool_decide (gameState (game c) = Playing)
          && (cursorRow c <? BOARD_SIZE - 1) then
    withCursor c (cursorRow c + 1) (cursorCol c)
  else c.

(** The menu button: the search depth in the main menu, a new game
    elsewhere. *)
Definition pressMenu (c : Console) : Console :=
  if bool_decide (gameState (game c) = MainMenu) && (menuSelection c =? 1) then
    mkConsole (game c) (gameType c) (menuSelection c) (cursorRow c) (cursorCol c)
              (selectedPiece c)
              (if aiSearchDepth c <? 5 then aiSearchDepth c + 1 else 2)
              (aiThinking c) (gameOverMenuSprite c)
  else if bool_decide (gameState (game c) = GameOver)
          || bool_decide (gameState (game c) = Playing) then newGame c
  else c.

Section Program.

(** [Array.prototype.sort] and the bound on the depth of [quiesce], as in
    [minimax]. *)
Variable arraySort : (Move -> Move -> Z) -> list Move -> list Move.
Variable fuel : nat.

(** [aiMove], run to its end without a handler running meanwhile.  (The
    source hands the search to [control.runInParallel] and pauses inside it;
    the handlers that run during the search are modelled apart, as
    occurrences of their own.) *)
Definition aiMove (c : Console) : option Console :=
  if aiThinking c then Some c
  else
    let g := game c in
    bestSoFar ← aiBestMove arraySort (enPassantTarget g) fuel (board g)
                  (Z.to_nat (aiSearchDepth c));
    match bestSoFar with
    | Some m =>
        g1 ← movePiece g (fromRow m) (fromCol m) (toRow m) (toCol m);
        g2 ← updateGameStatus (withTurn g1 White);
        Some (mkConsole g2 (gameType c) (menuSelection c) (cursorRow c) (cursorCol c)
                        (selectedPiece c) (aiSearchDepth c) false (spriteAfter c g2))
    | None =>
        Some (mkConsole
                (mkGame (board g) (enPassantTarget g) (currentTurn g) (whiteScore g)
                        (blackScore g) (moveHistory g) true GameOver)
                (gameType c) (menuSelection c) (cursorRow c) (cursorCol c)
                (selectedPiece c) (aiSearchDepth c) true true)
    end.

(** The handler of [game.onUpdate]. *)
Definition onUpdate (c : Console) : option Console :=
  let g := game c in
  if bool_decide (gameState g = Playing) && bool_decide (gameType c = AI)
     && bool_decide (currentTurn g = Black) && negb (aiThinking c)
     && negb (gameOver g)
  then aiMove c
  else Some c.

Inductive Event :=
  ButtonA | ButtonB | ButtonLeft | ButtonRight | ButtonUp | ButtonDown
| ButtonMenu | Update.

#[global] Instance Event_eq_dec : EqDecision Event.
Proof. solve_decision. Defined.

Definition handle (c : Console) (e : Event) : option Console :=
  match e with
  | ButtonA => pressA c
  | ButtonB => Some (pressB c)
  | ButtonLeft => Some (pressLeft c)
  | ButtonRight => Some (pressRight c)
  | ButtonUp => Some (pressUp c)
  | ButtonDown => Some (pressDown c)
  | ButtonMenu => Some (pressMenu c)
  | Update => onUpdate c
  end.

Fixpoint run (c : Console) (events : list Event) : option Console :=
  match events with
  | [] => Some c
  | e :: rest => c' ← handle c e; run c' rest
  end.

End Program.

End Controller.

(** What every console reached from [initialConsole] satisfies (see
    [console_invariant]): the cursor and the selection are on the board, the
    menu selection is 0 or 1, the search depth is between 2 and 5, the board
    has eight rows of eight cells once a game has been started, and in the
    state [GameOver] the game-over menu exists and [gameOver] is set. *)
Definition consoleOk (c : Console) : Prop :=
  onBoard (cursorRow c) (cursorCol c) /\
  0 <= menuSelection c <= 1 /\
  2 <= aiSearchDepth c <= 5 /\
  (forall r k, selectedPiece c = Some (r, k) -> onBoard r k) /\
  (gameState (game c) <> MainMenu -> wfBoard (board (game c))) /\
  (gameState (game c) = GameOver ->
   gameOverMenuSprite c = true /\ gameOver (game c) = true).

(** ** The moves a node of the search gets through *)

(** The moves the loop of [minimax] gets through at a maximizing node, each
    with the score the recursive call returned for it under the window of
    that moment: the loop ends with the list, or after the first move that
    makes [beta <= alpha]. *)
Fixpoint examinedMoves
  (recurse : Board -> float -> float -> option (float * option Move))
  (b : Board) (moves : list Move) (alpha beta : float)
  : option (list (Move * float)) :=
  match moves with
  | [] => Some []
  | m :: rest =>
      let cloneB :=
        simulateMove (cloneBoard b) (fromRow m) (fromCol m) (toRow m) (toCol m) in
      result ← recurse cloneB alpha beta;
      let evalScore := result.1 in
      let alpha' := Math_max alpha evalScore in
      if PrimFloat.leb beta alpha' then Some [(m, evalScore)]
      else
        tail ← examinedMoves recurse b rest alpha' beta;
        Some ((m, evalScore) :: tail)
  end.

(** The moves the search at depth 1 gets through on the board [b], with
    their scores: the recursive call is [minimax] at depth 0, which returns
    the value of [quiesce] for the board after the move. *)
Definition depth1Scores
  (arraySort : (Move -> Move -> Z) -> list Move -> list Move)
  (enPassantTarget : option (Z * Z)) (fuel : nat) (b : Board) (moves : list Move)
  : option (list (Move * float)) :=
  examinedMoves
    (fun cloneB a be => minimax arraySort enPassantTarget fuel cloneB 0 a be false)
    b moves (-100000)%float 100000%float.

(** ** The evaluation in another arithmetic, its steps in another order *)

(** The numbers [staticEvaluation] computes with, and what it does with
    them: it starts from 0, adds and subtracts the terms [base + posBonus]
    of the pieces, 0.5 and 0.75. *)
Record Arithmetic := mkArithmetic {
  num : Type;
  numZero : num;
  numAdd : num -> num -> num;
  numSub : num -> num -> num;
  numTerm : Piece -> Z -> Z -> num;
  numHalf : num;
  numThreeQuarters : num
}.

(** The arithmetic of the program: IEEE doubles, every sum rounded. *)
Definition doubles : Arithmetic :=
  mkArithmetic float (floatOfZ 0) PrimFloat.add PrimFloat.sub pieceTerm
               0.5%float 0.75%float.

(** Exact arithmetic, counted in twentieths: 0.5 is 10, 0.75 is 15, and
    [pieceValue(piece) + bonus / 10] is [20 * pieceValue + 2 * bonus]. *)
Definition twentieths : Arithmetic :=
  mkArithmetic Z 0 Z.add Z.sub
               (fun piece r c => 20 * pieceValue piece + 2 * getPieceSquareBonus piece r c)
               10 15.

(** The three variables of the loop of [staticEvaluation]. *)
Record Tally (A : Arithmetic) := mkTally {
  total : num A;
  whiteCount : Z;
  blackCount : Z
}.

Arguments mkTally {A} _ _ _.
Arguments total {A} _.
Arguments whiteCount {A} _.
Arguments blackCount {A} _.

(** The body of the loop of [staticEvaluation], as [evalSquare]. *)
Definition tallySquare (A : Arithmetic) (b : Board) (acc : Tally A) (rc : Z * Z)
  : Tally A :=
  match getCell b rc.1 rc.2 with
  | Some piece =>
      if bool_decide (color piece = Black) then
        mkTally (numAdd A (total acc) (numTerm A piece rc.1 rc.2))
                (whiteCount acc)
                (if bool_decide (type piece = Bishop)
                 then blackCount acc + 1 else blackCount acc)
      else
        mkTally (numSub A (total acc) (numTerm A piece rc.1 rc.2))
                (if bool_decide (type piece = Bishop)
                 then whiteCount acc + 1 else whiteCount acc)
                (blackCount acc)
  | None => acc
  end.

(** The steps of [staticEvaluation] in the arithmetic [A], with the squares
    visited in the order [order]; with [blackFirst] the adjustments for the
    black bishops and the black king are made before those for White (the
    source makes those for White first). *)
Definition evaluationWith (A : Arithmetic) (order : list (Z * Z)) (blackFirst : bool)
  (b : Board) : option (num A) :=
  let acc := fold_left (tallySquare A b) order (mkTally (numZero A) 0 0) in
  if blackFirst then
    let score1 :=
      if blackCount acc >=? 2 then numAdd A (total acc) (numHalf A) else total acc in
    let score2 :=
      if whiteCount acc >=? 2 then numSub A score1 (numHalf A) else score1 in
    blackInCheck ← isKingInCheck Black b;
    let score3 :=
      if blackInCheck : bool then numSub A score2 (numThreeQuarters A) else score2 in
    whiteInCheck ← isKingInCheck White b;
    Some (if whiteInCheck : bool then numAdd A score3 (numThreeQuarters A) else score3)
  else
    let score1 :=
      if whiteCount acc >=? 2 then numSub A (total acc) (numHalf A) else total acc in
    let score2 :=
      if blackCount acc >=? 2 then numAdd A score1 (numHalf A) else score1 in
    whiteInCheck ← isKingInCheck White b;
    let score3 :=
      if whiteInCheck : bool then numAdd A score2 (numThreeQuarters A) else score2 in
    blackInCheck ← isKingInCheck Black b;
    Some (if blackInCheck : bool then numSub A score3 (numThreeQuarters A) else score3).

(** The squares with the rows from the last to the first. *)
Definition mirroredSquares : list (Z * Z) := map mirrorSquare squares.

(** [y] is the double [-x]: [y === -x] (which takes [0] and [-0] for equal),
    or both are NaN. *)
Definition isNegationOf (x y : float) : bool :=
  PrimFloat.eqb y (PrimFloat.opp x) || (PrimFloat.is_nan x && PrimFloat.is_nan y).

(** The same on the specification of the doubles. *)
Definition isZeroSF (x : spec_float) : bool :=
  match x with
  | S754_zero _ => true
  | _ => false
  end.

Definition negatesSF (x y : spec_float) : Prop :=
  y = SFopp x \/ (isZeroSF x = true /\ isZeroSF y = true).

(** ** The program's turn, with the buttons live *)

(** [aiMove] sets [aiThinking] and hands the search to
    [control.runInParallel]; [minimax] and [quiesce] call [pause(1)], and
    while the search is paused the button handlers and the update handler
    run.  Here the handlers and the end of the search are separate
    occurrences.  The search itself is not run: the move it has kept when
    its loop ends depends on the boards it found at each pause, and is a
    parameter of the occurrence ([null], or a move produced by
    [getAllLegalMoves], whose squares are on the board). *)
Module Parallel.

(** The globals, and whether a search started by [aiMove] is under way. *)
Record Machine := mkMachine {
  console : Console;
  searching : bool
}.

Definition initialMachine : Machine := mkMachine initialConsole false.

(** A handler runs, or the search reaches the code after its loop. *)
Inductive Occurrence :=
| Handled (e : Controller.Event)
| SearchEnds (bestSoFar : option Move).

(** The button handlers. *)
Definition press (c : Console) (e : Controller.Event) : option Console :=
  match e with
  | Controller.ButtonA => Controller.pressA c
  | Controller.ButtonB => Some (Controller.pressB c)
  | Controller.ButtonLeft => Some (Controller.pressLeft c)
  | Controller.ButtonRight => Some (Controller.pressRight c)
  | Controller.ButtonUp => Some (Controller.pressUp c)
  | Controller.ButtonDown => Some (Controller.pressDown c)
  | Controller.ButtonMenu => Some (Controller.pressMenu c)
  | Controller.Update => Some c
  end.

(** The handler of [game.onUpdate] and the first two statements of
    [aiMove]: the flag is set and the search started. *)
Definition onUpdate (m : Machine) : Machine :=
  let c := console m in
  let g := game c in
  if bool_decide (gameState g = Playing) && bool_decide (gameType c = AI)
     && bool_decide (currentTurn g = Black) && negb (aiThinking c)
     && negb (gameOver g)
  then
    mkMachine (mkConsole g (gameType c) (menuSelection c) (cursorRow c) (cursorCol c)
                         (selectedPiece c) (aiSearchDepth c) true
                         (gameOverMenuSprite c))
              true
  else m.

(** [updateGameStatus] has called [createGameOverMenu]: it does so exactly
    when it sets [gameOver]. *)
Definition menuCreated (before after : Game) : bool :=
  negb (gameOver before) && gameOver after.

(** The code of [aiMove] after the loop of the search, on the globals as
    they are by then. *)
Definition searchEnds (m : Machine) (bestSoFar : option Move) : option Machine :=
  if searching m then
    let c := console m in
    let g := game c in
    match bestSoFar with
    | Some best =>
        g1 ← movePiece g (fromRow best) (fromCol best) (toRow best) (toCol best);
        g2 ← updateGameStatus (withTurn g1 White);
        Some (mkMachine
                (mkConsole g2 (gameType c) (menuSelection c) (cursorRow c) (cursorCol c)
                           (selectedPiece c) (aiSearchDepth c) false
                           (gameOverMenuSprite c || menuCreated g g1
                            || menuCreated (withTurn g1 White) g2))
                false)
    | None =>
        Some (mkMachine
                (mkConsole
                   (mkGame (board g) (enPassantTarget g) (currentTurn g) (whiteScore g)
                           (blackScore g) (moveHistory g) true GameOver)
                   (gameType c) (menuSelection c) (cursorRow c) (cursorCol c)
                   (selectedPiece c) (aiSearchDepth c) (aiThinking c) true)
                false)
    end
  else Some m.

Definition occur (m : Machine) (o : Occurrence) : option Machine :=
  match o with
  | Handled Controller.Update => Some (onUpdate m)
  | Handled e => c' ← press (console m) e; Some (mkMachine c' (searching m))
  | SearchEnds bestSoFar => searchEnds m bestSoFar
  end.

Fixpoint run (m : Machine) (occurrences : list Occurrence) : option Machine :=
  match occurrences with
  | [] => Some m
  | o :: rest => m' ← occur m o; run m' rest
  end.

(** The move a search hands over has its squares on the board. *)
Definition onBoardResult (o : Occurrence) : Prop :=
  match o with
  | SearchEnds (Some best) =>
      onBoard (fromRow best) (fromCol best) /\ onBoard (toRow best) (toCol best)
  | _ => True
  end.

End Parallel.

(** * Properties *)

(** ** Cells *)

Lemma onBoardb_spec r c : onBoardb r c = true <-> onBoard r c.
Proof. unfold onBoardb, onBoard, BOARD_SIZE. lia. Qed.

Lemma In_indices r : In r indices <-> 0 <= r < 8.
Proof.
  unfold indices. simpl. split.
  - intros H. repeat (destruct H as [H | H]; [lia |]). contradiction.
  - intros H.
    assert (r = 0 \/ r = 1 \/ r = 2 \/ r = 3 \/ r = 4 \/ r = 5 \/ r = 6 \/ r = 7) by lia.
    intuition auto.
Qed.

Lemma In_squares r c : In (r, c) squares <-> onBoard r c.
Proof.
  unfold squares, onBoard, BOARD_SIZE. rewrite in_flat_map. split.
  - intros (r' & Hr & Hc). apply in_map_iff in Hc as (c' & Heq & Hc).
    inversion Heq; subst. apply In_indices in Hr, Hc. lia.
  - intros [Hr Hc]. exists r. split; [apply In_indices; lia |].
    apply in_map_iff. exists c. split; [reflexivity | apply In_indices; lia].
Qed.

Lemma wfBoard_row (b : Board) r :
  wfBoard b -> 0 <= r < 8 ->
  exists row, b !! Z.to_nat r = Some row /\ length row = 8%nat.
Proof.
  intros [Hlen Hrows] Hr.
  destruct (b !! Z.to_nat r) as [row |] eqn:E.
  - exists row. split; [reflexivity |].
    rewrite Forall_lookup in Hrows. eapply Hrows; eauto.
  - apply lookup_ge_None in E. lia.
Qed.

Lemma getCell_onBoard (b : Board) r c p :
  wfBoard b -> getCell b r c = Some p -> onBoard r c.
Proof.
  intros [Hlen Hrows] H. unfold getCell in H.
  destruct ((r <? 0) || (c <? 0)) eqn:Hneg; [discriminate |].
  destruct (b !! Z.to_nat r) as [row |] eqn:Er; [| discriminate].
  destruct (row !! Z.to_nat c) as [cell |] eqn:Ec; [| discriminate].
  apply lookup_lt_Some in Er as Hr. apply lookup_lt_Some in Ec as Hc.
  rewrite Forall_lookup in Hrows.
  assert (length row = 8%nat) as Hrow by (eapply Hrows; eauto).
  unfold onBoard, BOARD_SIZE. lia.
Qed.

Lemma wfBoard_setCell (b : Board) r c v : wfBoard b -> wfBoard (setCell b r c v).
Proof.
  intros [Hlen Hrows]. unfold setCell.
  destruct ((r <? 0) || (c <? 0)); [split; assumption |].
  destruct (b !! Z.to_nat r) as [row |] eqn:Er; [| split; assumption].
  split.
  - rewrite length_insert. assumption.
  - rewrite Forall_lookup in Hrows. apply Forall_lookup. intros i x Hi.
    destruct (decide (i = Z.to_nat r)) as [-> | Hne].
    + rewrite list_lookup_insert_eq in Hi by (eapply lookup_lt_Some; eauto).
      inversion Hi; subst. rewrite length_insert. eapply Hrows; eauto.
    + rewrite list_lookup_insert_ne in Hi by congruence.
      eapply Hrows; eauto.
Qed.

Lemma getCell_setCell_ne (b : Board) r c v r' c' :
  (r, c) <> (r', c') -> getCell (setCell b r c v) r' c' = getCell b r' c'.
Proof.
  intros Hne. unfold getCell, setCell.
  destruct ((r' <? 0) || (c' <? 0)) eqn:Hneg'; [reflexivity |].
  destruct ((r <? 0) || (c <? 0)) eqn:Hneg; [reflexivity |].
  destruct (b !! Z.to_nat r) as [row |] eqn:Er; [| reflexivity].
  destruct (decide (Z.to_nat r = Z.to_nat r')) as [Heq | Hr].
  - rewrite <- Heq. rewrite list_lookup_insert_eq by (eapply lookup_lt_Some; eauto).
    rewrite Er. rewrite list_lookup_insert_ne; [reflexivity |].
    intros Hc. apply Hne. f_equal; lia.
  - rewrite list_lookup_insert_ne by assumption. reflexivity.
Qed.

Lemma getCell_setCell_eq (b : Board) r c v :
  wfBoard b -> onBoard r c -> getCell (setCell b r c v) r c = v.
Proof.
  intros Hwf [Hr Hc]. unfold BOARD_SIZE in *.
  destruct (wfBoard_row b r Hwf Hr) as (row & Er & Hrow).
  unfold getCell, setCell.
  replace ((r <? 0) || (c <? 0)) with false by lia.
  rewrite Er. rewrite list_lookup_insert_eq by (eapply lookup_lt_Some; eauto).
  rewrite list_lookup_insert_eq by lia. reflexivity.
Qed.

(** Reading a cell after a write, on a well-formed board. *)
Lemma getCell_setCell (b : Board) r c v r' c' :
  wfBoard b -> onBoard r c ->
  getCell (setCell b r c v) r' c' =
  if (r =? r') && (c =? c') then v else getCell b r' c'.
Proof.
  intros Hwf Hon.
  destruct ((r =? r') && (c =? c')) eqn:E.
  - assert (r = r' /\ c = c') as [<- <-] by lia. apply getCell_setCell_eq; assumption.
  - apply getCell_setCell_ne. intros Heq. inversion Heq; subst. lia.
Qed.

Lemma getCell_offBoard (b : Board) r c :
  wfBoard b -> ~ onBoard r c -> getCell b r c = None.
Proof.
  intros Hwf Hoff. destruct (getCell b r c) eqn:E; [| reflexivity].
  exfalso. apply Hoff. eapply getCell_onBoard; eauto.
Qed.

(** Two well-formed boards with the same cells are the same board. *)
Lemma board_ext (b1 b2 : Board) :
  wfBoard b1 -> wfBoard b2 ->
  (forall r c, onBoard r c -> getCell b1 r c = getCell b2 r c) -> b1 = b2.
Proof.
  intros Hwf1 Hwf2 Hcells.
  apply list_eq. intros i.
  destruct (decide (i < 8)%nat) as [Hi | Hi].
  - destruct (wfBoard_row b1 (Z.of_nat i) Hwf1 ltac:(lia)) as (row1 & E1 & L1).
    destruct (wfBoard_row b2 (Z.of_nat i) Hwf2 ltac:(lia)) as (row2 & E2 & L2).
    rewrite Nat2Z.id in E1, E2. rewrite E1, E2. f_equal.
    apply list_eq. intros j.
    destruct (decide (j < 8)%nat) as [Hj | Hj].
    + specialize (Hcells (Z.of_nat i) (Z.of_nat j)).
      unfold getCell, onBoard, BOARD_SIZE in Hcells.
      replace ((Z.of_nat i <? 0) || (Z.of_nat j <? 0)) with false in Hcells by lia.
      rewrite !Nat2Z.id, E1, E2 in Hcells.
      destruct (row1 !! j) eqn:R1; [| apply lookup_ge_None in R1; lia].
      destruct (row2 !! j) eqn:R2; [| apply lookup_ge_None in R2; lia].
      f_equal. apply Hcells. lia.
    + rewrite (proj2 (lookup_ge_None row1 j)) by lia.
      rewrite (proj2 (lookup_ge_None row2 j)) by lia. reflexivity.
  - destruct Hwf1 as [L1 _], Hwf2 as [L2 _].
    rewrite (proj2 (lookup_ge_None b1 i)) by lia.
    rewrite (proj2 (lookup_ge_None b2 i)) by lia. reflexivity.
Qed.

Lemma wfBoard_cloneBoard (b : Board) : wfBoard (cloneBoard b).
Proof.
  unfold cloneBoard, wfBoard. split; [reflexivity |].
  apply Forall_forall. intros row Hrow. apply list_elem_of_In in Hrow.
  apply in_map_iff in Hrow as (r & <- & _). reflexivity.
Qed.

Lemma getCell_cloneBoard (b : Board) r c :
  onBoard r c -> getCell (cloneBoard b) r c = getCell b r c.
Proof.
  intros [Hr Hc]. unfold BOARD_SIZE in *.
  assert (getCell (cloneBoard b) r c =
          match getCell b r c with
          | Some p => Some (mkPiece (type p) (color p) (hasMoved p))
          | None => None
          end) as ->.
  { assert (r = 0 \/ r = 1 \/ r = 2 \/ r = 3 \/ r = 4 \/ r = 5 \/ r = 6 \/ r = 7)
      as Hr' by lia.
    assert (c = 0 \/ c = 1 \/ c = 2 \/ c = 3 \/ c = 4 \/ c = 5 \/ c = 6 \/ c = 7)
      as Hc' by lia.
    repeat (destruct Hr' as [-> | Hr']); try subst r;
      repeat (destruct Hc' as [-> | Hc']); try subst c; reflexivity. }
  destruct (getCell b r c) as [[t k m] |]; reflexivity.
Qed.

(** Cloning a well-formed board gives an equal board. *)
Lemma cloneBoard_id (b : Board) : wfBoard b -> cloneBoard b = b.
Proof.
  intros Hwf. apply board_ext; [apply wfBoard_cloneBoard | assumption |].
  intros r c Hon. apply getCell_cloneBoard. assumption.
Qed.

(** ** The king search and the missing king *)

Lemma find_none_intro {A} (f : A -> bool) (l : list A) :
  (forall x, In x l -> f x = false) -> find f l = None.
Proof.
  induction l as [| x l IH]; intros H; simpl; [reflexivity |].
  rewrite (H x) by (left; reflexivity). apply IH. intros y Hy. apply H. right. assumption.
Qed.

Lemma findKing_Some (c : PieceColor) (b : Board) r k :
  findKing c b = Some (r, k) ->
  onBoard r k /\ exists p, getCell b r k = Some p /\ color p = c /\ type p = King.
Proof.
  unfold findKing. intros H. apply find_some in H as [Hin Hk].
  split; [apply In_squares; assumption |].
  unfold isKingOf in Hk. simpl in Hk.
  destruct (getCell b r k) as [p |]; [| discriminate].
  exists p. apply andb_true_iff in Hk as [H1 H2].
  apply bool_decide_eq_true in H1, H2. auto.
Qed.

(** C7. A board with no king of a colour: [isKingInCheck] answers true for
    that colour. *)
Theorem isKingInCheck_missing_king (c : PieceColor) (b : Board) :
  (forall r k p, onBoard r k -> getCell b r k = Some p -> color p = c -> type p <> King) ->
  isKingInCheck c b = Some true.
Proof.
  intros Hnone. unfold isKingInCheck.
  assert (findKing c b = None) as ->; [| reflexivity].
  apply find_none_intro. intros [r k] Hin. apply In_squares in Hin.
  unfold isKingOf. simpl.
  destruct (getCell b r k) as [p |] eqn:E; [| reflexivity].
  apply andb_false_iff.
  destruct (decide (color p = c)) as [Hc | Hc].
  - right. apply bool_decide_eq_false. eapply Hnone; eauto.
  - left. apply bool_decide_eq_false. assumption.
Qed.

Lemma isKingInCheck_missing_king_witness :
  isKingInCheck White emptyBoard = Some true.
Proof.
  apply (isKingInCheck_missing_king White emptyBoard).
  intros r k p Hon Hcell. exfalso.
  destruct Hon as [Hr Hk]. unfold BOARD_SIZE in *.
  assert (r = 0 \/ r = 1 \/ r = 2 \/ r = 3 \/ r = 4 \/ r = 5 \/ r = 6 \/ r = 7) as Hr' by lia.
  assert (k = 0 \/ k = 1 \/ k = 2 \/ k = 3 \/ k = 4 \/ k = 5 \/ k = 6 \/ k = 7) as Hk' by lia.
  repeat (destruct Hr' as [-> | Hr']); try subst r;
    repeat (destruct Hk' as [-> | Hk']); try subst k; discriminate Hcell.
Defined.

(** ** The search's move simulation *)

(** C10. [simulateMove] writes the source and the destination cell only: the
    piece of the source, unchanged, goes to the destination, the source is
    emptied, every other cell keeps its content (so no rook is relocated, no
    pawn is removed or promoted); with an empty source the board does not
    change. *)
Theorem simulateMove_frame (b : Board) (fr fc tr tc : Z) :
  wfBoard b -> onBoard tr tc ->
  (forall piece, getCell b fr fc = Some piece ->
     getCell (simulateMove b fr fc tr tc) fr fc = None /\
     ((tr, tc) <> (fr, fc) -> getCell (simulateMove b fr fc tr tc) tr tc = Some piece) /\
     (forall r c, (r, c) <> (fr, fc) -> (r, c) <> (tr, tc) ->
        getCell (simulateMove b fr fc tr tc) r c = getCell b r c)) /\
  (getCell b fr fc = None -> simulateMove b fr fc tr tc = b).
Proof.
  intros Hwf Hto. split.
  - intros piece Hfrom. unfold simulateMove. rewrite Hfrom.
    assert (onBoard fr fc) as Hon by (eapply getCell_onBoard; eauto).
    assert (wfBoard (setCell b tr tc (Some piece))) as Hwf' by (apply wfBoard_setCell; assumption).
    repeat split.
    + apply getCell_setCell_eq; assumption.
    + intros Hne. rewrite getCell_setCell_ne by congruence.
      apply getCell_setCell_eq; assumption.
    + intros r c Hf Ht. rewrite !getCell_setCell_ne by congruence. reflexivity.
  - intros Hnone. unfold simulateMove. rewrite Hnone. reflexivity.
Qed.

(** ** Pins: the simulated move decides *)

(** On any board: when the candidate move, carried out on the clone, leaves
    the mover's own king attacked, [isLegalMove] answers false as soon as the
    basic check of the movement pattern returns. *)
Lemma isLegalMove_rejects_self_check (b : Board) (ep : option (Z * Z))
  (fr fc tr tc : Z) (piece simPiece : Piece) :
  getCell b fr fc = Some piece ->
  getCell (cloneBoard b) fr fc = Some simPiece ->
  isLegalMoveBasic b ep fr fc tr tc piece <> None ->
  isKingInCheck (color piece) (simulatedBoard (cloneBoard b) simPiece fr fc tr tc)
    = Some true ->
  isLegalMove b ep fr fc tr tc = Some false.
Proof.
  intros Hfrom Hsim Hbasic Hcheck.
  assert (isLegalMoveSimulated b ep fr fc tr tc = Some false) as Hsimulated.
  { unfold isLegalMoveSimulated. rewrite Hfrom.
    destruct (isLegalMoveBasic b ep fr fc tr tc piece) as [[|] |]; simpl;
      [| reflexivity | congruence].
    rewrite Hsim. rewrite Hcheck. reflexivity. }
  unfold isLegalMove. rewrite Hfrom.
  destruct ((tr <? 0) || (tr >=? BOARD_SIZE) || (tc <? 0) || (tc >=? BOARD_SIZE));
    [reflexivity |].
  destruct (getCell b tr tc) as [dest |]; [| assumption].
  destruct (bool_decide (color dest = color piece)); [reflexivity | assumption].
Qed.

(** ** Which calls return *)

Lemma lineFuel_succ (start stop : Z) : exists n, lineFuel start stop = S n.
Proof.
  unfold lineFuel. exists (Z.to_nat (Z.abs (stop - start) + Z.abs start)). lia.
Qed.

(** The loop of [isLegalRookMove] ends when it walks towards its bound. *)
Lemma scanLine_reaches (n : nat) (occupied : Z -> bool) (c step stop : Z) :
  (step = 1 /\ c <= stop) \/ (step = -1 /\ stop <= c) ->
  Z.abs (stop - c) < Z.of_nat n ->
  scanLine n occupied c step stop <> None.
Proof.
  revert c. induction n as [| n IH]; intros c Hdir Hfuel; [lia |].
  simpl. destruct (c =? stop) eqn:E; [discriminate |].
  destruct (occupied c); [discriminate |].
  apply IH; lia.
Qed.

(** Walking away from its bound, it ends on an occupied cell or never: with
    no occupied cell at a negative index, more fuel than [lineFuel] does not
    help. *)
Lemma scanLine_away_None (n m : nat) (occupied : Z -> bool) (c stop : Z) :
  (forall k, k < 0 -> occupied k = false) ->
  c < stop ->
  (c < Z.of_nat n) ->
  scanLine n occupied c (-1) stop = None ->
  scanLine m occupied c (-1) stop = None.
Proof.
  intros Hneg. revert m c. induction n as [| n IH]; intros m c Hlt Hfuel Hn.
  - (* c is negative: no cell is occupied from here on *)
    clear Hn. revert c Hlt Hfuel. induction m as [| m IHm]; intros c Hlt Hfuel;
      [reflexivity |].
    simpl. replace (c =? stop) with false by lia.
    rewrite Hneg by lia. apply IHm; lia.
  - simpl in Hn. destruct m as [| m]; [reflexivity |]. simpl.
    replace (c =? stop) with false in * by lia.
    destruct (occupied c); [discriminate |].
    apply IH; [lia | lia | assumption].
Qed.

Lemma isLegalRookMove_returns (b : Board) (fr fc tr tc : Z) :
  (fr, fc) <> (tr, tc) -> isLegalRookMove b fr fc tr tc <> None.
Proof.
  intros Hne. unfold isLegalRookMove.
  destruct (negb (fr =? tr) && negb (fc =? tc)) eqn:E1; [discriminate |].
  destruct (fr =? tr) eqn:E2.
  - assert (fr = tr) by lia. assert (fc <> tc) by congruence.
    apply scanLine_reaches; unfold lineFuel; destruct (tc >? fc) eqn:E3; lia.
  - apply scanLine_reaches; unfold lineFuel; destruct (tr >? fr) eqn:E3; lia.
Qed.

(** A call [isLegalRookMove] that the model gives no result never returns:
    it is a call from a square to itself, and no amount of fuel ends its loop. *)
Lemma isLegalRookMove_None_forever (b : Board) (fr fc tr tc : Z) :
  isLegalRookMove b fr fc tr tc = None ->
  (fr, fc) = (tr, tc) /\
  forall m, scanLine m (fun c => isSomeb (getCell b fr c)) (fc - 1) (-1) tc = None.
Proof.
  intros HNone.
  destruct (decide ((fr, fc) = (tr, tc))) as [Heq | Hne];
    [| exfalso; eapply isLegalRookMove_returns; eauto].
  split; [assumption |]. inversion Heq; subst. intros m.
  unfold isLegalRookMove in HNone.
  rewrite Z.eqb_refl in HNone. simpl in HNone.
  replace (tc >? tc) with false in HNone by lia.
  replace (tc + -1) with (tc - 1) in HNone by lia.
  eapply scanLine_away_None; [| | | exact HNone].
  - intros k Hk. unfold getCell. replace ((tr <? 0) || (k <? 0)) with true by lia.
    reflexivity.
  - lia.
  - unfold lineFuel. lia.
Qed.

Lemma scanDiag_returns (n : nat) (b : Board) (r c stepRow stepCol toRow : Z) :
  stepRow = 1 \/ stepRow = -1 ->
  (if (0 <=? r) && (r <? 8) then (if stepRow =? 1 then 8 - r else r + 1) else 0)
    < Z.of_nat n ->
  scanDiag n b r c stepRow stepCol toRow <> None.
Proof.
  revert r c. induction n as [| n IH]; intros r c Hstep Hfuel.
  - destruct ((0 <=? r) && (r <? 8)) eqn:Ein; destruct (stepRow =? 1) eqn:Es; lia.
  - simpl. destruct (r =? toRow); [discriminate |].
    unfold BOARD_SIZE.
    destruct ((r <? 0) || (r >=? 8) || (c <? 0) || (c >=? 8)) eqn:Eout; [discriminate |].
    destruct (isSomeb (getCell b r c)); [discriminate |].
    apply IH; [assumption |].
    replace ((0 <=? r) && (r <? 8)) with true in Hfuel by lia.
    destruct ((0 <=? r + stepRow) && (r + stepRow <? 8)) eqn:Ein;
      destruct (stepRow =? 1) eqn:Es; lia.
Qed.

Lemma isLegalBishopMove_returns (b : Board) (fr fc tr tc : Z) :
  isLegalBishopMove b fr fc tr tc <> None.
Proof.
  unfold isLegalBishopMove.
  destruct (negb (Z.abs (tr - fr) =? Z.abs (tc - fc))); [discriminate |].
  apply scanDiag_returns.
  - destruct (tr >? fr); auto.
  - destruct ((0 <=? fr + (if tr >? fr then 1 else -1))
              && (fr + (if tr >? fr then 1 else -1) <? 8)) eqn:Ein;
      destruct (tr >? fr) eqn:Es; simpl; lia.
Qed.

Lemma isLegalQueenMove_returns (b : Board) (fr fc tr tc : Z) :
  (fr, fc) <> (tr, tc) -> isLegalQueenMove b fr fc tr tc <> None.
Proof.
  intros Hne. unfold isLegalQueenMove.
  pose proof (isLegalRookMove_returns b fr fc tr tc Hne) as Hr.
  destruct (isLegalRookMove b fr fc tr tc) as [[|] |]; [discriminate | | congruence].
  apply isLegalBishopMove_returns.
Qed.

Lemma canPieceAttack_returns (b : Board) (fr fc tr tc : Z) (p : Piece) :
  (fr, fc) <> (tr, tc) -> canPieceAttack fr fc tr tc p b <> None.
Proof.
  intros Hne. unfold canPieceAttack. destruct (type p); try discriminate.
  - apply isLegalRookMove_returns; assumption.
  - apply isLegalBishopMove_returns.
  - apply isLegalQueenMove_returns; assumption.
Qed.

(** A call that does not return can only come from a rook or queen of the
    attacking colour standing on the attacked square itself. *)
Lemma attacksFrom_None (row col : Z) (byColor : PieceColor) (b : Board) (rc : Z * Z) :
  attacksFrom row col byColor b rc = None ->
  rc = (row, col) /\
  exists p, getCell b row col = Some p /\ color p = byColor /\
            (type p = Rook \/ type p = Queen).
Proof.
  destruct rc as [r c]. unfold attacksFrom. intros H.
  destruct (getCell b r c) as [p |] eqn:Ecell; [| discriminate].
  destruct (bool_decide (color p = byColor)) eqn:Ecol; [| discriminate].
  apply bool_decide_eq_true in Ecol.
  destruct (bool_decide (type p = Pawn)) eqn:Epawn; [discriminate |].
  destruct (decide ((r, c) = (row, col))) as [Heq | Hne].
  - inversion Heq; subst. split; [reflexivity |]. exists p.
    repeat split; try assumption.
    unfold canPieceAttack in H. destruct (type p); try discriminate; auto.
    exfalso. eapply isLegalBishopMove_returns; eauto.
  - exfalso. eapply canPieceAttack_returns; eauto.
Qed.

Lemma existsM_returns {A} (f : A -> option bool) (l : list A) :
  (forall x, In x l -> f x <> None) -> existsM f l <> None.
Proof.
  induction l as [| x l IH]; intros H; simpl; [discriminate |].
  pose proof (H x (or_introl eq_refl)) as Hx.
  destruct (f x) as [[|] |]; [discriminate | | congruence].
  apply IH. intros y Hy. apply H. right. assumption.
Qed.

Lemma existsM_true {A} (f : A -> option bool) (l : list A) (x : A) :
  (forall y, In y l -> f y <> None) -> In x l -> f x = Some true ->
  existsM f l = Some true.
Proof.
  induction l as [| y l IH]; intros Hall Hin Hx; [contradiction |].
  simpl. pose proof (Hall y (or_introl eq_refl)) as Hy.
  destruct (f y) as [[|] |] eqn:Ey; [reflexivity | | congruence].
  destruct Hin as [-> | Hin]; [congruence |].
  apply IH; [| assumption | assumption]. intros z Hz. apply Hall. right. assumption.
Qed.

Lemma existsM_false {A} (f : A -> option bool) (l : list A) :
  existsM f l = Some false -> forall x, In x l -> f x = Some false.
Proof.
  induction l as [| y l IH]; intros H x Hin; [contradiction |].
  simpl in H. destruct (f y) as [[|] |] eqn:Ey; try discriminate.
  destruct Hin as [<- | Hin]; [assumption | apply IH; assumption].
Qed.

(** The attack test returns on every square that holds no rook or queen of
    the attacking colour. *)
Lemma isSquareAttacked_returns (row col : Z) (byColor : PieceColor) (b : Board) :
  (forall p, getCell b row col = Some p -> color p = byColor ->
             type p <> Rook /\ type p <> Queen) ->
  forall rc, In rc squares -> attacksFrom row col byColor b rc <> None.
Proof.
  intros Hcell rc _ HNone.
  apply attacksFrom_None in HNone as (_ & p & Hp & Hc & Ht).
  destruct (Hcell p Hp Hc) as [H1 H2]. destruct Ht; congruence.
Qed.

Lemma enemyOf_neq (c : PieceColor) : enemyOf c <> c.
Proof. destruct c; discriminate. Qed.

(** [isKingInCheck] always returns: the square it tests holds the king. *)
Lemma isKingInCheck_returns (c : PieceColor) (b : Board) :
  isKingInCheck c b <> None.
Proof.
  unfold isKingInCheck. destruct (findKing c b) as [[r k] |] eqn:E; [| discriminate].
  apply findKing_Some in E as (_ & p & Hp & Hc & Ht). simpl.
  apply existsM_returns. apply isSquareAttacked_returns.
  intros q Hq Hcq. assert (q = p) as -> by congruence.
  exfalso. apply (enemyOf_neq c). congruence.
Qed.

Lemma staticEvaluation_returns (b : Board) : staticEvaluation b <> None.
Proof.
  unfold staticEvaluation.
  pose proof (isKingInCheck_returns White b) as Hw.
  pose proof (isKingInCheck_returns Black b) as Hb.
  destruct (isKingInCheck White b); [| congruence].
  destruct (isKingInCheck Black b); [| congruence].
  discriminate.
Qed.

Lemma find_some_intro {A} (f : A -> bool) (l : list A) (x : A) :
  In x l -> f x = true -> exists y, find f l = Some y.
Proof.
  induction l as [| z l IH]; intros Hin Hx; [contradiction |].
  simpl. destruct (f z) eqn:Ez; [eauto |].
  destruct Hin as [-> | Hin]; [congruence | apply IH; assumption].
Qed.

(** With at most one king of a colour, [findKing] finds the king there is. *)
Lemma findKing_unique (b : Board) (r k : Z) (p : Piece) :
  wfBoard b -> kingsUnique b ->
  getCell b r k = Some p -> type p = King ->
  findKing (color p) b = Some (r, k).
Proof.
  intros Hwf Huniq Hp Hking.
  assert (In (r, k) squares) as Hin.
  { apply In_squares. eapply getCell_onBoard; eauto. }
  destruct (find_some_intro (isKingOf (color p) b) squares (r, k) Hin) as [[r' k'] Hfind].
  { unfold isKingOf. simpl. rewrite Hp, Hking.
    rewrite !bool_decide_eq_true_2 by reflexivity. reflexivity. }
  unfold findKing. rewrite Hfind. f_equal.
  apply findKing_Some in Hfind as (_ & q & Hq & Hcq & Htq).
  eapply Huniq; eauto.
Qed.

(** A rook or queen attacks the square next to it on its row. *)
Lemma attacksFrom_adjacent (b : Board) (r c c' : Z) (byColor : PieceColor) (p : Piece) :
  getCell b r c' = Some p -> color p = byColor ->
  type p = Rook \/ type p = Queen -> Z.abs (c' - c) = 1 ->
  attacksFrom r c byColor b (r, c') = Some true.
Proof.
  intros Hp Hc Ht Hadj. unfold attacksFrom. rewrite Hp.
  rewrite bool_decide_eq_true_2 by assumption.
  rewrite bool_decide_eq_false_2 by (destruct Ht; congruence).
  assert (isLegalRookMove b r c' r c = Some true) as Hrook.
  { unfold isLegalRookMove. rewrite Z.eqb_refl. simpl.
    destruct (lineFuel_succ c' c) as [n ->]. simpl.
    replace (c' + (if c >? c' then 1 else -1) =? c) with true; [reflexivity |].
    destruct (c >? c') eqn:E; lia. }
  unfold canPieceAttack, isLegalQueenMove. destruct Ht as [-> | ->];
    rewrite Hrook; reflexivity.
Qed.

Lemma isLegalCastling_returns (b : Board) (fr fc tr tc : Z) (piece : Piece) :
  wfBoard b -> findKing (color piece) b = Some (fr, fc) ->
  tr = fr -> Z.abs (tc - fc) = 2 ->
  isLegalCastling b fr fc tr tc piece <> None.
Proof.
  intros Hwf Hking -> Hdc. unfold isLegalCastling.
  pose proof (isKingInCheck_returns (color piece) b) as Hcheck.
  unfold isKingInCheck in *. rewrite Hking in *. simpl in *.
  destruct (isSquareAttacked fr fc (enemyOf (color piece)) b) as [[|] |] eqn:EK;
    [discriminate | | congruence]. simpl.
  set (step := if tc >? fc then 1 else -1).
  assert (Z.abs step = 1 /\ tc = fc + 2 * step) as [Hstep Htc].
  { subst step. destruct (tc >? fc) eqn:E; lia. }
  assert (isSquareAttacked fr (fc + step) (enemyOf (color piece)) b <> None) as Hpass.
  { apply existsM_returns. apply isSquareAttacked_returns.
    intros p Hp Hc.
    destruct (decide (type p = Rook \/ type p = Queen)) as [Ht | Ht];
      [| split; intros ?; apply Ht; auto].
    exfalso.
    assert (attacksFrom fr fc (enemyOf (color piece)) b (fr, fc + step) = Some true) as Hatt
      by (eapply attacksFrom_adjacent; eauto; lia).
    rewrite (existsM_false _ _ EK (fr, fc + step)) in Hatt; [discriminate |].
    apply In_squares. eapply getCell_onBoard; eauto. }
  destruct (isSquareAttacked fr (fc + step) (enemyOf (color piece)) b) as [[|] |] eqn:EP;
    [discriminate | | congruence]. simpl.
  assert (isSquareAttacked fr tc (enemyOf (color piece)) b <> None) as Hdest.
  { apply existsM_returns. apply isSquareAttacked_returns.
    intros p Hp Hc.
    destruct (decide (type p = Rook \/ type p = Queen)) as [Ht | Ht];
      [| split; intros ?; apply Ht; auto].
    exfalso.
    assert (attacksFrom fr (fc + step) (enemyOf (color piece)) b (fr, tc) = Some true) as Hatt
      by (eapply attacksFrom_adjacent; eauto; lia).
    rewrite (existsM_false _ _ EP (fr, tc)) in Hatt; [discriminate |].
    apply In_squares. eapply getCell_onBoard; eauto. }
  destruct (isSquareAttacked fr tc (enemyOf (color piece)) b) as [[|] |] eqn:ED;
    [discriminate | | congruence]. simpl.
  destruct (tc >? fc).
  - destruct (existsb _ _); [discriminate |].
    destruct (getCell b fr (BOARD_SIZE - 1)); discriminate.
  - destruct (existsb _ _); [discriminate |].
    destruct (getCell b fr 0); discriminate.
Qed.

Lemma isLegalMoveBasic_returns (b : Board) (ep : option (Z * Z)) (fr fc tr tc : Z)
  (piece : Piece) :
  wfBoard b -> kingsUnique b -> getCell b fr fc = Some piece ->
  (fr, fc) <> (tr, tc) ->
  isLegalMoveBasic b ep fr fc tr tc piece <> None.
Proof.
  intros Hwf Huniq Hp Hne. unfold isLegalMoveBasic.
  destruct (bool_decide (type piece = Pawn) && (Z.abs (tc - fc) =? 1)
            && (tr =? fr + directionOf (color piece))
            && negb (isSomeb (getCell b tr tc)) && isEnPassantTarget ep tr tc);
    [discriminate |].
  destruct (type piece) eqn:Et; try discriminate.
  - apply isLegalRookMove_returns; assumption.
  - apply isLegalBishopMove_returns.
  - apply isLegalQueenMove_returns; assumption.
  - destruct ((Z.abs (tc - fc) =? 2) && (tr =? fr)) eqn:Ecastle; [| discriminate].
    apply isLegalCastling_returns; try assumption; try lia.
    eapply findKing_unique; eauto.
Qed.

(** On a valid position the legality test returns for every pair of squares. *)
Lemma isLegalMove_returns (b : Board) (ep : option (Z * Z)) (fr fc tr tc : Z) :
  wfBoard b -> kingsUnique b -> isLegalMove b ep fr fc tr tc <> None.
Proof.
  intros Hwf Huniq. unfold isLegalMove.
  destruct (getCell b fr fc) as [piece |] eqn:Hp; [| discriminate].
  destruct ((tr <? 0) || (tr >=? BOARD_SIZE) || (tc <? 0) || (tc >=? BOARD_SIZE));
    [discriminate |].
  assert ((fr, fc) <> (tr, tc) -> isLegalMoveSimulated b ep fr fc tr tc <> None) as Hsim.
  { intros Hne. unfold isLegalMoveSimulated. rewrite Hp.
    pose proof (isLegalMoveBasic_returns b ep fr fc tr tc piece Hwf Huniq Hp Hne) as Hb.
    destruct (isLegalMoveBasic b ep fr fc tr tc piece) as [[|] |]; simpl;
      [| discriminate | congruence].
    destruct (getCell (cloneBoard b) fr fc) as [simPiece |]; [| discriminate].
    pose proof (isKingInCheck_returns (color piece)
                  (simulatedBoard (cloneBoard b) simPiece fr fc tr tc)) as Hk.
    destruct (isKingInCheck _ _); [discriminate | congruence]. }
  destruct (getCell b tr tc) as [dest |] eqn:Hd.
  - destruct (bool_decide (color dest = color piece)) eqn:Ec; [discriminate |].
    apply Hsim. intros Heq. inversion Heq; subst.
    apply bool_decide_eq_false in Ec. congruence.
  - apply Hsim. intros Heq. inversion Heq; subst. congruence.
Qed.


Lemma isLegalMove_true_inv (b : Board) (ep : option (Z * Z)) (fr fc tr tc : Z) :
  isLegalMove b ep fr fc tr tc = Some true ->
  exists piece,
    getCell b fr fc = Some piece /\ onBoard tr tc /\
    (forall dest, getCell b tr tc = Some dest -> color dest <> color piece) /\
    isLegalMoveSimulated b ep fr fc tr tc = Some true.
Proof.
  unfold isLegalMove. intros H.
  destruct (getCell b fr fc) as [piece |] eqn:Hp; [| discriminate].
  exists piece. split; [reflexivity |].
  destruct ((tr <? 0) || (tr >=? BOARD_SIZE) || (tc <? 0) || (tc >=? BOARD_SIZE)) eqn:Er;
    [discriminate |].
  split; [unfold onBoard, BOARD_SIZE in *; lia |].
  destruct (getCell b tr tc) as [dest |] eqn:Hd.
  - destruct (bool_decide (color dest = color piece)) eqn:Ec; [discriminate |].
    apply bool_decide_eq_false in Ec. split; [| assumption].
    intros d Hd'. inversion Hd'; subst. assumption.
  - split; [intros d Hd'; discriminate | assumption].
Qed.

Lemma isLegalMoveSimulated_true_inv (b : Board) (ep : option (Z * Z))
  (fr fc tr tc : Z) (piece : Piece) :
  getCell b fr fc = Some piece ->
  isLegalMoveSimulated b ep fr fc tr tc = Some true ->
  isLegalMoveBasic b ep fr fc tr tc piece = Some true /\
  exists simPiece,
    getCell (cloneBoard b) fr fc = Some simPiece /\
    isKingInCheck (color piece) (simulatedBoard (cloneBoard b) simPiece fr fc tr tc)
      = Some false.
Proof.
  intros Hp. unfold isLegalMoveSimulated. rewrite Hp. intros H.
  destruct (isLegalMoveBasic b ep fr fc tr tc piece) as [[|] |]; simpl in H;
    try discriminate.
  split; [reflexivity |].
  destruct (getCell (cloneBoard b) fr fc) as [simPiece |]; [| discriminate].
  exists simPiece. split; [reflexivity |].
  destruct (isKingInCheck _ _) as [[|] |]; simpl in H; try discriminate. reflexivity.
Qed.

(** C2. On every valid position, when the candidate move carried out on the
    clone (with the rook relocation of castling and the pawn removal of en
    passant) leaves the mover's own king attacked, [isLegalMove] returns
    false, whatever the movement pattern allows. *)
Theorem isLegalMove_pin_enforcement (b : Board) (ep : option (Z * Z))
  (fr fc tr tc : Z) (piece : Piece) :
  wfBoard b -> kingsUnique b ->
  getCell b fr fc = Some piece ->
  isKingInCheck (color piece) (simulatedBoard (cloneBoard b) piece fr fc tr tc)
    = Some true ->
  isLegalMove b ep fr fc tr tc = Some false.
Proof.
  intros Hwf Huniq Hp Hcheck.
  pose proof (isLegalMove_returns b ep fr fc tr tc Hwf Huniq) as Hret.
  destruct (isLegalMove b ep fr fc tr tc) as [[|] |] eqn:E; [| reflexivity | congruence].
  exfalso.
  apply isLegalMove_true_inv in E as (piece' & Hp' & _ & _ & Hsim).
  assert (piece' = piece) as -> by congruence.
  apply (isLegalMoveSimulated_true_inv _ _ _ _ _ _ _ Hp) in Hsim
    as (_ & simPiece & Hsp & Hk).
  rewrite getCell_cloneBoard in Hsp by (eapply getCell_onBoard; eauto).
  assert (simPiece = piece) as -> by congruence.
  congruence.
Qed.

(** ** Castling does not read the king's own flag *)

Lemma sameKind_isSomeb (o1 o2 : option Piece) :
  sameKind o1 o2 -> isSomeb o1 = isSomeb o2.
Proof. destruct o1, o2; simpl; intros H; auto; contradiction. Qed.

Lemma scanLine_ext (n : nat) (occ1 occ2 : Z -> bool) (c step stop : Z) :
  (forall k, occ1 k = occ2 k) ->
  scanLine n occ1 c step stop = scanLine n occ2 c step stop.
Proof.
  intros Hext. revert c. induction n as [| n IH]; intros c; simpl; [reflexivity |].
  rewrite Hext, IH. reflexivity.
Qed.

Lemma existsM_ext {A} (f g : A -> option bool) (l : list A) :
  (forall x, In x l -> f x = g x) -> existsM f l = existsM g l.
Proof.
  induction l as [| x l IH]; intros H; simpl; [reflexivity |].
  rewrite (H x) by (left; reflexivity). rewrite IH; [reflexivity |].
  intros y Hy. apply H. right. assumption.
Qed.

Lemma find_ext {A} (f g : A -> bool) (l : list A) :
  (forall x, f x = g x) -> find f l = find g l.
Proof.
  intros H. induction l as [| x l IH]; simpl; [reflexivity |].
  rewrite H, IH. reflexivity.
Qed.

Section Alike.

Variables b1 b2 : Board.
Hypothesis Halike : boardsAlike b1 b2.

Lemma alike_isSomeb r c : isSomeb (getCell b1 r c) = isSomeb (getCell b2 r c).
Proof. apply sameKind_isSomeb, Halike. Qed.

Lemma alike_isLegalRookMove fr fc tr tc :
  isLegalRookMove b1 fr fc tr tc = isLegalRookMove b2 fr fc tr tc.
Proof.
  unfold isLegalRookMove.
  destruct (negb (fr =? tr) && negb (fc =? tc)); [reflexivity |].
  destruct (fr =? tr); apply scanLine_ext; intros k; apply alike_isSomeb.
Qed.

Lemma alike_scanDiag n r c sr sc toRow :
  scanDiag n b1 r c sr sc toRow = scanDiag n b2 r c sr sc toRow.
Proof.
  revert r c. induction n as [| n IH]; intros r c; simpl; [reflexivity |].
  rewrite alike_isSomeb, IH. reflexivity.
Qed.

Lemma alike_isLegalBishopMove fr fc tr tc :
  isLegalBishopMove b1 fr fc tr tc = isLegalBishopMove b2 fr fc tr tc.
Proof. unfold isLegalBishopMove. rewrite alike_scanDiag. reflexivity. Qed.

Lemma alike_isLegalQueenMove fr fc tr tc :
  isLegalQueenMove b1 fr fc tr tc = isLegalQueenMove b2 fr fc tr tc.
Proof.
  unfold isLegalQueenMove.
  rewrite alike_isLegalRookMove, alike_isLegalBishopMove. reflexivity.
Qed.

Lemma alike_canPieceAttack fr fc tr tc p1 p2 :
  type p1 = type p2 -> color p1 = color p2 ->
  canPieceAttack fr fc tr tc p1 b1 = canPieceAttack fr fc tr tc p2 b2.
Proof.
  intros Ht Hc. unfold canPieceAttack. rewrite Ht, Hc.
  rewrite alike_isLegalRookMove, alike_isLegalBishopMove, alike_isLegalQueenMove.
  reflexivity.
Qed.

Lemma alike_attacksFrom row col byColor rc :
  attacksFrom row col byColor b1 rc = attacksFrom row col byColor b2 rc.
Proof.
  destruct rc as [r c]. unfold attacksFrom.
  pose proof (Halike r c) as H.
  destruct (getCell b1 r c) as [p1 |], (getCell b2 r c) as [p2 |]; simpl in H;
    try contradiction; [| reflexivity].
  destruct H as [Ht Hc]. rewrite Ht, Hc.
  rewrite (alike_canPieceAttack r c row col p1 p2 Ht Hc). reflexivity.
Qed.

Lemma alike_isSquareAttacked row col byColor :
  isSquareAttacked row col byColor b1 = isSquareAttacked row col byColor b2.
Proof.
  unfold isSquareAttacked. apply existsM_ext. intros rc _. apply alike_attacksFrom.
Qed.

Lemma alike_findKing c : findKing c b1 = findKing c b2.
Proof.
  unfold findKing. apply find_ext. intros [r k]. unfold isKingOf. simpl.
  pose proof (Halike r k) as H.
  destruct (getCell b1 r k) as [p1 |], (getCell b2 r k) as [p2 |]; simpl in H;
    try contradiction; [| reflexivity].
  destruct H as [-> ->]. reflexivity.
Qed.

Lemma alike_isKingInCheck c : isKingInCheck c b1 = isKingInCheck c b2.
Proof.
  unfold isKingInCheck. rewrite alike_findKing.
  destruct (findKing c b2); [apply alike_isSquareAttacked | reflexivity].
Qed.

End Alike.

Lemma boardsAlike_setCell (b1 b2 : Board) (r c : Z) (v1 v2 : option Piece) :
  wfBoard b1 -> wfBoard b2 -> boardsAlike b1 b2 -> sameKind v1 v2 ->
  boardsAlike (setCell b1 r c v1) (setCell b2 r c v2).
Proof.
  intros Hwf1 Hwf2 Halike Hv r' c'.
  destruct (decide (onBoard r c)) as [Hon | Hoff].
  - rewrite !getCell_setCell by assumption.
    destruct ((r =? r') && (c =? c')); [assumption | apply Halike].
  - destruct (decide ((r, c) = (r', c'))) as [Heq | Hne].
    + inversion Heq; subst.
      rewrite !getCell_offBoard; try (apply wfBoard_setCell); try assumption.
      exact I.
    + rewrite !getCell_setCell_ne by assumption. apply Halike.
Qed.

Lemma sameKind_refl (o : option Piece) : sameKind o o.
Proof. destruct o; simpl; auto. Qed.

Lemma existsb_ext' {A} (f g : A -> bool) (l : list A) :
  (forall x, f x = g x) -> existsb f l = existsb g l.
Proof.
  intros H. induction l as [| x l IH]; simpl; [reflexivity |].
  rewrite H, IH. reflexivity.
Qed.

Lemma wfBoard_simulatedBoard (b : Board) (p : Piece) (fr fc tr tc : Z) :
  wfBoard b -> wfBoard (simulatedBoard b p fr fc tr tc).
Proof.
  intros Hwf. unfold simulatedBoard.
  repeat match goal with
         | |- wfBoard (if ?c then _ else _) => destruct c
         | |- wfBoard (setCell _ _ _ _) => apply wfBoard_setCell
         end; assumption.
Qed.

Lemma alike_simulatedBoard (b1 b2 : Board) (p1 p2 : Piece) (fr fc tr tc : Z) :
  wfBoard b1 -> wfBoard b2 -> boardsAlike b1 b2 ->
  type p1 = type p2 -> color p1 = color p2 ->
  boardsAlike (simulatedBoard b1 p1 fr fc tr tc) (simulatedBoard b2 p2 fr fc tr tc).
Proof.
  intros Hwf1 Hwf2 Halike Ht Hc. unfold simulatedBoard.
  rewrite Ht. rewrite (alike_isSomeb b1 b2 Halike tr tc).
  set (sim1 := fun b : Board =>
         if bool_decide (type p2 = Pawn) && (Z.abs (tc - fc) =? 1)
            && negb (isSomeb (getCell b2 tr tc))
         then setCell b fr tc None else setCell b tr tc None).
  assert (wfBoard (sim1 b1) /\ wfBoard (sim1 b2) /\ boardsAlike (sim1 b1) (sim1 b2))
    as (Hw1 & Hw2 & Ha).
  { subst sim1. simpl.
    destruct (bool_decide (type p2 = Pawn) && (Z.abs (tc - fc) =? 1)
              && negb (isSomeb (getCell b2 tr tc)));
      (split; [apply wfBoard_setCell; assumption |
       split; [apply wfBoard_setCell; assumption |
               apply boardsAlike_setCell; auto; exact I]]). }
  fold (sim1 b1). fold (sim1 b2).
  set (s1 := setCell (setCell (sim1 b1) tr tc (Some p1)) fr fc None).
  set (s2 := setCell (setCell (sim1 b2) tr tc (Some p2)) fr fc None).
  assert (wfBoard s1 /\ wfBoard s2 /\ boardsAlike s1 s2) as (Hs1 & Hs2 & Hsa).
  { subst s1 s2.
    split; [repeat apply wfBoard_setCell; assumption |].
    split; [repeat apply wfBoard_setCell; assumption |].
    apply boardsAlike_setCell; try (apply wfBoard_setCell; assumption); [| exact I].
    apply boardsAlike_setCell; try assumption. simpl. auto. }
  destruct (bool_decide (type p2 = King) && (Z.abs (tc - fc) =? 2)); [| assumption].
  destruct (tc >? fc).
  - apply boardsAlike_setCell; try (apply wfBoard_setCell; assumption); [| exact I].
    apply boardsAlike_setCell; try assumption. apply Hsa.
  - apply boardsAlike_setCell; try (apply wfBoard_setCell; assumption); [| exact I].
    apply boardsAlike_setCell; try assumption. apply Hsa.
Qed.

(** C5. A castling move is judged alike in two runs that differ only in the
    [hasMoved] flag of the king: neither the castling check of
    [isLegalMoveBasic] nor the full [isLegalMove] reads that flag. *)
Theorem castling_ignores_king_hasMoved (b : Board) (ep : option (Z * Z))
  (fr fc tr tc : Z) (king : Piece) (flag : bool) :
  wfBoard b -> getCell b fr fc = Some king -> type king = King ->
  onBoard tr tc -> tr = fr -> Z.abs (tc - fc) = 2 ->
  let king' := mkPiece King (color king) flag in
  let b' := setCell b fr fc (Some king') in
  isLegalMoveBasic b' ep fr fc tr tc king' = isLegalMoveBasic b ep fr fc tr tc king /\
  isLegalMove b' ep fr fc tr tc = isLegalMove b ep fr fc tr tc.
Proof.
  intros Hwf Hk Htype Hto -> Hdc king' b'.
  assert (onBoard fr fc) as Hfrom by (eapply getCell_onBoard; eauto).
  assert (wfBoard b') as Hwf' by (apply wfBoard_setCell; assumption).
  assert (boardsAlike b' b) as Halike.
  { intros r c. subst b'. rewrite getCell_setCell by assumption.
    destruct ((fr =? r) && (fc =? c)) eqn:E; [| apply sameKind_refl].
    assert (fr = r /\ fc = c) as [<- <-] by lia. rewrite Hk. simpl.
    rewrite Htype. auto. }
  assert (forall c, c <> fc -> getCell b' fr c = getCell b fr c) as Hother.
  { intros c Hc. subst b'. apply getCell_setCell_ne. congruence. }
  assert (isLegalMoveBasic b' ep fr fc fr tc king' = isLegalMoveBasic b ep fr fc fr tc king)
    as Hbasic.
  { unfold isLegalMoveBasic. rewrite Htype. simpl.
    replace ((Z.abs (tc - fc) =? 2) && (fr =? fr)) with true by lia.
    unfold isLegalCastling. simpl.
    rewrite (alike_isKingInCheck b' b Halike).
    rewrite !(alike_isSquareAttacked b' b Halike).
    rewrite (existsb_ext' (fun c => isSomeb (getCell b' fr c))
                          (fun c => isSomeb (getCell b fr c)))
      by (intros c; apply alike_isSomeb; assumption).
    rewrite (existsb_ext' (fun c => isSomeb (getCell b' fr c))
                          (fun c => isSomeb (getCell b fr c)) (columnsFromTo tc (fc - 1)))
      by (intros c; apply alike_isSomeb; assumption).
    destruct Hto as [_ Htc]. destruct Hfrom as [_ Hfc]. unfold BOARD_SIZE in *.
    destruct (tc >? fc) eqn:Edir.
    - rewrite (Hother (8 - 1)) by lia. reflexivity.
    - rewrite (Hother 0) by lia. reflexivity. }
  split; [assumption |].
  unfold isLegalMove. subst b'.
  rewrite getCell_setCell_eq by assumption. rewrite Hk.
  rewrite getCell_setCell_ne by (intros Heq; inversion Heq; lia).
  assert (isLegalMoveSimulated (setCell b fr fc (Some king')) ep fr fc fr tc =
          isLegalMoveSimulated b ep fr fc fr tc) as Hsim.
  { unfold isLegalMoveSimulated.
    rewrite getCell_setCell_eq by assumption. rewrite Hk. rewrite Hbasic.
    rewrite !cloneBoard_id by assumption.
    rewrite getCell_setCell_eq by assumption. rewrite Hk.
    rewrite (alike_isKingInCheck _ _
               (alike_simulatedBoard _ _ king' king fr fc fr tc Hwf' Hwf Halike
                  (eq_sym Htype) eq_refl)).
    reflexivity. }
  rewrite Hsim. reflexivity.
Qed.

(** ** What a legal move looks like *)

Lemma In_columnsFromTo (lo hi c : Z) : In c (columnsFromTo lo hi) <-> lo <= c <= hi.
Proof.
  unfold columnsFromTo. rewrite in_map_iff. split.
  - intros (i & <- & Hi). apply in_seq in Hi. lia.
  - intros H. exists (Z.to_nat (c - lo)). split; [lia |]. apply in_seq. lia.
Qed.

Lemma existsb_false_inv {A} (f : A -> bool) (l : list A) :
  existsb f l = false -> forall x, In x l -> f x = false.
Proof.
  intros H x Hin. destruct (f x) eqn:E; [| reflexivity].
  assert (existsb f l = true) by (apply existsb_exists; eauto). congruence.
Qed.

Lemma isSomeb_false {A} (o : option A) : isSomeb o = false -> o = None.
Proof. destruct o; simpl; congruence. Qed.

(** A castling move accepted by the basic check: the squares from the king
    (excluded) to its destination (included) are empty, and the corner of the
    row on that side holds a piece that has not moved. *)
Lemma isLegalCastling_true_inv (b : Board) (fr fc tr tc : Z) (piece : Piece) :
  isLegalCastling b fr fc tr tc piece = Some true ->
  isKingInCheck (color piece) b = Some false /\
  isSquareAttacked fr (fc + (if tc >? fc then 1 else -1)) (enemyOf (color piece)) b
    = Some false /\
  isSquareAttacked tr tc (enemyOf (color piece)) b = Some false /\
  (if tc >? fc
   then (forall c, fc + 1 <= c <= tc -> getCell b fr c = None) /\
        exists rook, getCell b fr (BOARD_SIZE - 1) = Some rook /\ hasMoved rook = false
   else (forall c, tc <= c <= fc - 1 -> getCell b fr c = None) /\
        exists rook, getCell b fr 0 = Some rook /\ hasMoved rook = false).
Proof.
  unfold isLegalCastling. intros H.
  destruct (isKingInCheck (color piece) b) as [[|] |]; simpl in H; try discriminate.
  destruct (isSquareAttacked fr _ _ b) as [[|] |]; simpl in H; try discriminate.
  destruct (isSquareAttacked tr tc _ b) as [[|] |]; simpl in H; try discriminate.
  repeat (split; [reflexivity |]).
  destruct (tc >? fc).
  - destruct (existsb _ _) eqn:Eex; [discriminate |].
    destruct (getCell b fr (BOARD_SIZE - 1)) as [rook |]; [| discriminate].
    split.
    + intros c Hc. apply isSomeb_false.
      apply (existsb_false_inv _ _ Eex c). apply In_columnsFromTo. lia.
    + exists rook. split; [reflexivity |]. destruct (hasMoved rook); simpl in H; congruence.
  - destruct (existsb _ _) eqn:Eex; [discriminate |].
    destruct (getCell b fr 0) as [rook |]; [| discriminate].
    split.
    + intros c Hc. apply isSomeb_false.
      apply (existsb_false_inv _ _ Eex c). apply In_columnsFromTo. lia.
    + exists rook. split; [reflexivity |]. destruct (hasMoved rook); simpl in H; congruence.
Qed.

(** A king accepted on a square two columns away is castling. *)
Lemma isLegalMoveBasic_king_two_columns (b : Board) (ep : option (Z * Z))
  (fr fc tr tc : Z) (piece : Piece) :
  type piece = King -> Z.abs (tc - fc) = 2 ->
  isLegalMoveBasic b ep fr fc tr tc piece = Some true ->
  tr = fr /\ isLegalCastling b fr fc tr tc piece = Some true.
Proof.
  intros Ht Hdc. unfold isLegalMoveBasic. rewrite Ht. simpl.
  destruct ((Z.abs (tc - fc) =? 2) && (tr =? fr)) eqn:E.
  - intros H. split; [lia | assumption].
  - unfold isLegalKingMove. intros H. inversion H. lia.
Qed.

(** A pawn accepted on an empty square of a neighbouring column moves one row
    forward onto the en-passant target. *)
Lemma isLegalMoveBasic_pawn_diagonal_empty (b : Board) (ep : option (Z * Z))
  (fr fc tr tc : Z) (piece : Piece) :
  type piece = Pawn -> fc <> tc -> getCell b tr tc = None ->
  isLegalMoveBasic b ep fr fc tr tc piece = Some true ->
  Z.abs (tc - fc) = 1 /\ tr = fr + directionOf (color piece) /\ ep = Some (tr, tc).
Proof.
  intros Ht Hdc Hempty. unfold isLegalMoveBasic. rewrite Ht. simpl.
  destruct ((Z.abs (tc - fc) =? 1) && (tr =? fr + directionOf (color piece))
            && negb (isSomeb (getCell b tr tc)) && isEnPassantTarget ep tr tc) eqn:E.
  - intros _. unfold isEnPassantTarget in E. destruct ep as [[row col] |]; [| lia].
    repeat split; try lia. f_equal. f_equal; lia.
  - unfold isLegalPawnMove. rewrite Hempty. simpl.
    replace (tc =? fc) with false by lia. simpl.
    destruct ((Z.abs (tc - fc) =? 1) && (tr =? fr + directionOf (color piece)));
      discriminate.
Qed.

(** A pawn accepted two rows away has not moved and steps straight ahead
    over an empty square onto an empty square. *)
Lemma isLegalMoveBasic_pawn_two_rows (b : Board) (ep : option (Z * Z))
  (fr fc tr tc : Z) (piece : Piece) :
  type piece = Pawn -> Z.abs (tr - fr) = 2 ->
  isLegalMoveBasic b ep fr fc tr tc piece = Some true ->
  tc = fc /\ hasMoved piece = false /\ tr = fr + 2 * directionOf (color piece).
Proof.
  intros Ht Hdr. unfold isLegalMoveBasic. rewrite Ht. simpl.
  assert (Z.abs (directionOf (color piece)) = 1) as Hdir
    by (unfold directionOf; destruct (bool_decide _); lia).
  replace (tr =? fr + directionOf (color piece)) with false by lia.
  rewrite andb_false_r. simpl.
  unfold isLegalPawnMove.
  replace (tr =? fr + directionOf (color piece)) with false by lia.
  rewrite !andb_false_r. simpl.
  destruct ((tc =? fc) && negb (hasMoved piece)
            && (tr =? fr + 2 * directionOf (color piece))
            && negb (isSomeb (getCell b (fr + directionOf (color piece)) fc))
            && negb (isSomeb (getCell b tr tc))) eqn:E; [| discriminate].
  intros _. destruct (hasMoved piece); simpl in E; [lia |]. repeat split; lia.
Qed.

(** A pawn accepted by the basic check moves one or two rows. *)
Lemma isLegalMoveBasic_pawn_rows (b : Board) (ep : option (Z * Z))
  (fr fc tr tc : Z) (piece : Piece) :
  type piece = Pawn ->
  isLegalMoveBasic b ep fr fc tr tc piece = Some true ->
  tr = fr + directionOf (color piece) \/
  (tr = fr + 2 * directionOf (color piece) /\ tc = fc /\ hasMoved piece = false).
Proof.
  intros Ht. unfold isLegalMoveBasic. rewrite Ht. simpl.
  destruct ((Z.abs (tc - fc) =? 1) && (tr =? fr + directionOf (color piece))
            && negb (isSomeb (getCell b tr tc)) && isEnPassantTarget ep tr tc) eqn:E.
  - intros _. left. lia.
  - unfold isLegalPawnMove.
    destruct ((tc =? fc) && (tr =? fr + directionOf (color piece))
              && negb (isSomeb (getCell b tr tc))) eqn:E1; [intros _; left; lia |].
    destruct ((tc =? fc) && negb (hasMoved piece)
              && (tr =? fr + 2 * directionOf (color piece))
              && negb (isSomeb (getCell b (fr + directionOf (color piece)) fc))
              && negb (isSomeb (getCell b tr tc))) eqn:E2.
    + intros _. right. destruct (hasMoved piece); simpl in E2; [lia |].
      repeat split; lia.
    + destruct ((Z.abs (tc - fc) =? 1) && (tr =? fr + directionOf (color piece))) eqn:E3;
        [intros _; left; lia | discriminate].
Qed.

(** The facts about a legal move that the executor relies on. *)
Lemma isLegalMove_facts (b : Board) (ep : option (Z * Z)) (fr fc tr tc : Z) :
  wfBoard b ->
  isLegalMove b ep fr fc tr tc = Some true ->
  exists piece,
    getCell b fr fc = Some piece /\ onBoard fr fc /\ onBoard tr tc /\
    (fr, fc) <> (tr, tc) /\
    (forall dest, getCell b tr tc = Some dest -> color dest <> color piece) /\
    isLegalMoveBasic b ep fr fc tr tc piece = Some true.
Proof.
  intros Hwf H. apply isLegalMove_true_inv in H as (piece & Hp & Hto & Hdest & Hsim).
  exists piece. split; [assumption |].
  split; [eapply getCell_onBoard; eauto |]. split; [assumption |].
  split.
  - intros Heq. inversion Heq; subst. eapply Hdest; eauto.
  - split; [assumption |].
    apply (isLegalMoveSimulated_true_inv _ _ _ _ _ _ _ Hp) in Hsim. tauto.
Qed.

(** ** Apply, then undo *)


Lemma enemyOf_involutive (c : PieceColor) : enemyOf (enemyOf c) = c.
Proof. destruct c; reflexivity. Qed.

(** Reads of cells after writes, on well-formed boards. *)
Ltac wf_board :=
  repeat first [ assumption | apply wfBoard_setCell ].

Ltac cells :=
  repeat (rewrite getCell_setCell by (first [ wf_board | assumption ])).


Section ApplyUndo.

Variable g : Game.
Variables fr fc tr tc : Z.
Variable piece : Piece.

Hypothesis Hwf : wfBoard (board g).
Hypothesis Hplaying : gameState g = Playing.
Hypothesis Hpiece : getCell (board g) fr fc = Some piece.
Hypothesis Hfrom : onBoard fr fc.
Hypothesis Hto : onBoard tr tc.
Hypothesis Hne : (fr, fc) <> (tr, tc).
Hypothesis Hdest : forall dest, getCell (board g) tr tc = Some dest ->
                                color dest <> color piece.
Hypothesis Hbasic :
  isLegalMoveBasic (board g) (enPassantTarget g) fr fc tr tc piece = Some true.

Local Abbreviation core := (movePieceCore g fr fc tr tc piece).
Local Abbreviation undone := (undoLastMove (flipTurn core)).





End ApplyUndo.


(** ** The en-passant target *)

Lemma updateGameStatus_preserves (g g' : Game) :
  updateGameStatus g = Some g' ->
  board g' = board g /\ enPassantTarget g' = enPassantTarget g /\
  currentTurn g' = currentTurn g /\ whiteScore g' = whiteScore g /\
  blackScore g' = blackScore g /\ moveHistory g' = moveHistory g.
Proof.
  unfold updateGameStatus. intros H.
  destruct (gameOver g); [inversion H; subst; repeat split |].
  destruct (isKingInCheck (currentTurn g) (board g)); simpl in H; [| discriminate].
  destruct (hasAnyLegalMove _ _ _) as [[|] |]; simpl in H; inversion H; subst;
    repeat split.
Qed.

Lemma enPassantTarget_movePieceCore (g : Game) (fr fc tr tc : Z) (piece : Piece) :
  enPassantTarget (movePieceCore g fr fc tr tc piece) =
  if bool_decide (promotedType piece tr = Pawn) && (Z.abs (tr - fr) =? 2)
  then Some (fr + (tr - fr) / 2, fc) else None.
Proof.
  unfold movePieceCore.
  destruct (enPassantCapture _ _ _ _ _ _ _) as [b1 epc].
  destruct (castlingRelocation _ _ _ _ _) as [b2 cast]. reflexivity.
Qed.

Lemma applyMove_inv (g g' : Game) (fr fc tr tc : Z) (piece : Piece) :
  getCell (board g) fr fc = Some piece ->
  applyMove g fr fc tr tc = Some g' ->
  board g' = board (movePieceCore g fr fc tr tc piece) /\
  enPassantTarget g' = enPassantTarget (movePieceCore g fr fc tr tc piece) /\
  currentTurn g' = enemyOf (currentTurn g).
Proof.
  intros Hp Happly. unfold applyMove, movePiece in Happly. rewrite Hp in Happly.
  destruct (updateGameStatus (movePieceCore g fr fc tr tc piece)) as [g1 |] eqn:Hstatus;
    simpl in Happly; [| discriminate].
  inversion Happly; subst g'. simpl.
  apply updateGameStatus_preserves in Hstatus as (Hb & He & Ht & _).
  rewrite Hb, He, Ht. repeat split.
  unfold movePieceCore.
  destruct (enPassantCapture _ _ _ _ _ _ _) as [b1 epc].
  destruct (castlingRelocation _ _ _ _ _) as [b2 cast]. reflexivity.
Qed.


(** ** Validity of concrete positions *)

Lemma wfBoardb_sound (b : Board) : wfBoardb b = true -> wfBoard b.
Proof.
  unfold wfBoardb, wfBoard. intros H. apply andb_true_iff in H as [H1 H2].
  split; [apply Nat.eqb_eq; assumption |].
  apply Forall_forall. intros row Hrow. apply list_elem_of_In in Hrow.
  rewrite forallb_forall in H2. apply Nat.eqb_eq. apply H2. assumption.
Qed.

Lemma NoDup_squares : List.NoDup squares.
Proof.
  assert (forall l : list (Z * Z),
            (fix nodupb (l : list (Z * Z)) : bool :=
               match l with
               | [] => true
               | x :: rest =>
                   negb (existsb (fun y => (x.1 =? y.1) && (x.2 =? y.2)) rest)
                   && nodupb rest
               end) l = true -> List.NoDup l) as Hsound.
  { induction l as [| x l IH]; intros H; [constructor |].
    apply andb_true_iff in H as [H1 H2]. constructor; [| apply IH; assumption].
    intros Hin. apply negb_true_iff in H1.
    assert (existsb (fun y => (x.1 =? y.1) && (x.2 =? y.2)) l = true) as Hex.
    { apply existsb_exists. exists x. split; [assumption |]. rewrite !Z.eqb_refl. reflexivity. }
    congruence. }
  apply Hsound. vm_compute. reflexivity.
Qed.

Lemma filter_two {A} (f : A -> bool) (l : list A) (x y : A) :
  List.NoDup l -> In x l -> In y l -> x <> y -> f x = true -> f y = true ->
  (2 <= length (List.filter f l))%nat.
Proof.
  intros Hnd Hx Hy Hne Hfx Hfy.
  assert (List.NoDup (List.filter f l)) as Hnd' by (apply List.NoDup_filter; assumption).
  assert (List.incl [x; y] (List.filter f l)) as Hincl.
  { intros z [<- | [<- | []]]; apply filter_In; auto. }
  apply (List.NoDup_incl_length) in Hincl; [exact Hincl |].
  constructor; [| constructor; [intros [] | constructor]].
  intros [Heq | []]. congruence.
Qed.

Lemma kingsUniqueb_sound (b : Board) :
  wfBoard b -> kingsUniqueb b = true -> kingsUnique b.
Proof.
  intros Hwf H r1 c1 r2 c2 p1 p2 H1 H2 Ht1 Ht2 Hc.
  destruct (decide ((r1, c1) = (r2, c2))) as [Heq | Hne]; [assumption |].
  exfalso.
  assert (2 <= countKings (color p1) b)%nat as Hcount.
  { unfold countKings.
    apply (filter_two _ _ (r1, c1) (r2, c2)); try assumption.
    - apply NoDup_squares.
    - apply In_squares. eapply getCell_onBoard; eauto.
    - apply In_squares. eapply getCell_onBoard; eauto.
    - unfold isKingOf. simpl. rewrite H1, Ht1.
      rewrite !bool_decide_eq_true_2 by reflexivity. reflexivity.
    - unfold isKingOf. simpl. rewrite H2, Ht2.
      rewrite !bool_decide_eq_true_2 by (auto; congruence). reflexivity. }
  unfold kingsUniqueb in H. apply andb_true_iff in H as [Hw Hb].
  apply Nat.leb_le in Hw, Hb. destruct (color p1); lia.
Qed.

Lemma pawnsAtHomeb_sound (b : Board) :
  wfBoard b -> pawnsAtHomeb b = true -> pawnsAtHome b.
Proof.
  intros Hwf H r c p Hp Ht Hm.
  unfold pawnsAtHomeb in H. rewrite forallb_forall in H.
  specialize (H (r, c)). simpl in H. rewrite Hp, Ht, Hm in H.
  rewrite bool_decide_eq_true_2 in H by reflexivity. simpl in H.
  apply Z.eqb_eq. apply H. apply In_squares. eapply getCell_onBoard; eauto.
Qed.

Lemma wfBoard_initBoard : wfBoard initBoard.
Proof. apply wfBoardb_sound. reflexivity. Qed.

Lemma kingsUnique_initBoard : kingsUnique initBoard.
Proof. apply kingsUniqueb_sound; [apply wfBoard_initBoard | reflexivity]. Qed.

Lemma pawnsAtHome_initBoard : pawnsAtHome initBoard.
Proof. apply pawnsAtHomeb_sound; [apply wfBoard_initBoard | reflexivity]. Qed.

(** ** Play keeps positions valid *)

Lemma setCell_offBoard (b : Board) (r c : Z) (v : option Piece) :
  wfBoard b -> ~ onBoard r c -> setCell b r c v = b.
Proof.
  intros Hwf Hoff. apply board_ext; [apply wfBoard_setCell; assumption | assumption |].
  intros r' c' Hon. apply getCell_setCell_ne. intros Heq. inversion Heq; subst. tauto.
Qed.

Lemma kingsUnique_remove (b : Board) (r c : Z) :
  wfBoard b -> kingsUnique b -> kingsUnique (setCell b r c None).
Proof.
  intros Hwf Huniq.
  destruct (decide (onBoard r c)) as [Hon | Hoff];
    [| rewrite setCell_offBoard by assumption; assumption].
  intros r1 c1 r2 c2 p1 p2 H1 H2. rewrite getCell_setCell in H1, H2 by assumption.
  destruct ((r =? r1) && (c =? c1)); [discriminate |].
  destruct ((r =? r2) && (c =? c2)); [discriminate |].
  eapply Huniq; eauto.
Qed.

Lemma kingsUnique_place (b : Board) (r c : Z) (q : Piece) :
  wfBoard b -> kingsUnique b -> type q <> King ->
  kingsUnique (setCell b r c (Some q)).
Proof.
  intros Hwf Huniq Hq.
  destruct (decide (onBoard r c)) as [Hon | Hoff];
    [| rewrite setCell_offBoard by assumption; assumption].
  intros r1 c1 r2 c2 p1 p2 H1 H2 Ht1 Ht2. rewrite getCell_setCell in H1, H2 by assumption.
  destruct ((r =? r1) && (c =? c1)); [congruence |].
  destruct ((r =? r2) && (c =? c2)); [congruence |].
  eapply Huniq; eauto.
Qed.

(** Taking a piece from one square to another keeps the kings unique. *)
Lemma kingsUnique_move (b : Board) (r c r' c' : Z) (q q' : Piece) :
  wfBoard b -> kingsUnique b -> getCell b r c = Some q ->
  (type q' = King -> type q = King) -> color q' = color q ->
  kingsUnique (setCell (setCell b r c None) r' c' (Some q')).
Proof.
  intros Hwf Huniq Hq Hkind Hcol.
  assert (onBoard r c) as Hon by (eapply getCell_onBoard; eauto).
  destruct (decide (onBoard r' c')) as [Hon' | Hoff];
    [| rewrite setCell_offBoard by (wf_board || assumption);
       apply kingsUnique_remove; assumption].
  intros r1 c1 r2 c2 p1 p2 H1 H2 Ht1 Ht2 Hc.
  rewrite !getCell_setCell in H1, H2 by wf_board.
  destruct ((r' =? r1) && (c' =? c1)) eqn:E1, ((r' =? r2) && (c' =? c2)) eqn:E2.
  - f_equal; lia.
  - exfalso. destruct ((r =? r2) && (c =? c2)) eqn:E3; [discriminate |].
    inversion H1; subst p1.
    assert ((r, c) = (r2, c2)) as Heq by (eapply Huniq; eauto; congruence).
    inversion Heq; subst. lia.
  - exfalso. destruct ((r =? r1) && (c =? c1)) eqn:E3; [discriminate |].
    inversion H2; subst p2.
    assert ((r1, c1) = (r, c)) as Heq by (eapply Huniq; eauto; congruence).
    inversion Heq; subst. lia.
  - destruct ((r =? r1) && (c =? c1)); [discriminate |].
    destruct ((r =? r2) && (c =? c2)); [discriminate |].
    eapply Huniq; eauto.
Qed.

Lemma setCell_comm (b : Board) (r1 c1 r2 c2 : Z) (v1 v2 : option Piece) :
  wfBoard b -> (r1, c1) <> (r2, c2) ->
  setCell (setCell b r1 c1 v1) r2 c2 v2 = setCell (setCell b r2 c2 v2) r1 c1 v1.
Proof.
  intros Hwf Hne. apply board_ext; [wf_board | wf_board |].
  intros r c Hon.
  destruct (decide ((r2, c2) = (r, c))) as [Heq2 | Hne2].
  - inversion Heq2; subst.
    rewrite getCell_setCell_eq by wf_board.
    rewrite getCell_setCell_ne by assumption.
    rewrite getCell_setCell_eq by wf_board. reflexivity.
  - rewrite (getCell_setCell_ne _ r2 c2) by assumption.
    destruct (decide ((r1, c1) = (r, c))) as [Heq1 | Hne1].
    + inversion Heq1; subst.
      destruct (decide (onBoard r c)) as [Hon1 | Hoff]; [| tauto].
      rewrite !getCell_setCell_eq by wf_board. reflexivity.
    + rewrite !getCell_setCell_ne by assumption. reflexivity.
Qed.

Section CorePreserves.

Variable g : Game.
Variables fr fc tr tc : Z.
Variable piece : Piece.

Hypothesis Hwf : wfBoard (board g).
Hypothesis Hpiece : getCell (board g) fr fc = Some piece.
Hypothesis Hto : onBoard tr tc.
Hypothesis Hne : (fr, fc) <> (tr, tc).
Hypothesis Hbasic :
  isLegalMoveBasic (board g) (enPassantTarget g) fr fc tr tc piece = Some true.

Local Abbreviation core := (movePieceCore g fr fc tr tc piece).

Lemma wfBoard_movePieceCore : wfBoard (board core).
Proof.
  unfold movePieceCore, enPassantCapture, castlingRelocation.
  repeat match goal with
         | |- context [ if ?c then _ else _ ] => destruct c
         | |- context [ match getCell ?b ?r ?c with _ => _ end ] =>
             destruct (getCell b r c)
         end; simpl; wf_board.
Qed.

(** The board of the executor, in the three shapes it can take. *)
Lemma board_movePieceCore :
  exists b2,
    board core =
      setCell (setCell b2 tr tc
                 (Some (mkPiece (promotedType piece tr) (color piece) true)))
              fr fc None /\
    wfBoard b2 /\ getCell b2 fr fc = Some piece /\
    (kingsUnique (board g) -> kingsUnique b2) /\
    (pawnsAtHome (board g) -> pawnsAtHome b2).
Proof.
  unfold movePieceCore.
  assert (onBoard fr fc) as Hfrom by (eapply getCell_onBoard; eauto).
  (* the en-passant step *)
  assert (exists b1 epc,
            enPassantCapture (board g) (enPassantTarget g) fr fc tr tc piece = (b1, epc) /\
            wfBoard b1 /\ getCell b1 fr fc = Some piece /\
            (type piece = King -> b1 = board g) /\
            (kingsUnique (board g) -> kingsUnique b1) /\
            (pawnsAtHome (board g) -> pawnsAtHome b1))
    as (b1 & epc & -> & Hwf1 & Hp1 & Hking1 & Hu1 & Hh1).
  { unfold enPassantCapture.
    destruct (bool_decide (type piece = Pawn) && (Z.abs (tc - fc) =? 1)
              && negb (isSomeb (getCell (board g) tr tc))
              && isEnPassantTarget (enPassantTarget g) tr tc) eqn:Eep;
      [| exists (board g), None; split; [reflexivity |]; split; [assumption |];
         split; [assumption |]; repeat split; auto].
    destruct (getCell (board g) fr tc) as [cap |] eqn:Hcap;
      [| exists (board g), None; split; [reflexivity |]; split; [assumption |];
         split; [assumption |]; repeat split; auto].
    eexists _, _. split; [reflexivity |].
    split; [wf_board |].
    split; [rewrite getCell_setCell_ne by (intros Heq; inversion Heq; lia); assumption |].
    split.
    { intros Hk. apply andb_true_iff in Eep as [Eep _].
      apply andb_true_iff in Eep as [Eep _]. apply andb_true_iff in Eep as [Eep _].
      apply bool_decide_eq_true in Eep. congruence. }
    split; [intros Hu; apply kingsUnique_remove; assumption |].
    intros Hh r c p Hp. destruct (decide (onBoard fr tc)) as [Hon | Hoff].
    - rewrite getCell_setCell in Hp by assumption.
      destruct ((fr =? r) && (tc =? c)); [discriminate | eapply Hh; eauto].
    - rewrite setCell_offBoard in Hp by assumption. eapply Hh; eauto. }
  (* the castling step *)
  assert (exists b2 cast,
            castlingRelocation b1 fr fc tc piece = (b2, cast) /\
            wfBoard b2 /\ getCell b2 fr fc = Some piece /\
            (kingsUnique b1 -> kingsUnique b2) /\
            (pawnsAtHome b1 -> pawnsAtHome b2))
    as (b2 & cast & -> & Hwf2 & Hp2 & Hu2 & Hh2).
  { unfold castlingRelocation.
    destruct (bool_decide (type piece = King) && (Z.abs (tc - fc) =? 2)) eqn:Ecastle;
      [| exists b1, None; split; [reflexivity |]; split; [assumption |];
         split; [assumption |]; split; auto].
    apply andb_true_iff in Ecastle as [Ht Hdc]. apply bool_decide_eq_true in Ht.
    assert (Z.abs (tc - fc) = 2) as Hdc' by lia.
    rewrite (Hking1 Ht) in *.
    destruct (isLegalMoveBasic_king_two_columns _ _ _ _ _ _ _ Ht Hdc' Hbasic)
      as (Hrow & Hcastle).
    apply isLegalCastling_true_inv in Hcastle as (_ & _ & _ & Hside).
    destruct Hfrom as [Hfr Hfc], Hto as [Htr Htc]. unfold BOARD_SIZE in *.
    destruct (tc >? fc) eqn:Edir.
    - destruct Hside as (Hempties & rook & Hrook & Hflag).
      change (8 - 1) with 7 in *. rewrite Hrook.
      eexists _, _. split; [reflexivity |]. split; [wf_board |].
      split.
      { rewrite !getCell_setCell_ne by (intros Heq; inversion Heq; lia). assumption. }
      split.
      { intros Hu. eapply kingsUnique_move; eauto. }
      intros Hh r c p Hp.
      rewrite !getCell_setCell in Hp by (wf_board || (unfold onBoard, BOARD_SIZE; lia)).
      destruct ((fr =? r) && (fc + 1 =? c)) eqn:E1.
      + inversion Hp; subst p. assert (r = fr) as -> by lia. eapply Hh; eauto.
      + destruct ((fr =? r) && (7 =? c)); [discriminate | eapply Hh; eauto].
    - destruct Hside as (Hempties & rook & Hrook & Hflag). rewrite Hrook.
      eexists _, _. split; [reflexivity |]. split; [wf_board |].
      split.
      { rewrite !getCell_setCell_ne by (intros Heq; inversion Heq; lia). assumption. }
      split.
      { intros Hu. eapply kingsUnique_move; eauto. }
      intros Hh r c p Hp.
      rewrite !getCell_setCell in Hp by (wf_board || (unfold onBoard, BOARD_SIZE; lia)).
      destruct ((fr =? r) && (fc - 1 =? c)) eqn:E1.
      + inversion Hp; subst p. assert (r = fr) as -> by lia. eapply Hh; eauto.
      + destruct ((fr =? r) && (0 =? c)); [discriminate | eapply Hh; eauto]. }
  exists b2. simpl. split; [reflexivity |]. split; [assumption |].
  split; [assumption |]. split; auto.
Qed.

Lemma kingsUnique_movePieceCore :
  kingsUnique (board g) -> kingsUnique (board core).
Proof.
  intros Hu. destruct board_movePieceCore as (b2 & -> & Hwf2 & Hp2 & Hu2 & _).
  rewrite setCell_comm by (assumption || congruence).
  eapply kingsUnique_move; eauto.
  simpl. unfold promotedType.
  destruct (bool_decide (type piece = Pawn) && _); [discriminate | auto].
Qed.

Lemma pawnsAtHome_movePieceCore :
  pawnsAtHome (board g) -> pawnsAtHome (board core).
Proof.
  intros Hh. destruct board_movePieceCore as (b2 & -> & Hwf2 & Hp2 & _ & Hh2).
  assert (onBoard fr fc) as Hfrom by (eapply getCell_onBoard; eauto).
  intros r c p Hp. rewrite !getCell_setCell in Hp by wf_board.
  destruct ((fr =? r) && (fc =? c)); [discriminate |].
  destruct ((tr =? r) && (tc =? c)).
  - inversion Hp; subst p. simpl. discriminate.
  - eapply Hh2; eauto.
Qed.

End CorePreserves.

Lemma hasAnyLegalMove_returns (b : Board) (ep : option (Z * Z)) (c : PieceColor) :
  wfBoard b -> kingsUnique b -> hasAnyLegalMove b ep c <> None.
Proof.
  intros Hwf Hu. unfold hasAnyLegalMove.
  apply existsM_returns. intros from _.
  destruct (getCell b from.1 from.2) as [p |]; [| discriminate].
  destruct (bool_decide (color p = c)); [| discriminate].
  apply existsM_returns. intros to _. apply isLegalMove_returns; assumption.
Qed.

Lemma updateGameStatus_returns (g : Game) :
  wfBoard (board g) -> kingsUnique (board g) -> updateGameStatus g <> None.
Proof.
  intros Hwf Hu. unfold updateGameStatus.
  destruct (gameOver g); [discriminate |].
  pose proof (isKingInCheck_returns (currentTurn g) (board g)) as Hk.
  destruct (isKingInCheck _ _); [| congruence]. simpl.
  pose proof (hasAnyLegalMove_returns (board g) (enPassantTarget g) (currentTurn g) Hwf Hu)
    as Hm.
  destruct (hasAnyLegalMove _ _ _) as [[|] |]; simpl; congruence.
Qed.

(** On a valid position a legal move can be applied: [movePiece] returns, and
    the position it leaves is valid again. *)
Lemma applyMove_returns (g : Game) (fr fc tr tc : Z) :
  wfBoard (board g) -> kingsUnique (board g) ->
  isLegalMove (board g) (enPassantTarget g) fr fc tr tc = Some true ->
  exists g', applyMove g fr fc tr tc = Some g' /\
             wfBoard (board g') /\ kingsUnique (board g') /\
             (pawnsAtHome (board g) -> pawnsAtHome (board g')).
Proof.
  intros Hwf Hu Hlegal.
  apply isLegalMove_facts in Hlegal as (piece & Hp & Hfrom & Hto & Hne & Hdest & Hbasic);
    [| assumption].
  assert (wfBoard (board (movePieceCore g fr fc tr tc piece))) as Hwf'
    by (apply wfBoard_movePieceCore; assumption).
  assert (kingsUnique (board (movePieceCore g fr fc tr tc piece))) as Hu'
    by (apply kingsUnique_movePieceCore; assumption).
  pose proof (updateGameStatus_returns _ Hwf' Hu') as Hret.
  destruct (updateGameStatus (movePieceCore g fr fc tr tc piece)) as [g1 |] eqn:Hstatus;
    [| congruence].
  exists (flipTurn g1). unfold applyMove, movePiece. rewrite Hp, Hstatus. simpl.
  apply updateGameStatus_preserves in Hstatus as (Hb & _). rewrite Hb.
  split; [reflexivity |]. split; [assumption |]. split; [assumption |].
  intros Hh. apply pawnsAtHome_movePieceCore; assumption.
Qed.

(** ** The round trip and the en-passant target, on valid positions *)



(** ** The engine on concrete games *)

(** The failing input of C3: in the position after 1.d4 a6 2.Bf4 a5 3.Qd3 a4
    White's knight stands on b1, between the king and the a1 rook, and the
    two-column king move e1-c1 passes the basic check and the full check. *)
Theorem castling_queenside_ignores_b_file :
  (g ← queensideGame;
   king ← getCell (board g) 7 4;
   basic ← isLegalMoveBasic (board g) (enPassantTarget g) 7 4 7 2 king;
   legal ← isLegalMove (board g) (enPassantTarget g) 7 4 7 2;
   Some (king, getCell (board g) 7 0, getCell (board g) 7 1, basic, legal))
  = Some (mkPiece King White false, Some (mkPiece Rook White false),
          Some (mkPiece Knight White false), true, true).
Proof. vm_compute. reflexivity. Qed.

(** The failing input of C6: after 1.e4 e5 2.Nf3 Nc6 3.Bc4 Bc5 White castles
    short; the rook has gone from h1 to f1 and the king has [hasMoved] set,
    but the rook's [hasMoved] is still false. *)
Theorem castling_leaves_rook_unmoved :
  (g ← kingsideGame;
   legal ← isLegalMove (board g) (enPassantTarget g) 7 4 7 6;
   g' ← applyMove g 7 4 7 6;
   Some (legal, getCell (board g') 7 4, getCell (board g') 7 5,
         getCell (board g') 7 6, getCell (board g') 7 7))
  = Some (true, None, Some (mkPiece Rook White false),
          Some (mkPiece King White true), None).
Proof. vm_compute. reflexivity. Qed.


(** ** The evaluation under colour swap and vertical mirror *)

Lemma wfBoard_mirrorBoard (b : Board) : wfBoard (mirrorBoard b).
Proof.
  unfold mirrorBoard, wfBoard. split; [reflexivity |].
  apply Forall_forall. intros row Hrow. apply list_elem_of_In in Hrow.
  apply in_map_iff in Hrow as (r & <- & _). reflexivity.
Qed.

Lemma getCell_mirrorBoard_onBoard (b : Board) (r c : Z) :
  onBoard r c ->
  getCell (mirrorBoard b) r c = option_map swapColor (getCell b (7 - r) c).
Proof.
  intros [Hr Hc]. unfold BOARD_SIZE in *.
  assert (r = 0 \/ r = 1 \/ r = 2 \/ r = 3 \/ r = 4 \/ r = 5 \/ r = 6 \/ r = 7) as Hr' by lia.
  assert (c = 0 \/ c = 1 \/ c = 2 \/ c = 3 \/ c = 4 \/ c = 5 \/ c = 6 \/ c = 7) as Hc' by lia.
  repeat (destruct Hr' as [-> | Hr']); try subst r;
    repeat (destruct Hc' as [-> | Hc']); try subst c; reflexivity.
Qed.

Lemma getCell_mirrorBoard (b : Board) (r c : Z) :
  wfBoard b ->
  getCell (mirrorBoard b) r c = option_map swapColor (getCell b (7 - r) c).
Proof.
  intros Hwf. destruct (decide (onBoard r c)) as [Hon | Hoff].
  - apply getCell_mirrorBoard_onBoard. assumption.
  - rewrite getCell_offBoard by (apply wfBoard_mirrorBoard || assumption).
    rewrite getCell_offBoard; [reflexivity | assumption |].
    unfold onBoard, BOARD_SIZE in *. lia.
Qed.

Lemma enemyOf_inj (c1 c2 : PieceColor) : enemyOf c1 = enemyOf c2 -> c1 = c2.
Proof. destruct c1, c2; cbv; congruence. Qed.

Lemma directionOf_enemyOf (c : PieceColor) : directionOf (enemyOf c) = - directionOf c.
Proof. destruct c; reflexivity. Qed.

(** The tables are symmetric from left to right, so the term of a piece does
    not change when its colour is swapped and its row mirrored. *)
Lemma pieceTerm_mirror (p : Piece) (r c : Z) :
  onBoard r c -> pieceTerm (swapColor p) (7 - r) c = pieceTerm p r c.
Proof.
  intros [Hr Hc]. unfold BOARD_SIZE in *.
  assert (getPieceSquareBonus (swapColor p) (7 - r) c = getPieceSquareBonus p r c) as Hbonus.
  { assert (r = 0 \/ r = 1 \/ r = 2 \/ r = 3 \/ r = 4 \/ r = 5 \/ r = 6 \/ r = 7) as Hr' by lia.
    assert (c = 0 \/ c = 1 \/ c = 2 \/ c = 3 \/ c = 4 \/ c = 5 \/ c = 6 \/ c = 7) as Hc' by lia.
    destruct p as [t k m].
    repeat (destruct Hr' as [-> | Hr']); try subst r;
      repeat (destruct Hc' as [-> | Hc']); try subst c;
      destruct t, k; reflexivity. }
  unfold pieceTerm. rewrite Hbonus. reflexivity.
Qed.

(** *** Movement patterns on the mirrored board *)

Lemma scanLine_mirror (n : nat) (f : Z -> bool) (c step stop : Z) :
  scanLine n (fun r => f (7 - r)) c step stop =
  scanLine n f (7 - c) (- step) (7 - stop).
Proof.
  revert c. induction n as [| n IH]; intros c; simpl; [reflexivity |].
  replace (7 - c =? 7 - stop) with (c =? stop) by lia.
  rewrite IH. replace (7 - (c + step)) with (7 - c + - step) by lia. reflexivity.
Qed.

(** Any fuel beyond the distance to the bound gives the same result. *)
Lemma scanLine_fuel (n m : nat) (f : Z -> bool) (c step stop : Z) :
  (step = 1 /\ c <= stop) \/ (step = -1 /\ stop <= c) ->
  Z.abs (stop - c) < Z.of_nat n -> Z.abs (stop - c) < Z.of_nat m ->
  scanLine n f c step stop = scanLine m f c step stop.
Proof.
  revert m c. induction n as [| n IH]; intros m c Hdir Hn Hm; [lia |].
  destruct m as [| m]; [lia |]. simpl.
  destruct (c =? stop) eqn:E; [reflexivity |].
  destruct (f c); [reflexivity |]. apply IH; lia.
Qed.

Section Mirror.

Variable b : Board.
Hypothesis Hwf : wfBoard b.

Lemma mirror_isSomeb r c :
  isSomeb (getCell (mirrorBoard b) r c) = isSomeb (getCell b (7 - r) c).
Proof.
  rewrite getCell_mirrorBoard by assumption. destruct (getCell b (7 - r) c); reflexivity.
Qed.

Lemma mirror_isLegalRookMove fr fc tr tc :
  isLegalRookMove (mirrorBoard b) fr fc tr tc =
  isLegalRookMove b (7 - fr) fc (7 - tr) tc.
Proof.
  unfold isLegalRookMove.
  replace (7 - fr =? 7 - tr) with (fr =? tr) by lia.
  destruct (negb (fr =? tr) && negb (fc =? tc)); [reflexivity |].
  destruct (fr =? tr) eqn:Erow.
  - apply scanLine_ext. intros k. apply mirror_isSomeb.
  - rewrite (scanLine_ext _ (fun r => isSomeb (getCell (mirrorBoard b) r fc))
               (fun r => isSomeb (getCell b (7 - r) fc)))
      by (intros k; apply mirror_isSomeb).
    rewrite (scanLine_mirror _ (fun r => isSomeb (getCell b r fc))).
    replace (- (if tr >? fr then 1 else -1)) with (if 7 - tr >? 7 - fr then 1 else -1)
      by (destruct (tr >? fr) eqn:E1, (7 - tr >? 7 - fr) eqn:E2; lia).
    replace (7 - (fr + (if tr >? fr then 1 else -1)))
      with (7 - fr + (if 7 - tr >? 7 - fr then 1 else -1))
      by (destruct (tr >? fr) eqn:E1, (7 - tr >? 7 - fr) eqn:E2; lia).
    apply scanLine_fuel; unfold lineFuel;
      destruct (7 - tr >? 7 - fr) eqn:E2; lia.
Qed.

Lemma mirror_scanDiag n r c sr sc toRow :
  scanDiag n (mirrorBoard b) r c sr sc toRow =
  scanDiag n b (7 - r) c (- sr) sc (7 - toRow).
Proof.
  revert r c. induction n as [| n IH]; intros r c; simpl; [reflexivity |].
  replace (7 - r =? 7 - toRow) with (r =? toRow) by lia.
  unfold BOARD_SIZE.
  replace ((7 - r <? 0) || (7 - r >=? 8) || (c <? 0) || (c >=? 8))
    with ((r <? 0) || (r >=? 8) || (c <? 0) || (c >=? 8)) by lia.
  rewrite mirror_isSomeb, IH.
  replace (7 - (r + sr)) with (7 - r + - sr) by lia. reflexivity.
Qed.

(** Walking up from the row it should reach, the loop of the bishop ends
    with false. *)
Lemma scanDiag_away (b0 : Board) n r c sc toRow :
  r < toRow ->
  (if (0 <=? r) && (r <? 8) then r + 1 else 0) < Z.of_nat n ->
  scanDiag n b0 r c (-1) sc toRow = Some false.
Proof.
  revert r c. induction n as [| n IH]; intros r c Hlt Hfuel.
  - destruct ((0 <=? r) && (r <? 8)) eqn:E; lia.
  - simpl. replace (r =? toRow) with false by lia. unfold BOARD_SIZE.
    destruct ((r <? 0) || (r >=? 8) || (c <? 0) || (c >=? 8)) eqn:Eout; [reflexivity |].
    destruct (isSomeb (getCell b0 r c)); [reflexivity |].
    apply IH; [lia |].
    replace ((0 <=? r) && (r <? 8)) with true in Hfuel by lia.
    destruct ((0 <=? r + -1) && (r + -1 <? 8)) eqn:Ein; lia.
Qed.

Lemma mirror_isLegalBishopMove fr fc tr tc :
  isLegalBishopMove (mirrorBoard b) fr fc tr tc =
  isLegalBishopMove b (7 - fr) fc (7 - tr) tc.
Proof.
  unfold isLegalBishopMove.
  replace (Z.abs (7 - tr - (7 - fr))) with (Z.abs (tr - fr)) by lia.
  destruct (negb (Z.abs (tr - fr) =? Z.abs (tc - fc))); [reflexivity |].
  destruct (decide (tr = fr)) as [-> | Hrow].
  - replace (fr >? fr) with false by lia.
    replace (7 - fr >? 7 - fr) with false by lia.
    rewrite !scanDiag_away; try reflexivity; try lia.
    + destruct ((0 <=? 7 - fr + -1) && (7 - fr + -1 <? 8)) eqn:E; simpl; lia.
    + destruct ((0 <=? fr + -1) && (fr + -1 <? 8)) eqn:E; simpl; lia.
  - rewrite mirror_scanDiag.
    replace (- (if tr >? fr then 1 else -1)) with (if 7 - tr >? 7 - fr then 1 else -1)
      by (destruct (tr >? fr) eqn:E1, (7 - tr >? 7 - fr) eqn:E2; lia).
    replace (7 - (fr + (if tr >? fr then 1 else -1)))
      with (7 - fr + (if 7 - tr >? 7 - fr then 1 else -1))
      by (destruct (tr >? fr) eqn:E1, (7 - tr >? 7 - fr) eqn:E2; lia).
    reflexivity.
Qed.

Lemma mirror_isLegalQueenMove fr fc tr tc :
  isLegalQueenMove (mirrorBoard b) fr fc tr tc =
  isLegalQueenMove b (7 - fr) fc (7 - tr) tc.
Proof.
  unfold isLegalQueenMove.
  rewrite mirror_isLegalRookMove, mirror_isLegalBishopMove. reflexivity.
Qed.

Lemma mirror_canPieceAttack fr fc tr tc p :
  canPieceAttack fr fc tr tc (swapColor p) (mirrorBoard b) =
  canPieceAttack (7 - fr) fc (7 - tr) tc p b.
Proof.
  unfold canPieceAttack. simpl.
  rewrite mirror_isLegalRookMove, mirror_isLegalBishopMove, mirror_isLegalQueenMove.
  rewrite directionOf_enemyOf. unfold isLegalKnightMove.
  replace (7 - tr - (7 - fr)) with (- (tr - fr)) by lia. rewrite Z.abs_opp.
  replace (tr =? fr + - directionOf (color p))
    with (7 - tr =? 7 - fr + directionOf (color p)) by lia.
  reflexivity.
Qed.

Lemma mirror_attacksFrom row col byColor r c :
  attacksFrom row col (enemyOf byColor) (mirrorBoard b) (r, c) =
  attacksFrom (7 - row) col byColor b (7 - r, c).
Proof.
  unfold attacksFrom. rewrite getCell_mirrorBoard by assumption.
  destruct (getCell b (7 - r) c) as [p |]; simpl; [| reflexivity].
  replace (bool_decide (enemyOf (color p) = enemyOf byColor))
    with (bool_decide (color p = byColor))
    by (apply bool_decide_ext; split; [congruence | apply enemyOf_inj]).
  destruct (bool_decide (color p = byColor)); [| reflexivity].
  destruct (bool_decide (type p = Pawn)).
  - rewrite directionOf_enemyOf.
    replace (row =? r + - directionOf (color p))
      with (7 - row =? 7 - r + directionOf (color p)) by lia.
    reflexivity.
  - apply mirror_canPieceAttack.
Qed.

End Mirror.

(** *** Check on the mirrored board *)

Lemma existsM_map {A B} (f : B -> option bool) (m : A -> B) (l : list A) :
  existsM f (map m l) = existsM (fun x => f (m x)) l.
Proof.
  induction l as [| x l IH]; simpl; [reflexivity |]. rewrite IH. reflexivity.
Qed.

Lemma existsM_true_inv {A} (f : A -> option bool) (l : list A) :
  existsM f l = Some true -> exists x, In x l /\ f x = Some true.
Proof.
  induction l as [| y l IH]; simpl; intros H; [discriminate |].
  destruct (f y) as [[|] |] eqn:Ey; try discriminate.
  - exists y. auto.
  - destruct (IH H) as (x & Hin & Hx). exists x. auto.
Qed.

(** When every call returns, the order of the loop does not matter. *)
Lemma existsM_same_elements {A} (f : A -> option bool) (l1 l2 : list A) :
  (forall x, In x l1 -> f x <> None) ->
  (forall x, In x l1 <-> In x l2) ->
  existsM f l1 = existsM f l2.
Proof.
  intros Htotal Hsame.
  assert (forall x, In x l2 -> f x <> None) as Htotal2
    by (intros x Hx; apply Htotal, Hsame; assumption).
  pose proof (existsM_returns f l1 Htotal) as H1.
  pose proof (existsM_returns f l2 Htotal2) as H2.
  destruct (existsM f l1) as [[|] |] eqn:E1; [| | congruence].
  - apply existsM_true_inv in E1 as (x & Hin & Hx).
    symmetry. eapply existsM_true; eauto. apply Hsame. assumption.
  - destruct (existsM f l2) as [[|] |] eqn:E2; [| reflexivity | congruence].
    apply existsM_true_inv in E2 as (x & Hin & Hx).
    rewrite (existsM_false _ _ E1 x) in Hx by (apply Hsame; assumption). discriminate.
Qed.

Lemma mirrorSquare_involutive (x : Z * Z) : mirrorSquare (mirrorSquare x) = x.
Proof. destruct x as [r c]. unfold mirrorSquare, BOARD_SIZE. simpl. f_equal. lia. Qed.

Lemma In_mirrored_squares (x : Z * Z) :
  In x (map mirrorSquare squares) <-> In x squares.
Proof.
  destruct x as [r c]. rewrite in_map_iff. split.
  - intros ([r' c'] & Heq & Hin). apply In_squares in Hin. apply In_squares.
    unfold mirrorSquare, onBoard, BOARD_SIZE in *. simpl in Heq. inversion Heq; subst. lia.
  - intros Hin. exists (mirrorSquare (r, c)). split; [apply mirrorSquare_involutive |].
    apply In_squares in Hin. apply In_squares.
    unfold mirrorSquare, onBoard, BOARD_SIZE in *. simpl. lia.
Qed.

Lemma mirror_isSquareAttacked (b : Board) (row col : Z) (byColor : PieceColor) :
  wfBoard b ->
  (forall p, getCell b row col = Some p -> color p = byColor ->
             type p <> Rook /\ type p <> Queen) ->
  isSquareAttacked (7 - row) col (enemyOf byColor) (mirrorBoard b) =
  isSquareAttacked row col byColor b.
Proof.
  intros Hwf Hcell. unfold isSquareAttacked.
  rewrite (existsM_ext _ (fun x => attacksFrom row col byColor b (mirrorSquare x))).
  - rewrite <- (existsM_map (attacksFrom row col byColor b) mirrorSquare).
    symmetry. apply existsM_same_elements.
    + apply isSquareAttacked_returns. assumption.
    + intros x. symmetry. apply In_mirrored_squares.
  - intros [r c] _. rewrite mirror_attacksFrom by assumption.
    unfold mirrorSquare, BOARD_SIZE. simpl.
    replace (7 - (7 - row)) with row by lia.
    replace (8 - 1 - r) with (7 - r) by lia. reflexivity.
Qed.

Lemma mirror_findKing (b : Board) (c : PieceColor) :
  wfBoard b -> kingsUnique b ->
  findKing (enemyOf c) (mirrorBoard b) = option_map mirrorSquare (findKing c b).
Proof.
  intros Hwf Hu.
  destruct (findKing c b) as [[r k] |] eqn:Eb;
    destruct (findKing (enemyOf c) (mirrorBoard b)) as [[r' k'] |] eqn:Em;
    simpl; try reflexivity.
  - apply findKing_Some in Em as (Hon & q & Hq & Hcq & Htq).
    apply findKing_Some in Eb as (_ & p & Hp & Hcp & Htp).
    rewrite getCell_mirrorBoard in Hq by assumption.
    destruct (getCell b (7 - r') k') as [p' |] eqn:Hp'; [| discriminate].
    simpl in Hq. inversion Hq; subst q. simpl in *.
    assert ((7 - r', k') = (r, k)) as Heq.
    { eapply Hu; eauto. apply enemyOf_inj in Hcq. congruence. }
    inversion Heq; subst. unfold mirrorSquare, BOARD_SIZE. simpl. do 2 f_equal. lia.
  - exfalso. apply findKing_Some in Eb as (Hon & p & Hp & Hcp & Htp).
    unfold findKing in Em.
    pose proof (find_none _ _ Em (mirrorSquare (r, k))) as Hnone.
    unfold isKingOf, mirrorSquare, BOARD_SIZE in Hnone. simpl in Hnone.
    rewrite getCell_mirrorBoard in Hnone by assumption.
    replace (7 - (8 - 1 - r)) with r in Hnone by lia.
    rewrite Hp in Hnone. simpl in Hnone. rewrite Hcp, Htp in Hnone.
    rewrite !bool_decide_eq_true_2 in Hnone by reflexivity.
    assert (In (8 - 1 - r, k) squares) as Hin.
    { apply In_squares. unfold onBoard, BOARD_SIZE in *. lia. }
    specialize (Hnone Hin). discriminate.
  - exfalso. apply findKing_Some in Em as (Hon & q & Hq & Hcq & Htq).
    rewrite getCell_mirrorBoard in Hq by assumption.
    destruct (getCell b (7 - r') k') as [p' |] eqn:Hp'; [| discriminate].
    simpl in Hq. inversion Hq; subst q. simpl in *. apply enemyOf_inj in Hcq.
    unfold findKing in Eb.
    pose proof (find_none _ _ Eb (7 - r', k')) as Hnone.
    unfold isKingOf in Hnone. simpl in Hnone. rewrite Hp', Hcq, Htq in Hnone.
    rewrite !bool_decide_eq_true_2 in Hnone by reflexivity.
    assert (In (7 - r', k') squares) as Hin.
    { apply In_squares. unfold onBoard, BOARD_SIZE in *. lia. }
    specialize (Hnone Hin). discriminate.
Qed.

(** With at most one king of each colour, a side is in check on the mirrored
    board exactly when the other side is in check on the board. *)
Lemma mirror_isKingInCheck (b : Board) (c : PieceColor) :
  wfBoard b -> kingsUnique b ->
  isKingInCheck (enemyOf c) (mirrorBoard b) = isKingInCheck c b.
Proof.
  intros Hwf Hu. unfold isKingInCheck. rewrite mirror_findKing by assumption.
  destruct (findKing c b) as [[r k] |] eqn:Eb; simpl; [| reflexivity].
  apply findKing_Some in Eb as (_ & p & Hp & Hcp & Htp).
  unfold BOARD_SIZE. replace (8 - 1 - r) with (7 - r) by lia.
  apply mirror_isSquareAttacked; [assumption |].
  intros q Hq Hcq. assert (q = p) as -> by congruence.
  exfalso. apply (enemyOf_neq c). congruence.
Qed.

(** *** The bishop counters *)

Lemma sumZ_map {A B} (f : B -> Z) (m : A -> B) (l : list A) :
  sumZ f (map m l) = sumZ (fun x => f (m x)) l.
Proof. induction l as [| x l IH]; simpl; [reflexivity |]. rewrite IH. reflexivity. Qed.

Lemma sumZ_ext {A} (f g : A -> Z) (l : list A) :
  (forall x, In x l -> f x = g x) -> sumZ f l = sumZ g l.
Proof.
  induction l as [| x l IH]; intros H; simpl; [reflexivity |].
  rewrite (H x) by (left; reflexivity). rewrite IH; [reflexivity |].
  intros y Hy. apply H. right. assumption.
Qed.

Lemma sumZ_Permutation {A} (f : A -> Z) (l l' : list A) :
  Permutation l l' -> sumZ f l = sumZ f l'.
Proof. induction 1; simpl; lia. Qed.

Lemma Permutation_mirrored_squares : Permutation (map mirrorSquare squares) squares.
Proof.
  apply Permutation.NoDup_Permutation.
  - apply Finite.Injective_map_NoDup; [| apply NoDup_squares].
    intros x y Heq. rewrite <- (mirrorSquare_involutive x), Heq.
    apply mirrorSquare_involutive.
  - apply NoDup_squares.
  - apply In_mirrored_squares.
Qed.

Lemma bishops_evalLoop (b : Board) (l : list (Z * Z)) (acc : EvalAcc) :
  whiteBishops (fold_left (evalSquare b) l acc) = whiteBishops acc + sumZ (bishopAt White b) l /\
  blackBishops (fold_left (evalSquare b) l acc) = blackBishops acc + sumZ (bishopAt Black b) l.
Proof.
  revert acc. induction l as [| [r c] l IH]; intros acc; simpl; [lia |].
  destruct (IH (evalSquare b acc (r, c))) as [-> ->].
  unfold evalSquare, bishopAt. simpl.
  destruct (getCell b r c) as [[t k m] |]; simpl; [| lia].
  destruct k, t; simpl; lia.
Qed.

Lemma bishopAt_mirror (b : Board) (c : PieceColor) (x : Z * Z) :
  wfBoard b -> bishopAt (enemyOf c) (mirrorBoard b) x = bishopAt c b (mirrorSquare x).
Proof.
  intros Hwf. destruct x as [r k]. unfold bishopAt, mirrorSquare, BOARD_SIZE. simpl.
  rewrite getCell_mirrorBoard by assumption.
  replace (8 - 1 - r) with (7 - r) by lia.
  destruct (getCell b (7 - r) k) as [[t k' m] |]; simpl; [| reflexivity].
  destruct c, k', t; reflexivity.
Qed.

Lemma bishops_mirror (b : Board) (c : PieceColor) :
  wfBoard b ->
  sumZ (bishopAt (enemyOf c) (mirrorBoard b)) squares = sumZ (bishopAt c b) squares.
Proof.
  intros Hwf.
  rewrite (sumZ_ext _ (fun x => bishopAt c b (mirrorSquare x)))
    by (intros x _; apply bishopAt_mirror; assumption).
  rewrite <- (sumZ_map (bishopAt c b) mirrorSquare).
  apply sumZ_Permutation, Permutation_mirrored_squares.
Qed.

(** The evaluation of the mirrored board, term by term.  On the board with
    the colours swapped and the rows reversed, every cell holds the
    colour-swapped piece of the mirrored cell; that piece has the same term
    [base + posBonus], which the loop adds for one colour and subtracts for
    the other; the two bishop counters are exchanged; and, with at most one
    king of each colour, so are the two in-check tests. *)
Lemma staticEvaluation_mirror_termwise (b : Board) :
  wfBoard b -> kingsUnique b ->
  (forall r c, onBoard r c ->
     getCell (mirrorBoard b) r c = option_map swapColor (getCell b (7 - r) c)) /\
  (forall r c p acc acc',
     onBoard r c -> getCell b (7 - r) c = Some p ->
     let t := pieceTerm p (7 - r) c in
     score (evalSquare b acc (7 - r, c)) =
       (if bool_decide (color p = Black) then PrimFloat.add (score acc) t
        else PrimFloat.sub (score acc) t) /\
     score (evalSquare (mirrorBoard b) acc' (r, c)) =
       (if bool_decide (color p = Black) then PrimFloat.sub (score acc') t
        else PrimFloat.add (score acc') t)) /\
  whiteBishops (evalLoop (mirrorBoard b)) = blackBishops (evalLoop b) /\
  blackBishops (evalLoop (mirrorBoard b)) = whiteBishops (evalLoop b) /\
  isKingInCheck White (mirrorBoard b) = isKingInCheck Black b /\
  isKingInCheck Black (mirrorBoard b) = isKingInCheck White b.
Proof.
  intros Hwf Hu.
  split; [intros r c Hon; apply getCell_mirrorBoard_onBoard; assumption |].
  split.
  { intros r c p acc acc' Hon Hp t. subst t. unfold evalSquare. simpl.
    rewrite getCell_mirrorBoard_onBoard by assumption. rewrite Hp. simpl.
    assert (onBoard (7 - r) c) as Hon' by (unfold onBoard, BOARD_SIZE in *; lia).
    pose proof (pieceTerm_mirror p (7 - r) c Hon') as Hterm.
    replace (7 - (7 - r)) with r in Hterm by lia. rewrite Hterm.
    destruct p as [t k m]. destruct k; simpl; split; reflexivity. }
  unfold evalLoop.
  destruct (bishops_evalLoop (mirrorBoard b) squares (mkEvalAcc (floatOfZ 0) 0 0)) as [-> ->].
  destruct (bishops_evalLoop b squares (mkEvalAcc (floatOfZ 0) 0 0)) as [-> ->].
  split; [apply (f_equal (Z.add 0)), (bishops_mirror b Black); assumption |].
  split; [apply (f_equal (Z.add 0)), (bishops_mirror b White); assumption |].
  split.
  - apply (mirror_isKingInCheck b Black); assumption.
  - apply (mirror_isKingInCheck b White); assumption.
Qed.

(** C8 as stated fails.  On [roundingBoard] (kings on e8 and e1, a black
    knight on f6, a black pawn on e3) the two evaluations are
    4.1000000000000014 and -4.0999999999999996; and on a board with two
    kings of one colour the two in-check tests can look at different kings. *)
Lemma staticEvaluation_mirror_counterexample :
  (x ← staticEvaluation roundingBoard;
   y ← staticEvaluation (mirrorBoard roundingBoard);
   Some (PrimFloat.eqb y (PrimFloat.opp x)))
  = Some false
  /\
  (x ← staticEvaluation twoKingsBoard;
   y ← staticEvaluation (mirrorBoard twoKingsBoard);
   Some (PrimFloat.eqb y (PrimFloat.opp x),
         isKingInCheck Black twoKingsBoard,
         isKingInCheck White (mirrorBoard twoKingsBoard)))
  = Some (false, Some true, Some false).
Proof. split; vm_compute; reflexivity. Qed.

(** ** Move ordering and the search at depth 1 *)

Lemma insertSorted_Permutation (cmp : Move -> Move -> Z) (x : Move) (l : list Move) :
  Permutation (insertSorted cmp x l) (x :: l).
Proof.
  induction l as [| y l IH]; simpl; [reflexivity |].
  destruct (cmp x y <=? 0); [reflexivity |].
  rewrite IH. apply perm_swap.
Qed.

Lemma insertionSort_Permutation (cmp : Move -> Move -> Z) (l : list Move) :
  Permutation (insertionSort cmp l) l.
Proof.
  induction l as [| x l IH]; simpl; [reflexivity |].
  unfold insertionSort in *. simpl. rewrite insertSorted_Permutation.
  apply perm_skip. exact IH.
Qed.

Lemma compareMoves_total (b : Board) (mx : bool) (m1 m2 : Move) :
  ~ compareMoves b mx m1 m2 <= 0 -> compareMoves b mx m2 m1 <= 0.
Proof. unfold compareMoves. destruct mx; lia. Qed.

Lemma compareMoves_trans (b : Board) (mx : bool) (m1 m2 m3 : Move) :
  compareMoves b mx m1 m2 <= 0 -> compareMoves b mx m2 m3 <= 0 ->
  compareMoves b mx m1 m3 <= 0.
Proof. unfold compareMoves. destruct mx; lia. Qed.

Lemma insertSorted_sorted (b : Board) (mx : bool) (x : Move) (l : list Move) :
  StronglySorted (fun m1 m2 => compareMoves b mx m1 m2 <= 0) l ->
  StronglySorted (fun m1 m2 => compareMoves b mx m1 m2 <= 0)
                 (insertSorted (compareMoves b mx) x l).
Proof.
  induction l as [| y l IH]; intros Hs; simpl.
  - constructor; constructor.
  - inversion Hs as [| y' l' Hs' Hall]; subst.
    destruct (compareMoves b mx x y <=? 0) eqn:E.
    + constructor; [assumption |].
      constructor; [lia |].
      rewrite List.Forall_forall in *. intros z Hz.
      apply (compareMoves_trans b mx x y z); [lia | apply Hall; assumption].
    + constructor; [apply IH; assumption |].
      rewrite List.Forall_forall in *. intros z Hz.
      apply (Permutation_in _ (insertSorted_Permutation _ x l)) in Hz.
      destruct Hz as [<- | Hz]; [| apply Hall; assumption].
      apply compareMoves_total. lia.
Qed.

(** The insertion sort is one of the sorts the search may be run with. *)
Lemma insertionSort_sortsMoves : sortsMoves insertionSort.
Proof.
  intros b mx l. split; [apply insertionSort_Permutation |].
  induction l as [| x l IH]; simpl; [constructor |].
  apply insertSorted_sorted. exact IH.
Qed.

Lemma targetValue_capture (b : Board) (m : Move) :
  isCapture b m = true -> 0 < targetValue b m.
Proof.
  unfold isCapture, targetValue.
  destruct (getCell b (toRow m) (toCol m)) as [p |]; [| discriminate].
  intros _. unfold pieceValue. destruct (type p); lia.
Qed.

Lemma targetValue_quiet (b : Board) (m : Move) :
  isCapture b m = false -> targetValue b m = 0.
Proof.
  unfold isCapture, targetValue.
  destruct (getCell b (toRow m) (toCol m)) as [p |]; [discriminate | reflexivity].
Qed.

(** When exactly one legal move of Black lands on an occupied square, the
    ordering puts that move at the head of the list, and the search at depth
    1 is the loop of [minimax] over that list. *)
Lemma capture_is_searched_first
  (arraySort : (Move -> Move -> Z) -> list Move -> list Move)
  (ep : option (Z * Z)) (fuel : nat) (b : Board) (moves : list Move) (m : Move)
  (alpha beta : float) :
  sortsMoves arraySort ->
  getAllLegalMoves b ep Black = Some moves ->
  In m moves -> isCapture b m = true ->
  (forall m', In m' moves -> m' <> m -> isCapture b m' = false) ->
  exists rest,
    orderedMoves arraySort ep b true = Some (m :: rest) /\
    Permutation (m :: rest) moves /\
    minimax arraySort ep fuel b 1 alpha beta true =
    minimaxLoop
      (fun cloneB a be => minimax arraySort ep fuel cloneB 0 a be false)
      b (m :: rest) alpha beta true (-100000)%float None.
Proof.
  intros Hsort Hmoves Hin Hcap Hothers.
  destruct (Hsort b true moves) as [Hperm Hsorted].
  destruct (arraySort (compareMoves b true) moves) as [| x rest] eqn:Es.
  { exfalso. apply Permutation_sym in Hperm.
    apply (Permutation_in _ Hperm) in Hin. contradiction. }
  assert (x = m) as ->.
  { destruct (decide (x = m)) as [Heq | Hne]; [assumption |]. exfalso.
    assert (In x moves) as Hx by (apply (Permutation_in _ Hperm); left; reflexivity).
    pose proof (targetValue_quiet b x (Hothers x Hx Hne)) as Hquiet.
    pose proof (targetValue_capture b m Hcap) as Hpos.
    apply Permutation_sym in Hperm. apply (Permutation_in _ Hperm) in Hin.
    destruct Hin as [Heq | Hin]; [congruence |].
    inversion Hsorted as [| x' l' Hs' Hall]; subst.
    rewrite List.Forall_forall in Hall. specialize (Hall m Hin).
    unfold compareMoves in Hall. lia. }
  exists rest.
  assert (orderedMoves arraySort ep b true = Some (m :: rest)) as Hordered.
  { unfold orderedMoves. rewrite Hmoves. simpl. rewrite Es. reflexivity. }
  split; [assumption |]. split; [assumption |].
  simpl. rewrite Hordered. reflexivity.
Qed.

(** C9 as stated fails.  On [protectedPawnBoard] Black has eleven legal
    moves, of which only Nd6xe4 captures; the pawn on f3 takes back, and the
    search at depth 1 (with the insertion sort) plays Kh8-h7. *)
Lemma depth1_search_counterexample :
  (moves ← getAllLegalMoves protectedPawnBoard None Black;
   result ← minimax insertionSort None 40 protectedPawnBoard 1
              (-100000)%float 100000%float true;
   chosen ← aiBestMove insertionSort None 40 protectedPawnBoard 1;
   Some (length moves, List.filter (isCapture protectedPawnBoard) moves,
         result.2, chosen))
  = Some (11%nat, [mkMove 2 3 4 4], Some (mkMove 0 7 1 7), Some (mkMove 0 7 1 7)).
Proof. vm_compute. reflexivity. Qed.

(** ** Castling as the executor carries it out *)

(** For every legal castling move the executor empties the corner, puts the
    piece it held beside the king on the square the king passed over, and
    marks the king as moved; the relocated piece keeps the flag it had,
    false. *)
Lemma castling_relocation (g : Game) (fr fc tr tc : Z) (king : Piece) :
  wfBoard (board g) -> kingsUnique (board g) ->
  getCell (board g) fr fc = Some king -> type king = King ->
  Z.abs (tc - fc) = 2 ->
  isLegalMove (board g) (enPassantTarget g) fr fc tr tc = Some true ->
  let corner := if tc >? fc then 7 else 0 in
  let beside := if tc >? fc then fc + 1 else fc - 1 in
  exists g' rook,
    applyMove g fr fc tr tc = Some g' /\
    getCell (board g) fr corner = Some rook /\ hasMoved rook = false /\
    getCell (board g') fr corner = None /\
    getCell (board g') fr beside = Some rook /\
    getCell (board g') tr tc = Some (mkPiece King (color king) true) /\
    getCell (board g') fr fc = None.
Proof.
  intros Hwf Hu Hk Ht Hdc Hlegal corner beside.
  destruct (applyMove_returns g fr fc tr tc Hwf Hu Hlegal) as (g' & Happly & _).
  destruct (applyMove_inv g g' fr fc tr tc king Hk Happly) as (Hboard & _).
  apply isLegalMove_facts in Hlegal as (piece & Hp & Hfrom & Hto & Hne & Hdest & Hbasic);
    [| assumption].
  assert (piece = king) as -> by congruence.
  destruct (isLegalMoveBasic_king_two_columns _ _ _ _ _ _ _ Ht Hdc Hbasic)
    as (Hrow & Hcastle).
  apply isLegalCastling_true_inv in Hcastle as (_ & _ & _ & Hside).
  assert ((fr =? tr) && (fc =? tc) = false) as Hneb by lia.
  destruct Hfrom as [Hfr Hfc], Hto as [Htr Htc]. unfold BOARD_SIZE in *.
  subst corner beside.
  assert (board g' =
          board (let '(b2, castling) := castlingRelocation (board g) fr fc tc king in
                 mkGame (setCell (setCell b2 tr tc (Some (mkPiece King (color king) true)))
                                 fr fc None)
                        None White 0 0 [] false Playing)) as Hshape.
  { rewrite Hboard. unfold movePieceCore, enPassantCapture, promotedType.
    rewrite Ht. simpl. destruct (castlingRelocation _ _ _ _ _). reflexivity. }
  clear Hboard. unfold castlingRelocation in Hshape. rewrite Ht in Hshape.
  replace (Z.abs (tc - fc) =? 2) with true in Hshape by lia. simpl in Hshape.
  destruct (tc >? fc) eqn:Edir.
  - destruct Hside as (Hempties & rook & Hrook & Hflag).
    unfold BOARD_SIZE in Hshape. change (8 - 1) with 7 in *.
    rewrite Hrook in Hshape. simpl in Hshape.
    assert (tc <> 7) as Hcorner.
    { intros Heq. rewrite Heq in Hempties. rewrite Hempties in Hrook by lia. discriminate. }
    assert (onBoard fr 7 /\ onBoard fr (fc + 1) /\ onBoard fr fc /\ onBoard tr tc)
      as (Hon1 & Hon2 & Hon3 & Hon4) by (unfold onBoard, BOARD_SIZE; lia).
    exists g', rook. split; [assumption |]. split; [assumption |]. split; [assumption |].
    rewrite Hshape. cells.
    repeat split;
      repeat match goal with
             | |- context [ (?x =? ?y) && (?z =? ?w) ] =>
                 let E := fresh "E" in destruct ((x =? y) && (z =? w)) eqn:E
             end; try reflexivity; try lia.
  - destruct Hside as (Hempties & rook & Hrook & Hflag).
    rewrite Hrook in Hshape. simpl in Hshape.
    assert (tc <> 0) as Hcorner.
    { intros Heq. rewrite Heq in Hempties. rewrite Hempties in Hrook by lia. discriminate. }
    assert (onBoard fr 0 /\ onBoard fr (fc - 1) /\ onBoard fr fc /\ onBoard tr tc)
      as (Hon1 & Hon2 & Hon3 & Hon4) by (unfold onBoard, BOARD_SIZE; lia).
    exists g', rook. split; [assumption |]. split; [assumption |]. split; [assumption |].
    rewrite Hshape. cells.
    repeat split;
      repeat match goal with
             | |- context [ (?x =? ?y) && (?z =? ?w) ] =>
                 let E := fresh "E" in destruct ((x =? y) && (z =? w)) eqn:E
             end; try reflexivity; try lia.
Qed.

(** ** The theorems at concrete positions *)

Lemma wfBoard_kingsideBoard : wfBoard kingsideBoard.
Proof. apply wfBoardb_sound. reflexivity. Qed.


Lemma isLegalMove_pin_enforcement_witness :
  isLegalMoveBasic pinnedBishopBoard None 6 4 5 3 (mkPiece Bishop White true) = Some true /\
  isLegalMove pinnedBishopBoard None 6 4 5 3 = Some false.
Proof.
  split; [vm_compute; reflexivity |].
  apply (isLegalMove_pin_enforcement pinnedBishopBoard None 6 4 5 3
           (mkPiece Bishop White true)).
  - apply wfBoardb_sound. reflexivity.
  - apply kingsUniqueb_sound; [apply wfBoardb_sound |]; reflexivity.
  - reflexivity.
  - vm_compute. reflexivity.
Defined.


Lemma castling_ignores_king_hasMoved_witness :
  isLegalMove (setCell kingsideBoard 7 4 (Some (mkPiece King White true))) None 7 4 7 6
  = isLegalMove kingsideBoard None 7 4 7 6.
Proof.
  refine (proj2 (castling_ignores_king_hasMoved kingsideBoard None 7 4 7 6
                   (mkPiece King White false) true wfBoard_kingsideBoard
                   eq_refl eq_refl _ eq_refl eq_refl)).
  unfold onBoard, BOARD_SIZE. lia.
Defined.

Lemma simulateMove_frame_witness :
  getCell (simulateMove initBoard 6 4 4 4) 6 4 = None /\
  getCell (simulateMove initBoard 6 4 4 4) 4 4 = Some (mkPiece Pawn White false) /\
  getCell (simulateMove initBoard 6 4 4 4) 7 4 = getCell initBoard 7 4.
Proof.
  destruct (simulateMove_frame initBoard 6 4 4 4 wfBoard_initBoard) as (Hmoved & _).
  - unfold onBoard, BOARD_SIZE. lia.
  - destruct (Hmoved (mkPiece Pawn White false) eq_refl) as (Hsrc & Hdst & Hother).
    split; [exact Hsrc |]. split; [apply Hdst; discriminate |].
    apply Hother; discriminate.
Defined.

(** * Further properties of the rules *)

(** ** Lines and diagonals *)

(** A scan that answers [true] has walked from [c] to [stop] over free cells. *)
Lemma scanLine_true_inv (n : nat) (occupied : Z -> bool) (c step stop : Z) :
  scanLine n occupied c step stop = Some true ->
  exists k : Z, 0 <= k /\ stop = c + k * step /\
                forall i, 0 <= i < k -> occupied (c + i * step) = false.
Proof.
  revert c. induction n as [|n IH]; intros c H; simpl in H; [discriminate|].
  destruct (c =? stop) eqn:E.
  - apply Z.eqb_eq in E. exists 0. split; [lia|]. split; [lia|]. intros i Hi. lia.
  - destruct (occupied c) eqn:Hocc; [discriminate|].
    destruct (IH _ H) as (k & Hk & Hstop & Hfree).
    exists (k + 1). split; [lia|]. split; [lia|].
    intros i Hi. destruct (Z.eq_dec i 0) as [->|Hne].
    + replace (c + 0 * step) with c by lia. exact Hocc.
    + replace (c + i * step) with (c + step + (i - 1) * step) by lia.
      apply Hfree. lia.
Qed.

(** A scan that starts on the far side of [stop] never answers [true]. *)
Lemma scanLine_away_not_true (n : nat) (occupied : Z -> bool) (c stop : Z) :
  c < stop -> scanLine n occupied c (-1) stop <> Some true.
Proof.
  intros Hlt H. apply scanLine_true_inv in H. destruct H as (k & Hk & Hstop & _). lia.
Qed.

Lemma scanLine_away_free (n : nat) (occupied : Z -> bool) (c stop : Z) :
  c < stop -> (forall k, k <= c -> occupied k = false) ->
  scanLine n occupied c (-1) stop = None.
Proof.
  revert c. induction n as [|n IH]; intros c Hlt Hfree; simpl; [reflexivity|].
  destruct (c =? stop) eqn:E; [apply Z.eqb_eq in E; lia|].
  rewrite Hfree by lia. apply IH; [lia|]. intros k Hk. apply Hfree. lia.
Qed.

Lemma scanLine_away_blocked (n : nat) (occupied : Z -> bool) (c stop k : Z) :
  c < stop -> 0 <= k <= c -> occupied k = true -> Z.abs c < Z.of_nat n ->
  scanLine n occupied c (-1) stop = Some false.
Proof.
  revert c. induction n as [|n IH]; intros c Hlt Hk Hocc Hn; simpl; [lia|].
  destruct (c =? stop) eqn:E; [apply Z.eqb_eq in E; lia|].
  destruct (occupied c) eqn:Hc; [reflexivity|].
  assert (k <> c) by congruence.
  apply IH; [lia|lia|exact Hocc|lia].
Qed.

(** A diagonal scan that answers [true] has walked over free cells of the
    board until its row is [toRow]. *)
Lemma scanDiag_true_inv (n : nat) (b : Board) (r c stepRow stepCol toRow : Z) :
  scanDiag n b r c stepRow stepCol toRow = Some true ->
  exists k : Z, 0 <= k /\ toRow = r + k * stepRow /\
    forall i, 0 <= i < k ->
      onBoard (r + i * stepRow) (c + i * stepCol) /\
      getCell b (r + i * stepRow) (c + i * stepCol) = None.
Proof.
  revert r c. induction n as [|n IH]; intros r c H; simpl in H; [discriminate|].
  destruct (r =? toRow) eqn:E.
  - apply Z.eqb_eq in E. exists 0. split; [lia|]. split; [lia|]. intros i Hi. lia.
  - destruct ((r <? 0) || (r >=? BOARD_SIZE) || (c <? 0) || (c >=? BOARD_SIZE)) eqn:Hb;
      [discriminate|].
    destruct (getCell b r c) eqn:Hcell; simpl in H; [discriminate|].
    destruct (IH _ _ H) as (k & Hk & Hstop & Hfree).
    exists (k + 1). split; [lia|]. split; [lia|].
    intros i Hi. destruct (Z.eq_dec i 0) as [->|Hne].
    + replace (r + 0 * stepRow) with r by lia. replace (c + 0 * stepCol) with c by lia.
      split; [|exact Hcell]. unfold onBoard, BOARD_SIZE in *. lia.
    + replace (r + i * stepRow) with (r + stepRow + (i - 1) * stepRow) by lia.
      replace (c + i * stepCol) with (c + stepCol + (i - 1) * stepCol) by lia.
      apply Hfree. lia.
Qed.

Lemma isLegalRookMove_true_inv (b : Board) (fr fc tr tc : Z) :
  isLegalRookMove b fr fc tr tc = Some true ->
  (fr = tr \/ fc = tc) /\ (fr, fc) <> (tr, tc) /\
  forall r c, between fr fc tr tc r c -> getCell b r c = None.
Proof.
  unfold isLegalRookMove. intros H.
  destruct (Z.eqb_spec fr tr) as [Er|Er]; destruct (Z.eqb_spec fc tc) as [Ec|Ec];
    simpl in H; try discriminate.
  - subst. replace (tc >? tc) with false in H by lia.
    exfalso. revert H. apply scanLine_away_not_true. lia.
  - subst tr. split; [now left|]. split; [congruence|].
    apply scanLine_true_inv in H. destruct H as (k & Hk & Hstop & Hfree).
    intros r c (i & Hi & -> & ->).
    rewrite Z.sub_diag in *. simpl in Hi. replace (Z.sgn 0) with 0 by reflexivity.
    replace (fr + i * 0) with fr by lia.
    destruct (tc >? fc) eqn:Hgt.
    + assert (Z.sgn (tc - fc) = 1) as -> by lia.
      specialize (Hfree (i - 1) ltac:(lia)). simpl in Hfree.
      replace (fc + 1 + (i - 1) * 1) with (fc + i * 1) in Hfree by lia.
      now apply isSomeb_false.
    + assert (Z.sgn (tc - fc) = -1) as -> by lia.
      specialize (Hfree (i - 1) ltac:(lia)). simpl in Hfree.
      replace (fc + -1 + (i - 1) * -1) with (fc + i * -1) in Hfree by lia.
      now apply isSomeb_false.
  - subst tc. split; [now right|]. split; [congruence|].
    apply scanLine_true_inv in H. destruct H as (k & Hk & Hstop & Hfree).
    intros r c (i & Hi & -> & ->).
    rewrite Z.sub_diag in *. replace (Z.sgn 0) with 0 by reflexivity.
    replace (fc + i * 0) with fc by lia.
    destruct (tr >? fr) eqn:Hgt.
    + assert (Z.sgn (tr - fr) = 1) as -> by lia.
      specialize (Hfree (i - 1) ltac:(lia)). simpl in Hfree.
      replace (fr + 1 + (i - 1) * 1) with (fr + i * 1) in Hfree by lia.
      now apply isSomeb_false.
    + assert (Z.sgn (tr - fr) = -1) as -> by lia.
      specialize (Hfree (i - 1) ltac:(lia)). simpl in Hfree.
      replace (fr + -1 + (i - 1) * -1) with (fr + i * -1) in Hfree by lia.
      now apply isSomeb_false.
Qed.

Lemma isLegalBishopMove_true_inv (b : Board) (fr fc tr tc : Z) :
  isLegalBishopMove b fr fc tr tc = Some true ->
  Z.abs (tr - fr) = Z.abs (tc - fc) /\ (fr, fc) <> (tr, tc) /\
  forall r c, between fr fc tr tc r c -> getCell b r c = None.
Proof.
  unfold isLegalBishopMove. intros H.
  destruct (Z.abs (tr - fr) =? Z.abs (tc - fc)) eqn:E; cbn [negb] in H; [|discriminate].
  apply Z.eqb_eq in E. split; [exact E|].
  apply scanDiag_true_inv in H. destruct H as (k & Hk & Hstop & Hfree).
  assert (Hne : fr <> tr).
  { destruct (tr >? fr) eqn:Hgt; lia. }
  split; [congruence|].
  intros r c (i & Hi & -> & ->).
  rewrite <- E, Z.max_id in Hi.
  assert (Hsr : (if tr >? fr then 1 else -1) = Z.sgn (tr - fr)).
  { destruct (tr >? fr) eqn:Hgt; lia. }
  assert (Hsc : (if tc >? fc then 1 else -1) = Z.sgn (tc - fc)).
  { destruct (tc >? fc) eqn:Hgt; lia. }
  rewrite Hsr, Hsc in *.
  assert (Hk' : k = Z.abs (tr - fr) - 1).
  { destruct (Z.sgn_spec (tr - fr)) as [[? Hs]|[[? Hs]|[? Hs]]]; rewrite Hs in *; lia. }
  destruct (Hfree (i - 1) ltac:(lia)) as [_ Hcell].
  replace (fr + Z.sgn (tr - fr) + (i - 1) * Z.sgn (tr - fr))
    with (fr + i * Z.sgn (tr - fr)) in Hcell by lia.
  replace (fc + Z.sgn (tc - fc) + (i - 1) * Z.sgn (tc - fc))
    with (fc + i * Z.sgn (tc - fc)) in Hcell by lia.
  exact Hcell.
Qed.

Lemma isLegalQueenMove_true_inv (b : Board) (fr fc tr tc : Z) :
  isLegalQueenMove b fr fc tr tc = Some true ->
  (fr = tr \/ fc = tc \/ Z.abs (tr - fr) = Z.abs (tc - fc)) /\
  (fr, fc) <> (tr, tc) /\
  forall r c, between fr fc tr tc r c -> getCell b r c = None.
Proof.
  unfold isLegalQueenMove. intros H.
  destruct (isLegalRookMove b fr fc tr tc) as [[|]|] eqn:Hr; try discriminate.
  - apply isLegalRookMove_true_inv in Hr. destruct Hr as (Hg & Hne & Hfree).
    split; [tauto|]. split; assumption.
  - apply isLegalBishopMove_true_inv in H. destruct H as (Hg & Hne & Hfree).
    split; [tauto|]. split; assumption.
Qed.

(** The test of an en-passant capture in [isLegalMoveBasic] asks for a pawn. *)
Lemma isLegalMoveBasic_not_pawn (b : Board) (ep : option (Z * Z))
  (fr fc tr tc : Z) (piece : Piece) :
  type piece <> Pawn ->
  isLegalMoveBasic b ep fr fc tr tc piece =
  match type piece with
  | Pawn => Some (isLegalPawnMove b fr fc tr tc piece)
  | Rook => isLegalRookMove b fr fc tr tc
  | Knight => Some (isLegalKnightMove fr fc tr tc)
  | Bishop => isLegalBishopMove b fr fc tr tc
  | Queen => isLegalQueenMove b fr fc tr tc
  | King =>
      if (Z.abs (tc - fc) =? 2) && (tr =? fr)
      then isLegalCastling b fr fc tr tc piece
      else Some (isLegalKingMove fr fc tr tc)
  end.
Proof.
  intros Hp. unfold isLegalMoveBasic.
  rewrite (bool_decide_eq_false_2 (type piece = Pawn)) by exact Hp. reflexivity.
Qed.

(** ** Lists of moves *)

Lemma filterM_returns {A} (f : A -> option bool) (l : list A) :
  (forall x, In x l -> f x <> None) -> exists kept, filterM f l = Some kept.
Proof.
  induction l as [|x l IH]; intros H; simpl; [eauto|].
  destruct (f x) as [keep|] eqn:Hx; [|exfalso; apply (H x); simpl; auto].
  destruct IH as [kept ->]; [intros y Hy; apply H; simpl; auto|].
  simpl. eauto.
Qed.

Lemma filterM_In {A} (f : A -> option bool) (l kept : list A) (x : A) :
  filterM f l = Some kept -> (In x kept <-> In x l /\ f x = Some true).
Proof.
  revert kept. induction l as [|y l IH]; intros kept H; simpl in H.
  - inversion H; subst. simpl. tauto.
  - destruct (f y) as [keep|] eqn:Hy; simpl in H; [|discriminate].
    destruct (filterM f l) as [kept'|] eqn:Hl; simpl in H; [|discriminate].
    inversion H; subst. specialize (IH kept' eq_refl).
    destruct keep; simpl; rewrite ?IH; split.
    + intros [<-|[? ?]]; auto.
    + intros [[<-|?] ?]; auto.
    + intros [? ?]; auto.
    + intros [[<-|?] ?]; [congruence|auto].
Qed.

Lemma filterM_sublist {A} (f : A -> option bool) (l kept : list A) :
  filterM f l = Some kept -> sublist kept l.
Proof.
  revert kept. induction l as [|y l IH]; intros kept H; simpl in H.
  - inversion H. constructor.
  - destruct (f y) as [keep|] eqn:Hy; simpl in H; [|discriminate].
    destruct (filterM f l) as [kept'|] eqn:Hl; simpl in H; [|discriminate].
    inversion H; subst. destruct keep.
    + apply sublist_skip. now apply IH.
    + apply sublist_cons. now apply IH.
Qed.

Lemma filterM_nil {A} (f : A -> option bool) (l : list A) :
  filterM f l = Some [] <-> forall x, In x l -> f x = Some false.
Proof.
  induction l as [|y l IH]; simpl.
  - split; [intros _ x []|reflexivity].
  - destruct (f y) as [[|]|] eqn:Hy; simpl.
    + split.
      * destruct (filterM f l); simpl; discriminate.
      * intros H. specialize (H y (or_introl eq_refl)). congruence.
    + destruct (filterM f l) as [kept|] eqn:Hl; simpl.
      * split.
        -- intros H. inversion H; subst. intros x [<-|Hx]; [exact Hy|].
           now apply IH.
        -- intros H. f_equal.
           assert (Some kept = Some []) as Hk by (apply IH; intros; apply H; auto).
           now inversion Hk.
      * split; [discriminate|].
        intros H. assert (@None (list A) = Some []) by (apply IH; intros; apply H; auto).
        discriminate.
    + split; [discriminate|].
      intros H. specialize (H y (or_introl eq_refl)). congruence.
Qed.

Lemma In_candidateMoves (b : Board) (c : PieceColor) (m : Move) :
  In m (candidateMoves b c) <->
  onBoard (fromRow m) (fromCol m) /\ onBoard (toRow m) (toCol m) /\
  exists piece, getCell b (fromRow m) (fromCol m) = Some piece /\ color piece = c.
Proof.
  unfold candidateMoves. rewrite in_flat_map. split.
  - intros ([fr fc] & Hfrom & Hin). cbn [fst snd] in Hin.
    destruct (getCell b fr fc) as [piece|] eqn:Hcell; [|contradiction].
    destruct (bool_decide (color piece = c)) eqn:Hc; [|contradiction].
    apply bool_decide_eq_true_1 in Hc.
    apply in_map_iff in Hin. destruct Hin as ([tr tc] & <- & Hto). cbn [fromRow fromCol toRow toCol fst snd].
    apply In_squares in Hfrom, Hto. eauto.
  - intros (Hfrom & Hto & piece & Hcell & Hc).
    exists (fromRow m, fromCol m). split; [now apply In_squares|]. cbn [fst snd].
    rewrite Hcell, (bool_decide_eq_true_2 _ Hc).
    apply in_map_iff. exists (toRow m, toCol m). split; [now destruct m|].
    now apply In_squares.
Qed.

Lemma NoDup_candidateMoves (b : Board) (c : PieceColor) :
  List.NoDup (candidateMoves b c).
Proof.
  unfold candidateMoves.
  set (f := fun from : Z * Z =>
              match getCell b from.1 from.2 with
              | Some piece =>
                  if bool_decide (color piece = c)
                  then map (fun to : Z * Z => mkMove from.1 from.2 to.1 to.2) squares
                  else []
              | None => []
              end).
  assert (Hfrom : forall from m, In m (f from) -> (fromRow m, fromCol m) = from).
  { intros [fr fc] m Hm. unfold f in Hm. cbn [fst snd] in Hm.
    destruct (getCell b fr fc) as [piece|]; [|contradiction].
    destruct (bool_decide (color piece = c)); [|contradiction].
    apply in_map_iff in Hm. destruct Hm as (? & <- & _). reflexivity. }
  assert (Hnd : forall from, List.NoDup (f from)).
  { intros [fr fc]. unfold f. cbn [fst snd].
    destruct (getCell b fr fc) as [piece|]; [|constructor].
    destruct (bool_decide (color piece = c)); [|constructor].
    apply Finite.Injective_map_NoDup; [|exact NoDup_squares].
    intros [r1 c1] [r2 c2] H. now inversion H. }
  assert (Hgen : forall l, List.NoDup l -> List.NoDup (flat_map f l)).
  { induction 1 as [|from l Hnotin Hl IH]; cbn [flat_map]; [constructor|].
    apply List.NoDup_app; [apply Hnd|exact IH|].
    intros m Hm Hm'. apply in_flat_map in Hm'.
    destruct Hm' as (from' & Hin' & Hm').
    apply Hfrom in Hm, Hm'. apply Hnotin. congruence. }
  apply Hgen, NoDup_squares.
Qed.

Lemma getAllLegalMoves_returns (b : Board) (ep : option (Z * Z)) (c : PieceColor) :
  wfBoard b -> kingsUnique b -> exists moves, getAllLegalMoves b ep c = Some moves.
Proof.
  intros Hwf Hk. apply filterM_returns. intros m _.
  now apply isLegalMove_returns.
Qed.

Lemma In_getAllLegalMoves (b : Board) (ep : option (Z * Z)) (c : PieceColor)
  (moves : list Move) (m : Move) :
  wfBoard b -> getAllLegalMoves b ep c = Some moves ->
  (In m moves <->
   (exists piece, getCell b (fromRow m) (fromCol m) = Some piece /\ color piece = c) /\
   isLegalMove b ep (fromRow m) (fromCol m) (toRow m) (toCol m) = Some true).
Proof.
  intros Hwf H. unfold getAllLegalMoves in H.
  rewrite (filterM_In _ _ _ m H), In_candidateMoves. unfold isLegalMoveForBoard.
  split.
  - intros ((_ & _ & Hp) & Hl). auto.
  - intros ((piece & Hcell & Hc) & Hl). split; [|exact Hl].
    destruct (isLegalMove_facts _ _ _ _ _ _ Hwf Hl) as (p & _ & Hfrom & Hto & _).
    eauto.
Qed.

(** ** What the legality test accepts *)

Lemma color_neq_enemyOf (c1 c2 : PieceColor) : c1 <> c2 -> c1 = enemyOf c2.
Proof. destruct c1, c2; cbv; congruence. Qed.

Lemma existsM_all_false {A} (f : A -> option bool) (l : list A) :
  (forall x, In x l -> f x = Some false) -> existsM f l = Some false.
Proof.
  induction l as [|x l IH]; intros H; simpl; [reflexivity|].
  rewrite (H x) by (simpl; auto). apply IH. intros y Hy. apply H. simpl. auto.
Qed.

(** The status test and the move generator of the search look at the same
    moves. *)
Lemma hasAnyLegalMove_false_iff (b : Board) (ep : option (Z * Z)) (c : PieceColor) :
  hasAnyLegalMove b ep c = Some false <-> getAllLegalMoves b ep c = Some [].
Proof.
  unfold hasAnyLegalMove, getAllLegalMoves, isLegalMoveForBoard.
  rewrite filterM_nil. split.
  - intros H m Hm. apply In_candidateMoves in Hm.
    destruct Hm as (Hfrom & Hto & piece & Hcell & Hc).
    apply In_squares in Hfrom, Hto.
    pose proof (existsM_false _ _ H _ Hfrom) as Hin. cbn [fst snd] in Hin.
    rewrite Hcell, (bool_decide_eq_true_2 _ Hc) in Hin.
    exact (existsM_false _ _ Hin _ Hto).
  - intros H. apply existsM_all_false. intros [fr fc] Hfrom. cbn [fst snd].
    destruct (getCell b fr fc) as [piece|] eqn:Hcell; [|reflexivity].
    destruct (bool_decide (color piece = c)) eqn:Hc; [|reflexivity].
    apply bool_decide_eq_true_1 in Hc.
    apply existsM_all_false. intros [tr tc] Hto. cbn [fst snd].
    apply (H (mkMove fr fc tr tc)). apply In_candidateMoves. cbn.
    apply In_squares in Hfrom, Hto. eauto.
Qed.

(** X1: on every board of eight rows of eight cells with at most one king of
    each colour, every question the program asks about the position is
    answered: [isLegalMove] for a source square in one of the eight rows
    (whatever its column, and whatever the destination, on or off the
    board), [isKingInCheck], [hasAnyLegalMove] and [getAllLegalMoves] for
    either colour all return; and [isLegalMove] answers false when the source
    column or the destination is off the board.  (For a source row that is
    not a row of the board the source reads a cell of [undefined] and throws;
    no statement is made for it.) *)
Theorem legality_tests_return (b : Board) (ep : option (Z * Z)) :
  wfBoard b -> kingsUnique b ->
  (forall fr fc tr tc, 0 <= fr < BOARD_SIZE ->
     exists v, isLegalMove b ep fr fc tr tc = Some v) /\
  (forall fr fc tr tc, 0 <= fr < BOARD_SIZE ->
     ~ (0 <= fc < BOARD_SIZE /\ onBoard tr tc) ->
     isLegalMove b ep fr fc tr tc = Some false) /\
  (forall c, exists v, isKingInCheck c b = Some v) /\
  (forall c, exists v, hasAnyLegalMove b ep c = Some v) /\
  (forall c, exists moves, getAllLegalMoves b ep c = Some moves).
Proof.
  intros Hwf Hk. repeat apply conj.
  - intros fr fc tr tc _.
    destruct (isLegalMove b ep fr fc tr tc) eqn:H; [eauto|].
    now apply isLegalMove_returns in H.
  - intros fr fc tr tc Hrow Hoff. unfold isLegalMove.
    destruct (getCell b fr fc) as [piece|] eqn:Hcell; [|reflexivity].
    pose proof (getCell_onBoard b fr fc piece Hwf Hcell) as Hfrom.
    destruct ((tr <? 0) || (tr >=? BOARD_SIZE) || (tc <? 0) || (tc >=? BOARD_SIZE))
      eqn:Hrange; [reflexivity|].
    exfalso. apply Hoff. unfold onBoard in *. lia.
  - intros c. destruct (isKingInCheck c b) eqn:H; [eauto|].
    now apply isKingInCheck_returns in H.
  - intros c. destruct (hasAnyLegalMove b ep c) eqn:H; [eauto|].
    now apply hasAnyLegalMove_returns in H.
  - intros c. now apply getAllLegalMoves_returns.
Qed.

Lemma legality_tests_return_witness :
  (forall fr fc tr tc, 0 <= fr < BOARD_SIZE ->
     exists v, isLegalMove initBoard None fr fc tr tc = Some v) /\
  (forall fr fc tr tc, 0 <= fr < BOARD_SIZE ->
     ~ (0 <= fc < BOARD_SIZE /\ onBoard tr tc) ->
     isLegalMove initBoard None fr fc tr tc = Some false) /\
  (forall c, exists v, isKingInCheck c initBoard = Some v) /\
  (forall c, exists v, hasAnyLegalMove initBoard None c = Some v) /\
  (forall c, exists moves, getAllLegalMoves initBoard None c = Some moves).
Proof.
  apply (legality_tests_return initBoard None).
  - exact wfBoard_initBoard.
  - exact kingsUnique_initBoard.
Defined.

(** X2: [isLegalRookMove] from a square to that same square never answers
    [true]: it answers [false] when a piece stands to the left of the square
    in its row, and otherwise its loop never ends (the column runs below 0
    without meeting the square again), whatever number of steps it is given. *)
Theorem isLegalRookMove_same_square (b : Board) (r c : Z) :
  isLegalRookMove b r c r c <> Some true /\
  ((exists k p, 0 <= k < c /\ getCell b r k = Some p) ->
   isLegalRookMove b r c r c = Some false) /\
  ((forall k, k < c -> getCell b r k = None) ->
   isLegalRookMove b r c r c = None /\
   forall fuel, scanLine fuel (fun k => isSomeb (getCell b r k)) (c - 1) (-1) c = None).
Proof.
  assert (Hdef : isLegalRookMove b r c r c =
                 scanLine (lineFuel c c) (fun k => isSomeb (getCell b r k)) (c - 1) (-1) c).
  { unfold isLegalRookMove. rewrite Z.eqb_refl. cbn [negb andb].
    replace (c >? c) with false by lia. reflexivity. }
  rewrite Hdef. repeat apply conj.
  - apply scanLine_away_not_true. lia.
  - intros (k & p & Hk & Hcell).
    apply (scanLine_away_blocked _ _ _ _ k); [lia|lia|now rewrite Hcell|].
    unfold lineFuel. lia.
  - intros H. split; [|intros fuel]; (apply scanLine_away_free; [lia|]);
      intros k Hk; rewrite H by lia; reflexivity.
Qed.

(** X3: sliding pieces do not jump.  A move of a rook, bishop or queen that
    [isLegalMove] accepts runs along a row or column (rook), a diagonal
    (bishop) or either (queen), and every square strictly between its two
    ends is empty. *)
Theorem sliding_pieces_do_not_jump (b : Board) (ep : option (Z * Z))
  (fr fc tr tc : Z) (piece : Piece) :
  wfBoard b -> getCell b fr fc = Some piece ->
  isLegalMove b ep fr fc tr tc = Some true ->
  match type piece with
  | Rook => (fr = tr \/ fc = tc) /\
            forall r c, between fr fc tr tc r c -> getCell b r c = None
  | Bishop => Z.abs (tr - fr) = Z.abs (tc - fc) /\
              forall r c, between fr fc tr tc r c -> getCell b r c = None
  | Queen => (fr = tr \/ fc = tc \/ Z.abs (tr - fr) = Z.abs (tc - fc)) /\
             forall r c, between fr fc tr tc r c -> getCell b r c = None
  | _ => True
  end.
Proof.
  intros Hwf Hcell Hlegal.
  destruct (isLegalMove_facts _ _ _ _ _ _ Hwf Hlegal)
    as (p & Hp & _ & _ & _ & _ & Hbasic).
  assert (p = piece) as -> by congruence.
  destruct (type piece) eqn:Ht; try exact I;
    rewrite isLegalMoveBasic_not_pawn in Hbasic by congruence; rewrite Ht in Hbasic.
  - apply isLegalRookMove_true_inv in Hbasic. tauto.
  - apply isLegalBishopMove_true_inv in Hbasic. tauto.
  - apply isLegalQueenMove_true_inv in Hbasic. tauto.
Qed.

Lemma sliding_pieces_do_not_jump_witness :
  (0 = 3 \/ 4 = 4) /\
  forall r c, between 0 4 3 4 r c -> getCell pinnedBishopBoard r c = None.
Proof.
  apply (sliding_pieces_do_not_jump pinnedBishopBoard None 0 4 3 4
           (mkPiece Rook Black true)).
  - apply wfBoardb_sound. reflexivity.
  - reflexivity.
  - vm_compute. reflexivity.
Defined.

(** X4: a knight move that [isLegalMove] accepts is two squares one way and
    one the other; a king move it accepts is a step to a neighbouring square
    or goes two columns along the king's row, and then the king is not in
    check, the square it passes and the square it reaches are not attacked,
    the squares on its way are empty and the corner of the row on that side
    holds a piece whose [hasMoved] flag is unset. *)
Theorem knight_and_king_moves (b : Board) (ep : option (Z * Z))
  (fr fc tr tc : Z) (piece : Piece) :
  wfBoard b -> getCell b fr fc = Some piece ->
  isLegalMove b ep fr fc tr tc = Some true ->
  match type piece with
  | Knight =>
      (Z.abs (tr - fr) = 2 /\ Z.abs (tc - fc) = 1) \/
      (Z.abs (tr - fr) = 1 /\ Z.abs (tc - fc) = 2)
  | King =>
      (Z.abs (tr - fr) <= 1 /\ Z.abs (tc - fc) <= 1) \/
      (tr = fr /\ Z.abs (tc - fc) = 2 /\
       isKingInCheck (color piece) b = Some false /\
       isSquareAttacked fr (fc + (if tc >? fc then 1 else -1))
                        (enemyOf (color piece)) b = Some false /\
       isSquareAttacked tr tc (enemyOf (color piece)) b = Some false /\
       (forall c, Z.min (fc + 1) tc <= c <= Z.max (fc - 1) tc -> getCell b fr c = None) /\
       exists corner, getCell b fr (if tc >? fc then 7 else 0) = Some corner /\
                      hasMoved corner = false)
  | _ => True
  end.
Proof.
  intros Hwf Hcell Hlegal.
  destruct (isLegalMove_facts _ _ _ _ _ _ Hwf Hlegal)
    as (p & Hp & _ & _ & _ & _ & Hbasic).
  assert (p = piece) as -> by congruence.
  destruct (type piece) eqn:Ht; try exact I;
    rewrite isLegalMoveBasic_not_pawn in Hbasic by congruence; rewrite Ht in Hbasic.
  - injection Hbasic as Hbasic. unfold isLegalKnightMove in Hbasic. lia.
  - destruct ((Z.abs (tc - fc) =? 2) && (tr =? fr)) eqn:Hcastle.
    + right. assert (tr = fr /\ Z.abs (tc - fc) = 2) as [-> Hdc] by lia.
      apply isLegalCastling_true_inv in Hbasic.
      destruct Hbasic as (Hcheck & Hpass & Hdest & Hside).
      split; [reflexivity|]. split; [exact Hdc|]. split; [exact Hcheck|].
      split; [exact Hpass|]. split; [exact Hdest|].
      change (BOARD_SIZE - 1) with 7 in Hside.
      destruct (tc >? fc) eqn:Hgt; destruct Hside as (Hfree & Hcorner);
        (split; [|exact Hcorner]); intros c Hc; apply Hfree; lia.
    + left. injection Hbasic as Hbasic. unfold isLegalKingMove in Hbasic. lia.
Qed.

Lemma knight_and_king_moves_witness :
  (Z.abs (5 - 7) = 2 /\ Z.abs (2 - 1) = 1) \/
  (Z.abs (5 - 7) = 1 /\ Z.abs (2 - 1) = 2).
Proof.
  apply (knight_and_king_moves initBoard None 7 1 5 2 (mkPiece Knight White false)).
  - exact wfBoard_initBoard.
  - reflexivity.
  - vm_compute. reflexivity.
Defined.

(** X5: a pawn move that [isLegalMove] accepts is one of four: one row
    forward onto an empty square; two rows forward for a pawn whose
    [hasMoved] flag is unset, over and onto empty squares; one row forward
    and one column aside onto a piece of the other colour; or one row forward
    and one column aside onto the empty en-passant target. *)
Theorem pawn_moves (b : Board) (ep : option (Z * Z))
  (fr fc tr tc : Z) (piece : Piece) :
  wfBoard b -> getCell b fr fc = Some piece -> type piece = Pawn ->
  isLegalMove b ep fr fc tr tc = Some true ->
  (tc = fc /\ tr = fr + directionOf (color piece) /\ getCell b tr tc = None) \/
  (tc = fc /\ tr = fr + 2 * directionOf (color piece) /\ hasMoved piece = false /\
   getCell b (fr + directionOf (color piece)) fc = None /\ getCell b tr tc = None) \/
  (Z.abs (tc - fc) = 1 /\ tr = fr + directionOf (color piece) /\
   exists dest, getCell b tr tc = Some dest /\ color dest = enemyOf (color piece)) \/
  (Z.abs (tc - fc) = 1 /\ tr = fr + directionOf (color piece) /\
   getCell b tr tc = None /\ ep = Some (tr, tc)).
Proof.
  intros Hwf Hcell Ht Hlegal.
  destruct (isLegalMove_facts _ _ _ _ _ _ Hwf Hlegal)
    as (p & Hp & _ & _ & _ & _ & Hbasic).
  assert (p = piece) as -> by congruence.
  unfold isLegalMoveBasic in Hbasic.
  rewrite (bool_decide_eq_true_2 _ Ht) in Hbasic. cbn [andb] in Hbasic.
  destruct ((Z.abs (tc - fc) =? 1) && (tr =? fr + directionOf (color piece))
            && negb (isSomeb (getCell b tr tc)) && isEnPassantTarget ep tr tc) eqn:Hep.
  - right. right. right.
    apply andb_prop in Hep. destruct Hep as [Hep Htarget].
    apply andb_prop in Hep. destruct Hep as [Hep Hempty].
    apply negb_true_iff, isSomeb_false in Hempty.
    split; [lia|]. split; [lia|]. split; [exact Hempty|].
    unfold isEnPassantTarget in Htarget. destruct ep as [[row col]|]; [|discriminate].
    f_equal. f_equal; lia.
  - rewrite Ht in Hbasic. injection Hbasic as Hbasic.
    unfold isLegalPawnMove in Hbasic.
    destruct ((tc =? fc) && (tr =? fr + directionOf (color piece))
              && negb (isSomeb (getCell b tr tc))) eqn:H1.
    { left. apply andb_prop in H1. destruct H1 as [H1 Hempty].
      apply negb_true_iff, isSomeb_false in Hempty. split; [lia|]. split; [lia|assumption]. }
    destruct ((tc =? fc) && negb (hasMoved piece)
              && (tr =? fr + 2 * directionOf (color piece))
              && negb (isSomeb (getCell b (fr + directionOf (color piece)) fc))
              && negb (isSomeb (getCell b tr tc))) eqn:H2.
    { right. left.
      apply andb_prop in H2. destruct H2 as [H2 Hempty].
      apply andb_prop in H2. destruct H2 as [H2 Hmid].
      apply andb_prop in H2. destruct H2 as [H2 Hrow].
      apply andb_prop in H2. destruct H2 as [Hcol Hmoved].
      apply negb_true_iff, isSomeb_false in Hempty, Hmid.
      apply negb_true_iff in Hmoved.
      split; [lia|]. split; [lia|]. auto. }
    destruct ((Z.abs (tc - fc) =? 1) && (tr =? fr + directionOf (color piece))) eqn:H3;
      [|discriminate].
    right. right. left. split; [lia|]. split; [lia|].
    destruct (getCell b tr tc) as [dest|]; [|discriminate].
    exists dest. split; [reflexivity|].
    apply negb_true_iff, bool_decide_eq_false_1 in Hbasic.
    now apply color_neq_enemyOf.
Qed.

Lemma pawn_moves_witness :
  (4 = 4 /\ 4 = 6 + directionOf White /\ getCell initBoard 4 4 = None) \/
  (4 = 4 /\ 4 = 6 + 2 * directionOf White /\ false = false /\
   getCell initBoard (6 + directionOf White) 4 = None /\ getCell initBoard 4 4 = None) \/
  (Z.abs (4 - 4) = 1 /\ 4 = 6 + directionOf White /\
   exists dest, getCell initBoard 4 4 = Some dest /\ color dest = enemyOf White) \/
  (Z.abs (4 - 4) = 1 /\ 4 = 6 + directionOf White /\
   getCell initBoard 4 4 = None /\ @None (Z * Z) = Some (4, 4)).
Proof.
  apply (pawn_moves initBoard None 6 4 4 4 (mkPiece Pawn White false)).
  - exact wfBoard_initBoard.
  - reflexivity.
  - reflexivity.
  - vm_compute. reflexivity.
Defined.

(** X6: [isLegalMove] accepts only a move between two different squares of
    the board, of a piece that stands on the first, onto a square that is
    empty or holds a piece of the other colour, and after which the mover's
    own king is not in check on the board the test builds. *)
Theorem isLegalMove_accepts_only (b : Board) (ep : option (Z * Z)) (fr fc tr tc : Z) :
  wfBoard b ->
  isLegalMove b ep fr fc tr tc = Some true ->
  onBoard fr fc /\ onBoard tr tc /\ (fr, fc) <> (tr, tc) /\
  exists piece,
    getCell b fr fc = Some piece /\
    (forall dest, getCell b tr tc = Some dest -> color dest = enemyOf (color piece)) /\
    isKingInCheck (color piece) (simulatedBoard (cloneBoard b) piece fr fc tr tc)
      = Some false.
Proof.
  intros Hwf Hlegal.
  destruct (isLegalMove_facts _ _ _ _ _ _ Hwf Hlegal)
    as (piece & Hcell & Hfrom & Hto & Hne & Hdest & _).
  repeat (split; [assumption|]).
  exists piece. split; [assumption|]. split.
  - intros dest Hd. apply color_neq_enemyOf. eauto.
  - destruct (isLegalMove_true_inv _ _ _ _ _ _ Hlegal) as (p & Hp & _ & _ & Hsim).
    assert (p = piece) as -> by congruence.
    destruct (isLegalMoveSimulated_true_inv _ _ _ _ _ _ _ Hcell Hsim)
      as (_ & simPiece & Hsp & Hcheck).
    rewrite getCell_cloneBoard in Hsp by assumption.
    assert (simPiece = piece) as -> by congruence. exact Hcheck.
Qed.

Lemma isLegalMove_accepts_only_witness :
  onBoard 6 4 /\ onBoard 4 4 /\ (6, 4) <> (4, 4) /\
  exists piece,
    getCell initBoard 6 4 = Some piece /\
    (forall dest, getCell initBoard 4 4 = Some dest -> color dest = enemyOf (color piece)) /\
    isKingInCheck (color piece) (simulatedBoard (cloneBoard initBoard) piece 6 4 4 4)
      = Some false.
Proof.
  apply (isLegalMove_accepts_only initBoard None 6 4 4 4).
  - exact wfBoard_initBoard.
  - vm_compute. reflexivity.
Defined.

(** X7: [getAllLegalMoves] returns, without repetition, exactly the moves
    [isLegalMove] accepts for the pieces of the given colour. *)
Theorem getAllLegalMoves_exact (b : Board) (ep : option (Z * Z)) (c : PieceColor) :
  wfBoard b -> kingsUnique b ->
  exists moves,
    getAllLegalMoves b ep c = Some moves /\ List.NoDup moves /\
    forall m, In m moves <->
      (exists piece, getCell b (fromRow m) (fromCol m) = Some piece /\ color piece = c) /\
      isLegalMove b ep (fromRow m) (fromCol m) (toRow m) (toCol m) = Some true.
Proof.
  intros Hwf Hk.
  destruct (getAllLegalMoves_returns b ep c Hwf Hk) as [moves Hmoves].
  exists moves. split; [exact Hmoves|]. split.
  - apply NoDup_ListNoDup.
    apply (sublist_NoDup _ (candidateMoves b c)).
    + apply NoDup_ListNoDup, NoDup_candidateMoves.
    + exact (filterM_sublist _ _ _ Hmoves).
  - intros m. now apply In_getAllLegalMoves.
Qed.

Lemma getAllLegalMoves_exact_witness :
  exists moves,
    getAllLegalMoves initBoard None White = Some moves /\ List.NoDup moves /\
    forall m, In m moves <->
      (exists piece, getCell initBoard (fromRow m) (fromCol m) = Some piece /\
                     color piece = White) /\
      isLegalMove initBoard None (fromRow m) (fromCol m) (toRow m) (toCol m) = Some true.
Proof.
  apply (getAllLegalMoves_exact initBoard None White).
  - exact wfBoard_initBoard.
  - exact kingsUnique_initBoard.
Defined.

(** X8: [updateGameStatus] on a game that is not over returns, changes
    nothing but the two game-over variables, and ends the game exactly when
    the side to move has no legal move, i.e. when [getAllLegalMoves] for that
    side is empty. *)
Theorem updateGameStatus_ends_game_iff_no_move (g : Game) :
  wfBoard (board g) -> kingsUnique (board g) -> gameOver g = false ->
  exists g',
    updateGameStatus g = Some g' /\
    board g' = board g /\ enPassantTarget g' = enPassantTarget g /\
    currentTurn g' = currentTurn g /\ whiteScore g' = whiteScore g /\
    blackScore g' = blackScore g /\ moveHistory g' = moveHistory g /\
    (gameOver g' = true <->
     getAllLegalMoves (board g) (enPassantTarget g) (currentTurn g) = Some []) /\
    (gameOver g' = true -> gameState g' = GameOver) /\
    (gameOver g' = false -> g' = g).
Proof.
  intros Hwf Hk Hover.
  destruct (updateGameStatus g) as [g'|] eqn:Hg';
    [|now apply updateGameStatus_returns in Hg'].
  exists g'. split; [reflexivity|].
  destruct (updateGameStatus_preserves _ _ Hg') as (Hb & He & Ht & Hw & Hbl & Hh).
  repeat (split; [assumption|]).
  unfold updateGameStatus in Hg'. rewrite Hover in Hg'.
  destruct (isKingInCheck (currentTurn g) (board g)) as [inCheck|]; [|discriminate].
  simpl in Hg'.
  destruct (hasAnyLegalMove (board g) (enPassantTarget g) (currentTurn g))
    as [anyMove|] eqn:Hany; [|discriminate].
  simpl in Hg'. rewrite <- hasAnyLegalMove_false_iff, Hany.
  destruct anyMove; simpl in Hg'; inversion Hg'; subst; simpl.
  - rewrite Hover. repeat split; congruence.
  - repeat split; congruence.
Qed.

Lemma updateGameStatus_ends_game_iff_no_move_witness :
  exists g',
    updateGameStatus (newGame initBoard) = Some g' /\
    board g' = initBoard /\ enPassantTarget g' = None /\
    currentTurn g' = White /\ whiteScore g' = 0 /\
    blackScore g' = 0 /\ moveHistory g' = [] /\
    (gameOver g' = true <-> getAllLegalMoves initBoard None White = Some []) /\
    (gameOver g' = true -> gameState g' = GameOver) /\
    (gameOver g' = false -> g' = newGame initBoard).
Proof.
  apply (updateGameStatus_ends_game_iff_no_move (newGame initBoard)).
  - exact wfBoard_initBoard.
  - exact kingsUnique_initBoard.
  - reflexivity.
Defined.

(** ** What the executor does to the position *)

Lemma directionOf_abs (c : PieceColor) : Z.abs (directionOf c) = 1.
Proof. destruct c; reflexivity. Qed.

(** The en-passant step touches the square beside the pawn only. *)
Lemma enPassantCapture_frame (b : Board) (ep : option (Z * Z))
  (fr fc tr tc : Z) (piece : Piece) (r c : Z) :
  (r, c) <> (fr, tc) ->
  getCell (enPassantCapture b ep fr fc tr tc piece).1 r c = getCell b r c.
Proof.
  intros Hne. unfold enPassantCapture.
  destruct (_ && _); [|reflexivity].
  destruct (getCell b fr tc); [|reflexivity].
  cbn [fst]. apply getCell_setCell_ne. congruence.
Qed.

Lemma enPassantCapture_victim (b : Board) (ep : option (Z * Z))
  (fr fc tr tc : Z) (piece : Piece) :
  wfBoard b -> type piece = Pawn -> Z.abs (tc - fc) = 1 ->
  getCell b tr tc = None -> ep = Some (tr, tc) ->
  getCell (enPassantCapture b ep fr fc tr tc piece).1 fr tc = None.
Proof.
  intros Hwf Ht Hdc Hempty ->. unfold enPassantCapture.
  rewrite (bool_decide_eq_true_2 _ Ht), Hempty. cbn [isEnPassantTarget isSomeb negb].
  rewrite !Z.eqb_refl. replace (Z.abs (tc - fc) =? 1) with true by lia. cbn [andb].
  destruct (getCell b fr tc) as [cap|] eqn:Hcap; cbn [fst]; [|exact Hcap].
  apply getCell_setCell_eq; [assumption|]. eapply getCell_onBoard; eauto.
Qed.

(** Without a king moving two columns the castling step does nothing. *)
Lemma castlingRelocation_none (b : Board) (fr fc tc : Z) (piece : Piece) :
  ~ (type piece = King /\ Z.abs (tc - fc) = 2) ->
  castlingRelocation b fr fc tc piece = (b, None).
Proof.
  intros H. unfold castlingRelocation.
  destruct (bool_decide (type piece = King) && (Z.abs (tc - fc) =? 2)) eqn:E;
    [|reflexivity].
  exfalso. apply H. apply andb_prop in E. destruct E as [E1 E2].
  apply bool_decide_eq_true_1 in E1. split; [exact E1|lia].
Qed.

Lemma castlingRelocation_frame (b : Board) (fr fc tc : Z) (piece : Piece) (r c : Z) :
  ~ (r = fr /\ (c = (if tc >? fc then 7 else 0) \/
                c = (if tc >? fc then fc + 1 else fc - 1))) ->
  getCell (castlingRelocation b fr fc tc piece).1 r c = getCell b r c.
Proof.
  intros H. unfold castlingRelocation. change (BOARD_SIZE - 1) with 7.
  destruct (_ && _); [|reflexivity].
  destruct (tc >? fc).
  - destruct (getCell b fr 7); [|reflexivity]. cbn [fst].
    rewrite !getCell_setCell_ne; [reflexivity| |]; intros E; inversion E; subst; tauto.
  - destruct (getCell b fr 0); [|reflexivity]. cbn [fst].
    rewrite !getCell_setCell_ne; [reflexivity| |]; intros E; inversion E; subst; tauto.
Qed.

Lemma board_movePieceCore_eq (g : Game) (fr fc tr tc : Z) (piece : Piece) :
  board (movePieceCore g fr fc tr tc piece) =
  setCell
    (setCell
       (castlingRelocation
          (enPassantCapture (board g) (enPassantTarget g) fr fc tr tc piece).1
          fr fc tc piece).1
       tr tc (Some (mkPiece (promotedType piece tr) (color piece) true)))
    fr fc None.
Proof.
  unfold movePieceCore.
  destruct (enPassantCapture _ _ _ _ _ _ _) as [b1 epc].
  destruct (castlingRelocation _ _ _ _ _) as [b2 cast]. reflexivity.
Qed.

Lemma scores_movePieceCore (g : Game) (fr fc tr tc : Z) (piece : Piece) :
  let b1 := (enPassantCapture (board g) (enPassantTarget g) fr fc tr tc piece).1 in
  let v := match getCell b1 tr tc with Some d => pieceValue d | None => 0 end in
  whiteScore (movePieceCore g fr fc tr tc piece) =
    (if bool_decide (color piece = White) then whiteScore g + v else whiteScore g) /\
  blackScore (movePieceCore g fr fc tr tc piece) =
    (if bool_decide (color piece = White) then blackScore g else blackScore g + v).
Proof.
  unfold movePieceCore.
  destruct (enPassantCapture _ _ _ _ _ _ _) as [b1 epc].
  destruct (castlingRelocation _ _ _ _ _) as [b2 cast]. cbn. split; reflexivity.
Qed.

Lemma moveHistory_movePieceCore (g : Game) (fr fc tr tc : Z) (piece : Piece) :
  exists record,
    moveHistory (movePieceCore g fr fc tr tc piece) = record :: moveHistory g /\
    recFromRow record = fr /\ recFromCol record = fc /\
    recToRow record = tr /\ recToCol record = tc /\
    oldType record = type piece /\ oldHasMoved record = hasMoved piece /\
    oldEnPassantTarget record = enPassantTarget g /\
    captured record =
      (let ep := enPassantCapture (board g) (enPassantTarget g) fr fc tr tc piece in
       match getCell ep.1 tr tc with
       | Some d => Some (mkCaptured (type d) (color d) (hasMoved d) tr tc)
       | None => ep.2
       end) /\
    castling record =
      (castlingRelocation
         (enPassantCapture (board g) (enPassantTarget g) fr fc tr tc piece).1
         fr fc tc piece).2.
Proof.
  unfold movePieceCore.
  destruct (enPassantCapture _ _ _ _ _ _ _) as [b1 epc].
  destruct (castlingRelocation _ _ _ _ _) as [b2 cast]. cbn.
  eexists. split; [reflexivity|]. cbn. repeat split.
Qed.

(** The square a legal move reaches is not the square beside the pawn that
    the en-passant step clears. *)
Lemma legal_destination_not_beside (b : Board) (ep : option (Z * Z))
  (fr fc tr tc : Z) (piece : Piece) :
  (fr, fc) <> (tr, tc) ->
  isLegalMoveBasic b ep fr fc tr tc piece = Some true ->
  getCell (enPassantCapture b ep fr fc tr tc piece).1 tr tc = getCell b tr tc.
Proof.
  intros Hne Hbasic. unfold enPassantCapture.
  destruct (bool_decide (type piece = Pawn) && (Z.abs (tc - fc) =? 1)
            && negb (isSomeb (getCell b tr tc)) && isEnPassantTarget ep tr tc) eqn:E;
    [|reflexivity].
  destruct (getCell b fr tc); [|reflexivity]. cbn [fst].
  apply getCell_setCell_ne.
  apply andb_prop in E. destruct E as [E _].
  apply andb_prop in E. destruct E as [E _].
  apply andb_prop in E. destruct E as [Ht Hdc].
  apply bool_decide_eq_true_1 in Ht.
  destruct (isLegalMoveBasic_pawn_rows _ _ _ _ _ _ _ Ht Hbasic) as [Hr|[Hr _]];
    pose proof (directionOf_abs (color piece)); intros Heq; inversion Heq; lia.
Qed.

Ltac decide_cells :=
  repeat match goal with
         | |- context [ (?a =? ?b) && (?c =? ?d) ] =>
             first [ replace ((a =? b) && (c =? d)) with true by lia
                   | replace ((a =? b) && (c =? d)) with false by lia ]
         end.

(** X9: what a legal move does to the board.  [movePiece] followed by the
    turn flip returns; afterwards the destination holds the moved piece with
    [hasMoved] set (a pawn that reaches the last row of its march has become
    a queen, every other piece keeps its type) and the origin is empty; the
    square beside a pawn that moved diagonally onto an empty square is empty
    (the pawn taken en passant is gone); a king that moved two columns has
    taken the piece from the corner of its row to the square it passed; and
    no other square has changed. *)
Theorem applyMove_board (g : Game) (fr fc tr tc : Z) (piece : Piece) :
  wfBoard (board g) -> kingsUnique (board g) ->
  getCell (board g) fr fc = Some piece ->
  isLegalMove (board g) (enPassantTarget g) fr fc tr tc = Some true ->
  let corner := if tc >? fc then 7 else 0 in
  let beside := if tc >? fc then fc + 1 else fc - 1 in
  let lastRow := if bool_decide (color piece = White) then 0 else 7 in
  exists g',
    applyMove g fr fc tr tc = Some g' /\
    getCell (board g') tr tc =
      Some (mkPiece (if bool_decide (type piece = Pawn) && (tr =? lastRow)
                     then Queen else type piece)
                    (color piece) true) /\
    getCell (board g') fr fc = None /\
    (type piece = Pawn -> tc <> fc -> getCell (board g) tr tc = None ->
     getCell (board g') fr tc = None) /\
    (type piece = King -> Z.abs (tc - fc) = 2 ->
     tr = fr /\ getCell (board g') fr corner = None /\
     getCell (board g') fr beside = getCell (board g) fr corner) /\
    (forall r c,
       (r, c) <> (fr, fc) -> (r, c) <> (tr, tc) ->
       ~ (type piece = Pawn /\ tc <> fc /\ getCell (board g) tr tc = None /\
          (r, c) = (fr, tc)) ->
       ~ (type piece = King /\ Z.abs (tc - fc) = 2 /\ r = fr /\
          (c = corner \/ c = beside)) ->
       getCell (board g') r c = getCell (board g) r c).
Proof.
  intros Hwf Hk Hcell Hlegal corner beside lastRow.
  destruct (applyMove_returns g fr fc tr tc Hwf Hk Hlegal) as (g' & Hg' & _).
  exists g'. split; [exact Hg'|].
  destruct (applyMove_inv _ _ _ _ _ _ _ Hcell Hg') as (Hboard & _ & _).
  rewrite Hboard, board_movePieceCore_eq.
  destruct (isLegalMove_facts _ _ _ _ _ _ Hwf Hlegal)
    as (p & Hp & Hfrom & Hto & Hne & Hdest & Hbasic).
  assert (p = piece) as -> by congruence.
  set (b1 := (enPassantCapture (board g) (enPassantTarget g) fr fc tr tc piece).1).
  set (b2 := (castlingRelocation b1 fr fc tc piece).1).
  assert (Hwf1 : wfBoard b1).
  { unfold b1, enPassantCapture. destruct (_ && _); [|assumption].
    destruct (getCell (board g) fr tc); [|assumption]. cbn [fst]. wf_board. }
  assert (Hwf2 : wfBoard b2).
  { unfold b2, castlingRelocation. destruct (_ && _); [|assumption].
    destruct (tc >? fc).
    - destruct (getCell b1 fr (BOARD_SIZE - 1)); [|assumption]. cbn [fst]. wf_board.
    - destruct (getCell b1 fr 0); [|assumption]. cbn [fst]. wf_board. }
  assert (Hpromoted : promotedType piece tr =
                      if bool_decide (type piece = Pawn) && (tr =? lastRow)
                      then Queen else type piece).
  { unfold promotedType, lastRow. change (BOARD_SIZE - 1) with 7.
    destruct (bool_decide (type piece = Pawn)); [|reflexivity].
    destruct (color piece); cbn; destruct (tr =? _); reflexivity. }
  split.
  { rewrite getCell_setCell_ne by congruence.
    rewrite getCell_setCell_eq by assumption. now rewrite Hpromoted. }
  split.
  { apply getCell_setCell_eq; [wf_board|assumption]. }
  split.
  { intros Ht Hcol Hempty.
    assert (Hcol' : fc <> tc) by congruence.
    destruct (isLegalMoveBasic_pawn_diagonal_empty _ _ _ _ _ _ _ Ht
                Hcol' Hempty Hbasic) as (Hdc & Hrow & Hep).
    pose proof (directionOf_abs (color piece)) as Hdir.
    rewrite !getCell_setCell_ne by (intros E; inversion E; lia).
    unfold b2. rewrite castlingRelocation_none by (intros [? _]; congruence).
    cbn [fst]. apply enPassantCapture_victim; assumption. }
  split.
  { intros Ht Hdc.
    destruct (isLegalMoveBasic_king_two_columns _ _ _ _ _ _ _ Ht Hdc Hbasic)
      as (-> & Hcastle).
    apply isLegalCastling_true_inv in Hcastle. destruct Hcastle as (_ & _ & _ & Hside).
    split; [reflexivity|].
    assert (Hb1 : b1 = board g).
    { unfold b1, enPassantCapture.
      rewrite (bool_decide_eq_false_2 (type piece = Pawn)) by congruence. reflexivity. }
    destruct Hfrom as [Hfr Hfc], Hto as [_ Htc]. unfold BOARD_SIZE in *.
    unfold b2, castlingRelocation, corner, beside. rewrite Hb1.
    rewrite (bool_decide_eq_true_2 _ Ht). replace (Z.abs (tc - fc) =? 2) with true by lia.
    cbn [andb]. change (8 - 1) with 7 in *.
    change (BOARD_SIZE - 1) with 7.
    destruct (tc >? fc) eqn:Hgt; destruct Hside as (Hfree & rook & Hrook & _);
      rewrite Hrook; cbn [fst].
    - assert (tc <> 7) by (intros ->; rewrite Hfree in Hrook by lia; discriminate).
      rewrite !getCell_setCell by (wf_board || (unfold onBoard, BOARD_SIZE; lia)).
      split; decide_cells; reflexivity.
    - assert (tc <> 0) by (intros ->; rewrite Hfree in Hrook by lia; discriminate).
      rewrite !getCell_setCell by (wf_board || (unfold onBoard, BOARD_SIZE; lia)).
      split; decide_cells; reflexivity. }
  intros r c Hnf Hnt Hnotep Hnotcastle.
  rewrite !getCell_setCell_ne by congruence.
  unfold b2. destruct (decide (type piece = King /\ Z.abs (tc - fc) = 2)) as [[Ht Hdc]|Hnc].
  - rewrite castlingRelocation_frame by tauto.
    unfold b1, enPassantCapture.
    rewrite (bool_decide_eq_false_2 (type piece = Pawn)) by congruence. reflexivity.
  - rewrite castlingRelocation_none by exact Hnc. cbn [fst].
    destruct (decide ((r, c) = (fr, tc))) as [Heq|Hneq];
      [|now apply enPassantCapture_frame].
    unfold b1, enPassantCapture.
    destruct (bool_decide (type piece = Pawn) && (Z.abs (tc - fc) =? 1)
              && negb (isSomeb (getCell (board g) tr tc))
              && isEnPassantTarget (enPassantTarget g) tr tc) eqn:E; [|reflexivity].
    exfalso. apply Hnotep.
    apply andb_prop in E. destruct E as [E _].
    apply andb_prop in E. destruct E as [E Hempty].
    apply andb_prop in E. destruct E as [Ht Hdc].
    apply bool_decide_eq_true_1 in Ht.
    apply negb_true_iff, isSomeb_false in Hempty.
    repeat split; [assumption|lia|assumption|assumption].
Qed.

Lemma applyMove_board_witness :
  exists g',
    applyMove (newGame initBoard) 6 4 4 4 = Some g' /\
    getCell (board g') 4 4 = Some (mkPiece Pawn White true) /\
    getCell (board g') 6 4 = None /\
    getCell (board g') 7 4 = Some (mkPiece King White false).
Proof.
  assert (Hlegal : isLegalMove initBoard None 6 4 4 4 = Some true)
    by (vm_compute; reflexivity).
  destruct (applyMove_board (newGame initBoard) 6 4 4 4 (mkPiece Pawn White false)
              wfBoard_initBoard kingsUnique_initBoard eq_refl Hlegal)
    as (g' & Hg' & Hto & Hfrom & _ & _ & Hframe).
  exists g'. split; [exact Hg'|]. split; [exact Hto|]. split; [exact Hfrom|].
  rewrite Hframe;
    [reflexivity | discriminate | discriminate
    | intros (_ & H & _); now apply H | intros (Ht & _); discriminate].
Defined.

(** Every field of the game after [movePiece] and the turn flip, but the two
    game-over variables, is the one [movePiece] computes before it looks at
    the status. *)
Lemma applyMove_fields (g g' : Game) (fr fc tr tc : Z) (piece : Piece) :
  getCell (board g) fr fc = Some piece ->
  applyMove g fr fc tr tc = Some g' ->
  let core := movePieceCore g fr fc tr tc piece in
  board g' = board core /\ enPassantTarget g' = enPassantTarget core /\
  currentTurn g' = enemyOf (currentTurn g) /\
  whiteScore g' = whiteScore core /\ blackScore g' = blackScore core /\
  moveHistory g' = moveHistory core.
Proof.
  intros Hp Happly. unfold applyMove, movePiece in Happly. rewrite Hp in Happly.
  destruct (updateGameStatus (movePieceCore g fr fc tr tc piece)) as [g1|] eqn:Hstatus;
    simpl in Happly; [|discriminate].
  inversion Happly; subst g'. simpl.
  apply updateGameStatus_preserves in Hstatus as (Hb & He & Ht & Hw & Hbl & Hh).
  rewrite Hb, He, Ht, Hw, Hbl, Hh. repeat split.
  unfold movePieceCore.
  destruct (enPassantCapture _ _ _ _ _ _ _) as [b1 epc].
  destruct (castlingRelocation _ _ _ _ _) as [b2 cast]. reflexivity.
Qed.

(** X10: the book-keeping of a legal move.  The value of the piece that
    stood on the destination is added to the score of the mover's colour and
    the other score is unchanged; a pawn taken en passant is recorded as
    captured, on the square beside the capturing pawn, and adds nothing to
    either score.  One record is pushed on the history, with the squares of
    the move, the type and [hasMoved] flag the piece had and the en-passant
    target of the position before; and the turn passes to the other side. *)
Theorem applyMove_scores_and_history (g : Game) (fr fc tr tc : Z) (piece : Piece) :
  wfBoard (board g) -> kingsUnique (board g) ->
  getCell (board g) fr fc = Some piece ->
  isLegalMove (board g) (enPassantTarget g) fr fc tr tc = Some true ->
  let v := match getCell (board g) tr tc with Some d => pieceValue d | None => 0 end in
  exists g' record,
    applyMove g fr fc tr tc = Some g' /\
    whiteScore g' = (if bool_decide (color piece = White)
                     then whiteScore g + v else whiteScore g) /\
    blackScore g' = (if bool_decide (color piece = White)
                     then blackScore g else blackScore g + v) /\
    currentTurn g' = enemyOf (currentTurn g) /\
    moveHistory g' = record :: moveHistory g /\
    (recFromRow record, recFromCol record, recToRow record, recToCol record)
      = (fr, fc, tr, tc) /\
    oldType record = type piece /\ oldHasMoved record = hasMoved piece /\
    oldEnPassantTarget record = enPassantTarget g /\
    (forall d, getCell (board g) tr tc = Some d ->
       captured record = Some (mkCaptured (type d) (color d) (hasMoved d) tr tc)) /\
    (isEnPassantCapture g fr fc tr tc = true ->
     v = 0 /\
     exists victim,
       getCell (board g) fr tc = Some victim /\
       captured record =
         Some (mkCaptured (type victim) (color victim) (hasMoved victim) fr tc)) /\
    (getCell (board g) tr tc = None -> isEnPassantCapture g fr fc tr tc = false ->
     captured record = None).
Proof.
  intros Hwf Hk Hcell Hlegal v.
  destruct (applyMove_returns g fr fc tr tc Hwf Hk Hlegal) as (g' & Hg' & _).
  destruct (applyMove_fields _ _ _ _ _ _ _ Hcell Hg')
    as (_ & _ & Hturn & Hw & Hb & Hh).
  destruct (isLegalMove_facts _ _ _ _ _ _ Hwf Hlegal)
    as (p & Hp & Hfrom & Hto & Hne & Hdest & Hbasic).
  assert (p = piece) as -> by congruence.
  destruct (moveHistory_movePieceCore g fr fc tr tc piece)
    as (record & Hrec & Hfr & Hfc & Htr & Htc & Hot & Hom & Hoe & Hcap & _).
  destruct (scores_movePieceCore g fr fc tr tc piece) as (Hws & Hbs).
  pose proof (legal_destination_not_beside _ _ _ _ _ _ _ Hne Hbasic) as Hsame.
  cbn zeta in Hws, Hbs, Hcap. rewrite Hsame in Hws, Hbs, Hcap.
  exists g', record. split; [exact Hg'|].
  split; [now rewrite Hw, Hws|]. split; [now rewrite Hb, Hbs|].
  split; [exact Hturn|]. split; [now rewrite Hh|].
  split; [now rewrite Hfr, Hfc, Htr, Htc|].
  split; [exact Hot|]. split; [exact Hom|]. split; [exact Hoe|].
  split; [|split].
  - intros d Hd. rewrite Hcap, Hd. reflexivity.
  - unfold isEnPassantCapture. rewrite Hcell. intros Hep.
    unfold enPassantCapture in Hep, Hcap.
    destruct (bool_decide (type piece = Pawn) && (Z.abs (tc - fc) =? 1)
              && negb (isSomeb (getCell (board g) tr tc))
              && isEnPassantTarget (enPassantTarget g) tr tc) eqn:E;
      [|discriminate].
    apply andb_prop in E. destruct E as [E _].
    apply andb_prop in E. destruct E as [_ Hempty].
    apply negb_true_iff, isSomeb_false in Hempty.
    split; [unfold v; now rewrite Hempty|].
    destruct (getCell (board g) fr tc) as [victim|]; [|discriminate].
    exists victim. split; [reflexivity|]. rewrite Hcap, Hempty. reflexivity.
  - intros Hempty Hnoep. rewrite Hcap, Hempty.
    unfold isEnPassantCapture in Hnoep. rewrite Hcell in Hnoep.
    destruct (enPassantCapture _ _ _ _ _ _ _).2; [discriminate|reflexivity].
Qed.

Lemma applyMove_scores_and_history_witness :
  exists g' record,
    applyMove (newGame initBoard) 6 4 4 4 = Some g' /\
    whiteScore g' = 0 + 0 /\ blackScore g' = 0 /\ currentTurn g' = Black /\
    moveHistory g' = [record].
Proof.
  assert (Hlegal : isLegalMove initBoard None 6 4 4 4 = Some true)
    by (vm_compute; reflexivity).
  destruct (applyMove_scores_and_history (newGame initBoard) 6 4 4 4
              (mkPiece Pawn White false)
              wfBoard_initBoard kingsUnique_initBoard eq_refl Hlegal)
    as (g' & record & Hg' & Hw & Hb & Ht & Hh & _).
  exists g', record. repeat split; assumption.
Defined.

(** ** A game played from the initial position *)

Lemma pieceValue_nonneg (p : Piece) : 0 <= pieceValue p.
Proof. unfold pieceValue. destruct (type p); lia. Qed.

(** [updateGameStatus] either changes nothing or declares the game over. *)
Lemma updateGameStatus_cases (g g' : Game) :
  updateGameStatus g = Some g' ->
  g' = g \/
  (gameOver g = false /\
   g' = mkGame (board g) (enPassantTarget g) (currentTurn g) (whiteScore g)
               (blackScore g) (moveHistory g) true GameOver).
Proof.
  unfold updateGameStatus. intros H.
  destruct (gameOver g) eqn:Hover; [inversion H; auto|].
  destruct (isKingInCheck (currentTurn g) (board g)); simpl in H; [|discriminate].
  destruct (hasAnyLegalMove _ _ _) as [[|]|]; simpl in H; inversion H; auto.
Qed.

(** What the input handler keeps true of the game, whatever is entered. *)
Lemma playMove_keeps (g : Game) (m : Move) :
  wfBoard (board g) -> kingsUnique (board g) -> pawnsAtHome (board g) ->
  (gameOver g = true <-> gameState g = GameOver) ->
  currentTurn g = (if Nat.even (length (moveHistory g)) then White else Black) ->
  0 <= whiteScore g -> 0 <= blackScore g ->
  exists g',
    playMove g m = Some g' /\
    wfBoard (board g') /\ kingsUnique (board g') /\ pawnsAtHome (board g') /\
    (gameOver g' = true <-> gameState g' = GameOver) /\
    currentTurn g' = (if Nat.even (length (moveHistory g')) then White else Black) /\
    0 <= whiteScore g' /\ 0 <= blackScore g' /\
    (gameState g = Playing -> gameState g' = Playing \/ gameState g' = GameOver) /\
    (length (moveHistory g') <= S (length (moveHistory g)))%nat.
Proof.
  intros Hwf Hk Hhome Hover Hturn Hw Hb.
  assert (Hsame : exists g', Some g = Some g' /\
    wfBoard (board g') /\ kingsUnique (board g') /\ pawnsAtHome (board g') /\
    (gameOver g' = true <-> gameState g' = GameOver) /\
    currentTurn g' = (if Nat.even (length (moveHistory g')) then White else Black) /\
    0 <= whiteScore g' /\ 0 <= blackScore g' /\
    (gameState g = Playing -> gameState g' = Playing \/ gameState g' = GameOver) /\
    (length (moveHistory g') <= S (length (moveHistory g)))%nat).
  { exists g. split; [reflexivity|]. repeat (split; [assumption|]). split; [auto|lia]. }
  unfold playMove.
  destruct (negb (bool_decide (gameState g = Playing)) || gameOver g) eqn:Hplay;
    [exact Hsame|].
  apply orb_false_elim in Hplay. destruct Hplay as [Hstate Hnotover].
  apply negb_false_iff, bool_decide_eq_true_1 in Hstate.
  destruct (getCell (board g) (fromRow m) (fromCol m)) as [piece|] eqn:Hcell;
    [|exact Hsame].
  destruct (negb (bool_decide (color piece = currentTurn g))); [exact Hsame|].
  destruct ((fromRow m =? toRow m) && (fromCol m =? toCol m)); [exact Hsame|].
  destruct (isLegalMove (board g) (enPassantTarget g) (fromRow m) (fromCol m)
              (toRow m) (toCol m)) as [[|]|] eqn:Hlegal; simpl;
    [| exact Hsame | now apply isLegalMove_returns in Hlegal].
  clear Hsame.
  destruct (applyMove_returns g _ _ _ _ Hwf Hk Hlegal) as (g1 & Hg1 & Hwf1 & Hk1 & Hhome1).
  pose proof Hg1 as Hsplit. unfold applyMove in Hsplit.
  destruct (movePiece g (fromRow m) (fromCol m) (toRow m) (toCol m)) as [g0|] eqn:Hg0;
    simpl in Hsplit; [|discriminate].
  inversion Hsplit; subst g1. simpl.
  destruct (updateGameStatus (flipTurn g0)) as [g2|] eqn:Hg2;
    [|now apply updateGameStatus_returns in Hg2].
  exists g2. split; [reflexivity|].
  destruct (applyMove_fields _ _ _ _ _ _ _ Hcell Hg1)
    as (_ & _ & Hturn1 & Hw1 & Hb1 & Hh1).
  destruct (scores_movePieceCore g (fromRow m) (fromCol m) (toRow m) (toCol m) piece)
    as (Hws & Hbs).
  destruct (moveHistory_movePieceCore g (fromRow m) (fromCol m) (toRow m) (toCol m) piece)
    as (record & Hrec & _).
  cbn zeta in Hw1, Hb1, Hh1, Hws, Hbs.
  rewrite Hws in Hw1. rewrite Hbs in Hb1. rewrite Hrec in Hh1.
  assert (Hv : 0 <= match getCell
                       (enPassantCapture (board g) (enPassantTarget g) (fromRow m)
                          (fromCol m) (toRow m) (toCol m) piece).1 (toRow m) (toCol m)
                     with Some d => pieceValue d | None => 0 end).
  { match goal with
    | |- context [ match ?x with _ => _ end ] => destruct x
    end; [apply pieceValue_nonneg|lia]. }
  (* the two game-over variables after [movePiece] *)
  assert (Hover0 : (gameOver g0 = true <-> gameState g0 = GameOver) /\
                   (gameState g0 = Playing \/ gameState g0 = GameOver)).
  { unfold movePiece in Hg0. rewrite Hcell in Hg0.
    destruct (updateGameStatus_cases _ _ Hg0) as [->|[_ ->]].
    - assert (gameOver (movePieceCore g (fromRow m) (fromCol m) (toRow m) (toCol m) piece)
              = gameOver g /\
              gameState (movePieceCore g (fromRow m) (fromCol m) (toRow m) (toCol m) piece)
              = gameState g) as [-> ->].
      { unfold movePieceCore.
        destruct (enPassantCapture _ _ _ _ _ _ _) as [b1 epc].
        destruct (castlingRelocation _ _ _ _ _) as [b2 cast]. split; reflexivity. }
      split; [exact Hover|]. left. exact Hstate.
    - simpl. split; [tauto|]. right. reflexivity. }
  destruct Hover0 as [Hover0 Hstate0].
  assert (Hfields : board g2 = board (flipTurn g0) /\
                    currentTurn g2 = currentTurn (flipTurn g0) /\
                    whiteScore g2 = whiteScore (flipTurn g0) /\
                    blackScore g2 = blackScore (flipTurn g0) /\
                    moveHistory g2 = moveHistory (flipTurn g0)).
  { destruct (updateGameStatus_preserves _ _ Hg2) as (? & ? & ? & ? & ? & ?). auto. }
  destruct Hfields as (Hb2 & Ht2 & Hw2 & Hbl2 & Hh2).
  rewrite Hb2, Ht2, Hw2, Hbl2, Hh2.
  split; [exact Hwf1|]. split; [exact Hk1|]. split; [now apply Hhome1|].
  split.
  { destruct (updateGameStatus_cases _ _ Hg2) as [->|[_ ->]]; simpl; [exact Hover0|tauto]. }
  split.
  { rewrite Hturn1, Hh1, Hturn. cbn [length]. rewrite Nat.even_succ, <- Nat.negb_even.
    destruct (Nat.even (length (moveHistory g))); reflexivity. }
  split; [destruct (bool_decide (color piece = White)); lia|].
  split; [destruct (bool_decide (color piece = White)); lia|].
  split.
  { intros _. destruct (updateGameStatus_cases _ _ Hg2) as [->|[_ ->]]; simpl; auto. }
  rewrite Hh1. cbn [length]. lia.
Qed.

(** X11: a game played from the initial position never hangs and never
    leaves the valid positions.  Whatever sequence of (from, to) pairs is
    entered with a piece selected, every one is processed (the handler
    returns); afterwards the board still has eight rows of eight cells, at
    most one king of each colour and its unmoved pawns on their home rows,
    the game-over flag is set exactly in the state [GameOver], White is to
    move exactly when an even number of moves has been recorded, no more moves
    are recorded than were entered, and neither score is negative. *)
Theorem play_from_initial_position (moves : list Move) :
  exists g,
    playMoves (newGame initBoard) moves = Some g /\
    wfBoard (board g) /\ kingsUnique (board g) /\ pawnsAtHome (board g) /\
    (gameOver g = true <-> gameState g = GameOver) /\
    (gameState g = Playing \/ gameState g = GameOver) /\
    currentTurn g = (if Nat.even (length (moveHistory g)) then White else Black) /\
    (length (moveHistory g) <= length moves)%nat /\
    0 <= whiteScore g /\ 0 <= blackScore g.
Proof.
  assert (Hgen : forall moves g,
    wfBoard (board g) -> kingsUnique (board g) -> pawnsAtHome (board g) ->
    (gameOver g = true <-> gameState g = GameOver) ->
    (gameState g = Playing \/ gameState g = GameOver) ->
    currentTurn g = (if Nat.even (length (moveHistory g)) then White else Black) ->
    0 <= whiteScore g -> 0 <= blackScore g ->
    exists g',
      playMoves g moves = Some g' /\
      wfBoard (board g') /\ kingsUnique (board g') /\ pawnsAtHome (board g') /\
      (gameOver g' = true <-> gameState g' = GameOver) /\
      (gameState g' = Playing \/ gameState g' = GameOver) /\
      currentTurn g' = (if Nat.even (length (moveHistory g')) then White else Black) /\
      (length (moveHistory g') <= length (moveHistory g) + length moves)%nat /\
      0 <= whiteScore g' /\ 0 <= blackScore g').
  { clear moves. induction moves as [|m moves IH];
      intros g Hwf Hk Hhome Hover Hstate Hturn Hw Hb.
    - exists g. simpl. split; [reflexivity|]. repeat (split; [assumption|]).
      split; [lia|]. split; assumption.
    - destruct (playMove_keeps g m Hwf Hk Hhome Hover Hturn Hw Hb)
        as (g1 & Hg1 & Hwf1 & Hk1 & Hhome1 & Hover1 & Hturn1 & Hw1 & Hb1 & Hstate1 & Hlen1).
      assert (Hstate1' : gameState g1 = Playing \/ gameState g1 = GameOver).
      { destruct Hstate as [Hs|Hs]; [auto|].
        unfold playMove in Hg1. rewrite Hs in Hg1. simpl in Hg1.
        inversion Hg1; subst. auto. }
      destruct (IH g1 Hwf1 Hk1 Hhome1 Hover1 Hstate1' Hturn1 Hw1 Hb1)
        as (g2 & Hg2 & Hwf2 & Hk2 & Hhome2 & Hover2 & Hstate2 & Hturn2 & Hlen2 & Hw2 & Hb2).
      exists g2. simpl. rewrite Hg1. simpl.
      repeat (split; [assumption|]). split; [lia|]. split; assumption. }
  destruct (Hgen moves (newGame initBoard)) as (g & H); simpl;
    try (exact wfBoard_initBoard || exact kingsUnique_initBoard
         || exact pawnsAtHome_initBoard || reflexivity || lia || auto).
  - split; discriminate.
  - exists g. exact H.
Qed.

(** * The search *)

(** ** Counting the pieces *)

Lemma filter_length_one_change {A} (f g : A -> bool) (l : list A) (x : A) :
  List.NoDup l -> In x l -> (forall y, y <> x -> f y = g y) ->
  (length (List.filter f l) + (if g x then 1 else 0)
   = length (List.filter g l) + (if f x then 1 else 0))%nat.
Proof.
  intros Hnd Hin Hext. induction Hnd as [|y l Hnotin Hnd IH]; [contradiction|].
  destruct Hin as [->|Hin].
  - assert (Hrest : List.filter f l = List.filter g l).
    { apply List.filter_ext_in. intros z Hz. apply Hext. intros ->. contradiction. }
    simpl. rewrite Hrest. destruct (f x), (g x); simpl; lia.
  - assert (y <> x) by (intros ->; contradiction).
    simpl. rewrite (Hext y) by assumption. specialize (IH Hin).
    destruct (g y); simpl; lia.
Qed.

Lemma pieceCount_setCell (b : Board) (r c : Z) (v : option Piece) :
  wfBoard b -> onBoard r c ->
  (pieceCount (setCell b r c v) + (if isSomeb (getCell b r c) then 1 else 0)
   = pieceCount b + (if isSomeb v then 1 else 0))%nat.
Proof.
  intros Hwf Hon. unfold pieceCount.
  pose proof (filter_length_one_change
                (fun sq : Z * Z => isSomeb (getCell (setCell b r c v) sq.1 sq.2))
                (fun sq : Z * Z => isSomeb (getCell b sq.1 sq.2))
                squares (r, c) NoDup_squares) as H.
  cbn [fst snd] in H. rewrite getCell_setCell_eq in H by assumption.
  apply H; [now apply In_squares|].
  intros [r' c'] Hne. cbn [fst snd]. rewrite getCell_setCell_ne by congruence.
  reflexivity.
Qed.

Lemma pieceCount_bound (b : Board) : (pieceCount b <= 64)%nat.
Proof.
  unfold pieceCount.
  etransitivity; [apply List.filter_length_le|]. reflexivity.
Qed.

(** ** The boards of the search *)

Lemma wfBoard_simulateMove (b : Board) (fr fc tr tc : Z) :
  wfBoard b -> wfBoard (simulateMove b fr fc tr tc).
Proof.
  intros Hwf. unfold simulateMove. destruct (getCell b fr fc); wf_board.
Qed.

Lemma kingsUnique_simulateMove (b : Board) (fr fc tr tc : Z) :
  wfBoard b -> kingsUnique b -> (fr, fc) <> (tr, tc) ->
  kingsUnique (simulateMove b fr fc tr tc).
Proof.
  intros Hwf Hk Hne. unfold simulateMove.
  destruct (getCell b fr fc) as [piece|] eqn:Hcell; [|assumption].
  rewrite setCell_comm by (assumption || congruence).
  eapply kingsUnique_move; eauto.
Qed.

Lemma pieceCount_simulateMove_le (b : Board) (fr fc tr tc : Z) :
  wfBoard b -> onBoard tr tc -> (fr, fc) <> (tr, tc) ->
  (pieceCount (simulateMove b fr fc tr tc) <= pieceCount b)%nat.
Proof.
  intros Hwf Hto Hne. unfold simulateMove.
  destruct (getCell b fr fc) as [piece|] eqn:Hcell; [|lia].
  assert (Hfrom : onBoard fr fc) by (eapply getCell_onBoard; eauto).
  pose proof (pieceCount_setCell b tr tc (Some piece) Hwf Hto) as H1.
  pose proof (pieceCount_setCell (setCell b tr tc (Some piece)) fr fc None
                ltac:(wf_board) Hfrom) as H2.
  rewrite getCell_setCell_ne in H2 by congruence. rewrite Hcell in H2.
  cbn [isSomeb] in H1, H2. destruct (isSomeb (getCell b tr tc)); lia.
Qed.

Lemma pieceCount_simulateMove_capture (b : Board) (fr fc tr tc : Z) (piece dest : Piece) :
  wfBoard b -> (fr, fc) <> (tr, tc) ->
  getCell b fr fc = Some piece -> getCell b tr tc = Some dest ->
  (pieceCount (simulateMove b fr fc tr tc) + 1 = pieceCount b)%nat.
Proof.
  intros Hwf Hne Hcell Hdest. unfold simulateMove. rewrite Hcell.
  assert (Hfrom : onBoard fr fc) by (eapply getCell_onBoard; eauto).
  assert (Hto : onBoard tr tc) by (eapply getCell_onBoard; eauto).
  pose proof (pieceCount_setCell b tr tc (Some piece) Hwf Hto) as H1.
  pose proof (pieceCount_setCell (setCell b tr tc (Some piece)) fr fc None
                ltac:(wf_board) Hfrom) as H2.
  rewrite getCell_setCell_ne in H2 by congruence. rewrite Hcell in H2.
  rewrite Hdest in H1. cbn [isSomeb] in H1, H2. lia.
Qed.

(** ** The search returns *)

Section SearchReturns.

Variable arraySort : (Move -> Move -> Z) -> list Move -> list Move.
Variable ep : option (Z * Z).
Hypothesis Hsort : sortsMoves arraySort.

Lemma In_arraySort (b : Board) (mx : bool) (l : list Move) (m : Move) :
  In m (arraySort (compareMoves b mx) l) <-> In m l.
Proof.
  destruct (Hsort b mx l) as [Hperm _]. split; intros H.
  - eapply Permutation_in; eauto.
  - eapply Permutation_in; [symmetry|]; eauto.
Qed.

Lemma quiesceLoop_returns (recurse : Board -> float -> float -> option float)
  (b : Board) (moves : list Move) (alpha beta : float) (mx : bool) :
  (forall m a be, In m moves ->
     recurse (simulateMove (cloneBoard b) (fromRow m) (fromCol m) (toRow m) (toCol m))
             a be <> None) ->
  quiesceLoop recurse b moves alpha beta mx <> None.
Proof.
  revert alpha beta. induction moves as [|m moves IH]; intros alpha beta H; simpl;
    [discriminate|].
  destruct (recurse _ alpha beta) as [score|] eqn:Hscore;
    [|exfalso; eapply H; [left; reflexivity|exact Hscore]].
  simpl.
  assert (Hrest : forall a be, quiesceLoop recurse b moves a be mx <> None).
  { intros a be. apply IH. intros m' a' be' Hin. apply H. now right. }
  destruct mx.
  - destruct (PrimFloat.ltb alpha score); [|apply Hrest].
    destruct (PrimFloat.leb beta score); [discriminate|apply Hrest].
  - destruct (PrimFloat.ltb score beta); [|apply Hrest].
    destruct (PrimFloat.leb score alpha); [discriminate|apply Hrest].
Qed.

(** A legal move leads to a valid board with no more pieces, and with one
    piece less when it captures. *)
Lemma legal_child (b : Board) (c : PieceColor) (moves : list Move) (m : Move) :
  wfBoard b -> kingsUnique b ->
  getAllLegalMoves b ep c = Some moves -> In m moves ->
  let child := simulateMove (cloneBoard b) (fromRow m) (fromCol m) (toRow m) (toCol m) in
  wfBoard child /\ kingsUnique child /\
  (pieceCount child <= pieceCount b)%nat /\
  (isSomeb (getCell b (toRow m) (toCol m)) = true ->
   (pieceCount child + 1 = pieceCount b)%nat).
Proof.
  intros Hwf Hk Hmoves Hin child. unfold child. rewrite cloneBoard_id by assumption.
  apply (In_getAllLegalMoves _ _ _ _ _ Hwf Hmoves) in Hin.
  destruct Hin as ((piece & Hcell & _) & Hlegal).
  destruct (isLegalMove_facts _ _ _ _ _ _ Hwf Hlegal) as (_ & _ & _ & Hto & Hne & _).
  split; [now apply wfBoard_simulateMove|].
  split; [now apply kingsUnique_simulateMove|].
  split; [now apply pieceCount_simulateMove_le|].
  intros Hcap. destruct (getCell b (toRow m) (toCol m)) as [dest|] eqn:Hdest;
    [|discriminate].
  eapply pieceCount_simulateMove_capture; eauto.
Qed.

Lemma quiesce_returns (fuel : nat) (b : Board) (alpha beta : float) (mx : bool) :
  wfBoard b -> kingsUnique b -> (pieceCount b < fuel)%nat ->
  quiesce arraySort ep fuel b alpha beta mx <> None.
Proof.
  revert b alpha beta mx. induction fuel as [|fuel IH];
    intros b alpha beta mx Hwf Hk Hfuel; [lia|].
  cbn [quiesce].
  destruct (staticEvaluation b) as [standPat|] eqn:Hstand;
    [|now apply staticEvaluation_returns in Hstand].
  cbn [mbind option_bind].
  destruct (PrimFloat.leb _ _); [discriminate|].
  destruct (getAllLegalMoves_returns b ep (if mx then Black else White) Hwf Hk)
    as [moves Hmoves].
  rewrite Hmoves. cbn [mbind option_bind].
  apply quiesceLoop_returns. intros m a be Hin.
  apply In_arraySort in Hin. apply list_elem_of_In, list_elem_of_filter in Hin.
  destruct Hin as [Hcap Hin]. apply list_elem_of_In in Hin.
  destruct (legal_child _ _ _ _ Hwf Hk Hmoves Hin) as (Hwf' & Hk' & _ & Hcount).
  specialize (Hcount Hcap). apply IH; [assumption|assumption|lia].
Qed.

Lemma minimaxLoop_returns
  (recurse : Board -> float -> float -> option (float * option Move))
  (b : Board) (moves : list Move) (alpha beta : float) (mx : bool)
  (best : float) (bestMove : option Move) :
  (forall m a be, In m moves ->
     recurse (simulateMove (cloneBoard b) (fromRow m) (fromCol m) (toRow m) (toCol m))
             a be <> None) ->
  minimaxLoop recurse b moves alpha beta mx best bestMove <> None.
Proof.
  revert alpha beta best bestMove.
  induction moves as [|m moves IH]; intros alpha beta best bestMove H; simpl;
    [discriminate|].
  destruct (recurse _ alpha beta) as [result|] eqn:Hresult;
    [|exfalso; eapply H; [left; reflexivity|exact Hresult]].
  simpl.
  assert (Hrest : forall a be bst bm,
            minimaxLoop recurse b moves a be mx bst bm <> None).
  { intros a be bst bm. apply IH. intros m' a' be' Hin. apply H. now right. }
  destruct mx.
  - destruct (PrimFloat.leb beta _); [discriminate|apply Hrest].
  - destruct (PrimFloat.leb _ alpha); [discriminate|apply Hrest].
Qed.

Lemma orderedMoves_returns (b : Board) (mx : bool) :
  wfBoard b -> kingsUnique b ->
  exists legal,
    getAllLegalMoves b ep (if mx then Black else White) = Some legal /\
    orderedMoves arraySort ep b mx = Some (arraySort (compareMoves b mx) legal).
Proof.
  intros Hwf Hk.
  destruct (getAllLegalMoves_returns b ep (if mx then Black else White) Hwf Hk)
    as [legal Hlegal].
  exists legal. split; [exact Hlegal|]. unfold orderedMoves. now rewrite Hlegal.
Qed.

Lemma minimax_returns (fuel : nat) (depth : nat) (b : Board) (alpha beta : float)
  (mx : bool) :
  wfBoard b -> kingsUnique b -> (pieceCount b < fuel)%nat ->
  minimax arraySort ep fuel b depth alpha beta mx <> None.
Proof.
  revert b alpha beta mx. induction depth as [|depth IH];
    intros b alpha beta mx Hwf Hk Hfuel;
    destruct (orderedMoves_returns b mx Hwf Hk) as (legal & Hlegal & Hordered);
    cbn [minimax]; rewrite Hordered; cbn [mbind option_bind].
  - destruct (quiesce arraySort ep fuel b alpha beta mx) eqn:Hq;
      [|now apply quiesce_returns in Hq].
    destruct (arraySort _ legal); discriminate.
  - destruct (arraySort (compareMoves b mx) legal) as [|m rest] eqn:Hsorted.
    + destruct (quiesce arraySort ep fuel b alpha beta mx) eqn:Hq;
        [discriminate|now apply quiesce_returns in Hq].
    + apply minimaxLoop_returns. intros m' a be Hin.
      rewrite <- Hsorted in Hin. apply In_arraySort in Hin.
      destruct (legal_child _ _ _ _ Hwf Hk Hlegal Hin) as (Hwf' & Hk' & Hle & _).
      apply IH; [assumption|assumption|lia].
Qed.

Lemma deepen_returns (fuel : nat) (b : Board) (iterations d : nat)
  (bestSoFar : option Move) :
  wfBoard b -> kingsUnique b -> (pieceCount b < fuel)%nat ->
  deepen arraySort ep fuel b d iterations bestSoFar <> None.
Proof.
  intros Hwf Hk Hfuel. revert d bestSoFar.
  induction iterations as [|n IH]; intros d bestSoFar; simpl; [discriminate|].
  destruct (minimax arraySort ep fuel b d _ _ true) as [result|] eqn:Hresult;
    [|now apply minimax_returns in Hresult].
  simpl. apply IH.
Qed.

(** The move a loop of [minimax] returns is one of the moves it was given,
    or the one it started with. *)
Lemma minimaxLoop_move
  (recurse : Board -> float -> float -> option (float * option Move))
  (b : Board) (moves : list Move) (alpha beta : float) (mx : bool)
  (best : float) (bestMove : option Move) (score : float) (m : Move) :
  minimaxLoop recurse b moves alpha beta mx best bestMove = Some (score, Some m) ->
  In m moves \/ bestMove = Some m.
Proof.
  revert alpha beta best bestMove.
  induction moves as [|m' moves IH]; intros alpha beta best bestMove H; simpl in H.
  - inversion H. auto.
  - destruct (recurse _ alpha beta) as [result|]; simpl in H; [|discriminate].
    destruct mx.
    + destruct (PrimFloat.leb beta _).
      * inversion H as [[Hs Hm]]. destruct (PrimFloat.ltb best result.1).
        -- inversion Hm. left. now left.
        -- auto.
      * apply IH in H. destruct H as [H|H]; [left; now right|].
        destruct (PrimFloat.ltb best result.1); [inversion H; left; now left|auto].
    + destruct (PrimFloat.leb _ alpha).
      * inversion H as [[Hs Hm]]. destruct (PrimFloat.ltb result.1 best).
        -- inversion Hm. left. now left.
        -- auto.
      * apply IH in H. destruct H as [H|H]; [left; now right|].
        destruct (PrimFloat.ltb result.1 best); [inversion H; left; now left|auto].
Qed.

Lemma minimax_move (fuel depth : nat) (b : Board) (alpha beta : float) (mx : bool)
  (score : float) (m : Move) (legal : list Move) :
  getAllLegalMoves b ep (if mx then Black else White) = Some legal ->
  minimax arraySort ep fuel b depth alpha beta mx = Some (score, Some m) ->
  In m legal.
Proof.
  intros Hlegal H. destruct depth; cbn [minimax] in H;
    unfold orderedMoves in H; rewrite Hlegal in H; cbn [mbind option_bind] in H.
  - destruct (quiesce _ _ _ _ _ _ _); simpl in H; [|discriminate].
    try destruct (arraySort (compareMoves b mx) legal); discriminate.
  - destruct (arraySort (compareMoves b mx) legal) as [|m' rest] eqn:Hsorted.
    + destruct (quiesce _ _ _ _ _ _ _); simpl in H; discriminate.
    + apply minimaxLoop_move in H. destruct H as [H|H]; [|discriminate].
      rewrite <- Hsorted in H. now apply In_arraySort in H.
Qed.

Lemma deepen_move (fuel : nat) (b : Board) (iterations d : nat)
  (bestSoFar : option Move) (m : Move) (legal : list Move) :
  getAllLegalMoves b ep Black = Some legal ->
  deepen arraySort ep fuel b d iterations bestSoFar = Some (Some m) ->
  In m legal \/ bestSoFar = Some m.
Proof.
  intros Hlegal. revert d bestSoFar.
  induction iterations as [|n IH]; intros d bestSoFar H; cbn [deepen] in H.
  - inversion H. auto.
  - destruct (minimax arraySort ep fuel b d _ _ true) as [[score move]|] eqn:Hresult;
      cbn [mbind option_bind snd] in H; [|discriminate].
    apply IH in H. destruct H as [H|H]; [now left|].
    destruct move as [m'|]; [|now right].
    inversion H; subst m'. left.
    exact (minimax_move fuel d b _ _ true score m legal Hlegal Hresult).
Qed.

(** Without a legal move no search returns a move. *)
Lemma minimax_no_move (fuel depth : nat) (b : Board) (alpha beta : float) (mx : bool)
  (result : float * option Move) :
  getAllLegalMoves b ep (if mx then Black else White) = Some [] ->
  minimax arraySort ep fuel b depth alpha beta mx = Some result ->
  result.2 = None.
Proof.
  intros Hlegal H.
  assert (Hnil : arraySort (compareMoves b mx) [] = []).
  { destruct (Hsort b mx []) as [Hperm _]. symmetry in Hperm.
    now apply Permutation_nil in Hperm. }
  destruct depth; cbn [minimax] in H;
    unfold orderedMoves in H; rewrite Hlegal in H; cbn [mbind option_bind] in H;
    rewrite ?Hnil in H;
    destruct (quiesce _ _ _ _ _ _ _); cbn [mbind option_bind] in H; inversion H;
    reflexivity.
Qed.

Lemma deepen_no_move (fuel : nat) (b : Board) (iterations d : nat)
  (bestSoFar result : option Move) :
  getAllLegalMoves b ep Black = Some [] ->
  deepen arraySort ep fuel b d iterations bestSoFar = Some result ->
  result = bestSoFar.
Proof.
  intros Hlegal. revert d bestSoFar.
  induction iterations as [|n IH]; intros d bestSoFar H; cbn [deepen] in H.
  - now inversion H.
  - destruct (minimax arraySort ep fuel b d _ _ true) as [r|] eqn:Hr;
      cbn [mbind option_bind] in H; [|discriminate].
    apply (minimax_no_move _ _ _ _ _ true) in Hr; [|exact Hlegal].
    rewrite Hr in H. now apply IH in H.
Qed.

End SearchReturns.

(** ** The bound on the depth of the search does not matter *)

Lemma quiesceLoop_ext (r1 r2 : Board -> float -> float -> option float)
  (b : Board) (moves : list Move) (alpha beta : float) (mx : bool) :
  (forall m a be, In m moves ->
     r1 (simulateMove (cloneBoard b) (fromRow m) (fromCol m) (toRow m) (toCol m)) a be
     = r2 (simulateMove (cloneBoard b) (fromRow m) (fromCol m) (toRow m) (toCol m)) a be) ->
  quiesceLoop r1 b moves alpha beta mx = quiesceLoop r2 b moves alpha beta mx.
Proof.
  revert alpha beta. induction moves as [|m moves IH]; intros alpha beta H;
    [reflexivity|].
  cbn [quiesceLoop]. rewrite (H m alpha beta) by (now left).
  destruct (r2 _ alpha beta) as [score|]; [|reflexivity].
  cbn [mbind option_bind].
  assert (Hrest : forall a be, quiesceLoop r1 b moves a be mx
                               = quiesceLoop r2 b moves a be mx).
  { intros a be. apply IH. intros m' a' be' Hin. apply H. now right. }
  rewrite !Hrest. reflexivity.
Qed.

Lemma minimaxLoop_ext
  (r1 r2 : Board -> float -> float -> option (float * option Move))
  (b : Board) (moves : list Move) (alpha beta : float) (mx : bool)
  (best : float) (bestMove : option Move) :
  (forall m a be, In m moves ->
     r1 (simulateMove (cloneBoard b) (fromRow m) (fromCol m) (toRow m) (toCol m)) a be
     = r2 (simulateMove (cloneBoard b) (fromRow m) (fromCol m) (toRow m) (toCol m)) a be) ->
  minimaxLoop r1 b moves alpha beta mx best bestMove
  = minimaxLoop r2 b moves alpha beta mx best bestMove.
Proof.
  revert alpha beta best bestMove.
  induction moves as [|m moves IH]; intros alpha beta best bestMove H; [reflexivity|].
  cbn [minimaxLoop]. rewrite (H m alpha beta) by (now left).
  destruct (r2 _ alpha beta) as [result|]; [|reflexivity].
  cbn [mbind option_bind].
  assert (Hrest : forall a be bst bm, minimaxLoop r1 b moves a be mx bst bm
                                      = minimaxLoop r2 b moves a be mx bst bm).
  { intros a be bst bm. apply IH. intros m' a' be' Hin. apply H. now right. }
  cbn zeta. rewrite !Hrest. reflexivity.
Qed.

Section SearchFuel.

Variable arraySort : (Move -> Move -> Z) -> list Move -> list Move.
Variable ep : option (Z * Z).
Hypothesis Hsort : sortsMoves arraySort.

Lemma quiesce_fuel (fuel1 fuel2 : nat) (b : Board) (alpha beta : float) (mx : bool) :
  wfBoard b -> kingsUnique b ->
  (pieceCount b < fuel1)%nat -> (pieceCount b < fuel2)%nat ->
  quiesce arraySort ep fuel1 b alpha beta mx = quiesce arraySort ep fuel2 b alpha beta mx.
Proof.
  revert fuel2 b alpha beta mx. induction fuel1 as [|fuel1 IH];
    intros fuel2 b alpha beta mx Hwf Hk H1 H2; [lia|].
  destruct fuel2 as [|fuel2]; [lia|].
  cbn [quiesce].
  destruct (staticEvaluation b) as [standPat|]; [|reflexivity].
  cbn [mbind option_bind].
  destruct (PrimFloat.leb _ _); [reflexivity|].
  destruct (getAllLegalMoves b ep (if mx then Black else White)) as [moves|] eqn:Hmoves;
    [|reflexivity].
  cbn [mbind option_bind].
  apply quiesceLoop_ext. intros m a be Hin.
  apply (In_arraySort arraySort Hsort) in Hin.
  apply list_elem_of_In, list_elem_of_filter in Hin.
  destruct Hin as [Hcap Hin]. apply list_elem_of_In in Hin.
  destruct (legal_child ep _ _ _ _ Hwf Hk Hmoves Hin) as (Hwf' & Hk' & _ & Hcount).
  specialize (Hcount Hcap). apply IH; [assumption|assumption|lia|lia].
Qed.

Lemma minimax_fuel (fuel1 fuel2 depth : nat) (b : Board) (alpha beta : float)
  (mx : bool) :
  wfBoard b -> kingsUnique b ->
  (pieceCount b < fuel1)%nat -> (pieceCount b < fuel2)%nat ->
  minimax arraySort ep fuel1 b depth alpha beta mx
  = minimax arraySort ep fuel2 b depth alpha beta mx.
Proof.
  revert b alpha beta mx. induction depth as [|depth IH];
    intros b alpha beta mx Hwf Hk H1 H2;
    destruct (orderedMoves_returns arraySort ep b mx Hwf Hk)
      as (legal & Hlegal & Hordered);
    cbn [minimax]; rewrite Hordered; cbn [mbind option_bind].
  - now rewrite (quiesce_fuel fuel1 fuel2).
  - destruct (arraySort (compareMoves b mx) legal) as [|m rest] eqn:Hsorted.
    + now rewrite (quiesce_fuel fuel1 fuel2).
    + apply minimaxLoop_ext. intros m' a be Hin.
      rewrite <- Hsorted in Hin. apply (In_arraySort arraySort Hsort) in Hin.
      destruct (legal_child ep _ _ _ _ Hwf Hk Hlegal Hin) as (Hwf' & Hk' & Hle & _).
      apply IH; [assumption|assumption|lia|lia].
Qed.

Lemma deepen_fuel (fuel1 fuel2 : nat) (b : Board) (iterations d : nat)
  (bestSoFar : option Move) :
  wfBoard b -> kingsUnique b ->
  (pieceCount b < fuel1)%nat -> (pieceCount b < fuel2)%nat ->
  deepen arraySort ep fuel1 b d iterations bestSoFar
  = deepen arraySort ep fuel2 b d iterations bestSoFar.
Proof.
  intros Hwf Hk H1 H2. revert d bestSoFar.
  induction iterations as [|n IH]; intros d bestSoFar; [reflexivity|].
  cbn [deepen]. rewrite (minimax_fuel fuel1 fuel2) by assumption.
  destruct (minimax arraySort ep fuel2 b d _ _ true); [|reflexivity].
  cbn [mbind option_bind]. apply IH.
Qed.

End SearchFuel.

(** X12: the search returns.  On a board of eight rows of eight cells with at
    most one king of each colour, [quiesce], [minimax] at every depth and the
    iterative deepening of [aiMove] all return, provided the sort they call
    rearranges the moves it is given: [quiesce] recurses on captures only,
    and every capture leaves one piece less.  A bound on the depth of that
    recursion above the number of pieces, of which there are at most 64, is
    never reached, and two such bounds give the same results. *)
Theorem search_returns (arraySort : (Move -> Move -> Z) -> list Move -> list Move)
  (ep : option (Z * Z)) (b : Board) (fuel : nat) :
  sortsMoves arraySort -> wfBoard b -> kingsUnique b ->
  (pieceCount b < fuel)%nat ->
  (pieceCount b <= 64)%nat /\
  (forall alpha beta mx,
     exists score, quiesce arraySort ep fuel b alpha beta mx = Some score) /\
  (forall depth alpha beta mx,
     exists result, minimax arraySort ep fuel b depth alpha beta mx = Some result) /\
  (forall aiSearchDepth,
     exists bestSoFar, aiBestMove arraySort ep fuel b aiSearchDepth = Some bestSoFar) /\
  (forall fuel', (pieceCount b < fuel')%nat ->
     (forall alpha beta mx,
        quiesce arraySort ep fuel' b alpha beta mx
        = quiesce arraySort ep fuel b alpha beta mx) /\
     (forall depth alpha beta mx,
        minimax arraySort ep fuel' b depth alpha beta mx
        = minimax arraySort ep fuel b depth alpha beta mx) /\
     (forall aiSearchDepth,
        aiBestMove arraySort ep fuel' b aiSearchDepth
        = aiBestMove arraySort ep fuel b aiSearchDepth)).
Proof.
  intros Hsort Hwf Hk Hfuel.
  split; [apply pieceCount_bound|].
  split.
  { intros alpha beta mx.
    destruct (quiesce arraySort ep fuel b alpha beta mx) eqn:H; [eauto|].
    now apply quiesce_returns in H. }
  split.
  { intros depth alpha beta mx.
    destruct (minimax arraySort ep fuel b depth alpha beta mx) eqn:H; [eauto|].
    now apply minimax_returns in H. }
  split.
  { intros depth. unfold aiBestMove.
    destruct (deepen arraySort ep fuel b 1 depth None) eqn:H; [eauto|].
    now apply deepen_returns in H. }
  intros fuel' Hfuel'. split; [|split].
  - intros. now apply quiesce_fuel.
  - intros. now apply minimax_fuel.
  - intros. unfold aiBestMove. now apply deepen_fuel.
Qed.

Lemma search_returns_witness :
  (pieceCount protectedPawnBoard <= 64)%nat /\
  (forall alpha beta mx,
     exists score,
       quiesce insertionSort None 40 protectedPawnBoard alpha beta mx = Some score).
Proof.
  destruct (search_returns insertionSort None protectedPawnBoard 40
              insertionSort_sortsMoves) as (Hbound & Hq & _).
  - apply wfBoardb_sound. reflexivity.
  - apply kingsUniqueb_sound; [apply wfBoardb_sound|]; reflexivity.
  - vm_compute. lia.
  - split; assumption.
Defined.

(** X13: the program never plays an illegal move.  Whatever move the
    iterative deepening of [aiMove] keeps, it is a move of a black piece that
    [isLegalMove] accepts on the board searched; and when Black has no legal
    move, the search keeps none. *)
Theorem aiBestMove_is_legal (arraySort : (Move -> Move -> Z) -> list Move -> list Move)
  (ep : option (Z * Z)) (fuel : nat) (b : Board) (aiSearchDepth : nat)
  (bestSoFar : option Move) :
  sortsMoves arraySort -> wfBoard b ->
  aiBestMove arraySort ep fuel b aiSearchDepth = Some bestSoFar ->
  match bestSoFar with
  | Some m =>
      (exists piece, getCell b (fromRow m) (fromCol m) = Some piece /\
                     color piece = Black) /\
      isLegalMove b ep (fromRow m) (fromCol m) (toRow m) (toCol m) = Some true
  | None => True
  end /\
  (getAllLegalMoves b ep Black = Some [] -> bestSoFar = None).
Proof.
  intros Hsort Hwf H. unfold aiBestMove in H. split.
  - destruct bestSoFar as [m|]; [|exact I].
    destruct (getAllLegalMoves b ep Black) as [legal|] eqn:Hlegal.
    + destruct (deepen_move arraySort ep Hsort _ _ _ _ _ _ _ Hlegal H) as [Hin|Hin];
        [|discriminate].
      now apply (In_getAllLegalMoves _ _ _ _ _ Hwf Hlegal) in Hin.
    + exfalso. destruct aiSearchDepth as [|n]; cbn [deepen] in H; [discriminate|].
      destruct (minimax arraySort ep fuel b 1 _ _ true) eqn:Hm;
        cbn [mbind option_bind] in H; [|discriminate].
      destruct fuel; cbn [minimax] in Hm; unfold orderedMoves in Hm;
        rewrite Hlegal in Hm; discriminate.
  - intros Hnone. now apply (deepen_no_move arraySort ep Hsort) in H.
Qed.

Lemma aiBestMove_is_legal_witness :
  (exists piece, getCell protectedPawnBoard 0 7 = Some piece /\ color piece = Black) /\
  isLegalMove protectedPawnBoard None 0 7 1 7 = Some true.
Proof.
  apply (aiBestMove_is_legal insertionSort None 40 protectedPawnBoard 1
           (Some (mkMove 0 7 1 7)) insertionSort_sortsMoves).
  - apply wfBoardb_sound. reflexivity.
  - vm_compute. reflexivity.
Defined.

(** * The console *)

Lemma wfBoard_undoLastMove (g : Game) :
  wfBoard (board g) -> wfBoard (board (undoLastMove g)).
Proof.
  intros Hwf. unfold undoLastMove.
  destruct (_ || _); [assumption|].
  destruct (moveHistory g) as [|move history]; [assumption|].
  cbn [board].
  destruct (getCell (board g) (recToRow move) (recToCol move));
    destruct (captured move); destruct (castling move); wf_board.
Qed.

Lemma undoLastMove_state (g : Game) :
  gameState (undoLastMove g) = gameState g /\ gameOver (undoLastMove g) = gameOver g.
Proof.
  unfold undoLastMove. destruct (_ || _); [auto|].
  destruct (moveHistory g); auto.
Qed.

Lemma movePieceCore_state (g : Game) (fr fc tr tc : Z) (piece : Piece) :
  gameState (movePieceCore g fr fc tr tc piece) = gameState g /\
  gameOver (movePieceCore g fr fc tr tc piece) = gameOver g /\
  currentTurn (movePieceCore g fr fc tr tc piece) = currentTurn g.
Proof.
  unfold movePieceCore.
  destruct (enPassantCapture _ _ _ _ _ _ _) as [b1 epc].
  destruct (castlingRelocation _ _ _ _ _) as [b2 cast]. repeat split.
Qed.

(** A step of the game made in the state [Playing] keeps the board in shape
    and ends in the state [Playing], or in [GameOver] with [gameOver] set. *)
Lemma updateGameStatus_step (g g' : Game) :
  updateGameStatus g = Some g' ->
  wfBoard (board g) ->
  (gameState g = Playing \/ (gameState g = GameOver /\ gameOver g = true)) ->
  wfBoard (board g') /\
  (gameState g' = Playing \/ (gameState g' = GameOver /\ gameOver g' = true)).
Proof.
  intros H Hwf Hstate.
  destruct (updateGameStatus_cases _ _ H) as [->|[_ ->]]; [auto|].
  cbn. auto.
Qed.

Lemma movePiece_step (g g' : Game) (fr fc tr tc : Z) :
  movePiece g fr fc tr tc = Some g' ->
  wfBoard (board g) ->
  (gameState g = Playing \/ (gameState g = GameOver /\ gameOver g = true)) ->
  wfBoard (board g') /\
  (gameState g' = Playing \/ (gameState g' = GameOver /\ gameOver g' = true)).
Proof.
  unfold movePiece. intros H Hwf Hstate.
  destruct (getCell (board g) fr fc) as [piece|]; [|inversion H; subst; auto].
  apply updateGameStatus_step in H; [exact H| |].
  - now apply wfBoard_movePieceCore.
  - destruct (movePieceCore_state g fr fc tr tc piece) as (-> & -> & _). exact Hstate.
Qed.

Section ConsoleInvariant.

Variable arraySort : (Move -> Move -> Z) -> list Move -> list Move.
Variable fuel : nat.

Lemma pressA_keeps (c c' : Console) :
  consoleOk c -> Controller.pressA c = Some c' -> consoleOk c'.
Proof.
  intros Hok H. pose proof Hok as (Hcur & Hmenu & Hdepth & Hsel & Hwf & Hover).
  unfold Controller.pressA in H.
  destruct (bool_decide (gameState (game c) = GameOver) && gameOverMenuSprite c).
  { inversion H; subst c'. unfold consoleOk; cbn.
    repeat (split; [assumption|]). split; [congruence|discriminate]. }
  destruct (bool_decide (gameState (game c) = MainMenu)).
  { inversion H; subst c'. unfold consoleOk; cbn.
    repeat (split; [assumption|]). split; [intros _; exact wfBoard_initBoard|discriminate]. }
  destruct (bool_decide (gameState (game c) = Playing)) eqn:Hplaying;
    [|inversion H; subst c'; exact Hok].
  apply bool_decide_eq_true_1 in Hplaying.
  assert (Hwf' : wfBoard (board (game c))) by (apply Hwf; congruence).
  destruct (gameOver (game c)) eqn:Hgameover; [inversion H; subst c'; exact Hok|].
  destruct (selectedPiece c) as [[fromRow fromCol]|] eqn:Hselected.
  - match type of H with
    | (?x ≫= _) = _ => destruct x as [g'|] eqn:Hg'
    end; cbn [mbind option_bind] in H; [|discriminate].
    inversion H; subst c'. clear H.
    assert (Hstep : wfBoard (board g') /\
                    (gameState g' = Playing \/
                     (gameState g' = GameOver /\ gameOver g' = true))).
    { destruct ((fromRow =? cursorRow c) && (fromCol =? cursorCol c)).
      - destruct (getCell (board (game c)) fromRow fromCol); inversion Hg'; subst; auto.
      - destruct (isLegalMove _ _ _ _ _ _) as [[|]|]; cbn [mbind option_bind] in Hg';
          [|inversion Hg'; subst; auto|discriminate].
        destruct (movePiece _ _ _ _ _) as [g1|] eqn:Hg1; cbn [mbind option_bind] in Hg';
          [|discriminate].
        apply movePiece_step in Hg1; [|assumption|auto].
        destruct Hg1 as [Hwf1 Hstate1].
        apply updateGameStatus_step in Hg'; [exact Hg'|exact Hwf1|exact Hstate1]. }
    destruct Hstep as [Hwf1 Hstate1].
    unfold consoleOk, spriteAfter; cbn.
    repeat (split; [assumption|]). split; [discriminate|]. split; [auto|].
    intros Hgo. split; [|destruct Hstate1 as [?|[_ ?]]; congruence].
    rewrite (bool_decide_eq_true_2 _ Hgo). apply orb_true_r.
  - destruct (getCell (board (game c)) (cursorRow c) (cursorCol c)) as [piece|];
      [|inversion H; subst c'; exact Hok].
    destruct (bool_decide (color piece = currentTurn (game c)));
      inversion H; subst c'; [|exact Hok].
    unfold consoleOk; cbn. repeat (split; [assumption|]).
    split; [intros r k Hrk; inversion Hrk; subst; exact Hcur|].
    split; [assumption|intros Hgo; congruence].
Qed.

Lemma newGame_keeps (c : Console) : consoleOk c -> consoleOk (Controller.newGame c).
Proof.
  intros Hok. pose proof Hok as (Hcur & Hmenu & Hdepth & Hsel & Hwf & Hover).
  unfold Controller.newGame.
  destruct (bool_decide (gameState (game c) = Playing)); [|exact Hok].
  unfold consoleOk; cbn. split; [unfold onBoard, BOARD_SIZE; lia|].
  repeat (split; [assumption|]). split; [intros _; exact wfBoard_initBoard|discriminate].
Qed.

Lemma pressB_keeps (c : Console) : consoleOk c -> consoleOk (Controller.pressB c).
Proof.
  intros Hok. unfold Controller.pressB.
  destruct (_ && _); [now apply newGame_keeps|].
  destruct (bool_decide (gameState (game c) = Playing)) eqn:Hplaying; [|exact Hok].
  apply bool_decide_eq_true_1 in Hplaying.
  destruct Hok as (Hcur & Hmenu & Hdepth & Hsel & Hwf & Hover).
  assert (Hwf' : wfBoard (board (game c))) by (apply Hwf; congruence).
  unfold consoleOk, withGame; cbn.
  repeat (split; [assumption|]).
  destruct (bool_decide (gameType c = AI)).
  - destruct (undoLastMove_state (undoLastMove (game c))) as [-> ->].
    destruct (undoLastMove_state (game c)) as [-> ->].
    split; [intros _; now do 2 apply wfBoard_undoLastMove|exact Hover].
  - destruct (undoLastMove_state (game c)) as [-> ->].
    split; [intros _; now apply wfBoard_undoLastMove|exact Hover].
Qed.

Lemma withCursor_keeps (c : Console) (row col : Z) :
  consoleOk c -> onBoard row col -> consoleOk (withCursor c row col).
Proof.
  intros (Hcur & Hrest) Hon. unfold consoleOk, withCursor; cbn. split; assumption.
Qed.

Lemma withMenuSelection_keeps (c : Console) (selection : Z) :
  consoleOk c -> 0 <= selection <= 1 -> consoleOk (withMenuSelection c selection).
Proof.
  intros (Hcur & Hmenu & Hrest) Hs. unfold consoleOk, withMenuSelection; cbn.
  split; [assumption|]. split; assumption.
Qed.

Lemma arrows_keep (c : Console) :
  consoleOk c ->
  consoleOk (Controller.pressLeft c) /\ consoleOk (Controller.pressRight c) /\
  consoleOk (Controller.pressUp c) /\ consoleOk (Controller.pressDown c).
Proof.
  intros Hok. pose proof Hok as ([Hrow Hcol] & Hmenu & _).
  unfold BOARD_SIZE in *.
  unfold Controller.pressLeft, Controller.pressRight, Controller.pressUp,
    Controller.pressDown. change (BOARD_SIZE - 1) with 7.
  (split; [|split; [|split]]);
    repeat match goal with
           | |- context [ bool_decide ?P ] => destruct (bool_decide P); cbn [andb]
           | |- context [ ?x >? ?y ] => destruct (Z.gtb_spec x y)
           | |- context [ ?x <? ?y ] => destruct (Z.ltb_spec x y)
           end;
    first [ exact Hok
          | apply withCursor_keeps; [exact Hok|unfold onBoard, BOARD_SIZE; lia]
          | apply withMenuSelection_keeps; [exact Hok|lia] ].
Qed.

Lemma pressMenu_keeps (c : Console) : consoleOk c -> consoleOk (Controller.pressMenu c).
Proof.
  intros Hok. unfold Controller.pressMenu.
  destruct (_ && _).
  - destruct Hok as (Hcur & Hmenu & Hdepth & Hsel & Hwf & Hover).
    unfold consoleOk; cbn. split; [assumption|]. split; [assumption|].
    split; [destruct (Z.ltb_spec (aiSearchDepth c) 5); lia|]. auto.
  - destruct (_ || _); [now apply newGame_keeps|exact Hok].
Qed.

Lemma onUpdate_keeps (c c' : Console) :
  consoleOk c -> Controller.onUpdate arraySort fuel c = Some c' -> consoleOk c'.
Proof.
  intros Hok H. unfold Controller.onUpdate in H.
  destruct (bool_decide (gameState (game c) = Playing)) eqn:Hplaying;
    cbn [andb] in H; [|inversion H; subst; exact Hok].
  apply bool_decide_eq_true_1 in Hplaying.
  destruct (_ && _); [|inversion H; subst; exact Hok].
  unfold Controller.aiMove in H.
  destruct (aiThinking c); [inversion H; subst; exact Hok|].
  destruct Hok as (Hcur & Hmenu & Hdepth & Hsel & Hwf & Hover).
  assert (Hwf' : wfBoard (board (game c))) by (apply Hwf; congruence).
  destruct (aiBestMove _ _ _ _ _) as [[m|]|]; cbn [mbind option_bind] in H;
    [| |discriminate].
  - destruct (movePiece _ _ _ _ _) as [g1|] eqn:Hg1; cbn [mbind option_bind] in H;
      [|discriminate].
    destruct (updateGameStatus _) as [g2|] eqn:Hg2; cbn [mbind option_bind] in H;
      [|discriminate].
    inversion H; subst c'. clear H.
    apply movePiece_step in Hg1; [|assumption|auto]. destruct Hg1 as [Hwf1 Hstate1].
    apply updateGameStatus_step in Hg2; [|exact Hwf1|exact Hstate1].
    destruct Hg2 as [Hwf2 Hstate2].
    unfold consoleOk, spriteAfter; cbn.
    repeat (split; [assumption|]). split; [auto|].
    intros Hgo. split; [|destruct Hstate2 as [?|[_ ?]]; congruence].
    rewrite (bool_decide_eq_true_2 _ Hgo). apply orb_true_r.
  - inversion H; subst c'. unfold consoleOk; cbn.
    repeat (split; [assumption|]). auto.
Qed.

Lemma handle_keeps (c c' : Console) (e : Controller.Event) :
  consoleOk c -> Controller.handle arraySort fuel c e = Some c' -> consoleOk c'.
Proof.
  intros Hok H. destruct (arrows_keep c Hok) as (Hl & Hr & Hu & Hd).
  destruct e; unfold Controller.handle in H; try (inversion H; subst c'; assumption).
  - exact (pressA_keeps c c' Hok H).
  - inversion H; subst c'. now apply pressB_keeps.
  - inversion H; subst c'. now apply pressMenu_keeps.
  - exact (onUpdate_keeps c c' Hok H).
Qed.

Lemma run_keeps (events : list Controller.Event) (c c' : Console) :
  consoleOk c -> Controller.run arraySort fuel c events = Some c' -> consoleOk c'.
Proof.
  revert c. induction events as [|e events IH]; intros c Hok H; cbn in H.
  - inversion H; subst. exact Hok.
  - destruct (Controller.handle arraySort fuel c e) as [c1|] eqn:Hc1;
      cbn [mbind option_bind] in H; [|discriminate].
    eapply IH; [|exact H]. eapply handle_keeps; eauto.
Qed.

End ConsoleInvariant.

Lemma consoleOk_initialConsole : consoleOk initialConsole.
Proof.
  unfold consoleOk, initialConsole, onBoard, BOARD_SIZE; cbn.
  split; [lia|]. split; [lia|]. split; [lia|].
  split; [discriminate|]. split; [intros Hne; now contradiction Hne|discriminate].
Qed.

(** X14: whatever buttons are pressed and however often the update handler
    runs, starting from the globals the program sets up, with every turn of
    the program run to its end before the next handler (no button is
    pressed while it searches): the cursor stays on the board, the selected
    square (if any) is on the board, the menu selection is 0 or 1, the search
    depth is between 2 and 5, the board has eight rows of eight cells as soon
    as a game has been started, and in the state [GameOver] the game-over
    menu exists and [gameOver] is set. *)
Theorem console_invariant (arraySort : (Move -> Move -> Z) -> list Move -> list Move)
  (fuel : nat) (events : list Controller.Event) (c : Console) :
  Controller.run arraySort fuel initialConsole events = Some c ->
  onBoard (cursorRow c) (cursorCol c) /\
  0 <= menuSelection c <= 1 /\
  2 <= aiSearchDepth c <= 5 /\
  (forall r k, selectedPiece c = Some (r, k) -> onBoard r k) /\
  (gameState (game c) <> MainMenu -> wfBoard (board (game c))) /\
  (gameState (game c) = GameOver ->
   gameOverMenuSprite c = true /\ gameOver (game c) = true).
Proof.
  intros H. exact (run_keeps arraySort fuel events _ _ consoleOk_initialConsole H).
Qed.

Lemma console_invariant_witness :
  exists c,
    Controller.run insertionSort 65 initialConsole
      [Controller.ButtonA; Controller.ButtonDown; Controller.ButtonMenu;
       Controller.ButtonUp; Controller.ButtonA] = Some c /\
    onBoard (cursorRow c) (cursorCol c) /\
    0 <= menuSelection c <= 1 /\
    2 <= aiSearchDepth c <= 5.
Proof.
  eexists. split; [vm_compute; reflexivity|].
  destruct (console_invariant insertionSort 65
              [Controller.ButtonA; Controller.ButtonDown; Controller.ButtonMenu;
               Controller.ButtonUp; Controller.ButtonA] _ eq_refl)
    as (H1 & H2 & H3 & _).
  split; [exact H1|]. split; [exact H2|exact H3].
Defined.

(** The arrows move the cursor or the menu selection and nothing else. *)
Lemma arrows_game (c : Console) :
  game (Controller.pressLeft c) = game c /\ game (Controller.pressRight c) = game c /\
  game (Controller.pressUp c) = game c /\ game (Controller.pressDown c) = game c.
Proof.
  unfold Controller.pressLeft, Controller.pressRight, Controller.pressUp,
    Controller.pressDown.
  repeat split;
    repeat match goal with
           | |- context [ if ?b then _ else _ ] => destruct b
           end; reflexivity.
Qed.

(** X15: a finished game is left by button A only, and the game started
    afterwards is blocked.  In the state [GameOver] every event but button A
    leaves all globals as they are: button B ("Restart") and the menu button
    call [newGame], which does nothing outside the state [Playing].  Button A
    leads to the main menu and a second press to the state [Playing] with the
    pieces set up again; but [gameOver] is still set and the turn, the scores
    and the move history are those of the finished game, so button A and the
    update handler change nothing from then on, until the menu button starts
    a new game. *)
Theorem finished_game_blocks_next_game
  (arraySort : (Move -> Move -> Z) -> list Move -> list Move) (fuel : nat)
  (c : Console) :
  gameState (game c) = GameOver -> gameOverMenuSprite c = true ->
  gameOver (game c) = true ->
  (forall e, e <> Controller.ButtonA -> Controller.handle arraySort fuel c e = Some c) /\
  exists c1 c2,
    Controller.handle arraySort fuel c Controller.ButtonA = Some c1 /\
    gameState (game c1) = MainMenu /\
    Controller.handle arraySort fuel c1 Controller.ButtonA = Some c2 /\
    game c2 = mkGame initBoard None (currentTurn (game c)) (whiteScore (game c))
                     (blackScore (game c)) (moveHistory (game c)) true Playing /\
    (forall events,
       (forall e, In e events -> e <> Controller.ButtonB /\ e <> Controller.ButtonMenu) ->
       exists c3, Controller.run arraySort fuel c2 events = Some c3 /\
                  game c3 = game c2) /\
    game (Controller.pressMenu c2) = mkGame initBoard None White 0 0 [] false Playing.
Proof.
  intros Hstate Hsprite Hover. split.
  { intros e He.
    destruct e; try congruence; cbn [Controller.handle];
      unfold Controller.pressB, Controller.pressLeft, Controller.pressRight,
        Controller.pressUp, Controller.pressDown, Controller.pressMenu,
        Controller.onUpdate, Controller.newGame;
      rewrite Hstate, ?Hsprite; reflexivity. }
  eexists _, _. split.
  { cbn [Controller.handle]. unfold Controller.pressA.
    rewrite Hstate, Hsprite. reflexivity. }
  split; [reflexivity|]. split.
  { cbn [Controller.handle]. unfold Controller.pressA. cbn. reflexivity. }
  split; [cbn; now rewrite Hover|].
  split; [|reflexivity].
  (* the blocked game *)
  set (g2 := mkGame initBoard None (currentTurn (game c)) (whiteScore (game c))
                    (blackScore (game c)) (moveHistory (game c)) (gameOver (game c))
                    Playing).
  assert (Hgen : forall events c',
            game c' = g2 ->
            (forall e, In e events ->
               e <> Controller.ButtonB /\ e <> Controller.ButtonMenu) ->
            exists c3, Controller.run arraySort fuel c' events = Some c3 /\
                       game c3 = g2).
  { induction events as [|e events IH]; intros c' Hg Hev; [exists c'; auto|].
    assert (Hstep : exists c'', Controller.handle arraySort fuel c' e = Some c'' /\
                                game c'' = g2).
    { destruct (Hev e (or_introl eq_refl)) as [HnB HnM].
      destruct e; try congruence; cbn [Controller.handle].
      - exists c'. split; [|exact Hg]. unfold Controller.pressA.
        rewrite Hg. unfold g2. cbn. now rewrite Hover.
      - eexists. split; [reflexivity|].
        destruct (arrows_game c') as (-> & _). exact Hg.
      - eexists. split; [reflexivity|].
        destruct (arrows_game c') as (_ & -> & _). exact Hg.
      - eexists. split; [reflexivity|].
        destruct (arrows_game c') as (_ & _ & -> & _). exact Hg.
      - eexists. split; [reflexivity|].
        destruct (arrows_game c') as (_ & _ & _ & ->). exact Hg.
      - exists c'. split; [|exact Hg]. unfold Controller.onUpdate.
        rewrite Hg. unfold g2. cbn. rewrite Hover.
        now rewrite !andb_false_r. }
    destruct Hstep as (c'' & Hc'' & Hg'').
    destruct (IH c'' Hg'') as (c3 & Hrun & Hg3);
      [intros e' He'; apply Hev; now right|].
    exists c3. cbn [Controller.run]. rewrite Hc''. cbn. auto. }
  intros events Hev.
  match goal with
  | |- exists c3, Controller.run _ _ ?c2 _ = _ /\ _ =>
      destruct (Hgen events c2 eq_refl Hev) as (c3 & Hrun & Hg3)
  end.
  exists c3. split; [exact Hrun|]. rewrite Hg3. reflexivity.
Qed.

Lemma finished_game_blocks_next_game_witness :
  let c := mkConsole (mkGame initBoard None Black 9 0 [] true GameOver)
                     TwoPlayer 0 3 3 None 3 false true in
  Controller.handle insertionSort 65 c Controller.ButtonB = Some c /\
  Controller.handle insertionSort 65 c Controller.ButtonMenu = Some c.
Proof.
  destruct (finished_game_blocks_next_game insertionSort 65
              (mkConsole (mkGame initBoard None Black 9 0 [] true GameOver)
                         TwoPlayer 0 3 3 None 3 false true)
              eq_refl eq_refl eq_refl) as [Hsame _].
  split; apply Hsame; discriminate.
Defined.

(** ** The program's turn *)

(** X16: the turn of the program.  On a valid position with [aiThinking]
    unset, [aiMove] returns (no button being pressed meanwhile).  Either the
    search kept a move: then it is a legal move of a black piece, the board
    is the one [movePiece] makes for it, one record has been pushed on the
    history, White is to move and [aiThinking] is unset again.  Or it kept
    none, as it does when Black has no legal move: then the position is left
    as it is, the game is over, and [aiThinking] stays set. *)
Theorem aiMove_outcome (arraySort : (Move -> Move -> Z) -> list Move -> list Move)
  (fuel : nat) (c : Console) :
  sortsMoves arraySort ->
  wfBoard (board (game c)) -> kingsUnique (board (game c)) ->
  (pieceCount (board (game c)) < fuel)%nat ->
  aiThinking c = false ->
  let g := game c in
  exists c',
    Controller.aiMove arraySort fuel c = Some c' /\
    ((exists m piece record,
        getCell (board g) (fromRow m) (fromCol m) = Some piece /\
        color piece = Black /\
        isLegalMove (board g) (enPassantTarget g)
                    (fromRow m) (fromCol m) (toRow m) (toCol m) = Some true /\
        board (game c') =
          board (movePieceCore g (fromRow m) (fromCol m) (toRow m) (toCol m) piece) /\
        moveHistory (game c') = record :: moveHistory g /\
        currentTurn (game c') = White /\
        aiThinking c' = false)
     \/
     (game c' = mkGame (board g) (enPassantTarget g) (currentTurn g) (whiteScore g)
                       (blackScore g) (moveHistory g) true GameOver /\
      aiThinking c' = true /\ gameOverMenuSprite c' = true)) /\
    (getAllLegalMoves (board g) (enPassantTarget g) Black = Some [] ->
     gameState (game c') = GameOver /\ board (game c') = board g /\
     aiThinking c' = true).
Proof.
  intros Hsort Hwf Hk Hfuel Hthinking g. subst g. set (g := game c) in *.
  unfold Controller.aiMove. rewrite Hthinking. fold g.
  destruct (aiBestMove arraySort (enPassantTarget g) fuel (board g)
              (Z.to_nat (aiSearchDepth c))) as [bestSoFar|] eqn:Hbest;
    [|unfold aiBestMove in Hbest; now apply deepen_returns in Hbest].
  cbn [mbind option_bind].
  assert (Hnone : getAllLegalMoves (board g) (enPassantTarget g) Black = Some [] ->
                  bestSoFar = None).
  { intros Hnil. unfold aiBestMove in Hbest.
    now apply (deepen_no_move arraySort _ Hsort) in Hbest. }
  destruct bestSoFar as [m|].
  - (* a move was kept *)
    assert (Hin : exists legal,
              getAllLegalMoves (board g) (enPassantTarget g) Black = Some legal /\
              In m legal).
    { destruct (getAllLegalMoves_returns (board g) (enPassantTarget g) Black Hwf Hk)
        as [legal Hlegal].
      exists legal. split; [exact Hlegal|]. unfold aiBestMove in Hbest.
      destruct (deepen_move arraySort _ Hsort _ _ _ _ _ _ _ Hlegal Hbest) as [?|?];
        [assumption|discriminate]. }
    destruct Hin as (legal & Hlegal & Hin).
    apply (In_getAllLegalMoves _ _ _ _ _ Hwf Hlegal) in Hin.
    destruct Hin as ((piece & Hcell & Hcolor) & Hmove).
    destruct (isLegalMove_facts _ _ _ _ _ _ Hwf Hmove)
      as (p & Hp & Hfrom & Hto & Hne & _ & Hbasic).
    assert (p = piece) as -> by congruence.
    set (core := movePieceCore g (fromRow m) (fromCol m) (toRow m) (toCol m) piece).
    assert (Hwfc : wfBoard (board core)) by (now apply wfBoard_movePieceCore).
    assert (Hkc : kingsUnique (board core)) by (now apply kingsUnique_movePieceCore).
    unfold movePiece. rewrite Hcell. fold core.
    destruct (updateGameStatus core) as [g1|] eqn:Hg1;
      [|now apply updateGameStatus_returns in Hg1].
    cbn [mbind option_bind].
    destruct (updateGameStatus_preserves _ _ Hg1) as (Hb1 & _ & _ & _ & _ & Hh1).
    destruct (updateGameStatus (withTurn g1 White)) as [g2|] eqn:Hg2;
      [|apply updateGameStatus_returns in Hg2; [contradiction| |]; cbn;
        now rewrite Hb1].
    cbn [mbind option_bind].
    destruct (updateGameStatus_preserves _ _ Hg2) as (Hb2 & _ & Ht2 & _ & _ & Hh2).
    cbn in Hb2, Ht2, Hh2.
    destruct (moveHistory_movePieceCore g (fromRow m) (fromCol m) (toRow m) (toCol m)
                piece) as (record & Hrec & _).
    eexists. split; [reflexivity|]. split.
    + left. exists m, piece, record. cbn.
      rewrite Hb2, Hb1, Hh2, Hh1, Ht2. fold core. auto 10.
    + intros Hnil. specialize (Hnone Hnil). discriminate.
  - (* no move was kept *)
    eexists. split; [reflexivity|]. split.
    + right. cbn. auto.
    + intros _. cbn. auto.
Qed.

Lemma aiMove_outcome_witness :
  exists c',
    Controller.aiMove insertionSort 40
      (mkConsole (mkGame protectedPawnBoard None Black 0 0 [] false Playing)
                 AI 1 0 0 None 2 false false) = Some c'.
Proof.
  destruct (aiMove_outcome insertionSort 40
              (mkConsole (mkGame protectedPawnBoard None Black 0 0 [] false Playing)
                         AI 1 0 0 None 2 false false)
              insertionSort_sortsMoves) as (c' & Hc' & _).
  - apply wfBoardb_sound. reflexivity.
  - apply kingsUniqueb_sound; [apply wfBoardb_sound|]; reflexivity.
  - vm_compute. lia.
  - reflexivity.
  - exists c'. exact Hc'.
Defined.

(** Every handler leaves [aiThinking] as it is, but [aiMove]. *)
Lemma handle_aiThinking (arraySort : (Move -> Move -> Z) -> list Move -> list Move)
  (fuel : nat) (c c' : Console) (e : Controller.Event) :
  e <> Controller.Update ->
  Controller.handle arraySort fuel c e = Some c' -> aiThinking c' = aiThinking c.
Proof.
  intros He H. destruct e; try congruence; cbn [Controller.handle] in H.
  - unfold Controller.pressA in H.
    repeat match type of H with
           | (if ?b then _ else _) = _ => destruct b
           | match ?x with _ => _ end = _ => destruct x
           | (?x ≫= _) = _ => destruct x; cbn [mbind option_bind] in H
           end; inversion H; reflexivity.
  - inversion H. unfold Controller.pressB, Controller.newGame.
    repeat match goal with
           | |- context [ if ?b then _ else _ ] => destruct b
           end; reflexivity.
  - inversion H. unfold Controller.pressLeft.
    repeat match goal with
           | |- context [ if ?b then _ else _ ] => destruct b
           end; reflexivity.
  - inversion H. unfold Controller.pressRight.
    repeat match goal with
           | |- context [ if ?b then _ else _ ] => destruct b
           end; reflexivity.
  - inversion H. unfold Controller.pressUp.
    repeat match goal with
           | |- context [ if ?b then _ else _ ] => destruct b
           end; reflexivity.
  - inversion H. unfold Controller.pressDown.
    repeat match goal with
           | |- context [ if ?b then _ else _ ] => destruct b
           end; reflexivity.
  - inversion H. unfold Controller.pressMenu, Controller.newGame.
    repeat match goal with
           | |- context [ if ?b then _ else _ ] => destruct b
           end; reflexivity.
Qed.

(** X17: once [aiThinking] is left set, the program never moves again.
    [aiMove] leaves the flag set when it finds no move, and nothing unsets
    it, not even a new game: from a console with [aiThinking] set, the update
    handler does nothing, so that every run gives the same result without
    its update events, and the flag is still set at its end. *)
Theorem aiThinking_set_forever
  (arraySort : (Move -> Move -> Z) -> list Move -> list Move) (fuel : nat)
  (events : list Controller.Event) (c : Console) :
  aiThinking c = true ->
  Controller.run arraySort fuel c events
  = Controller.run arraySort fuel c
      (List.filter (fun e => negb (bool_decide (e = Controller.Update))) events) /\
  (forall c', Controller.run arraySort fuel c events = Some c' -> aiThinking c' = true).
Proof.
  revert c. induction events as [|e events IH]; intros c Hthinking.
  - split; [reflexivity|]. intros c' H. inversion H; subst. exact Hthinking.
  - destruct (decide (e = Controller.Update)) as [->|Hne].
    + assert (Hupdate : Controller.handle arraySort fuel c Controller.Update = Some c).
      { cbn [Controller.handle]. unfold Controller.onUpdate, Controller.aiMove.
        rewrite Hthinking. now destruct (_ && _). }
      cbn [Controller.run List.filter]. rewrite Hupdate.
      rewrite bool_decide_eq_true_2 by reflexivity. cbn [negb mbind option_bind].
      now apply IH.
    + cbn [Controller.run List.filter].
      rewrite bool_decide_eq_false_2 by exact Hne. cbn [negb Controller.run].
      destruct (Controller.handle arraySort fuel c e) as [c1|] eqn:Hc1;
        cbn [mbind option_bind]; [|split; [reflexivity|discriminate]].
      apply IH. rewrite (handle_aiThinking _ _ _ _ _ Hne Hc1). exact Hthinking.
Qed.

Lemma aiThinking_set_forever_witness :
  let c := mkConsole (mkGame initBoard None Black 0 0 [] false Playing)
                     AI 1 0 0 None 3 true false in
  Controller.run insertionSort 65 c [Controller.Update; Controller.ButtonDown]
  = Controller.run insertionSort 65 c [Controller.ButtonDown].
Proof.
  apply (aiThinking_set_forever insertionSort 65
           [Controller.Update; Controller.ButtonDown]
           (mkConsole (mkGame initBoard None Black 0 0 [] false Playing)
                      AI 1 0 0 None 3 true false) eq_refl).
Defined.

(** X18: selecting a piece and moving it is [playMove].  With a game in
    play, nothing selected and the cursor on a piece of the side to move,
    button A selects the square; with the cursor then taken to another
    square, a second press gives the game the result of [playMove] for the
    two squares and clears the selection. *)
Theorem select_then_move_is_playMove (c : Console) (m : Move) (piece : Piece) :
  gameState (game c) = Playing -> gameOver (game c) = false ->
  selectedPiece c = None ->
  (cursorRow c, cursorCol c) = (fromRow m, fromCol m) ->
  getCell (board (game c)) (fromRow m) (fromCol m) = Some piece ->
  color piece = currentTurn (game c) ->
  (fromRow m, fromCol m) <> (toRow m, toCol m) ->
  exists c1,
    Controller.pressA c = Some c1 /\
    game c1 = game c /\ selectedPiece c1 = Some (fromRow m, fromCol m) /\
    match playMove (game c) m with
    | Some g' =>
        exists c2,
          Controller.pressA (withCursor c1 (toRow m) (toCol m)) = Some c2 /\
          game c2 = g' /\ selectedPiece c2 = None /\
          (cursorRow c2, cursorCol c2) = (toRow m, toCol m)
    | None => Controller.pressA (withCursor c1 (toRow m) (toCol m)) = None
    end.
Proof.
  intros Hstate Hover Hsel Hcursor Hcell Hcolor Hne.
  assert (Hrow : cursorRow c = fromRow m) by congruence.
  assert (Hcol : cursorCol c = fromCol m) by congruence.
  eexists. split.
  { unfold Controller.pressA.
    rewrite Hstate, Hover, Hsel, Hrow, Hcol, Hcell.
    rewrite (bool_decide_eq_false_2 (Playing = GameOver)) by discriminate.
    rewrite (bool_decide_eq_false_2 (Playing = MainMenu)) by discriminate.
    rewrite (bool_decide_eq_true_2 (Playing = Playing)) by reflexivity.
    rewrite (bool_decide_eq_true_2 _ Hcolor). cbn [andb]. reflexivity. }
  split; [reflexivity|]. split; [cbn; congruence|].
  assert (Hsame : (fromRow m =? toRow m) && (fromCol m =? toCol m) = false).
  { apply andb_false_iff.
    destruct (Z.eqb_spec (fromRow m) (toRow m)) as [Hr|Hr]; [|now left].
    destruct (Z.eqb_spec (fromCol m) (toCol m)) as [Hc|Hc]; [|now right].
    exfalso. apply Hne. congruence. }
  unfold playMove, Controller.pressA, withCursor. cbn.
  rewrite Hstate, Hover, Hcell, Hsame.
  rewrite (bool_decide_eq_false_2 (Playing = GameOver)) by discriminate.
  rewrite (bool_decide_eq_false_2 (Playing = MainMenu)) by discriminate.
  rewrite (bool_decide_eq_true_2 (Playing = Playing)) by reflexivity.
  rewrite (bool_decide_eq_true_2 _ Hcolor). cbn [negb orb andb].
  destruct (isLegalMove _ _ _ _ _ _) as [[|]|]; cbn [mbind option_bind].
  - destruct (movePiece _ _ _ _ _) as [g1|]; cbn [mbind option_bind]; [|reflexivity].
    destruct (updateGameStatus _) as [g2|]; cbn [mbind option_bind]; [|reflexivity].
    eexists. split; [reflexivity|]. cbn. auto.
  - eexists. split; [reflexivity|]. cbn. auto.
  - reflexivity.
Qed.

Lemma select_then_move_is_playMove_witness :
  exists c1,
    Controller.pressA
      (mkConsole (newGame initBoard) TwoPlayer 0 6 4 None 3 false false) = Some c1 /\
    selectedPiece c1 = Some (6, 4).
Proof.
  destruct (select_then_move_is_playMove
              (mkConsole (newGame initBoard) TwoPlayer 0 6 4 None 3 false false)
              (mkMove 6 4 4 4) (mkPiece Pawn White false)
              eq_refl eq_refl eq_refl eq_refl eq_refl eq_refl)
    as (c1 & Hc1 & _ & Hsel & _).
  - discriminate.
  - exists c1. split; assumption.
Defined.

(** * The screen *)

Lemma onBoard_cases (row col : Z) :
  onBoard row col ->
  (row = 0 \/ row = 1 \/ row = 2 \/ row = 3 \/ row = 4 \/ row = 5 \/ row = 6 \/ row = 7) /\
  (col = 0 \/ col = 1 \/ col = 2 \/ col = 3 \/ col = 4 \/ col = 5 \/ col = 6 \/ col = 7).
Proof. unfold onBoard, BOARD_SIZE. lia. Qed.

Lemma getCellPosition_onBoard (row col : Z) :
  onBoard row col ->
  getCellPosition row col = Some (24 + 14 * col + 7, 4 + 14 * row + 7).
Proof.
  intros Hon. destruct (onBoard_cases _ _ Hon) as [Hr Hc].
  repeat (destruct Hr as [->|Hr]); try subst row;
    repeat (destruct Hc as [->|Hc]); try subst col; reflexivity.
Qed.

Lemma getCellPosition_offBoard (row col : Z) :
  ~ onBoard row col -> getCellPosition row col = None.
Proof.
  intros Hoff. unfold getCellPosition.
  destruct ((row <? 0) || (col <? 0)) eqn:Hneg; [reflexivity|].
  apply orb_false_elim in Hneg. destruct Hneg as [Hr Hc].
  destruct (initCellPositions !! Z.to_nat row) as [rowPos|] eqn:Hrow; [|reflexivity].
  assert (Hlt : (Z.to_nat row < 8)%nat).
  { apply lookup_lt_Some in Hrow. exact Hrow. }
  assert (Hlen : length rowPos = 8%nat).
  { assert (Hall : Forall (fun r => length r = 8%nat) initCellPositions)
      by (repeat constructor).
    rewrite Forall_lookup in Hall. exact (Hall _ _ Hrow). }
  apply lookup_ge_None_2. rewrite Hlen.
  unfold onBoard, BOARD_SIZE in Hoff. lia.
Qed.

(** X19: the board on the screen.  The position [getCellPosition] gives for
    a square of the board is the centre of the rectangle that
    [drawBoardBackground] fills for that square, whose colour alternates
    with the parity of row plus column; the rectangle lies inside the screen
    of 160 by 120 pixels; different squares have different positions; and
    outside the board there is no position. *)
Theorem cell_positions_match_background (row col : Z) :
  (onBoard row col ->
   exists x y,
     getCellPosition row col = Some (x, y) /\
     In (x - SQUARE_SIZE / 2, y - SQUARE_SIZE / 2, SQUARE_SIZE, SQUARE_SIZE,
         if Z.even (row + col) then 11 else 12)
        drawBoardBackground /\
     0 <= x - SQUARE_SIZE / 2 /\ x + SQUARE_SIZE / 2 <= 160 /\
     0 <= y - SQUARE_SIZE / 2 /\ y + SQUARE_SIZE / 2 <= 120 /\
     forall row' col',
       onBoard row' col' -> getCellPosition row' col' = Some (x, y) ->
       (row', col') = (row, col)) /\
  (~ onBoard row col -> getCellPosition row col = None).
Proof.
  split; [|apply getCellPosition_offBoard].
  intros Hon. exists (24 + 14 * col + 7), (4 + 14 * row + 7).
  split; [now apply getCellPosition_onBoard|].
  change (SQUARE_SIZE / 2) with 7. change SQUARE_SIZE with 14.
  split.
  { unfold drawBoardBackground. apply in_map_iff. exists (row, col).
    split; [|now apply In_squares].
    cbn [fst snd]. unfold colorFill, BOARD_OFFSET_X, BOARD_OFFSET_Y, SQUARE_SIZE.
    destruct (onBoard_cases _ _ Hon) as [Hr Hc].
    repeat (destruct Hr as [->|Hr]); try subst row;
      repeat (destruct Hc as [->|Hc]); try subst col; reflexivity. }
  unfold onBoard, BOARD_SIZE in Hon.
  split; [lia|]. split; [lia|]. split; [lia|]. split; [lia|].
  intros row' col' Hon' Hpos. rewrite getCellPosition_onBoard in Hpos by assumption.
  inversion Hpos. f_equal; lia.
Qed.

(** X20: a bishop stays on squares of one colour: a bishop move that
    [isLegalMove] accepts ends on a square that [drawBoardBackground] fills
    with the colour of the square it starts from. *)
Theorem bishop_keeps_square_colour (b : Board) (ep : option (Z * Z))
  (fr fc tr tc : Z) (piece : Piece) :
  wfBoard b -> getCell b fr fc = Some piece -> type piece = Bishop ->
  isLegalMove b ep fr fc tr tc = Some true ->
  colorFill tr tc = colorFill fr fc.
Proof.
  intros Hwf Hcell Ht Hlegal.
  destruct (isLegalMove_facts _ _ _ _ _ _ Hwf Hlegal)
    as (p & Hp & _ & _ & _ & _ & Hbasic).
  assert (p = piece) as -> by congruence.
  rewrite isLegalMoveBasic_not_pawn in Hbasic by congruence. rewrite Ht in Hbasic.
  apply isLegalBishopMove_true_inv in Hbasic. destruct Hbasic as (Hdiag & _).
  assert (Hk : exists k, tr + tc = fr + fc + k * 2).
  { destruct (Z.abs_spec (tr - fr)) as [[_ H1]|[_ H1]];
      destruct (Z.abs_spec (tc - fc)) as [[_ H2]|[_ H2]].
    - exists (tr - fr). lia.
    - exists 0. lia.
    - exists 0. lia.
    - exists (tr - fr). lia. }
  destruct Hk as [k Hk]. unfold colorFill. rewrite Hk, Z_mod_plus_full. reflexivity.
Qed.

Lemma bishop_keeps_square_colour_witness : colorFill 4 6 = colorFill 2 4.
Proof.
  apply (bishop_keeps_square_colour
           (placePieces [ (2, 4, mkPiece Bishop White true);
                          (7, 4, mkPiece King White true);
                          (0, 0, mkPiece King Black true) ]) None 2 4 4 6
           (mkPiece Bishop White true)).
  - apply wfBoardb_sound. reflexivity.
  - reflexivity.
  - reflexivity.
  - vm_compute. reflexivity.
Defined.

(** ** The path of the last move *)

Lemma pathLoop_steps (k : nat) (fuel : nat) (r c stepRow stepCol toRow toCol : Z) :
  (k < fuel)%nat ->
  toRow = r + Z.of_nat k * stepRow -> toCol = c + Z.of_nat k * stepCol ->
  stepRow <> 0 \/ stepCol <> 0 ->
  pathLoop fuel r c stepRow stepCol toRow toCol =
  Some (map (fun i : nat => (r + Z.of_nat i * stepRow, c + Z.of_nat i * stepCol))
            (seq 1 k)).
Proof.
  revert fuel r c. induction k as [|k IH]; intros fuel r c Hfuel Hrow Hcol Hstep;
    (destruct fuel as [|fuel]; [lia|]); cbn [pathLoop].
  - replace (r =? toRow) with true by lia. replace (c =? toCol) with true by lia.
    reflexivity.
  - assert (Hne : negb (r =? toRow) || negb (c =? toCol) = true).
    { apply orb_true_iff. destruct Hstep as [Hs|Hs].
      - left. apply negb_true_iff, Z.eqb_neq. nia.
      - right. apply negb_true_iff, Z.eqb_neq. nia. }
    rewrite Hne. rewrite (IH fuel (r + stepRow) (c + stepCol)) by (lia || assumption).
    cbn [mbind option_bind]. f_equal. cbn [seq map]. f_equal.
    + f_equal; lia.
    + rewrite <- (seq_shift k 1), map_map. apply map_ext. intros i. f_equal; lia.
Qed.

Lemma step_is_sgn (d : Z) : (if d =? 0 then 0 else d / Z.abs d) = Z.sgn d.
Proof.
  destruct (Z.eqb_spec d 0) as [->|Hne]; [reflexivity|].
  destruct (Z.abs_spec d) as [[Hpos ->]|[Hneg ->]].
  - rewrite Z.div_same by lia. lia.
  - replace d with ((-1) * (- d)) at 1 by lia. rewrite Z.div_mul by lia. lia.
Qed.

(** X21: the squares marked for the last move.  For a move along a row, a
    column or a diagonal the loop of [highlightLastMove] ends, and the
    squares it marks are the squares of the line, one step after the other,
    from the origin to the destination; for any other move (a knight's) the
    two ends are marked. *)
Theorem highlightLastMove_path (fuel : nat) (lastMove : MoveRecord)
  (history : list MoveRecord) :
  let fr := recFromRow lastMove in
  let fc := recFromCol lastMove in
  let tr := recToRow lastMove in
  let tc := recToCol lastMove in
  let n := Z.to_nat (Z.max (Z.abs (tr - fr)) (Z.abs (tc - fc))) in
  (n < fuel)%nat ->
  highlightLastMove fuel (lastMove :: history) =
  Some (if (tr - fr =? 0) || (tc - fc =? 0) || (Z.abs (tr - fr) =? Z.abs (tc - fc))
        then map (fun i : nat => (fr + Z.of_nat i * Z.sgn (tr - fr),
                                  fc + Z.of_nat i * Z.sgn (tc - fc)))
                 (seq 0 (S n))
        else [(fr, fc); (tr, tc)]).
Proof.
  intros fr0 fc0 tr0 tc0 n0 Hfuel. subst fr0 fc0 tr0 tc0 n0.
  cbn [highlightLastMove]. unfold lastMovePath. cbn zeta.
  set (fr := recFromRow lastMove). set (fc := recFromCol lastMove).
  set (tr := recToRow lastMove). set (tc := recToCol lastMove).
  rewrite !step_is_sgn.
  destruct ((tr - fr =? 0) || (tc - fc =? 0) || (Z.abs (tr - fr) =? Z.abs (tc - fc)))
    eqn:Hline; [|reflexivity].
  destruct (Z.eq_dec (tr - fr) 0) as [Hr0|Hr0];
    destruct (Z.eq_dec (tc - fc) 0) as [Hc0|Hc0].
  - (* the move from a square to itself *)
    rewrite Hr0, Hc0 in *. cbn [Z.abs Z.max Z.to_nat Z.sgn seq map].
    destruct fuel as [|fuel]; [lia|]. cbn [pathLoop].
    replace (fr =? tr) with true by lia. replace (fc =? tc) with true by lia.
    cbn. repeat f_equal; lia.
  - rewrite (pathLoop_steps (Z.to_nat (Z.max (Z.abs (tr - fr)) (Z.abs (tc - fc)))));
      [| assumption | | | right; lia].
    + cbn [mbind option_bind seq map]. f_equal. f_equal. f_equal; lia.
    + rewrite Hr0. cbn [Z.sgn]. lia.
    + rewrite Hr0. cbn [Z.abs]. lia.
  - rewrite (pathLoop_steps (Z.to_nat (Z.max (Z.abs (tr - fr)) (Z.abs (tc - fc)))));
      [| assumption | | | left; lia].
    + cbn [mbind option_bind seq map]. f_equal. f_equal. f_equal; lia.
    + rewrite Hc0. cbn [Z.abs]. lia.
    + rewrite Hc0. cbn [Z.sgn]. lia.
  - assert (Hdiag : Z.abs (tr - fr) = Z.abs (tc - fc)) by lia.
    rewrite (pathLoop_steps (Z.to_nat (Z.max (Z.abs (tr - fr)) (Z.abs (tc - fc)))));
      [| assumption | | | left; lia].
    + cbn [mbind option_bind seq map]. f_equal. f_equal. f_equal; lia.
    + lia.
    + lia.
Qed.

Lemma highlightLastMove_path_witness :
  highlightLastMove 9 [mkMoveRecord 7 2 4 5 Bishop false None None None]
  = Some [(7, 2); (6, 3); (5, 4); (4, 5)].
Proof.
  apply (highlightLastMove_path 9 (mkMoveRecord 7 2 4 5 Bishop false None None None) []).
  vm_compute. lia.
Defined.

(** * Check *)

(** ** What the check oracle looks at *)

Section SameAttackers.

(** Two boards with the same occupied squares, the same pieces of the
    attacking colour and the king of the defending colour on the same
    square. *)
Variables b1 b2 : Board.
Variable c : PieceColor.
Hypothesis Hocc : forall r k, isSomeb (getCell b1 r k) = isSomeb (getCell b2 r k).
Hypothesis Henemy : forall r k p,
  color p = enemyOf c -> (getCell b1 r k = Some p <-> getCell b2 r k = Some p).
Hypothesis Hking : forall r k, isKingOf c b1 (r, k) = isKingOf c b2 (r, k).

Lemma occ_isLegalRookMove fr fc tr tc :
  isLegalRookMove b1 fr fc tr tc = isLegalRookMove b2 fr fc tr tc.
Proof.
  unfold isLegalRookMove.
  destruct (negb (fr =? tr) && negb (fc =? tc)); [reflexivity|].
  destruct (fr =? tr); apply scanLine_ext; intros k; apply Hocc.
Qed.

Lemma occ_scanDiag n r k sr sc toRow :
  scanDiag n b1 r k sr sc toRow = scanDiag n b2 r k sr sc toRow.
Proof.
  revert r k. induction n as [|n IH]; intros r k; simpl; [reflexivity|].
  rewrite Hocc, IH. reflexivity.
Qed.

Lemma occ_canPieceAttack fr fc tr tc p :
  canPieceAttack fr fc tr tc p b1 = canPieceAttack fr fc tr tc p b2.
Proof.
  unfold canPieceAttack, isLegalQueenMove, isLegalBishopMove.
  rewrite occ_isLegalRookMove, occ_scanDiag. reflexivity.
Qed.

Lemma same_attacksFrom row col rc :
  attacksFrom row col (enemyOf c) b1 rc = attacksFrom row col (enemyOf c) b2 rc.
Proof.
  destruct rc as [r k]. unfold attacksFrom.
  destruct (getCell b1 r k) as [p1|] eqn:H1.
  - destruct (decide (color p1 = enemyOf c)) as [Hc|Hc].
    + apply (Henemy r k p1 Hc) in H1. rewrite H1.
      rewrite occ_canPieceAttack. reflexivity.
    + rewrite (bool_decide_eq_false_2 _ Hc).
      destruct (getCell b2 r k) as [p2|] eqn:H2; [|reflexivity].
      destruct (decide (color p2 = enemyOf c)) as [Hc2|Hc2].
      * apply (Henemy r k p2 Hc2) in H2. congruence.
      * rewrite (bool_decide_eq_false_2 _ Hc2). reflexivity.
  - pose proof (Hocc r k) as Ho. rewrite H1 in Ho.
    destruct (getCell b2 r k); [discriminate|reflexivity].
Qed.

Lemma same_isKingInCheck : isKingInCheck c b1 = isKingInCheck c b2.
Proof.
  unfold isKingInCheck, findKing.
  rewrite (find_ext (isKingOf c b1) (isKingOf c b2)) by (intros [r k]; apply Hking).
  destruct (find (isKingOf c b2) squares); [|reflexivity].
  unfold isSquareAttacked. apply existsM_ext. intros rc _. apply same_attacksFrom.
Qed.

End SameAttackers.

(** ** Attacks are captures *)

(** A piece attacks a square that holds a piece of the other colour exactly
    when the rules of movement let it move there. *)
Lemma attacksFrom_iff_basic (b : Board) (ep : option (Z * Z))
  (row col r k : Z) (target piece : Piece) :
  getCell b row col = Some target -> getCell b r k = Some piece ->
  color target <> color piece ->
  (attacksFrom row col (color piece) b (r, k) = Some true <->
   isLegalMoveBasic b ep r k row col piece = Some true).
Proof.
  intros Htarget Hpiece Hcolor. unfold attacksFrom. rewrite Hpiece.
  rewrite bool_decide_eq_true_2 by reflexivity.
  unfold isLegalMoveBasic. rewrite Htarget. cbn [isSomeb negb].
  rewrite !andb_false_r. cbn [andb].
  destruct (type piece) eqn:Ht.
  - rewrite bool_decide_eq_true_2 by reflexivity.
    unfold isLegalPawnMove. rewrite Htarget. cbn [isSomeb negb].
    rewrite !andb_false_r.
    rewrite (bool_decide_eq_false_2 (color target = color piece)) by exact Hcolor.
    cbn [negb].
    destruct (Z.eqb_spec row (r + directionOf (color piece))) as [->|Hrow].
    + rewrite andb_true_r. cbn [andb].
      destruct (Z.eqb_spec col (k - 1)), (Z.eqb_spec col (k + 1)),
        (Z.eqb_spec (Z.abs (col - k)) 1); cbn; try tauto; lia.
    + cbn [andb]. rewrite andb_false_r. tauto.
  - rewrite bool_decide_eq_false_2 by discriminate. unfold canPieceAttack.
    rewrite Ht. tauto.
  - rewrite bool_decide_eq_false_2 by discriminate. unfold canPieceAttack.
    rewrite Ht. tauto.
  - rewrite bool_decide_eq_false_2 by discriminate. unfold canPieceAttack.
    rewrite Ht. tauto.
  - rewrite bool_decide_eq_false_2 by discriminate. unfold canPieceAttack.
    rewrite Ht. tauto.
  - rewrite bool_decide_eq_false_2 by discriminate. unfold canPieceAttack.
    rewrite Ht.
    destruct ((Z.abs (col - k) =? 2) && (row =? r)) eqn:Hcastle; [|tauto].
    (* a king two columns away does not attack, and cannot castle onto a piece *)
    assert (Z.abs (col - k) = 2 /\ row = r) as [Hdc ->] by lia.
    replace (Z.abs (col - k) <=? 1) with false by lia. rewrite andb_false_r.
    split; [discriminate|]. intros Hc.
    apply isLegalCastling_true_inv in Hc. destruct Hc as (_ & _ & _ & Hside).
    destruct (col >? k) eqn:Hgt; destruct Hside as (Hfree & _);
      rewrite Hfree in Htarget by lia; discriminate.
Qed.

(** ** The board after a move, cell by cell *)

Section AfterMove.

Variable b : Board.
Variable ep : option (Z * Z).
Variables fr fc tr tc : Z.
Variable piece : Piece.

Hypothesis Hwf : wfBoard b.
Hypothesis Hpiece : getCell b fr fc = Some piece.
Hypothesis Hto : onBoard tr tc.
Hypothesis Hne : (fr, fc) <> (tr, tc).
Hypothesis Hbasic : isLegalMoveBasic b ep fr fc tr tc piece = Some true.

Lemma legal_shape :
  onBoard fr fc /\
  (type piece = Pawn -> tc <> fc -> getCell b tr tc = None ->
   Z.abs (tc - fc) = 1 /\ tr = fr + directionOf (color piece) /\ ep = Some (tr, tc)) /\
  (type piece = King -> Z.abs (tc - fc) = 2 ->
   tr = fr /\ 0 <= fc + (if tc >? fc then 1 else -1) < 8 /\
   tc <> (if tc >? fc then 7 else 0) /\
   getCell b fr (if tc >? fc then fc + 1 else fc - 1) = None /\
   exists corner, getCell b fr (if tc >? fc then 7 else 0) = Some corner).
Proof.
  assert (Hfrom : onBoard fr fc) by (eapply getCell_onBoard; eauto).
  split; [exact Hfrom|]. split.
  - intros Ht Hcol Hempty.
    assert (Hcol' : fc <> tc) by congruence.
    exact (isLegalMoveBasic_pawn_diagonal_empty _ _ _ _ _ _ _ Ht Hcol' Hempty Hbasic).
  - intros Ht Hdc.
    destruct (isLegalMoveBasic_king_two_columns _ _ _ _ _ _ _ Ht Hdc Hbasic)
      as (-> & Hcastle).
    apply isLegalCastling_true_inv in Hcastle. destruct Hcastle as (_ & _ & _ & Hside).
    destruct Hfrom as [Hfr Hfc], Hto as [_ Htc]. unfold BOARD_SIZE in *.
    change (8 - 1) with 7 in Hside.
    split; [reflexivity|].
    destruct (tc >? fc) eqn:Hgt; destruct Hside as (Hfree & corner & Hcorner & _).
    + split; [lia|]. split; [intros ->; rewrite Hfree in Hcorner by lia; discriminate|].
      split; [apply Hfree; lia|eauto].
    + split; [lia|]. split; [intros ->; rewrite Hfree in Hcorner by lia; discriminate|].
      split; [apply Hfree; lia|eauto].
Qed.

(** The board [isLegalMoveSimulated] tests for check. *)
Lemma simulatedBoard_cells (r k : Z) :
  getCell (simulatedBoard b piece fr fc tr tc) r k
  = cellAfterMove b fr fc tr tc piece piece r k.
Proof.
  destruct legal_shape as (Hfrom & Hpawn & Hking).
  unfold simulatedBoard, cellAfterMove. change (BOARD_SIZE - 1) with 7.
  destruct (decide (type piece = King /\ Z.abs (tc - fc) = 2)) as [[Ht Hdc]|Hnc].
  - destruct (Hking Ht Hdc) as (-> & Hbeside & Hcorner & Hfree & corner & Hcell).
    rewrite (bool_decide_eq_false_2 (type piece = Pawn)) by congruence.
    rewrite (bool_decide_eq_true_2 _ Ht). replace (Z.abs (tc - fc) =? 2) with true by lia.
    cbn [andb]. destruct Hfrom as [Hfr Hfc], Hto as [_ Htc]. unfold BOARD_SIZE in *.
    destruct (tc >? fc) eqn:Hgt;
      rewrite !getCell_setCell by (wf_board || (unfold onBoard, BOARD_SIZE; lia));
      rewrite Hcell;
      repeat match goal with
             | |- context [ ?x =? ?y ] => destruct (Z.eqb_spec x y); cbn [andb]
             end; try reflexivity; try lia; congruence.
  - assert (Hcastle : bool_decide (type piece = King) && (Z.abs (tc - fc) =? 2) = false).
    { apply andb_false_iff.
      destruct (decide (type piece = King)) as [Ht|Ht];
        [right; apply Z.eqb_neq; tauto|left; now apply bool_decide_eq_false_2]. }
    rewrite Hcastle. cbn [andb].
    destruct (bool_decide (type piece = Pawn) && (Z.abs (tc - fc) =? 1)
              && negb (isSomeb (getCell b tr tc))) eqn:Hside.
    + apply andb_prop in Hside. destruct Hside as [Hside Hempty].
      apply andb_prop in Hside. destruct Hside as [Ht Hdc].
      apply bool_decide_eq_true_1 in Ht.
      rewrite (bool_decide_eq_true_2 _ Ht), Hempty.
      replace (tc =? fc) with false by lia. cbn [negb andb].
      destruct Hfrom as [Hfr Hfc], Hto as [Htr Htc].
      rewrite !getCell_setCell by (wf_board || (unfold onBoard; lia)).
      repeat match goal with
             | |- context [ ?x =? ?y ] => destruct (Z.eqb_spec x y); cbn [andb]
             end; try reflexivity; try lia; congruence.
    + assert (Htakes : bool_decide (type piece = Pawn) && negb (tc =? fc)
                       && negb (isSomeb (getCell b tr tc)) = false).
      { destruct (bool_decide (type piece = Pawn)) eqn:Ht; [|reflexivity].
        apply bool_decide_eq_true_1 in Ht. cbn [andb] in *.
        destruct (tc =? fc) eqn:Hcol; [reflexivity|]. cbn [negb andb].
        destruct (getCell b tr tc) eqn:Hdest; [reflexivity|].
        apply Z.eqb_neq in Hcol. destruct (Hpawn Ht Hcol eq_refl) as (Hdc & _).
        cbn [isSomeb negb] in Hside. rewrite andb_true_r in Hside. lia. }
      rewrite Htakes. cbn [andb].
      destruct Hfrom as [Hfr Hfc].
      rewrite !getCell_setCell by (wf_board || assumption || (unfold onBoard; lia)).
      repeat match goal with
             | |- context [ ?x =? ?y ] => destruct (Z.eqb_spec x y); cbn [andb]
             end; try reflexivity; try lia; congruence.
Qed.

End AfterMove.

Section AfterMovePiece.

Variable g : Game.
Variables fr fc tr tc : Z.
Variable piece : Piece.

Hypothesis Hwf : wfBoard (board g).
Hypothesis Hpiece : getCell (board g) fr fc = Some piece.
Hypothesis Hto : onBoard tr tc.
Hypothesis Hne : (fr, fc) <> (tr, tc).
Hypothesis Hbasic :
  isLegalMoveBasic (board g) (enPassantTarget g) fr fc tr tc piece = Some true.

(** The board [movePiece] makes. *)
Lemma movePieceCore_cells (r k : Z) :
  getCell (board (movePieceCore g fr fc tr tc piece)) r k
  = cellAfterMove (board g) fr fc tr tc piece
      (mkPiece (promotedType piece tr) (color piece) true) r k.
Proof.
  destruct (legal_shape _ _ _ _ _ _ _ Hwf Hpiece Hto Hne Hbasic) as (Hfrom & Hpawn & Hking).
  rewrite board_movePieceCore_eq.
  unfold castlingRelocation, enPassantCapture, cellAfterMove.
  change (BOARD_SIZE - 1) with 7.
  destruct (decide (type piece = King /\ Z.abs (tc - fc) = 2)) as [[Ht Hdc]|Hnc].
  - destruct (Hking Ht Hdc) as (-> & Hbeside & Hcorner & Hfree & corner & Hcell).
    rewrite (bool_decide_eq_false_2 (type piece = Pawn)) by congruence.
    rewrite (bool_decide_eq_true_2 _ Ht). replace (Z.abs (tc - fc) =? 2) with true by lia.
    cbn [andb fst]. destruct Hfrom as [Hfr Hfc], Hto as [_ Htc]. unfold BOARD_SIZE in *.
    destruct (tc >? fc) eqn:Hgt; rewrite Hcell; cbn [fst];
      rewrite !getCell_setCell by (wf_board || (unfold onBoard, BOARD_SIZE; lia));
      repeat match goal with
             | |- context [ ?x =? ?y ] => destruct (Z.eqb_spec x y); cbn [andb]
             end; try reflexivity; try lia; congruence.
  - assert (Hcastle : bool_decide (type piece = King) && (Z.abs (tc - fc) =? 2) = false).
    { apply andb_false_iff.
      destruct (decide (type piece = King)) as [Ht|Ht];
        [right; apply Z.eqb_neq; tauto|left; now apply bool_decide_eq_false_2]. }
    rewrite Hcastle. cbn [andb].
    destruct (bool_decide (type piece = Pawn) && (Z.abs (tc - fc) =? 1)
              && negb (isSomeb (getCell (board g) tr tc))
              && isEnPassantTarget (enPassantTarget g) tr tc) eqn:Hside.
    + apply andb_prop in Hside. destruct Hside as [Hside _].
      apply andb_prop in Hside. destruct Hside as [Hside Hempty].
      apply andb_prop in Hside. destruct Hside as [Ht Hdc].
      apply bool_decide_eq_true_1 in Ht.
      rewrite (bool_decide_eq_true_2 _ Ht), Hempty.
      replace (tc =? fc) with false by lia. cbn [negb andb].
      destruct Hfrom as [Hfr Hfc], Hto as [Htr Htc].
      destruct (getCell (board g) fr tc) as [victim|] eqn:Hvictim; cbn [fst];
        rewrite !getCell_setCell by (wf_board || (unfold onBoard; lia));
        repeat match goal with
               | |- context [ ?x =? ?y ] => destruct (Z.eqb_spec x y); cbn [andb]
               end; try reflexivity; try lia; congruence.
    + assert (Htakes : bool_decide (type piece = Pawn) && negb (tc =? fc)
                       && negb (isSomeb (getCell (board g) tr tc)) = false).
      { destruct (bool_decide (type piece = Pawn)) eqn:Ht; [|reflexivity].
        apply bool_decide_eq_true_1 in Ht. cbn [andb] in *.
        destruct (tc =? fc) eqn:Hcol; [reflexivity|]. cbn [negb andb].
        destruct (getCell (board g) tr tc) eqn:Hdest; [reflexivity|].
        apply Z.eqb_neq in Hcol. destruct (Hpawn Ht Hcol eq_refl) as (Hdc & _ & Hep).
        cbn [isSomeb negb] in Hside. rewrite Hep in Hside. cbn in Hside.
        rewrite !Z.eqb_refl in Hside. cbn in Hside. lia. }
      rewrite Htakes. cbn [andb fst].
      destruct Hfrom as [Hfr Hfc].
      rewrite !getCell_setCell by (wf_board || assumption || (unfold onBoard; lia)).
      repeat match goal with
             | |- context [ ?x =? ?y ] => destruct (Z.eqb_spec x y); cbn [andb]
             end; try reflexivity; try lia; congruence.
Qed.

(** The mover's king is as safe on the board [movePiece] makes as on the
    board the legality test looked at. *)
Lemma isKingInCheck_movePieceCore :
  isKingInCheck (color piece) (board (movePieceCore g fr fc tr tc piece))
  = isKingInCheck (color piece) (simulatedBoard (board g) piece fr fc tr tc).
Proof.
  symmetry. apply same_isKingInCheck.
  - intros r k. rewrite movePieceCore_cells.
    rewrite (simulatedBoard_cells _ (enPassantTarget g)) by assumption.
    unfold cellAfterMove.
    repeat match goal with
           | |- context [ if ?x then _ else _ ] => destruct x
           end; reflexivity.
  - intros r k p Hp. rewrite movePieceCore_cells.
    rewrite (simulatedBoard_cells _ (enPassantTarget g)) by assumption.
    unfold cellAfterMove.
    assert (Hcolor : color p <> color piece).
    { rewrite Hp. apply enemyOf_neq. }
    repeat match goal with
           | |- context [ if ?x then _ else _ ] => destruct x
           end; try tauto.
    split; intros H; inversion H; subst p; cbn in Hcolor; congruence.
  - intros r k. unfold isKingOf. cbn [fst snd]. rewrite movePieceCore_cells.
    rewrite (simulatedBoard_cells _ (enPassantTarget g)) by assumption.
    unfold cellAfterMove.
    repeat match goal with
           | |- context [ if ?x then _ else _ ] => destruct x
           end; try reflexivity.
    cbn [color type]. f_equal. unfold promotedType.
    destruct (bool_decide (type piece = Pawn)) eqn:Hp; cbn [andb]; [|reflexivity].
    apply bool_decide_eq_true_1 in Hp.
    match goal with |- context [ if ?x then _ else _ ] => destruct x end;
      [|reflexivity].
    rewrite !bool_decide_eq_false_2 by congruence. reflexivity.
Qed.

End AfterMovePiece.

(** ** Kings are never taken *)

Lemma isKingInCheck_false_hasKing (c : PieceColor) (b : Board) :
  isKingInCheck c b = Some false -> hasKing c b.
Proof.
  unfold isKingInCheck. destruct (findKing c b) as [[r k]|] eqn:E; [|discriminate].
  intros _. apply findKing_Some in E. destruct E as (_ & p & Hp & Hc & Ht).
  exists r, k, p. auto.
Qed.

(** A move onto the king of the other side is an attack on it. *)
Lemma king_capture_is_check (b : Board) (ep : option (Z * Z)) (fr fc tr tc : Z)
  (piece target : Piece) :
  wfBoard b -> kingsUnique b ->
  getCell b fr fc = Some piece -> getCell b tr tc = Some target ->
  type target = King -> color target <> color piece ->
  isLegalMoveBasic b ep fr fc tr tc piece = Some true ->
  isKingInCheck (color target) b = Some true.
Proof.
  intros Hwf Hu Hpiece Htarget Hking Hcolor Hbasic.
  unfold isKingInCheck. rewrite (findKing_unique b tr tc target Hwf Hu Htarget Hking).
  cbn [fst snd]. unfold isSquareAttacked.
  assert (Hby : color piece = enemyOf (color target)).
  { apply color_neq_enemyOf. congruence. }
  apply existsM_true with (x := (fr, fc)).
  - apply isSquareAttacked_returns. intros p Hp Hc.
    rewrite Htarget in Hp. inversion Hp; subst p.
    exfalso. symmetry in Hc. exact (enemyOf_neq _ Hc).
  - apply In_squares. eapply getCell_onBoard; eauto.
  - rewrite <- Hby. apply (attacksFrom_iff_basic b ep tr tc fr fc target piece); assumption.
Qed.

(** What a legal move of the side to move leaves behind. *)
Lemma movePieceCore_safe (g : Game) (fr fc tr tc : Z) (piece : Piece) :
  wfBoard (board g) -> kingsUnique (board g) -> kingsSafe g ->
  getCell (board g) fr fc = Some piece -> color piece = currentTurn g ->
  isLegalMove (board g) (enPassantTarget g) fr fc tr tc = Some true ->
  isKingInCheck (currentTurn g) (board (movePieceCore g fr fc tr tc piece))
    = Some false /\
  hasKing (enemyOf (currentTurn g)) (board (movePieceCore g fr fc tr tc piece)) /\
  (forall r k, enPassantTarget (movePieceCore g fr fc tr tc piece) = Some (r, k) ->
     exists p,
       getCell (board (movePieceCore g fr fc tr tc piece))
               (r + directionOf (currentTurn g)) k = Some p /\
       type p = Pawn /\ color p = currentTurn g).
Proof.
  intros Hwf Hu (Hsafe & _ & Hep) Hpiece Hcolor Hlegal.
  pose proof Hlegal as Hinv. apply isLegalMove_true_inv in Hinv.
  destruct Hinv as (piece' & Hpiece' & _ & _ & Hsim).
  rewrite Hpiece in Hpiece'. inversion Hpiece'; subst piece'. clear Hpiece'.
  apply (isLegalMoveSimulated_true_inv _ _ _ _ _ _ _ Hpiece) in Hsim.
  destruct Hsim as (_ & simPiece & Hsp & Hcheck).
  rewrite cloneBoard_id in Hsp, Hcheck by assumption.
  rewrite Hpiece in Hsp. inversion Hsp; subst simPiece. clear Hsp.
  destruct (isLegalMove_facts _ _ _ _ _ _ Hwf Hlegal)
    as (piece' & Hpiece' & Hfrom & Hto & Hne & Hdest & Hbasic).
  rewrite Hpiece in Hpiece'. inversion Hpiece'; subst piece'. clear Hpiece'.
  destruct (legal_shape _ _ _ _ _ _ _ Hwf Hpiece Hto Hne Hbasic)
    as (_ & Hpawn & Hcastle).
  pose proof (movePieceCore_cells g fr fc tr tc piece Hwf Hpiece Hto Hne Hbasic)
    as Hcells.
  split; [|split].
  - rewrite <- Hcolor.
    rewrite (isKingInCheck_movePieceCore g fr fc tr tc piece Hwf Hpiece Hto Hne Hbasic).
    exact Hcheck.
  - destruct (isKingInCheck_false_hasKing _ _ Hsafe) as (kr & kk & q & Hq & Hqt & Hqc).
    assert (Hqp : color q <> color piece).
    { rewrite Hqc, Hcolor. apply enemyOf_neq. }
    destruct (decide (type piece = King /\ Z.abs (tc - fc) = 2 /\ kr = fr /\
                      kk = (if tc >? fc then 7 else 0))) as [(Ht & Hdc & -> & ->)|Hother].
    + (* the king of the other side stood in the corner: it is put beside *)
      destruct (Hcastle Ht Hdc) as (-> & Hbeside & Hcorner & Hfree & corner & Hcell).
      exists fr, (if tc >? fc then fc + 1 else fc - 1), q.
      split; [|auto]. rewrite Hcells. unfold cellAfterMove.
      rewrite (bool_decide_eq_false_2 (type piece = Pawn)) by congruence.
      rewrite (bool_decide_eq_true_2 _ Ht).
      replace (Z.abs (tc - fc) =? 2) with true by lia. cbn [andb].
      rewrite Z.eqb_refl. cbn [andb].
      destruct (tc >? fc) eqn:Hgt;
        repeat match goal with
               | |- context [ ?x =? ?y ] => destruct (Z.eqb_spec x y); cbn [andb]
               end; try lia; try exact Hq; congruence.
    + exists kr, kk, q. split; [|auto]. rewrite Hcells. unfold cellAfterMove.
      destruct ((kr =? fr) && (kk =? fc)) eqn:E1.
      { assert (kr = fr /\ kk = fc) as [-> ->] by lia. congruence. }
      destruct ((kr =? tr) && (kk =? tc)) eqn:E2.
      { assert (kr = tr /\ kk = tc) as [-> ->] by lia.
        pose proof (king_capture_is_check _ _ _ _ _ _ _ _ Hwf Hu Hpiece Hq Hqt Hqp Hbasic)
          as Hc.
        rewrite Hqc in Hc. congruence. }
      destruct (bool_decide (type piece = Pawn) && negb (tc =? fc)
                && negb (isSomeb (getCell (board g) tr tc)) && (kr =? fr) && (kk =? tc))
        eqn:E3.
      { apply andb_prop in E3. destruct E3 as [E3 Ek].
        apply andb_prop in E3. destruct E3 as [E3 Er].
        apply andb_prop in E3. destruct E3 as [E3 Eempty].
        apply andb_prop in E3. destruct E3 as [Et Ecol].
        apply bool_decide_eq_true_1 in Et.
        assert (kr = fr /\ kk = tc /\ tc <> fc) as (-> & -> & Hcol) by lia.
        destruct (getCell (board g) tr tc) eqn:Hd; [discriminate|].
        destruct (Hpawn Et Hcol eq_refl) as (_ & Hrow & Htarget).
        destruct (Hep _ _ Htarget) as (p & Hp & Hpt & _).
        rewrite <- Hcolor in Hp.
        replace (tr - directionOf (color piece)) with fr in Hp by lia.
        congruence. }
      destruct (bool_decide (type piece = King) && (Z.abs (tc - fc) =? 2)) eqn:E4;
        cbn [andb]; [|exact Hq].
      apply andb_prop in E4. destruct E4 as [Et Edc].
      apply bool_decide_eq_true_1 in Et. apply Z.eqb_eq in Edc.
      destruct (Hcastle Et Edc) as (-> & Hbeside & Hcorner & Hfree & corner & Hcell).
      destruct ((kr =? fr) && (kk =? (if tc >? fc then 7 else 0))) eqn:E5.
      { exfalso. apply Hother. repeat split; try assumption; lia. }
      destruct ((kr =? fr) && (kk =? (if tc >? fc then fc + 1 else fc - 1))) eqn:E6;
        [|exact Hq].
      assert (kr = fr /\ kk = (if tc >? fc then fc + 1 else fc - 1)) as [-> ->] by lia.
      congruence.
  - intros r k Htarget. rewrite enPassantTarget_movePieceCore in Htarget.
    destruct (bool_decide (promotedType piece tr = Pawn)) eqn:Et;
      cbn [andb] in Htarget; [|discriminate].
    apply bool_decide_eq_true_1 in Et.
    destruct (Z.eqb_spec (Z.abs (tr - fr)) 2) as [Hrows|]; [|discriminate].
    inversion Htarget; subst r k. clear Htarget.
    assert (Hpt : type piece = Pawn).
    { unfold promotedType in Et.
      destruct (bool_decide (type piece = Pawn) && _); [discriminate|exact Et]. }
    destruct (isLegalMoveBasic_pawn_two_rows _ _ _ _ _ _ _ Hpt Hrows Hbasic)
      as (-> & _ & ->).
    exists (mkPiece (promotedType piece (fr + 2 * directionOf (color piece)))
                    (color piece) true).
    split; [|split; [exact Et|exact Hcolor]].
    rewrite Hcells. unfold cellAfterMove. rewrite <- Hcolor.
    pose proof (directionOf_abs (color piece)) as Hdir.
    replace (fr + (fr + 2 * directionOf (color piece) - fr) / 2
             + directionOf (color piece))
      with (fr + 2 * directionOf (color piece)).
    2:{ replace (fr + 2 * directionOf (color piece) - fr)
          with (directionOf (color piece) * 2) by lia.
        rewrite Z.div_mul by lia. lia. }
    replace (fr + 2 * directionOf (color piece) =? fr) with false by lia.
    rewrite !Z.eqb_refl. reflexivity.
Qed.

(** A step of the input handler keeps the kings safe. *)
Lemma playMove_safe (g g' : Game) (m : Move) :
  wfBoard (board g) -> kingsUnique (board g) -> kingsSafe g ->
  playMove g m = Some g' -> kingsSafe g'.
Proof.
  intros Hwf Hu Hsafe. unfold playMove.
  destruct (negb (bool_decide (gameState g = Playing)) || gameOver g);
    [intros H; inversion H; subst; exact Hsafe|].
  destruct (getCell (board g) (fromRow m) (fromCol m)) as [piece|] eqn:Hcell;
    [|intros H; inversion H; subst; exact Hsafe].
  destruct (bool_decide (color piece = currentTurn g)) eqn:Hcolor; cbn [negb];
    [|intros H; inversion H; subst; exact Hsafe].
  apply bool_decide_eq_true_1 in Hcolor.
  destruct ((fromRow m =? toRow m) && (fromCol m =? toCol m));
    [intros H; inversion H; subst; exact Hsafe|].
  destruct (isLegalMove (board g) (enPassantTarget g) (fromRow m) (fromCol m)
              (toRow m) (toCol m)) as [[|]|] eqn:Hlegal; cbn [mbind option_bind];
    [| intros H; inversion H; subst; exact Hsafe | discriminate].
  unfold movePiece. rewrite Hcell.
  destruct (updateGameStatus
              (movePieceCore g (fromRow m) (fromCol m) (toRow m) (toCol m) piece))
    as [g0|] eqn:Hg0; cbn [mbind option_bind]; [|discriminate].
  intros Hg2.
  destruct (updateGameStatus_preserves _ _ Hg0) as (Hb0 & He0 & Ht0 & _).
  destruct (updateGameStatus_preserves _ _ Hg2) as (Hb2 & He2 & Ht2 & _).
  cbn [flipTurn board enPassantTarget currentTurn] in Hb2, He2, Ht2.
  destruct (movePieceCore_state g (fromRow m) (fromCol m) (toRow m) (toCol m) piece)
    as (_ & _ & Hturn).
  destruct (movePieceCore_safe g _ _ _ _ piece Hwf Hu Hsafe Hcell Hcolor Hlegal)
    as (Hcheck & Hking & Hep).
  unfold kingsSafe, enPassantBehindPawn.
  rewrite Hb2, He2, Ht2, Hb0, He0, Ht0, Hturn, enemyOf_involutive.
  split; [exact Hcheck|]. split; [exact Hking|].
  intros r k Htarget. rewrite directionOf_enemyOf.
  replace (r - - directionOf (currentTurn g)) with (r + directionOf (currentTurn g))
    by lia.
  apply Hep. exact Htarget.
Qed.

Lemma kingsSafe_newGame : kingsSafe (newGame initBoard).
Proof.
  split; [vm_compute; reflexivity|]. split.
  - exists 7, 4, (createPiece King White). vm_compute. auto.
  - intros r k H. vm_compute in H. discriminate.
Qed.

Lemma playMoves_safe (moves : list Move) (g : Game) :
  wfBoard (board g) -> kingsUnique (board g) -> pawnsAtHome (board g) ->
  (gameOver g = true <-> gameState g = GameOver) ->
  currentTurn g = (if Nat.even (length (moveHistory g)) then White else Black) ->
  0 <= whiteScore g -> 0 <= blackScore g ->
  kingsSafe g ->
  exists g', playMoves g moves = Some g' /\ kingsSafe g'.
Proof.
  revert g. induction moves as [|m moves IH];
    intros g Hwf Hk Hhome Hover Hturn Hw Hb Hsafe.
  - exists g. split; [reflexivity|exact Hsafe].
  - destruct (playMove_keeps g m Hwf Hk Hhome Hover Hturn Hw Hb)
      as (g1 & Hg1 & Hwf1 & Hk1 & Hhome1 & Hover1 & Hturn1 & Hw1 & Hb1 & _).
    pose proof (playMove_safe g g1 m Hwf Hk Hsafe Hg1) as Hsafe1.
    destruct (IH g1 Hwf1 Hk1 Hhome1 Hover1 Hturn1 Hw1 Hb1 Hsafe1) as (g2 & Hg2 & Hsafe2).
    exists g2. split; [|exact Hsafe2].
    cbn [playMoves]. rewrite Hg1. exact Hg2.
Qed.

(** X22: the attack test agrees with the rules of movement on occupied
    squares.  On a board of eight rows of eight cells, for a square that
    holds a piece of the other colour, [isSquareAttacked] returns, and it
    answers true exactly when some piece of the attacking colour is allowed
    by [isLegalMoveBasic] to move onto the square, whatever the en-passant
    target is. *)
Theorem attacked_iff_capturable (b : Board) (ep : option (Z * Z)) (row col : Z)
  (byColor : PieceColor) (target : Piece) :
  wfBoard b ->
  getCell b row col = Some target -> color target <> byColor ->
  isSquareAttacked row col byColor b <> None /\
  (isSquareAttacked row col byColor b = Some true <->
   exists r k piece,
     getCell b r k = Some piece /\ color piece = byColor /\
     isLegalMoveBasic b ep r k row col piece = Some true).
Proof.
  intros Hwf Htarget Hcolor.
  assert (Hret : forall rc, In rc squares -> attacksFrom row col byColor b rc <> None).
  { apply isSquareAttacked_returns. intros p Hp Hc.
    rewrite Htarget in Hp. inversion Hp; subst p. contradiction. }
  split; [apply existsM_returns; exact Hret|].
  unfold isSquareAttacked. split.
  - intros H. apply existsM_true_inv in H. destruct H as ([r k] & _ & Hrc).
    pose proof Hrc as Hcell. unfold attacksFrom in Hcell.
    destruct (getCell b r k) as [piece|] eqn:Hpiece; [|discriminate].
    destruct (bool_decide (color piece = byColor)) eqn:Hc; [|discriminate].
    apply bool_decide_eq_true_1 in Hc. clear Hcell.
    exists r, k, piece. split; [exact Hpiece|]. split; [exact Hc|].
    subst byColor.
    apply (attacksFrom_iff_basic b ep row col r k target piece); assumption.
  - intros (r & k & piece & Hpiece & Hc & Hbasic). subst byColor.
    apply existsM_true with (x := (r, k)); [exact Hret| |].
    + apply In_squares. eapply getCell_onBoard; eauto.
    + apply (attacksFrom_iff_basic b ep row col r k target piece); assumption.
Qed.

Lemma attacked_iff_capturable_witness :
  isSquareAttacked 0 0 White twoKingsBoard <> None /\
  (isSquareAttacked 0 0 White twoKingsBoard = Some true <->
   exists r k piece,
     getCell twoKingsBoard r k = Some piece /\ color piece = White /\
     isLegalMoveBasic twoKingsBoard None r k 0 0 piece = Some true).
Proof.
  apply (attacked_iff_capturable twoKingsBoard None 0 0 White (mkPiece King Black true)).
  - apply wfBoardb_sound. vm_compute. reflexivity.
  - vm_compute. reflexivity.
  - cbn. discriminate.
Defined.

(** X23: in a game played from the initial position no king is ever taken
    and nobody leaves their own king in check.  Whatever sequence of
    (from, to) pairs is entered, the handler returns, both kings are still on
    the board, the king of the side that has just moved is not attacked, and
    the en-passant target, when there is one, is the square a pawn of that
    side has just stepped over. *)
Theorem kings_are_never_taken (moves : list Move) :
  exists g,
    playMoves (newGame initBoard) moves = Some g /\
    hasKing White (board g) /\ hasKing Black (board g) /\
    isKingInCheck (enemyOf (currentTurn g)) (board g) = Some false /\
    enPassantBehindPawn g.
Proof.
  destruct (playMoves_safe moves (newGame initBoard)) as (g & Hg & Hcheck & Hking & Hep);
    try (exact wfBoard_initBoard || exact kingsUnique_initBoard
         || exact pawnsAtHome_initBoard || exact kingsSafe_newGame).
  - split; discriminate.
  - reflexivity.
  - cbn. lia.
  - cbn. lia.
  - exists g. split; [exact Hg|].
    pose proof (isKingInCheck_false_hasKing _ _ Hcheck) as Hother.
    assert (Hboth : hasKing White (board g) /\ hasKing Black (board g)).
    { destruct (currentTurn g); cbn in Hother; auto. }
    destruct Hboth. auto.
Qed.

(** X24: the move the legality test tries out is the move [movePiece]
    makes.  For a legal move on a valid position [movePiece] returns, and its
    board is, cell by cell, the board on which [isLegalMoveSimulated] looked
    for check, except that on the destination the simulation has the piece as
    it was and [movePiece] stores it with [hasMoved] set and a pawn on its
    last row promoted; so the mover's king is not in check on the board
    [movePiece] leaves. *)
Theorem movePiece_matches_simulation (g : Game) (fr fc tr tc : Z) (piece : Piece) :
  wfBoard (board g) -> kingsUnique (board g) ->
  getCell (board g) fr fc = Some piece ->
  isLegalMove (board g) (enPassantTarget g) fr fc tr tc = Some true ->
  exists g',
    movePiece g fr fc tr tc = Some g' /\
    (forall r k, (r, k) <> (tr, tc) ->
       getCell (board g') r k
       = getCell (simulatedBoard (cloneBoard (board g)) piece fr fc tr tc) r k) /\
    getCell (simulatedBoard (cloneBoard (board g)) piece fr fc tr tc) tr tc
      = Some piece /\
    getCell (board g') tr tc
      = Some (mkPiece (promotedType piece tr) (color piece) true) /\
    isKingInCheck (color piece) (board g') = Some false.
Proof.
  intros Hwf Hu Hpiece Hlegal.
  destruct (applyMove_returns g fr fc tr tc Hwf Hu Hlegal) as (g1 & Hg1 & _).
  unfold applyMove in Hg1.
  destruct (movePiece g fr fc tr tc) as [g'|] eqn:Hg'; [|discriminate]. clear Hg1.
  exists g'. split; [reflexivity|].
  unfold movePiece in Hg'. rewrite Hpiece in Hg'.
  destruct (updateGameStatus_preserves _ _ Hg') as (-> & _).
  pose proof Hlegal as Hinv. apply isLegalMove_true_inv in Hinv.
  destruct Hinv as (piece' & Hpiece' & _ & _ & Hsim).
  rewrite Hpiece in Hpiece'. inversion Hpiece'; subst piece'. clear Hpiece'.
  apply (isLegalMoveSimulated_true_inv _ _ _ _ _ _ _ Hpiece) in Hsim.
  destruct Hsim as (_ & simPiece & Hsp & Hcheck).
  rewrite cloneBoard_id in Hsp, Hcheck by assumption.
  rewrite Hpiece in Hsp. inversion Hsp; subst simPiece. clear Hsp.
  destruct (isLegalMove_facts _ _ _ _ _ _ Hwf Hlegal)
    as (piece' & Hpiece' & Hfrom & Hto & Hne & Hdest & Hbasic).
  rewrite Hpiece in Hpiece'. inversion Hpiece'; subst piece'. clear Hpiece'.
  rewrite cloneBoard_id by assumption.
  assert (Hfirst : (tr =? fr) && (tc =? fc) = false).
  { destruct (Z.eqb_spec tr fr), (Z.eqb_spec tc fc); try reflexivity.
    subst. congruence. }
  split; [|split; [|split]].
  - intros r k Hrk.
    rewrite (movePieceCore_cells g fr fc tr tc piece Hwf Hpiece Hto Hne Hbasic).
    rewrite (simulatedBoard_cells _ (enPassantTarget g)) by assumption.
    unfold cellAfterMove.
    destruct ((r =? tr) && (k =? tc)) eqn:E; [|reflexivity].
    exfalso. apply Hrk. f_equal; lia.
  - rewrite (simulatedBoard_cells _ (enPassantTarget g)) by assumption.
    unfold cellAfterMove. rewrite Hfirst, !Z.eqb_refl. reflexivity.
  - rewrite (movePieceCore_cells g fr fc tr tc piece Hwf Hpiece Hto Hne Hbasic).
    unfold cellAfterMove. rewrite Hfirst, !Z.eqb_refl. reflexivity.
  - rewrite (isKingInCheck_movePieceCore g fr fc tr tc piece Hwf Hpiece Hto Hne Hbasic).
    exact Hcheck.
Qed.

Lemma movePiece_matches_simulation_witness :
  exists g',
    movePiece (newGame initBoard) 6 4 4 4 = Some g' /\
    (forall r k, (r, k) <> (4, 4) ->
       getCell (board g') r k
       = getCell (simulatedBoard (cloneBoard (board (newGame initBoard)))
                    (createPiece Pawn White) 6 4 4 4) r k) /\
    getCell (simulatedBoard (cloneBoard (board (newGame initBoard)))
               (createPiece Pawn White) 6 4 4 4) 4 4
      = Some (createPiece Pawn White) /\
    getCell (board g') 4 4
      = Some (mkPiece (promotedType (createPiece Pawn White) 4)
                      (color (createPiece Pawn White)) true) /\
    isKingInCheck (color (createPiece Pawn White)) (board g') = Some false.
Proof.
  apply (movePiece_matches_simulation (newGame initBoard) 6 4 4 4
           (createPiece Pawn White)).
  - exact wfBoard_initBoard.
  - exact kingsUnique_initBoard.
  - vm_compute. reflexivity.
  - vm_compute. reflexivity.
Defined.

(** * The scores of the search *)

(** ** The order of the doubles *)

(** The comparisons [<] and [<=] of the scores, from the specification of
    the primitive floats; a NaN compares false with everything. *)

Ltac compare_cases :=
  repeat match goal with
         | H : context [ Pos.compare_cont Eq ?a ?b ] |- _ =>
             change (Pos.compare_cont Eq a b) with (Pos.compare a b) in H
         | |- context [ Pos.compare_cont Eq ?a ?b ] =>
             change (Pos.compare_cont Eq a b) with (Pos.compare a b)
         end;
  repeat match goal with
         | H : context [ Z.compare ?a ?b ] |- _ =>
             destruct (Z.compare_spec a b); cbn in H
         | |- context [ Z.compare ?a ?b ] =>
             destruct (Z.compare_spec a b); cbn
         | H : context [ Pos.compare ?a ?b ] |- _ =>
             destruct (Pos.compare_spec a b); cbn in H
         | |- context [ Pos.compare ?a ?b ] =>
             destruct (Pos.compare_spec a b); cbn
         end;
  try discriminate; try reflexivity; try lia.

Lemma SFcompare_Lt_trans (x y z : spec_float) :
  SFcompare x y = Some Lt -> SFcompare y z = Some Lt -> SFcompare x z = Some Lt.
Proof.
  destruct x as [[|]|[|]| |[|] m1 e1], y as [[|]|[|]| |[|] m2 e2],
    z as [[|]|[|]| |[|] m3 e3]; cbn; intros H1 H2;
    try discriminate; try reflexivity; compare_cases.
Qed.

Lemma SFcompare_Lt_Eq_trans (x y z : spec_float) :
  SFcompare x y = Some Lt -> SFcompare y z = Some Eq -> SFcompare x z = Some Lt.
Proof.
  destruct x as [[|]|[|]| |[|] m1 e1], y as [[|]|[|]| |[|] m2 e2],
    z as [[|]|[|]| |[|] m3 e3]; cbn; intros H1 H2;
    try discriminate; try reflexivity; compare_cases.
Qed.

Lemma SFcompare_Lt_not_le (x y : spec_float) :
  SFcompare x y = Some Lt -> SFleb y x = false.
Proof.
  unfold SFleb.
  destruct x as [[|]|[|]| |[|] m1 e1], y as [[|]|[|]| |[|] m2 e2]; cbn; intros H1;
    try discriminate; try reflexivity; compare_cases.
Qed.

Lemma ltb_Lt (x y : float) :
  PrimFloat.ltb x y = true <-> SFcompare (Prim2SF x) (Prim2SF y) = Some Lt.
Proof.
  rewrite FloatAxioms.ltb_spec. unfold SFltb.
  destruct (SFcompare (Prim2SF x) (Prim2SF y)) as [[| |]|]; split;
    congruence.
Qed.

Lemma leb_cases (x y : float) :
  PrimFloat.leb x y = true <->
  SFcompare (Prim2SF x) (Prim2SF y) = Some Lt \/
  SFcompare (Prim2SF x) (Prim2SF y) = Some Eq.
Proof.
  rewrite FloatAxioms.leb_spec. unfold SFleb.
  destruct (SFcompare (Prim2SF x) (Prim2SF y)) as [[| |]|]; split;
    intros H; try discriminate; auto; destruct H; congruence.
Qed.

Lemma ltb_trans (x y z : float) :
  PrimFloat.ltb x y = true -> PrimFloat.ltb y z = true -> PrimFloat.ltb x z = true.
Proof. rewrite !ltb_Lt. apply SFcompare_Lt_trans. Qed.

Lemma ltb_leb_trans (x y z : float) :
  PrimFloat.ltb x y = true -> PrimFloat.leb y z = true -> PrimFloat.ltb x z = true.
Proof.
  rewrite !ltb_Lt, leb_cases. intros H1 [H2|H2].
  - exact (SFcompare_Lt_trans _ _ _ H1 H2).
  - exact (SFcompare_Lt_Eq_trans _ _ _ H1 H2).
Qed.

Lemma ltb_not_leb (x y : float) :
  PrimFloat.ltb x y = true -> PrimFloat.leb y x = false.
Proof. rewrite ltb_Lt, FloatAxioms.leb_spec. apply SFcompare_Lt_not_le. Qed.

(** ** The loop of [minimax] at a maximizing node *)

Section MaximizingLoop.

Variable recurse : Board -> float -> float -> option (float * option Move).
Variable b : Board.

(** The loop returns when the listing of its moves does, and the moves
    listed are the first of the list. *)
Lemma examinedMoves_of_loop (moves : list Move) (alpha beta best : float)
  (bestMove : option Move) (result : float * option Move) :
  minimaxLoop recurse b moves alpha beta true best bestMove = Some result ->
  exists trace rest,
    examinedMoves recurse b moves alpha beta = Some trace /\
    moves = map fst trace ++ rest.
Proof.
  revert alpha best bestMove.
  induction moves as [|m moves IH]; intros alpha best bestMove H.
  - exists [], []. split; reflexivity.
  - cbn [minimaxLoop examinedMoves] in *.
    destruct (recurse _ alpha beta) as [[evalScore mv]|]; cbn [mbind option_bind] in *;
      [|discriminate].
    cbn [fst] in *.
    destruct (PrimFloat.leb beta (Math_max alpha evalScore)).
    + exists [(m, evalScore)], moves. split; reflexivity.
    + destruct (IH _ _ _ H) as (trace & rest & -> & Hrest).
      exists ((m, evalScore) :: trace), rest. split; [reflexivity|].
      cbn. rewrite <- Hrest. reflexivity.
Qed.

(** While no score is greater than the best so far, the loop keeps its
    best move. *)
Lemma minimaxLoop_keeps (moves : list Move) (alpha beta best : float)
  (bestMove : option Move) (trace : list (Move * float))
  (result : float * option Move) :
  examinedMoves recurse b moves alpha beta = Some trace ->
  minimaxLoop recurse b moves alpha beta true best bestMove = Some result ->
  Forall (fun ms => PrimFloat.ltb best ms.2 = false) trace ->
  result = (best, bestMove).
Proof.
  revert alpha best bestMove trace.
  induction moves as [|m moves IH]; intros alpha best bestMove trace Ht H Hall.
  - cbn in H. congruence.
  - cbn [minimaxLoop examinedMoves] in *.
    destruct (recurse _ alpha beta) as [[evalScore mv]|]; cbn [mbind option_bind] in *;
      [|discriminate].
    cbn [fst] in *.
    destruct (PrimFloat.leb beta (Math_max alpha evalScore)).
    + inversion Ht; subst trace. inversion Hall as [|? ? Hhead _]; subst.
      cbn [snd] in Hhead. rewrite Hhead in H. congruence.
    + destruct (examinedMoves recurse b moves _ beta) as [tail|] eqn:Htail;
        cbn [mbind option_bind] in Ht; [|discriminate].
      inversion Ht; subst trace. inversion Hall as [|? ? Hhead Hrest]; subst.
      cbn [snd] in Hhead. rewrite Hhead in H.
      exact (IH _ _ _ _ Htail H Hrest).
Qed.

(** The result of the loop: either no score was greater than the best so
    far, or the move returned is the first of the moves with the greatest
    score: no earlier score is as great, no later one is greater. *)
Lemma minimaxLoop_greatest (moves : list Move) (alpha beta best : float)
  (bestMove : option Move) (trace : list (Move * float))
  (best' : float) (played : option Move) :
  examinedMoves recurse b moves alpha beta = Some trace ->
  minimaxLoop recurse b moves alpha beta true best bestMove = Some (best', played) ->
  (best' = best /\ played = bestMove /\
   Forall (fun ms => PrimFloat.ltb best ms.2 = false) trace)
  \/
  (exists pre m post,
     trace = pre ++ (m, best') :: post /\ played = Some m /\
     PrimFloat.ltb best best' = true /\
     Forall (fun ms => PrimFloat.leb best' ms.2 = false) pre /\
     Forall (fun ms => PrimFloat.ltb best' ms.2 = false) post).
Proof.
  revert alpha best bestMove trace.
  induction moves as [|m moves IH]; intros alpha best bestMove trace Ht H.
  - cbn in *. inversion Ht; inversion H; subst. left. auto.
  - cbn [minimaxLoop examinedMoves] in *.
    destruct (recurse _ alpha beta) as [[evalScore mv]|]; cbn [mbind option_bind] in *;
      [|discriminate].
    cbn [fst] in *.
    destruct (PrimFloat.leb beta (Math_max alpha evalScore)).
    + inversion Ht; subst trace.
      destruct (PrimFloat.ltb best evalScore) eqn:Hgreater; inversion H; subst.
      * right. exists [], m, []. repeat split; auto.
      * left. repeat split; auto.
    + destruct (examinedMoves recurse b moves _ beta) as [tail|] eqn:Htail;
        cbn [mbind option_bind] in Ht; [|discriminate].
      inversion Ht; subst trace. clear Ht.
      destruct (PrimFloat.ltb best evalScore) eqn:Hgreater.
      * destruct (IH _ _ _ _ Htail H) as [(-> & -> & Hall)|
                                           (pre & m' & post & -> & -> & Hlt & Hpre & Hpost)].
        -- right. exists [], m, tail. repeat split; auto.
        -- right. exists ((m, evalScore) :: pre), m', post.
           split; [reflexivity|]. split; [reflexivity|].
           split; [exact (ltb_trans _ _ _ Hgreater Hlt)|].
           split; [|exact Hpost].
           constructor; [|exact Hpre]. cbn [snd]. now apply ltb_not_leb.
      * destruct (IH _ _ _ _ Htail H) as [(-> & -> & Hall)|
                                           (pre & m' & post & -> & -> & Hlt & Hpre & Hpost)].
        -- left. repeat split; auto.
        -- right. exists ((m, evalScore) :: pre), m', post.
           split; [reflexivity|]. split; [reflexivity|].
           split; [exact Hlt|]. split; [|exact Hpost].
           constructor; [|exact Hpre]. cbn [snd].
           destruct (PrimFloat.leb best' evalScore) eqn:Hle; [|reflexivity].
           rewrite (ltb_leb_trans _ _ _ Hlt Hle) in Hgreater. discriminate.
Qed.

(** Every score listed is what the recursive call returned for the board
    after the move, under some window with the same [beta]. *)
Lemma examinedMoves_scores (moves : list Move) (alpha beta : float)
  (trace : list (Move * float)) :
  examinedMoves recurse b moves alpha beta = Some trace ->
  Forall (fun ms =>
            exists a result,
              recurse (simulateMove (cloneBoard b) (fromRow ms.1) (fromCol ms.1)
                                    (toRow ms.1) (toCol ms.1)) a beta = Some result /\
              result.1 = ms.2) trace.
Proof.
  revert alpha trace. induction moves as [|m moves IH]; intros alpha trace H.
  - inversion H. constructor.
  - cbn [examinedMoves] in H.
    destruct (recurse _ alpha beta) as [[evalScore mv]|] eqn:Hm;
      cbn [mbind option_bind] in H; [|discriminate].
    cbn [fst] in H.
    destruct (PrimFloat.leb beta (Math_max alpha evalScore)).
    + inversion H; subst trace. constructor; [|constructor].
      exists alpha, (evalScore, mv). split; [exact Hm|reflexivity].
    + destruct (examinedMoves recurse b moves _ beta) as [tail|] eqn:Htail;
        cbn [mbind option_bind] in H; [|discriminate].
      inversion H; subst trace. constructor; [|exact (IH _ _ Htail)].
      exists alpha, (evalScore, mv). split; [exact Hm|reflexivity].
Qed.

End MaximizingLoop.

(** ** The search at depth 1 *)

(** C9, as the code has it.  On a valid position in which exactly one legal
    move of Black lands on an occupied square (the captures the ordering sees;
    a capture en passant lands on an empty square), the ordering puts that
    move at the head of the list, so the search at depth 1 looks at it
    first.  The search returns, and [aiMove] with depth 1 keeps its move.
    That move is the first of the moves looked at that has the greatest
    score (the value [quiesce] returns for the board after the move, under
    the window of that moment): its score is greater than -100000, no move
    looked at before it has a score as great, and none after it has a greater
    one.  So the capture is played exactly when its score is greater than
    -100000 and no move looked at after it has a greater score. *)
Theorem depth1_search_plays_greatest_score
  (arraySort : (Move -> Move -> Z) -> list Move -> list Move)
  (ep : option (Z * Z)) (fuel : nat) (b : Board) (moves : list Move) (m : Move) :
  sortsMoves arraySort ->
  wfBoard b -> kingsUnique b -> (pieceCount b < fuel)%nat ->
  getAllLegalMoves b ep Black = Some moves ->
  In m moves -> isCapture b m = true ->
  (forall m', In m' moves -> m' <> m -> isCapture b m' = false) ->
  exists rest score later best played,
    orderedMoves arraySort ep b true = Some (m :: rest) /\
    Permutation (m :: rest) moves /\
    depth1Scores arraySort ep fuel b (m :: rest) = Some ((m, score) :: later) /\
    Forall (fun ms =>
              exists alpha,
                quiesce arraySort ep fuel
                        (simulateMove (cloneBoard b) (fromRow ms.1) (fromCol ms.1)
                                      (toRow ms.1) (toCol ms.1))
                        alpha 100000%float false = Some ms.2)
           ((m, score) :: later) /\
    minimax arraySort ep fuel b 1 (-100000)%float 100000%float true
      = Some (best, played) /\
    aiBestMove arraySort ep fuel b 1 = Some played /\
    ((played = None /\
      Forall (fun ms => PrimFloat.ltb (-100000)%float ms.2 = false)
             ((m, score) :: later))
     \/
     (exists pre m' post,
        (m, score) :: later = pre ++ (m', best) :: post /\ played = Some m' /\
        PrimFloat.ltb (-100000)%float best = true /\
        Forall (fun ms => PrimFloat.leb best ms.2 = false) pre /\
        Forall (fun ms => PrimFloat.ltb best ms.2 = false) post)) /\
    (played = Some m <->
     PrimFloat.ltb (-100000)%float score = true /\
     Forall (fun ms => PrimFloat.ltb score ms.2 = false) later).
Proof.
  intros Hsort Hwf Hk Hfuel Hmoves Hin Hcap Hothers.
  destruct (capture_is_searched_first arraySort ep fuel b moves m
              (-100000)%float 100000%float Hsort Hmoves Hin Hcap Hothers)
    as (rest & Hordered & Hperm & Hloop).
  set (recurse := fun (cloneB : Board) (a be : float) =>
                    minimax arraySort ep fuel cloneB 0 a be false) in *.
  destruct (minimax arraySort ep fuel b 1 (-100000)%float 100000%float true)
    as [[best played]|] eqn:Hresult;
    [|now apply (minimax_returns arraySort ep Hsort fuel 1 b _ _ true Hwf Hk Hfuel)
        in Hresult].
  symmetry in Hloop.
  destruct (examinedMoves_of_loop recurse b _ _ _ _ _ _ Hloop)
    as (trace & rest' & Htrace & Hprefix).
  assert (Hhead : exists score later, trace = (m, score) :: later).
  { cbn [examinedMoves] in Htrace.
    destruct (recurse _ _ _) as [[evalScore mv]|]; cbn [mbind option_bind] in Htrace;
      [|discriminate].
    destruct (PrimFloat.leb _ _); [inversion Htrace; eauto|].
    destruct (examinedMoves _ _ _ _ _); cbn [mbind option_bind] in Htrace;
      inversion Htrace; eauto. }
  destruct Hhead as (score & later & ->).
  exists rest, score, later, best, played.
  split; [exact Hordered|]. split; [exact Hperm|]. split; [exact Htrace|].
  split.
  { pose proof (examinedMoves_scores recurse b _ _ _ _ Htrace) as Hscores.
    eapply List.Forall_impl; [|exact Hscores].
    intros [m' s] (a & result & Hcall & Hs). cbn [fst snd] in *.
    exists a. unfold recurse in Hcall. cbn [minimax] in Hcall.
    destruct (orderedMoves arraySort ep _ false) as [ordered|];
      cbn [mbind option_bind] in Hcall; [|discriminate].
    destruct (quiesce arraySort ep fuel _ a _ false) as [q|];
      cbn [mbind option_bind] in Hcall; [|destruct ordered; discriminate].
    assert (result = (q, None)) as -> by (destruct ordered; congruence).
    cbn [fst] in Hs. congruence. }
  split; [reflexivity|]. split.
  { unfold aiBestMove. cbn [deepen]. rewrite Hresult. cbn [mbind option_bind snd].
    destruct played; reflexivity. }
  pose proof (minimaxLoop_greatest recurse b _ _ _ _ _ _ _ _ Htrace Hloop) as Hspec.
  split.
  { destruct Hspec as [(_ & -> & Hall)|Hspec]; [left; auto|right; exact Hspec]. }
  assert (Hnodup : List.NoDup (map fst ((m, score) :: later))).
  { assert (Hall : List.NoDup (m :: rest)).
    { apply (Permutation_NoDup (Permutation_sym Hperm)).
      apply NoDup_ListNoDup.
      apply (sublist_NoDup _ (candidateMoves b Black)).
      - apply NoDup_ListNoDup, NoDup_candidateMoves.
      - exact (filterM_sublist _ _ _ Hmoves). }
    rewrite Hprefix in Hall. exact (List.NoDup_app_remove_r _ _ Hall). }
  split.
  - intros ->.
    destruct Hspec as [(_ & Hnone & _)|(pre & m' & post & Heq & Hplayed & Hlt & _ & Hpost)];
      [discriminate|].
    inversion Hplayed; subst m'. clear Hplayed.
    destruct pre as [|[m0 s0] pre].
    + cbn [app] in Heq. inversion Heq; subst. auto.
    + exfalso. cbn [app] in Heq. inversion Heq; subst m0 s0 later.
      cbn [map fst] in Hnodup. inversion Hnodup as [|? ? Hnotin _]; subst.
      apply Hnotin. rewrite map_app. apply in_or_app. right. left. reflexivity.
  - intros [Hlt Hlater].
    cbn [minimaxLoop examinedMoves] in Hloop, Htrace.
    destruct (recurse _ _ _) as [[evalScore mv]|]; cbn [mbind option_bind] in Hloop, Htrace;
      [|discriminate].
    cbn [fst] in Hloop, Htrace.
    destruct (PrimFloat.leb _ _).
    + inversion Htrace; subst. rewrite Hlt in Hloop. congruence.
    + destruct (examinedMoves recurse b rest _ _) as [tail|] eqn:Htail;
        cbn [mbind option_bind] in Htrace; [|discriminate].
      inversion Htrace; subst evalScore tail. rewrite Hlt in Hloop.
      pose proof (minimaxLoop_keeps recurse b _ _ _ _ _ _ _ Htail Hloop Hlater) as Heq.
      congruence.
Qed.

Lemma depth1_search_plays_greatest_score_witness :
  exists rest score later best played,
    orderedMoves insertionSort None protectedPawnBoard true
      = Some (mkMove 2 3 4 4 :: rest) /\
    Permutation (mkMove 2 3 4 4 :: rest) protectedPawnMoves /\
    depth1Scores insertionSort None 65 protectedPawnBoard (mkMove 2 3 4 4 :: rest)
      = Some ((mkMove 2 3 4 4, score) :: later) /\
    Forall (fun ms =>
              exists alpha,
                quiesce insertionSort None 65
                        (simulateMove (cloneBoard protectedPawnBoard)
                                      (fromRow ms.1) (fromCol ms.1)
                                      (toRow ms.1) (toCol ms.1))
                        alpha 100000%float false = Some ms.2)
           ((mkMove 2 3 4 4, score) :: later) /\
    minimax insertionSort None 65 protectedPawnBoard 1 (-100000)%float 100000%float true
      = Some (best, played) /\
    aiBestMove insertionSort None 65 protectedPawnBoard 1 = Some played /\
    ((played = None /\
      Forall (fun ms => PrimFloat.ltb (-100000)%float ms.2 = false)
             ((mkMove 2 3 4 4, score) :: later))
     \/
     (exists pre m' post,
        (mkMove 2 3 4 4, score) :: later = pre ++ (m', best) :: post /\
        played = Some m' /\
        PrimFloat.ltb (-100000)%float best = true /\
        Forall (fun ms => PrimFloat.leb best ms.2 = false) pre /\
        Forall (fun ms => PrimFloat.ltb best ms.2 = false) post)) /\
    (played = Some (mkMove 2 3 4 4) <->
     PrimFloat.ltb (-100000)%float score = true /\
     Forall (fun ms => PrimFloat.ltb score ms.2 = false) later).
Proof.
  apply (depth1_search_plays_greatest_score insertionSort None 65 protectedPawnBoard
           protectedPawnMoves (mkMove 2 3 4 4)).
  - exact insertionSort_sortsMoves.
  - apply wfBoardb_sound. vm_compute. reflexivity.
  - apply kingsUniqueb_sound; [apply wfBoardb_sound|]; vm_compute; reflexivity.
  - vm_compute. lia.
  - vm_compute. reflexivity.
  - unfold protectedPawnMoves. simpl. auto 20.
  - reflexivity.
  - intros m' Hin Hne. unfold protectedPawnMoves in Hin. simpl in Hin.
    repeat (destruct Hin as [<- | Hin]; [first [reflexivity | congruence] |]).
    contradiction.
Defined.

(** * The evaluation of the mirrored board *)

(** ** Negation and rounding *)

(** Rounding looks at the magnitude only: the sign is put on the result. *)
Lemma binary_round_aux_opp (prec emax : Z) (s : bool) (m e : Z) (l : location) :
  SFopp (binary_round_aux prec emax s m e l) = binary_round_aux prec emax (negb s) m e l.
Proof.
  unfold binary_round_aux.
  destruct (shr_fexp prec emax m e l) as [mrs' e'].
  destruct (shr_fexp prec emax _ e' loc_Exact) as [mrs'' e''].
  destruct (shr_m mrs''); [reflexivity| |reflexivity].
  destruct (e'' <=? emax - prec)%Z; reflexivity.
Qed.

Lemma binary_round_opp (prec emax : Z) (s : bool) (m : positive) (e : Z) :
  SFopp (binary_round prec emax s m e) = binary_round prec emax (negb s) m e.
Proof.
  unfold binary_round.
  destruct (shl_align m e _) as [mz ez]. apply binary_round_aux_opp.
Qed.

Lemma binary_normalize_opp (prec emax : Z) (m e : Z) :
  negatesSF (binary_normalize prec emax m e false)
            (binary_normalize prec emax (- m) e false).
Proof.
  destruct m as [|p|p]; cbn [Z.opp binary_normalize].
  - right. split; reflexivity.
  - left. rewrite binary_round_opp. reflexivity.
  - left. rewrite binary_round_opp. reflexivity.
Qed.

Lemma cond_Zopp_negb (s : bool) (m : Z) : cond_Zopp (negb s) m = - cond_Zopp s m.
Proof. destruct s; cbn; lia. Qed.

Ltac destruct_signs :=
  repeat match goal with
         | s : bool |- _ => destruct s
         end.

Ltac settle_case :=
  cbn; first [left; reflexivity | right; split; reflexivity].

(** [(-x) - t] is the negation of [x + t], and [(-x) + t] that of [x - t]. *)
Lemma SFadd_negates (prec emax : Z) (x y t : spec_float) :
  negatesSF x y -> negatesSF (SFadd prec emax x t) (SFsub prec emax y t).
Proof.
  intros [->|[Hx Hy]].
  - destruct x as [sx|sx| |sx mx ex], t as [st|st| |st mt et];
      try (destruct_signs; settle_case).
    cbn [SFadd SFsub SFopp]. rewrite cond_Zopp_negb.
    match goal with
    | |- negatesSF (binary_normalize _ _ ?u _ _) (binary_normalize _ _ ?v _ _) =>
        replace v with (- u) by lia
    end.
    apply binary_normalize_opp.
  - destruct x as [sx|sx| |sx mx ex]; try discriminate.
    destruct y as [sy|sy| |sy my ey]; try discriminate.
    destruct t as [st|st| |st mt et].
    + destruct_signs; settle_case.
    + destruct_signs; settle_case.
    + settle_case.
    + destruct_signs; settle_case.
Qed.

Lemma SFsub_negates (prec emax : Z) (x y t : spec_float) :
  negatesSF x y -> negatesSF (SFsub prec emax x t) (SFadd prec emax y t).
Proof.
  intros [->|[Hx Hy]].
  - destruct x as [sx|sx| |sx mx ex], t as [st|st| |st mt et];
      try (destruct_signs; settle_case).
    cbn [SFadd SFsub SFopp]. rewrite cond_Zopp_negb.
    match goal with
    | |- negatesSF (binary_normalize _ _ ?u _ _) (binary_normalize _ _ ?v _ _) =>
        replace v with (- u) by lia
    end.
    apply binary_normalize_opp.
  - destruct x as [sx|sx| |sx mx ex]; try discriminate.
    destruct y as [sy|sy| |sy my ey]; try discriminate.
    destruct t as [st|st| |st mt et].
    + destruct_signs; settle_case.
    + destruct_signs; settle_case.
    + settle_case.
    + destruct_signs; settle_case.
Qed.

Lemma SFcompare_refl (x : spec_float) :
  x <> S754_nan -> SFcompare x x = Some Eq.
Proof.
  destruct x as [[|]|[|]| |[|] m e]; cbn; intros H; try reflexivity; try congruence.
  - rewrite Z.compare_refl.
    change (Pos.compare_cont Eq m m) with (Pos.compare m m).
    rewrite Pos.compare_refl. reflexivity.
  - rewrite Z.compare_refl.
    change (Pos.compare_cont Eq m m) with (Pos.compare m m).
    rewrite Pos.compare_refl. reflexivity.
Qed.

(** The relation on the specification gives the test on the doubles. *)
Lemma negatesSF_isNegationOf (x y : float) :
  negatesSF (Prim2SF x) (Prim2SF y) -> isNegationOf x y = true.
Proof.
  unfold isNegationOf, PrimFloat.is_nan.
  rewrite !FloatAxioms.eqb_spec, FloatAxioms.opp_spec. unfold SFeqb.
  intros [Hy|[Hx Hy]].
  - rewrite Hy.
    destruct (Prim2SF x) as [sx|sx| |sx mx ex] eqn:Hx.
    + cbn. reflexivity.
    + cbn. destruct sx; reflexivity.
    + cbn. reflexivity.
    + rewrite SFcompare_refl by (cbn; discriminate). reflexivity.
  - destruct (Prim2SF x) as [sx|sx| |sx mx ex]; try discriminate.
    destruct (Prim2SF y) as [sy|sy| |sy my ey]; try discriminate.
    reflexivity.
Qed.

(** ** The general evaluation *)

(** With the doubles and the squares in the order of the loop, the general
    evaluation is [staticEvaluation]. *)
Lemma evalLoop_tally (b : Board) (l : list (Z * Z)) (acc : EvalAcc)
  (t : Tally doubles) :
  score acc = total t -> whiteBishops acc = whiteCount t ->
  blackBishops acc = blackCount t ->
  score (fold_left (evalSquare b) l acc) = total (fold_left (tallySquare doubles b) l t) /\
  whiteBishops (fold_left (evalSquare b) l acc)
    = whiteCount (fold_left (tallySquare doubles b) l t) /\
  blackBishops (fold_left (evalSquare b) l acc)
    = blackCount (fold_left (tallySquare doubles b) l t).
Proof.
  revert acc t. induction l as [|rc l IH]; intros acc t Hs Hw Hb; [auto|].
  cbn [fold_left]. apply IH; unfold evalSquare, tallySquare;
    destruct (getCell b rc.1 rc.2) as [piece|]; try assumption;
    destruct (bool_decide (color piece = Black)); cbn;
    rewrite ?Hs, ?Hw, ?Hb; reflexivity.
Qed.

Lemma staticEvaluation_evaluationWith (b : Board) :
  staticEvaluation b = evaluationWith doubles squares false b.
Proof.
  unfold staticEvaluation, evaluationWith, evalLoop.
  destruct (evalLoop_tally b squares (mkEvalAcc (floatOfZ 0) 0 0)
              (mkTally (A := doubles) (floatOfZ 0) 0 0) eq_refl eq_refl eq_refl)
    as (Hs & Hw & Hb).
  change (numZero doubles) with (floatOfZ 0).
  generalize dependent (fold_left (tallySquare doubles b) squares
                          (mkTally (A := doubles) (floatOfZ 0) 0 0)).
  generalize (fold_left (evalSquare b) squares (mkEvalAcc (floatOfZ 0) 0 0)).
  intros acc t Hs Hw Hb. rewrite Hs, Hw, Hb. reflexivity.
Qed.

(** ** The mirrored board, step by step *)

Section Mirrored.

(** Two arithmetics and a relation between their numbers that holds of the
    two zeros and is kept when one side adds what the other subtracts. *)
Variables A A' : Arithmetic.
Variable opposite : num A -> num A' -> Prop.

Hypothesis opposite_zero : opposite (numZero A) (numZero A').
Hypothesis opposite_term_add : forall x y p r c,
  onBoard r c -> opposite x y ->
  opposite (numAdd A x (numTerm A p (7 - r) c))
           (numSub A' y (numTerm A' (swapColor p) r c)).
Hypothesis opposite_term_sub : forall x y p r c,
  onBoard r c -> opposite x y ->
  opposite (numSub A x (numTerm A p (7 - r) c))
           (numAdd A' y (numTerm A' (swapColor p) r c)).
Hypothesis opposite_half_add : forall x y,
  opposite x y -> opposite (numAdd A x (numHalf A)) (numSub A' y (numHalf A')).
Hypothesis opposite_half_sub : forall x y,
  opposite x y -> opposite (numSub A x (numHalf A)) (numAdd A' y (numHalf A')).
Hypothesis opposite_threeQuarters_add : forall x y,
  opposite x y ->
  opposite (numAdd A x (numThreeQuarters A)) (numSub A' y (numThreeQuarters A')).
Hypothesis opposite_threeQuarters_sub : forall x y,
  opposite x y ->
  opposite (numSub A x (numThreeQuarters A)) (numAdd A' y (numThreeQuarters A')).

Variable b : Board.
Hypothesis Hwf : wfBoard b.
Hypothesis Hk : kingsUnique b.

Lemma tallySquare_mirrored (r c : Z) (t : Tally A) (t' : Tally A') :
  onBoard r c ->
  opposite (total t) (total t') ->
  whiteCount t = blackCount t' -> blackCount t = whiteCount t' ->
  opposite (total (tallySquare A b t (7 - r, c)))
           (total (tallySquare A' (mirrorBoard b) t' (r, c))) /\
  whiteCount (tallySquare A b t (7 - r, c))
    = blackCount (tallySquare A' (mirrorBoard b) t' (r, c)) /\
  blackCount (tallySquare A b t (7 - r, c))
    = whiteCount (tallySquare A' (mirrorBoard b) t' (r, c)).
Proof.
  intros Hon Ho Hw Hb. unfold tallySquare. cbn [fst snd].
  rewrite (getCell_mirrorBoard_onBoard b r c Hon).
  destruct (getCell b (7 - r) c) as [[ty co mv]|]; cbn [option_map]; [|auto].
  destruct co; cbn [swapColor color type enemyOf hasMoved].
  - rewrite (bool_decide_eq_false_2 (White = Black)) by discriminate.
    rewrite (bool_decide_eq_true_2 (Black = Black)) by reflexivity.
    cbn [total whiteCount blackCount]. split; [|split].
    + apply (opposite_term_sub _ _ (mkPiece ty White mv)); assumption.
    + rewrite Hw. reflexivity.
    + exact Hb.
  - rewrite (bool_decide_eq_false_2 (White = Black)) by discriminate.
    rewrite (bool_decide_eq_true_2 (Black = Black)) by reflexivity.
    cbn [total whiteCount blackCount]. split; [|split].
    + apply (opposite_term_add _ _ (mkPiece ty Black mv)); assumption.
    + exact Hw.
    + rewrite Hb. reflexivity.
Qed.

Lemma tally_mirrored (l : list (Z * Z)) (t : Tally A) (t' : Tally A') :
  (forall x, In x l -> In x squares) ->
  opposite (total t) (total t') ->
  whiteCount t = blackCount t' -> blackCount t = whiteCount t' ->
  opposite (total (fold_left (tallySquare A b) (map mirrorSquare l) t))
           (total (fold_left (tallySquare A' (mirrorBoard b)) l t')) /\
  whiteCount (fold_left (tallySquare A b) (map mirrorSquare l) t)
    = blackCount (fold_left (tallySquare A' (mirrorBoard b)) l t') /\
  blackCount (fold_left (tallySquare A b) (map mirrorSquare l) t)
    = whiteCount (fold_left (tallySquare A' (mirrorBoard b)) l t').
Proof.
  revert t t'. induction l as [|[r c] l IH]; intros t t' Hin Ho Hw Hb; [auto|].
  cbn [map fold_left].
  assert (Hon : onBoard r c) by (apply In_squares, Hin; left; reflexivity).
  assert (Hrest : forall x, In x l -> In x squares) by (intros x Hx; apply Hin; now right).
  change (mirrorSquare (r, c)) with (7 - r, c).
  destruct (tallySquare_mirrored r c t t' Hon Ho Hw Hb) as (Ho1 & Hw1 & Hb1).
  apply IH; assumption.
Qed.

(** The evaluation of the mirrored board, and the evaluation of the board
    with its steps in the mirrored order. *)
Lemma evaluationWith_mirrored :
  exists x y,
    evaluationWith A mirroredSquares true b = Some x /\
    evaluationWith A' squares false (mirrorBoard b) = Some y /\
    opposite x y.
Proof.
  unfold evaluationWith, mirroredSquares.
  destruct (tally_mirrored squares (mkTally (numZero A) 0 0) (mkTally (numZero A') 0 0))
    as (Ho & Hw & Hb); try reflexivity; [auto|exact opposite_zero|].
  rewrite (mirror_isKingInCheck b Black Hwf Hk : isKingInCheck White (mirrorBoard b) = _).
  rewrite (mirror_isKingInCheck b White Hwf Hk : isKingInCheck Black (mirrorBoard b) = _).
  rewrite <- Hw, <- Hb.
  set (t := fold_left (tallySquare A b) (map mirrorSquare squares) _) in *.
  set (t' := fold_left (tallySquare A' (mirrorBoard b)) squares _) in *.
  pose proof (isKingInCheck_returns Black b) as Hblack.
  pose proof (isKingInCheck_returns White b) as Hwhite.
  destruct (isKingInCheck Black b) as [blackInCheck|]; [|congruence].
  destruct (isKingInCheck White b) as [whiteInCheck|]; [|congruence].
  cbn [mbind option_bind].
  eexists. eexists. split; [reflexivity|]. split; [reflexivity|].
  assert (H1 : opposite
                 (if blackCount t >=? 2 then numAdd A (total t) (numHalf A) else total t)
                 (if blackCount t >=? 2 then numSub A' (total t') (numHalf A')
                  else total t')).
  { destruct (blackCount t >=? 2); [now apply opposite_half_add|exact Ho]. }
  revert H1. generalize (if blackCount t >=? 2 then numAdd A (total t) (numHalf A)
                         else total t).
  generalize (if blackCount t >=? 2 then numSub A' (total t') (numHalf A')
              else total t').
  intros y1 x1 H1.
  assert (H2 : opposite (if whiteCount t >=? 2 then numSub A x1 (numHalf A) else x1)
                        (if whiteCount t >=? 2 then numAdd A' y1 (numHalf A') else y1)).
  { destruct (whiteCount t >=? 2); [now apply opposite_half_sub|exact H1]. }
  revert H2. generalize (if whiteCount t >=? 2 then numSub A x1 (numHalf A) else x1).
  generalize (if whiteCount t >=? 2 then numAdd A' y1 (numHalf A') else y1).
  intros y2 x2 H2.
  destruct blackInCheck, whiteInCheck; auto.
Qed.

End Mirrored.

(** ** The two arithmetics *)

Lemma onBoard_mirror (r c : Z) : onBoard r c -> onBoard (7 - r) c.
Proof. unfold onBoard, BOARD_SIZE. lia. Qed.

Lemma pieceTerm_swapColor (p : Piece) (r c : Z) :
  onBoard r c -> pieceTerm (swapColor p) r c = pieceTerm p (7 - r) c.
Proof.
  intros Hon. rewrite <- (pieceTerm_mirror p (7 - r) c (onBoard_mirror r c Hon)).
  replace (7 - (7 - r)) with r by lia. reflexivity.
Qed.

Lemma getPieceSquareBonus_swapColor (p : Piece) (r c : Z) :
  onBoard r c ->
  getPieceSquareBonus (swapColor p) r c = getPieceSquareBonus p (7 - r) c.
Proof.
  intros [Hr Hc]. unfold BOARD_SIZE in *.
  assert (r = 0 \/ r = 1 \/ r = 2 \/ r = 3 \/ r = 4 \/ r = 5 \/ r = 6 \/ r = 7)
    as Hr' by lia.
  assert (c = 0 \/ c = 1 \/ c = 2 \/ c = 3 \/ c = 4 \/ c = 5 \/ c = 6 \/ c = 7)
    as Hc' by lia.
  destruct p as [t k m].
  repeat (destruct Hr' as [-> | Hr']); try subst r;
    repeat (destruct Hc' as [-> | Hc']); try subst c;
    destruct t, k; reflexivity.
Qed.

Lemma pieceValue_swapColor (p : Piece) : pieceValue (swapColor p) = pieceValue p.
Proof. reflexivity. Qed.

(** In doubles: the evaluation of the mirrored board is the negation of the
    evaluation with the steps in the mirrored order. *)
Lemma doubles_mirrored (b : Board) :
  wfBoard b -> kingsUnique b ->
  exists x y,
    evaluationWith doubles mirroredSquares true b = Some x /\
    evaluationWith doubles squares false (mirrorBoard b) = Some y /\
    negatesSF (Prim2SF x) (Prim2SF y).
Proof.
  intros Hwf Hk.
  apply (evaluationWith_mirrored doubles doubles
           (fun x y => negatesSF (Prim2SF x) (Prim2SF y))); try assumption.
  - right. split; vm_compute; reflexivity.
  - intros x y p r c Hon H. cbn [numAdd numSub numTerm doubles].
    rewrite (pieceTerm_swapColor p r c Hon).
    rewrite FloatAxioms.add_spec, FloatAxioms.sub_spec. now apply SFadd_negates.
  - intros x y p r c Hon H. cbn [numAdd numSub numTerm doubles].
    rewrite (pieceTerm_swapColor p r c Hon).
    rewrite FloatAxioms.add_spec, FloatAxioms.sub_spec. now apply SFsub_negates.
  - intros x y H. cbn [numAdd numSub numHalf doubles].
    rewrite FloatAxioms.add_spec, FloatAxioms.sub_spec. now apply SFadd_negates.
  - intros x y H. cbn [numAdd numSub numHalf doubles].
    rewrite FloatAxioms.add_spec, FloatAxioms.sub_spec. now apply SFsub_negates.
  - intros x y H. cbn [numAdd numSub numThreeQuarters doubles].
    rewrite FloatAxioms.add_spec, FloatAxioms.sub_spec. now apply SFadd_negates.
  - intros x y H. cbn [numAdd numSub numThreeQuarters doubles].
    rewrite FloatAxioms.add_spec, FloatAxioms.sub_spec. now apply SFsub_negates.
Qed.

(** In exact arithmetic: the same, with the exact negation. *)
Lemma twentieths_mirrored (b : Board) :
  wfBoard b -> kingsUnique b ->
  exists x y : Z,
    evaluationWith twentieths mirroredSquares true b = Some x /\
    evaluationWith twentieths squares false (mirrorBoard b) = Some y /\
    y = - x.
Proof.
  intros Hwf Hk.
  apply (evaluationWith_mirrored twentieths twentieths (fun x y : Z => y = - x));
    try assumption; cbn [num numZero numAdd numSub numTerm numHalf numThreeQuarters
                           twentieths]; try (intros; lia).
  - intros x y p r c Hon ->.
    rewrite (getPieceSquareBonus_swapColor p r c Hon), pieceValue_swapColor. lia.
  - intros x y p r c Hon ->.
    rewrite (getPieceSquareBonus_swapColor p r c Hon), pieceValue_swapColor. lia.
Qed.

(** In exact arithmetic two steps of the loop can be exchanged. *)
Lemma tallySquare_twentieths_comm (b : Board) (t : Tally twentieths) (x y : Z * Z) :
  tallySquare twentieths b (tallySquare twentieths b t x) y
  = tallySquare twentieths b (tallySquare twentieths b t y) x.
Proof.
  unfold tallySquare.
  destruct (getCell b x.1 x.2) as [p|], (getCell b y.1 y.2) as [q|]; try reflexivity.
  cbn [num numAdd numSub numTerm twentieths].
  destruct (bool_decide (color p = Black)), (bool_decide (color q = Black)),
    (bool_decide (type p = Bishop)), (bool_decide (type q = Bishop));
    cbn [total whiteCount blackCount]; f_equal; lia.
Qed.

Lemma tally_twentieths_Permutation (b : Board) (l l' : list (Z * Z))
  (t : Tally twentieths) :
  Permutation l l' ->
  fold_left (tallySquare twentieths b) l t = fold_left (tallySquare twentieths b) l' t.
Proof.
  intros Hperm. revert t.
  induction Hperm as [|x l l' _ IH|x y l|l l' l'' _ IH1 _ IH2]; intros t; cbn [fold_left].
  - reflexivity.
  - apply IH.
  - rewrite tallySquare_twentieths_comm. reflexivity.
  - rewrite IH1. apply IH2.
Qed.

(** In exact arithmetic the order of the steps does not matter. *)
Lemma twentieths_any_order (b : Board) (order : list (Z * Z)) (blackFirst : bool) :
  Permutation order squares ->
  evaluationWith twentieths order blackFirst b
  = evaluationWith twentieths squares false b.
Proof.
  intros Hperm. unfold evaluationWith.
  rewrite (tally_twentieths_Permutation b order squares _ Hperm).
  generalize (fold_left (tallySquare twentieths b) squares
                (mkTally (A := twentieths) (numZero twentieths) 0 0)).
  intros t. cbn [num numAdd numSub numHalf numThreeQuarters twentieths].
  pose proof (isKingInCheck_returns Black b) as Hblack.
  pose proof (isKingInCheck_returns White b) as Hwhite.
  destruct (isKingInCheck Black b) as [blackInCheck|]; [|congruence].
  destruct (isKingInCheck White b) as [whiteInCheck|]; [|congruence].
  destruct blackFirst; cbn [mbind option_bind]; [|reflexivity].
  f_equal.
  destruct (blackCount t >=? 2), (whiteCount t >=? 2), blackInCheck, whiteInCheck; lia.
Qed.

(** C8, as the code has it.  The steps of [staticEvaluation] can be taken
    in any arithmetic and any order of the squares; with the doubles and the
    order of the loop they give [staticEvaluation].  For a board of eight
    rows of eight cells with at most one king of each colour and its mirror
    image (colours swapped, rows reversed): in doubles, the evaluation of the
    mirror image is the negation of the evaluation of the board with the
    steps in the mirrored order (the rows from the last to the first, the
    adjustments for Black before those for White); in exact arithmetic the
    order of the steps does not change the evaluation, and the evaluation of
    the mirror image is exactly minus the evaluation of the board. *)
Theorem staticEvaluation_mirror_negates (b : Board) :
  wfBoard b -> kingsUnique b ->
  (forall b0, staticEvaluation b0 = evaluationWith doubles squares false b0) /\
  Permutation mirroredSquares squares /\
  (exists x y,
     evaluationWith doubles mirroredSquares true b = Some x /\
     staticEvaluation (mirrorBoard b) = Some y /\
     isNegationOf x y = true) /\
  (forall order blackFirst,
     Permutation order squares ->
     evaluationWith twentieths order blackFirst b
     = evaluationWith twentieths squares false b) /\
  (exists x : Z,
     evaluationWith twentieths squares false b = Some x /\
     evaluationWith twentieths squares false (mirrorBoard b) = Some (- x)).
Proof.
  intros Hwf Hk.
  split; [exact staticEvaluation_evaluationWith|].
  split; [exact Permutation_mirrored_squares|].
  split.
  { destruct (doubles_mirrored b Hwf Hk) as (x & y & Hx & Hy & Hneg).
    exists x, y. split; [exact Hx|].
    split; [rewrite staticEvaluation_evaluationWith; exact Hy|].
    now apply negatesSF_isNegationOf. }
  split; [intros order blackFirst; apply twentieths_any_order|].
  destruct (twentieths_mirrored b Hwf Hk) as (x & y & Hx & Hy & ->).
  exists x. split; [|exact Hy].
  rewrite <- Hx. symmetry.
  apply twentieths_any_order. exact Permutation_mirrored_squares.
Qed.

Lemma staticEvaluation_mirror_negates_witness :
  (forall b0, staticEvaluation b0 = evaluationWith doubles squares false b0) /\
  Permutation mirroredSquares squares /\
  (exists x y,
     evaluationWith doubles mirroredSquares true roundingBoard = Some x /\
     staticEvaluation (mirrorBoard roundingBoard) = Some y /\
     isNegationOf x y = true) /\
  (forall order blackFirst,
     Permutation order squares ->
     evaluationWith twentieths order blackFirst roundingBoard
     = evaluationWith twentieths squares false roundingBoard) /\
  (exists x : Z,
     evaluationWith twentieths squares false roundingBoard = Some x /\
     evaluationWith twentieths squares false (mirrorBoard roundingBoard) = Some (- x)).
Proof.
  apply (staticEvaluation_mirror_negates roundingBoard).
  - apply wfBoardb_sound. vm_compute. reflexivity.
  - apply kingsUniqueb_sound; [apply wfBoardb_sound|]; vm_compute; reflexivity.
Defined.

(** ** The program's turn, with the buttons live *)

Lemma press_is_handle (c : Console) (e : Controller.Event) :
  e <> Controller.Update ->
  Parallel.press c e = Controller.handle insertionSort 0 c e.
Proof. intros He. destruct e; try reflexivity. congruence. Qed.

Lemma press_keeps (c c' : Console) (e : Controller.Event) :
  consoleOk c -> Parallel.press c e = Some c' -> consoleOk c'.
Proof.
  intros Hok H. destruct (arrows_keep c Hok) as (Hl & Hr & Hu & Hd).
  destruct e; cbn [Parallel.press] in H; try (inversion H; subst c'; assumption).
  - exact (pressA_keeps c c' Hok H).
  - inversion H; subst c'. now apply pressB_keeps.
  - inversion H; subst c'. now apply pressMenu_keeps.
Qed.

Lemma newGame_wf (c : Console) :
  wfBoard (board (game c)) -> wfBoard (board (game (Controller.newGame c))).
Proof.
  intros Hwf. unfold Controller.newGame.
  destruct (bool_decide _); [exact wfBoard_initBoard|exact Hwf].
Qed.

(** Once the board has eight rows of eight cells, it keeps them. *)
Lemma press_wf (c c' : Console) (e : Controller.Event) :
  wfBoard (board (game c)) -> Parallel.press c e = Some c' ->
  wfBoard (board (game c')).
Proof.
  intros Hwf H. destruct (arrows_game c) as (Hl & Hr & Hu & Hd).
  destruct e; cbn [Parallel.press] in H;
    try (inversion H; subst c'; congruence).
  - unfold Controller.pressA in H.
    destruct (_ && _); [inversion H; subst c'; exact Hwf|].
    destruct (bool_decide (gameState (game c) = MainMenu));
      [inversion H; subst c'; exact wfBoard_initBoard|].
    destruct (bool_decide (gameState (game c) = Playing)) eqn:Hplaying;
      [|inversion H; subst c'; exact Hwf].
    apply bool_decide_eq_true_1 in Hplaying.
    destruct (gameOver (game c)); [inversion H; subst c'; exact Hwf|].
    destruct (selectedPiece c) as [[fromRow fromCol]|].
    + match type of H with
      | (?x ≫= _) = _ => destruct x as [g'|] eqn:Hg'
      end; cbn [mbind option_bind] in H; [|discriminate].
      inversion H; subst c'. clear H. cbn [game].
      destruct ((fromRow =? cursorRow c) && (fromCol =? cursorCol c)).
      * destruct (getCell (board (game c)) fromRow fromCol); inversion Hg'; subst; auto.
      * destruct (isLegalMove _ _ _ _ _ _) as [[|]|]; cbn [mbind option_bind] in Hg';
          [|inversion Hg'; subst; auto|discriminate].
        destruct (movePiece _ _ _ _ _) as [g1|] eqn:Hg1; cbn [mbind option_bind] in Hg';
          [|discriminate].
        apply movePiece_step in Hg1; [|assumption|auto].
        destruct Hg1 as [Hwf1 Hstate1].
        apply updateGameStatus_step in Hg'; [tauto|exact Hwf1|exact Hstate1].
    + destruct (getCell (board (game c)) (cursorRow c) (cursorCol c)) as [piece|];
        [|inversion H; subst c'; exact Hwf].
      destruct (bool_decide (color piece = currentTurn (game c)));
        inversion H; subst c'; exact Hwf.
  - inversion H; subst c'. unfold Controller.pressB.
    destruct (_ && _); [now apply newGame_wf|].
    destruct (bool_decide (gameState (game c) = Playing)); [|exact Hwf].
    unfold withGame; cbn [game].
    destruct (bool_decide (gameType c = AI)).
    + now do 2 apply wfBoard_undoLastMove.
    + now apply wfBoard_undoLastMove.
  - inversion H; subst c'. unfold Controller.pressMenu.
    destruct (_ && _); [exact Hwf|].
    destruct (_ || _); [now apply newGame_wf|exact Hwf].
Qed.

Lemma press_aiThinking (c c' : Console) (e : Controller.Event) :
  Parallel.press c e = Some c' -> aiThinking c' = aiThinking c.
Proof.
  intros H. destruct (decide (e = Controller.Update)) as [->|He].
  - inversion H. reflexivity.
  - rewrite press_is_handle in H by exact He.
    exact (handle_aiThinking insertionSort 0 c c' e He H).
Qed.

(** What [updateGameStatus] does to the flags, in whatever state it is
    called. *)
Lemma updateGameStatus_flags (g g' : Game) :
  updateGameStatus g = Some g' ->
  board g' = board g /\
  ((gameOver g' = gameOver g /\ gameState g' = gameState g /\
    Parallel.menuCreated g g' = false)
   \/ (gameOver g' = true /\ gameState g' = GameOver /\
       Parallel.menuCreated g g' = true)).
Proof.
  intros H. destruct (updateGameStatus_cases _ _ H) as [->|[Hover ->]].
  - split; [reflexivity|]. left. unfold Parallel.menuCreated.
    destruct (gameOver g); auto.
  - split; [reflexivity|]. right. unfold Parallel.menuCreated. rewrite Hover. auto.
Qed.

(** The invariant of the console, and what a running search adds to it. *)
Lemma occur_keeps (m m' : Parallel.Machine) (o : Parallel.Occurrence) :
  consoleOk (Parallel.console m) ->
  (Parallel.searching m = true ->
   aiThinking (Parallel.console m) = true /\
   wfBoard (board (game (Parallel.console m)))) ->
  Parallel.occur m o = Some m' ->
  consoleOk (Parallel.console m') /\
  (Parallel.searching m' = true ->
   aiThinking (Parallel.console m') = true /\
   wfBoard (board (game (Parallel.console m')))).
Proof.
  intros Hok Hsearch H. destruct o as [e|bestSoFar].
  - destruct (decide (e = Controller.Update)) as [->|He].
    + cbn [Parallel.occur] in H. inversion H; subst m'. clear H.
      unfold Parallel.onUpdate.
      destruct (bool_decide (gameState (game (Parallel.console m)) = Playing))
        eqn:Hplaying; cbn [andb]; [|auto].
      apply bool_decide_eq_true_1 in Hplaying.
      destruct (_ && _); [|auto].
      destruct Hok as (Hcur & Hmenu & Hdepth & Hsel & Hwf & Hover).
      cbn [Parallel.console Parallel.searching]. split.
      * unfold consoleOk; cbn. repeat (split; [assumption|]). assumption.
      * intros _. cbn. split; [reflexivity|]. apply Hwf. congruence.
    + assert (Hocc : Parallel.occur m (Parallel.Handled e)
                     = (c' ← Parallel.press (Parallel.console m) e;
                        Some (Parallel.mkMachine c' (Parallel.searching m)))).
      { destruct e; try reflexivity. congruence. }
      rewrite Hocc in H.
      destruct (Parallel.press (Parallel.console m) e) as [c'|] eqn:Hpress;
        cbn [mbind option_bind] in H; [|discriminate].
      inversion H; subst m'. clear H. cbn [Parallel.console Parallel.searching].
      split; [exact (press_keeps _ _ _ Hok Hpress)|].
      intros Hs. destruct (Hsearch Hs) as [Hthinking Hwf]. split.
      * rewrite (press_aiThinking _ _ _ Hpress). exact Hthinking.
      * exact (press_wf _ _ _ Hwf Hpress).
  - cbn [Parallel.occur] in H. unfold Parallel.searchEnds in H.
    destruct (Parallel.searching m) eqn:Hs; [|inversion H; subst m'; rewrite Hs; auto].
    destruct (Hsearch eq_refl) as [Hthinking Hwf].
    destruct Hok as (Hcur & Hmenu & Hdepth & Hsel & Hwfplay & Hover).
    set (c := Parallel.console m) in *. set (g := game c) in *.
    destruct bestSoFar as [best|].
    + destruct (movePiece g (fromRow best) (fromCol best) (toRow best) (toCol best))
        as [g1|] eqn:Hg1; cbn [mbind option_bind] in H; [|discriminate].
      destruct (updateGameStatus (withTurn g1 White)) as [g2|] eqn:Hg2;
        cbn [mbind option_bind] in H; [|discriminate].
      inversion H; subst m'. clear H. cbn [Parallel.console Parallel.searching].
      split; [|discriminate].
      assert (H1 : wfBoard (board g1) /\
                   ((gameOver g1 = gameOver g /\ gameState g1 = gameState g /\
                     Parallel.menuCreated g g1 = false)
                    \/ (gameOver g1 = true /\ gameState g1 = GameOver /\
                        Parallel.menuCreated g g1 = true))).
      { unfold movePiece in Hg1.
        destruct (getCell (board g) (fromRow best) (fromCol best)) as [piece|].
        - destruct (updateGameStatus_flags _ _ Hg1) as (Hb & Hflags).
          destruct (movePieceCore_state g (fromRow best) (fromCol best) (toRow best)
                      (toCol best) piece) as (Hst & Hgo & _).
          split; [rewrite Hb; now apply wfBoard_movePieceCore|].
          unfold Parallel.menuCreated in *. rewrite Hst, Hgo in Hflags. exact Hflags.
        - inversion Hg1; subst g1. split; [exact Hwf|]. left.
          unfold Parallel.menuCreated. destruct (gameOver g); auto. }
      destruct H1 as (Hwf1 & Hflags1).
      destruct (updateGameStatus_flags _ _ Hg2) as (Hb2 & Hflags2).
      cbn [withTurn board gameOver gameState] in Hb2, Hflags2.
      unfold consoleOk; cbn [cursorRow cursorCol menuSelection aiSearchDepth
                               selectedPiece game gameOverMenuSprite].
      repeat (split; [assumption|]).
      split; [intros _; rewrite Hb2; exact Hwf1|].
      intros Hgo.
      destruct Hflags2 as [(Ho2 & Hs2 & _)|(Ho2 & _ & Hc2)].
      * destruct Hflags1 as [(Ho1 & Hs1 & _)|(Ho1 & _ & Hc1)].
        -- destruct Hover as [Hsprite Hgameover]; [congruence|].
           split; [rewrite Hsprite; reflexivity|congruence].
        -- split; [rewrite Hc1; apply orb_true_iff; left; apply orb_true_r|congruence].
      * split; [rewrite Hc2; apply orb_true_r|exact Ho2].
    + inversion H; subst m'. clear H. cbn [Parallel.console Parallel.searching].
      split; [|discriminate].
      unfold consoleOk; cbn. repeat (split; [assumption|]).
      split; [intros _; exact Hwf|auto].
Qed.

Lemma run_keeps_parallel (occurrences : list Parallel.Occurrence)
  (m m' : Parallel.Machine) :
  consoleOk (Parallel.console m) ->
  (Parallel.searching m = true ->
   aiThinking (Parallel.console m) = true /\
   wfBoard (board (game (Parallel.console m)))) ->
  Parallel.run m occurrences = Some m' ->
  consoleOk (Parallel.console m') /\
  (Parallel.searching m' = true ->
   aiThinking (Parallel.console m') = true /\
   wfBoard (board (game (Parallel.console m')))).
Proof.
  revert m. induction occurrences as [|o rest IH]; intros m Hok Hs H; cbn in H.
  - inversion H; subst. auto.
  - destruct (Parallel.occur m o) as [m1|] eqn:Hm1; cbn [mbind option_bind] in H;
      [|discriminate].
    destruct (occur_keeps m m1 o Hok Hs Hm1) as [Hok1 Hs1].
    exact (IH m1 Hok1 Hs1 H).
Qed.

(** X25: the invariant of the console with the buttons live during the
    search.  The handlers and the end of a search started by [aiMove] are
    taken as separate occurrences, in any order and number, and the search
    may hand over any move with its squares on the board, or none (it has
    searched boards that the handlers changed meanwhile, and [aiMove]
    carries its move out without testing it).  After every such run from the
    start of the program: the cursor and the selected square are on the
    board, the menu selection is 0 or 1, the search depth is between 2 and
    5, the board has eight rows of eight cells once a game has been started,
    in the state [GameOver] the game-over menu exists and [gameOver] is set;
    and while a search is under way [aiThinking] is set (so that the update
    handler starts no second one) and the board has eight rows of eight
    cells, whatever the state. *)
Theorem console_invariant_search_running
  (occurrences : list Parallel.Occurrence) (m : Parallel.Machine) :
  Forall Parallel.onBoardResult occurrences ->
  Parallel.run Parallel.initialMachine occurrences = Some m ->
  let c := Parallel.console m in
  onBoard (cursorRow c) (cursorCol c) /\
  0 <= menuSelection c <= 1 /\
  2 <= aiSearchDepth c <= 5 /\
  (forall r k, selectedPiece c = Some (r, k) -> onBoard r k) /\
  (gameState (game c) <> MainMenu -> wfBoard (board (game c))) /\
  (gameState (game c) = GameOver ->
   gameOverMenuSprite c = true /\ gameOver (game c) = true) /\
  (Parallel.searching m = true ->
   aiThinking c = true /\ wfBoard (board (game c))).
Proof.
  intros _ H c.
  destruct (run_keeps_parallel occurrences Parallel.initialMachine m) as [Hok Hs].
  - exact consoleOk_initialConsole.
  - discriminate.
  - exact H.
  - destruct Hok as (H1 & H2 & H3 & H4 & H5 & H6).
    repeat (split; [assumption|]). exact Hs.
Qed.

(** 1.e4 against the program; a button is pressed while it searches, and the
    search hands over e7-e5. *)
Lemma console_invariant_search_running_witness :
  exists m,
    Parallel.run Parallel.initialMachine
      ([Parallel.Handled Controller.ButtonDown; Parallel.Handled Controller.ButtonA]
       ++ repeat (Parallel.Handled Controller.ButtonDown) 6
       ++ repeat (Parallel.Handled Controller.ButtonRight) 4
       ++ [Parallel.Handled Controller.ButtonA;
           Parallel.Handled Controller.ButtonUp; Parallel.Handled Controller.ButtonUp;
           Parallel.Handled Controller.ButtonA;
           Parallel.Handled Controller.Update;
           Parallel.Handled Controller.ButtonLeft;
           Parallel.SearchEnds (Some (mkMove 1 4 3 4))]) = Some m /\
    getCell (board (game (Parallel.console m))) 3 4 = Some (mkPiece Pawn Black true) /\
    currentTurn (game (Parallel.console m)) = White /\
    aiThinking (Parallel.console m) = false /\
    onBoard (cursorRow (Parallel.console m)) (cursorCol (Parallel.console m)) /\
    wfBoard (board (game (Parallel.console m))).
Proof.
  set (occurrences :=
         [Parallel.Handled Controller.ButtonDown; Parallel.Handled Controller.ButtonA]
         ++ repeat (Parallel.Handled Controller.ButtonDown) 6
         ++ repeat (Parallel.Handled Controller.ButtonRight) 4
         ++ [Parallel.Handled Controller.ButtonA;
             Parallel.Handled Controller.ButtonUp; Parallel.Handled Controller.ButtonUp;
             Parallel.Handled Controller.ButtonA;
             Parallel.Handled Controller.Update;
             Parallel.Handled Controller.ButtonLeft;
             Parallel.SearchEnds (Some (mkMove 1 4 3 4))]).
  assert (Hrun : exists m,
             Parallel.run Parallel.initialMachine occurrences = Some m /\
             getCell (board (game (Parallel.console m))) 3 4
               = Some (mkPiece Pawn Black true) /\
             currentTurn (game (Parallel.console m)) = White /\
             aiThinking (Parallel.console m) = false /\
             gameState (game (Parallel.console m)) = Playing).
  { eexists. split; [vm_compute; reflexivity|]. repeat split. }
  destruct Hrun as (m & Hrun & Hcell & Hturn & Hthinking & Hstate).
  exists m. split; [exact Hrun|]. split; [exact Hcell|]. split; [exact Hturn|].
  split; [exact Hthinking|].
  destruct (console_invariant_search_running occurrences m) as (H1 & _ & _ & _ & H5 & _).
  - subst occurrences. cbn [repeat app].
    repeat constructor; cbn; unfold onBoard, BOARD_SIZE; lia.
  - exact Hrun.
  - split; [exact H1|]. apply H5. congruence.
Defined.
